(** * cdson: the DSON parser and its value model

    A shallow embedding of [src/sniff.c] (the parser that reports
    recoverable errors) and of the dictionary lookup of [cdson.c],
    followed by the properties the specification states about them.

    Conventions of the embedding:
    - the input buffer is a list of bytes ([ascii]); a pointer into it is
      the offset from its first byte, and a byte past the end of the list
      reads as NUL (the parser never reads past [input[length]], which
      [dson_parse] requires to be NUL);
    - [double] is IEEE binary64, Rocq's primitive [float];
    - the C heap is a set of live blocks plus a log of invalid frees;
    - a function that returns [char *] (NULL or an error message) returns a
      [result]; the mutated [context] (and heap) is returned beside it. *)

From Stdlib Require Import List Ascii String ZArith Lia Bool Arith Floats.
From Stdlib Require Import Permutation.
Import ListNotations.

Set Implicit Arguments.
#[local] Set Warnings "-register-all".

(** ** Bytes and the C library functions used on them *)

Definition NUL : ascii := "000"%char.
Definition code (ch : ascii) : nat := nat_of_ascii ch.

(** [ch >= '0' && ch <= '7']; a byte above 127 fails the test whether
    [char] is signed or not. *)
Definition is_octal (ch : ascii) : bool :=
  (code "0" <=? code ch) && (code ch <=? code "7").

(** The string literal [" \t\n\r\v\f"]. *)
Definition whitespace : list ascii :=
  [" "; "009"; "010"; "013"; "011"; "012"]%char.

(** [strchr(str, ch) != NULL]: the terminator of [str] matches NUL. *)
Definition strchr (str : list ascii) (ch : ascii) : bool :=
  existsb (Ascii.eqb ch) str || Ascii.eqb ch NUL.

Definition tolower (ch : ascii) : ascii :=
  if (code "A" <=? code ch) && (code ch <=? code "Z")
  then ascii_of_nat (code ch + 32) else ch.

(** The value of the digit [ch - '0'], converted to double. *)
Definition digit (ch : ascii) : float :=
  PrimFloat.of_uint63 (Uint63.of_Z (Z.of_nat (code ch) - Z.of_nat (code "0"))).

(** The integer value of an integer-valued double ([None] for NaN and the
    infinities); a fraction is truncated toward zero. *)
Definition Z_of_double (x : float) : option Z :=
  match Prim2SF x with
  | S754_zero _ => Some 0%Z
  | S754_finite sgn m e =>
      let mag := if (0 <=? e)%Z then (Z.pos m * 2 ^ e)%Z
                 else (Z.pos m / 2 ^ (- e))%Z in
      Some (if sgn then (- mag)%Z else mag)
  | _ => None
  end.

(** The C library's [pow], at its one call site [pow(010, power)] with an
    integer-valued [power]: 8^power = 2^(3 * power) is a power of two, so
    the result is exact, or rounds to infinity or to zero out of range. *)
Definition pow8 (power : float) : float :=
  match Z_of_double power with
  | Some k => Z.ldexp 1%float (3 * k)
  | None =>
      if PrimFloat.ltb power 0%float then 0%float
      else if PrimFloat.ltb 0%float power then infinity
      else nan
  end.

(** The conversion [(uint32_t)acc]; C defines it only for values in range,
    other values wrap here. *)
Definition uint32_of_double (x : float) : Z :=
  match Z_of_double x with
  | Some k => (k mod 2 ^ 32)%Z
  | None => 0%Z
  end.

(** ** Errors and results *)

(** The format strings handed to the [ERROR] macro, one constructor each;
    [%c] arguments are kept, [%.Ns] excerpts of the input are not. *)
Inductive message : Type :=
| NotEnoughForEmpty          (* not enough characters to produce empty *)
| ExpectedEmpty              (* expected empty, got ... *)
| EndOfInputInBool           (* end of input while producing bool *)
| ExpectedYes (got : ascii)  (* expected yes, got ye%c *)
| ExpectedBool               (* expected bool, got ... *)
| MalformedUnicodeEscape     (* malformed unicode escape *)
| ExpectedStringGotEnd       (* expected string, got end of input *)
| MissingOpeningQuote        (* malformed string - missing opening quote *)
| MissingClosingQuote        (* missing closing delimiter on string *)
| UnrecognizedOrForbiddenEscape (got : ascii)
                             (* unrecognized or forbidden escape: \%c *)
| BadOctalCharacter (got : ascii)   (* bad octal character: '%c' *)
| EndOfInputInNumber         (* end of input while parsing number *)
| ExpectedVery               (* tried to parse very, got ... instead *)
| ExpectedArrayGotEnd        (* expected array, got end of input *)
| ExpectedSo                 (* malformed array: expected so, got ... *)
| EndOfInputInArray          (* end of input while parsing array *)
| ExpectedAlso               (* tried to parse also but got ... *)
| ExpectedMany               (* expected many, got ... *)
| ExpectedDictGotEnd         (* expected dict, but got end of input *)
| ExpectedSuch               (* expected such, got ... *)
| EndOfInputInDict           (* end of input while reading dict *)
| ExpectedIs                 (* expected is, got ... *)
| EndOfInputBeforeWow        (* end of input while looking for closing wow *)
| ExpectedWow                (* expected wow, got ... *)
| UnknownValueType.          (* unable to determine value type *)

(** An error message as returned to the caller: the [ERROR] macro prefixes
    the offset of the cursor, [dson_parse]'s own check returns a bare
    string. *)
Inductive error : Type :=
| AtInputChar (pos : Z) (msg : message)  (* at input char #pos: msg *)
| NotNulTerminated.                      (* input was not NUL-terminated *)

(** Behaviour C leaves undefined. *)
Inductive undefined : Type :=
| NullDereference
| HeapOverflow (written : list ascii) (capacity : nat).

Inductive result (A : Type) : Type :=
| Ok (a : A)
| Err (e : error)
| Undefined (u : undefined)
| OutOfFuel.

Arguments Ok {A} a.
Arguments Err {A} e.
Arguments Undefined {A} u.
Arguments OutOfFuel {A}.

(** ** The cursor *)

Record context : Type := mkContext {
  s : nat;            (* const char *s *)
  s_end : nat;        (* const char *s_end *)
  beginning : nat;    (* const char *beginning *)
  unsafe : bool
}.

Definition advance (c : context) (n : nat) : context :=
  mkContext (s c + n) (s_end c) (beginning c) (unsafe c).

(** [ERROR(fmt, ...)]: the message with the cursor's offset. *)
Definition ERROR {A : Type} (c : context) (msg : message) : result A :=
  Err (AtInputChar (Z.of_nat (s c) - Z.of_nat (beginning c)) msg).

(** ** The heap and the value tree *)

Definition ptr : Type := nat.

(** The allocator keeps the blocks that are live, the next fresh block and
    the pointers handed to [free] that were not live (a double or wild
    free). *)
Record heap : Type := mkHeap {
  live : list ptr;
  next : ptr;
  invalid_frees : list ptr
}.

(** Modelled from the spec: [allocation.h] ([CALLOC], [RESIZE_ARRAY],
    [angrily_waste_memory]) is not among the sources. The specification
    counts the allocations a parse retains, so [CALLOC] takes a fresh block
    and never fails, [RESIZE_ARRAY] keeps the identity of the block it
    resizes (it does not touch the heap of this model), and the message
    built by [angrily_waste_memory] is the returned [error], owned by the
    caller. *)
Definition CALLOC (h : heap) : ptr * heap :=
  (next h, mkHeap (next h :: live h) (S (next h)) (invalid_frees h)).

Definition free (p : ptr) (h : heap) : heap :=
  if in_dec Nat.eq_dec p (live h)
  then mkHeap (remove Nat.eq_dec p (live h)) (next h) (invalid_frees h)
  else mkHeap (live h) (next h) (p :: invalid_frees h).

(** [dson_value], with the block each pointer of the C structure owns:
    [self] is the [dson_value] itself; a string owns its buffer, an array
    its NULL-terminated vector of elements, a dictionary its [dson_dict]
    and the two parallel NULL-terminated vectors [keys] and [values], whose
    entries are kept together here (the key's buffer, its bytes, the
    value). *)
Inductive dson_value : Type :=
| DSON_STRING (self : ptr) (sp : ptr) (bytes : list ascii)
| DSON_DOUBLE (self : ptr) (n : float)
| DSON_BOOL (self : ptr) (b : bool)
| DSON_NONE (self : ptr)
| DSON_ARRAY (self : ptr) (array : ptr) (elts : list dson_value)
| DSON_DICT (self : ptr) (dict keys values : ptr)
    (entries : list (ptr * list ascii * dson_value)).

(** The body of [dson_free] on a value that is there, with the loops of
    [array_free] and [dict_free]. *)
Fixpoint free_value (v : dson_value) (h : heap) : heap :=
  match v with
  | DSON_STRING self sp _ => free self (free sp h)
  | DSON_DOUBLE self _ => free self h
  | DSON_BOOL self _ => free self h
  | DSON_NONE self => free self h
  | DSON_ARRAY self array elts =>
      let h :=
        (fix elements (vs : list dson_value) (h : heap) : heap :=
           match vs with
           | [] => h
           | v :: vs' => elements vs' (free_value v h)
           end) elts h in
      free self (free array h)
  | DSON_DICT self dict keys values entries =>
      let h :=
        (fix pairs (es : list (ptr * list ascii * dson_value)) (h : heap)
           : heap :=
           match es with
           | [] => h
           | (k, _, v) :: es' => pairs es' (free_value v (free k h))
           end) entries h in
      free self (free dict (free values (free keys h)))
  end.

(** [array_free(&array)]: the elements up to the first NULL, then the
    vector. *)
Definition array_free (array : ptr) (elts : list dson_value) (h : heap)
  : heap :=
  free array (fold_left (fun h v => free_value v h) elts h).

(** [dict_free(&dict)], which is also what the [BURY] macro of [p_dict]
    does with the entries stored so far. *)
Definition dict_free (dict keys values : ptr)
    (entries : list (ptr * list ascii * dson_value)) (h : heap) : heap :=
  free dict (free values (free keys
    (fold_left (fun h e => free_value (snd e) (free (fst (fst e)) h))
       entries h))).

(** [dson_free(v)] for [dson_value **v]: [None] is a NULL [v], [Some None]
    a handle that holds NULL. Returns what the handle holds afterwards. *)
Definition dson_free (v : option (option dson_value)) (h : heap)
  : result (option (option dson_value)) * heap :=
  match v with
  | None => (Ok None, h)
  | Some None => (Undefined NullDereference, h)
  | Some (Some value) => (Ok (Some None), free_value value h)
  end.

Section Parser.

Variable input : list ascii.

Definition char_at (p : nat) : ascii := nth p input NUL.

Definition peek (c : context) : ascii := char_at (s c).

(** Returns the old position, or [None] for NULL. *)
Definition p_chars (c : context) (n : nat) : option nat * context :=
  if s_end c <? s c + n then (None, c) else (Some (s c), advance c n).

Definition p_char (c : context) : option nat * context := p_chars c 1.

(** [strcmp(lit, p) != 0]: [p] must spell [lit] and then end. *)
Fixpoint strcmp (lit : list ascii) (p : nat) : bool :=
  match lit with
  | [] => negb (Ascii.eqb (char_at p) NUL)
  | x :: lit' => if Ascii.eqb (char_at p) x then strcmp lit' (S p) else true
  end.

(** [strncmp(p, lit, n) != 0], for a literal without NUL. *)
Fixpoint strncmp (p : nat) (lit : list ascii) (n : nat) : bool :=
  match n, lit with
  | 0, _ => false
  | S n', x :: lit' =>
      if Ascii.eqb (char_at p) x then strncmp (S p) lit' n' else true
  | S _, [] => negb (Ascii.eqb (char_at p) NUL)
  end.

(** [strncasecmp(p, lit, n) != 0]. *)
Fixpoint strncasecmp (p : nat) (lit : list ascii) (n : nat) : bool :=
  match n, lit with
  | 0, _ => false
  | S n', x :: lit' =>
      if Ascii.eqb (tolower (char_at p)) (tolower x)
      then strncasecmp (S p) lit' n' else true
  | S _, [] => negb (Ascii.eqb (char_at p) NUL)
  end.

(** The loop of [maybe_p_whitespace]; a pass consumes one byte, so
    [s_end - s] passes reach the terminator. This is the loop of the code
    where the byte at [s_end] is NUL, as [dson_parse] requires: with a
    whitespace byte there, [p_char] fails without moving the cursor and
    the [while (01)] of the code does not end. *)
Fixpoint whitespace_loop (fuel : nat) (c : context) : context :=
  match fuel with
  | 0 => c
  | S fuel' =>
      let pivot := peek c in
      if Ascii.eqb pivot NUL || negb (strchr whitespace pivot) then c
      else whitespace_loop fuel' (snd (p_char c))
  end.

Definition maybe_p_whitespace (c : context) : context :=
  whitespace_loop (s_end c - s c) c.

Definition p_empty (c : context) : result unit * context :=
  let empty := list_ascii_of_string "empty" in
  match p_chars c (List.length empty) with
  | (None, c) => (ERROR c NotEnoughForEmpty, c)
  | (Some sp, c) =>
      if strcmp empty sp then (ERROR c ExpectedEmpty, c)
      else (Ok tt, c)
  end.

Definition p_bool (c : context) : result bool * context :=
  match p_chars c 2 with
  | (None, c) => (ERROR c EndOfInputInBool, c)
  | (Some sp, c) =>
      if Ascii.eqb (char_at sp) "y" && Ascii.eqb (char_at (sp + 1)) "e" then
        match p_char c with
        | (None, c) => (ERROR c EndOfInputInBool, c)
        | (Some sp, c) =>
            if negb (Ascii.eqb (char_at sp) "s")
            then (ERROR c (ExpectedYes (char_at sp)), c)
            else (Ok true, c)
        end
      else if Ascii.eqb (char_at sp) "n" && Ascii.eqb (char_at (sp + 1)) "o"
      then (Ok false, c)
      else (ERROR c ExpectedBool, c)
  end.

(** The loop of [p_octal], with the accumulator [n]: [s_end - s] passes
    reach the terminator. This is the loop of the code where the byte at
    [s_end] is NUL, as [dson_parse] requires: with an octal digit there,
    [p_char] fails without moving the cursor and the loop of the code does
    not end. *)
Fixpoint octal_loop (fuel : nat) (n : float) (c : context) : float * context :=
  match fuel with
  | 0 => (n, c)
  | S fuel' =>
      if is_octal (peek c) then
        let n := PrimFloat.mul n 8%float in
        let n := PrimFloat.add n (digit (peek c)) in
        octal_loop fuel' n (snd (p_char c))
      else (n, c)
  end.

(** [p_octal(c, &out)] returns the new [*out]: the value of the run,
    accumulated from zero whatever [*out] held. *)
Definition p_octal (c : context) (out : float) : float * context :=
  octal_loop (s_end c - s c) 0%float c.

(** ** UTF-8 *)

(** The thresholds are written in octal in the source: 0200, 04000,
    0200000 and 04200000. *)
Definition bytes_needed (point : Z) : Z :=
  if (point <? 0x80)%Z then 1
  else if (point <? 0x800)%Z then 2
  else if (point <? 0x10000)%Z then 3
  else if (point <? 0x110000)%Z then 4
  else 0.

(** A value stored into a [char]. *)
Definition byte (z : Z) : ascii := ascii_of_N (Z.to_N (z mod 256)).

(** [write_utf8(point, buf)] returns the length and the bytes stored from
    [buf[0]] on. *)
Definition write_utf8 (point : Z) : Z * list ascii :=
  let len := bytes_needed point in
  if (len =? 4)%Z then
    let b3 := Z.lor 0x80 (Z.land point 0x3F) in
    let point := Z.shiftr point 6 in
    let b2 := Z.lor 0x80 (Z.land point 0x3F) in
    let point := Z.shiftr point 6 in
    let b1 := Z.lor 0x80 (Z.land point 0x3F) in
    let point := Z.shiftr point 6 in
    let b0 := Z.lor 0xF0 (Z.land point 0x07) in
    (len, [byte b0; byte b1; byte b2; byte b3])
  else if (len =? 3)%Z then
    let b2 := Z.lor 0x80 (Z.land point 0x3F) in
    let point := Z.shiftr point 6 in
    let b1 := Z.lor 0x80 (Z.land point 0x3F) in
    let point := Z.shiftr point 6 in
    let b0 := Z.lor 0xE0 (Z.land point 0x0F) in
    (len, [byte b0; byte b1; byte b2])
  else if (len =? 2)%Z then
    let b1 := Z.lor 0x80 (Z.land point 0x3F) in
    let point := Z.shiftr point 6 in
    let b0 := Z.lor 0xC0 (Z.land point 0x1F) in
    (len, [byte b0; byte b1])
  else if (len =? 1)%Z then
    (len, [byte (Z.land point 0x7F)])
  else (len, []).

(** The loop of [handle_escaped]: [acc *= 010; p_octal(c, &acc);], six
    times. *)
Fixpoint handle_escaped_loop (k : nat) (acc : float) (c : context)
  : float * context :=
  match k with
  | 0 => (acc, c)
  | S k' =>
      let acc := PrimFloat.mul acc 8%float in
      let '(acc, c) := p_octal c acc in
      handle_escaped_loop k' acc c
  end.

(** [handle_escaped(c, buf, &i)] returns the bytes stored at [buf]; [*i]
    grows by their number. The digits are read at the cursor [c]. *)
Definition handle_escaped (c : context) : result (list ascii) * context :=
  let '(acc, c) := handle_escaped_loop 6 0%float c in
  let '(len, buf) := write_utf8 (uint32_of_double acc) in
  if (len =? 0)%Z then (ERROR c MalformedUnicodeEscape, c)
  else (Ok buf, c).

(** ** Strings *)

Definition dquote : ascii := "034"%char.
Definition backslash : ascii := "092"%char.

(** The first loop of [p_string]: finds the closing quote. Returns [end]
    and [num_escaped]; a pass consumes at least one byte. *)
Fixpoint string_scan (fuel : nat) (c : context) (num_escaped : nat)
  : result (nat * nat) * context :=
  match fuel with
  | 0 => (OutOfFuel, c)
  | S fuel' =>
      match p_char c with
      | (None, c) => (ERROR c MissingClosingQuote, c)
      | (Some e, c) =>
          if Ascii.eqb (char_at e) dquote then (Ok (e, num_escaped), c)
          else if Ascii.eqb (char_at e) backslash then
            let num_escaped := S num_escaped in
            match p_char c with
            | (None, c) => (ERROR c MissingClosingQuote, c)
            | (Some e, c) =>
                if Ascii.eqb (char_at e) "u" then
                  match p_chars c 6 with
                  | (None, c) => (ERROR c MissingClosingQuote, c)
                  | (Some e, c) => string_scan fuel' c (num_escaped + 2)
                  end
                else string_scan fuel' c num_escaped
            end
          else string_scan fuel' c num_escaped
      end
  end.

(** A store of [bytes] at [out + i], where [i] is the number of bytes
    stored so far and [length] the size of the allocation. *)
Definition store (length : nat) (out bytes : list ascii)
  : result (list ascii) :=
  if List.length out + List.length bytes <=? length then Ok (out ++ bytes)
  else Undefined (HeapOverflow (out ++ bytes) length).

(** The second loop of [p_string], [for (p = start; p < end; p++)]: decodes
    the bytes between the quotes into [out]. The [free(out)] of its error
    exits is done by [p_string]. *)
Fixpoint string_decode (fuel : nat) (c : context) (p e length : nat)
    (out : list ascii) : result (list ascii) * context :=
  if e <=? p then (Ok out, c)
  else
    match fuel with
    | 0 => (OutOfFuel, c)
    | S fuel' =>
        if negb (Ascii.eqb (char_at p) backslash) then
          match store length out [char_at p] with
          | Ok out => string_decode fuel' c (S p) e length out
          | r => (r, c)
          end
        else
          let p := S p in
          let ch := char_at p in
          let put (x : ascii) :=
            match store length out [x] with
            | Ok out => string_decode fuel' c (S p) e length out
            | r => (r, c)
            end in
          if Ascii.eqb ch dquote || Ascii.eqb ch backslash || Ascii.eqb ch "/"
          then put ch
          else if Ascii.eqb ch "b" && unsafe c then put "008"%char
          else if Ascii.eqb ch "f" then put "012"%char
          else if Ascii.eqb ch "n" then put "010"%char
          else if Ascii.eqb ch "r" then put "013"%char
          else if Ascii.eqb ch "t" then put "009"%char
          else if Ascii.eqb ch "u" && unsafe c then
            match handle_escaped c with
            | (Ok buf, c) =>
                match store length out buf with
                | Ok out => string_decode fuel' c (S p) e length out
                | r => (r, c)
                end
            | (Err err, c) => (Err err, c)
            | (Undefined u, c) => (Undefined u, c)
            | (OutOfFuel, c) => (OutOfFuel, c)
            end
          else (ERROR c (UnrecognizedOrForbiddenEscape ch), c)
    end.

(** ** Numbers *)

(** The loop over the fractional digits of [p_double]: [s_end - s] passes
    reach the terminator. This is the loop of the code where the byte at
    [s_end] is NUL, as [dson_parse] requires: with an octal digit there,
    the code dereferences the NULL that [p_char] returns. *)
Fixpoint fraction_loop (fuel : nat) (n divisor : float) (c : context)
  : float * context :=
  match fuel with
  | 0 => (n, c)
  | S fuel' =>
      if is_octal (peek c) then
        let n := PrimFloat.add n (PrimFloat.div (digit (peek c)) divisor) in
        let divisor := PrimFloat.mul divisor 2%float in
        fraction_loop fuel' n divisor (snd (p_char c))
      else (n, c)
  end.

(** [p_double] in its four parts: the sign, the integer part, the optional
    fraction and the optional exponent. *)

(** [WOW; if (peek(c) == '0') p_char(c); else p_octal(c, &n);] *)
Definition p_double_integer (c : context) : float * context :=
  let c := maybe_p_whitespace c in
  if Ascii.eqb (peek c) "0" then (0%float, snd (p_char c))
  else p_octal c 0%float.

(** The block [if (peek(c) == '.') { ... }], from [n] to the new [n]. *)
Definition p_double_fraction (n : float) (c : context)
  : result float * context :=
  if Ascii.eqb (peek c) "." then
    let c := snd (p_char c) in
    if negb (is_octal (peek c))
    then (ERROR c (BadOctalCharacter (peek c)), c)
    else
      let '(n, c) := fraction_loop (s_end c - s c) n 8%float c in
      (Ok n, maybe_p_whitespace c)
  else (Ok n, c).

(** The block [if (peek(c) == 'v' || peek(c) == 'V') { ... }], from [n] to
    the new [n]. *)
Definition p_double_exponent (n : float) (c : context)
  : result float * context :=
  if Ascii.eqb (peek c) "v" || Ascii.eqb (peek c) "V" then
    match p_chars c 4 with
    | (None, c) => (ERROR c EndOfInputInNumber, c)
    | (Some sp, c) =>
        if strncasecmp sp (list_ascii_of_string "very") 4
        then (ERROR c ExpectedVery, c)
        else
          let powneg := Ascii.eqb (peek c) "-" in
          let c :=
            if Ascii.eqb (peek c) "+" then snd (p_char c)
            else if powneg then snd (p_char c)
            else c in
          let c := maybe_p_whitespace c in
          if negb (is_octal (peek c))
          then (ERROR c (BadOctalCharacter (peek c)), c)
          else
            let '(power, c) := p_octal c 0%float in
            let power := if powneg then PrimFloat.opp power else power in
            (Ok (PrimFloat.mul n (pow8 power)), c)
    end
  else (Ok n, c).

Definition p_double (c : context) : result float * context :=
  let isneg := Ascii.eqb (peek c) "-" in
  let c := if isneg then snd (p_char c) else c in
  let '(n, c) := p_double_integer c in
  let c := maybe_p_whitespace c in
  match p_double_fraction n c with
  | (Ok n, c) =>
      match p_double_exponent n c with
      | (Ok n, c) => (Ok (if isneg then PrimFloat.opp n else n), c)
      | (r, c) => (r, c)
      end
  | (r, c) => (r, c)
  end.

Definition p_string (c : context) (h : heap)
  : result (ptr * list ascii) * context * heap :=
  match p_char c with
  | (None, c) => (ERROR c ExpectedStringGotEnd, c, h)
  | (Some start, c) =>
      if negb (Ascii.eqb (char_at start) dquote)
      then (ERROR c MissingOpeningQuote, c, h)
      else
        match string_scan (S (s_end c - s c)) c 0 with
        | (Ok (e, num_escaped), c) =>
            let start := S start in
            let length := e - start - num_escaped + 1 in
            let '(out, h) := CALLOC h in
            match string_decode (e - start) c start e length [] with
            | (Ok bytes, c) =>
                match store length bytes [NUL] with
                | Ok _ => (Ok (out, bytes), c, h)
                | Err err => (Err err, c, h)
                | Undefined u => (Undefined u, c, h)
                | OutOfFuel => (OutOfFuel, c, h)
                end
            | (Err err, c) => (Err err, c, free out h)
            | (Undefined u, c) => (Undefined u, c, h)
            | (OutOfFuel, c) => (OutOfFuel, c, h)
            end
        | (Err err, c) => (Err err, c, h)
        | (Undefined u, c) => (Undefined u, c, h)
        | (OutOfFuel, c) => (OutOfFuel, c, h)
        end
  end.

(** ** Values, arrays and dictionaries *)

(** The end of [p_value] for the parser of one kind of value:
    [*out = ret] on success, [free(ret)] on failure. *)
Definition p_value_return {A : Type} (ret : ptr) (mk : A -> dson_value)
    (r : result A * context * heap) : result dson_value * context * heap :=
  match r with
  | (Ok a, c, h) => (Ok (mk a), c, h)
  | (Err err, c, h) => (Err err, c, free ret h)
  | (Undefined u, c, h) => (Undefined u, c, h)
  | (OutOfFuel, c, h) => (OutOfFuel, c, h)
  end.

Definition is_separator (pivot : ascii) : bool :=
  Ascii.eqb pivot "," || Ascii.eqb pivot "." || Ascii.eqb pivot "!"
  || Ascii.eqb pivot "?".

(** [p_value], [p_array] and [p_dict] call each other; [fuel] bounds the
    depth of the calls and the passes of the two loops. [p_array_loop] is
    the [while (01)] of [p_array] and carries the elements stored so far;
    [p_dict_loop] is the [while (1)] of [p_dict] and carries the entries
    stored so far. *)
Fixpoint p_value (fuel : nat) (c : context) (h : heap) {struct fuel}
  : result dson_value * context * heap :=
  match fuel with
  | 0 => (OutOfFuel, c, h)
  | S fuel' =>
      let '(ret, h) := CALLOC h in
      let pivot := peek c in
      if Ascii.eqb pivot dquote then
        p_value_return ret (fun r => DSON_STRING ret (fst r) (snd r))
          (p_string c h)
      else if Ascii.eqb pivot "-" || is_octal pivot then
        let '(r, c) := p_double c in
        p_value_return ret (DSON_DOUBLE ret) (r, c, h)
      else if Ascii.eqb pivot "y" || Ascii.eqb pivot "n" then
        let '(r, c) := p_bool c in
        p_value_return ret (DSON_BOOL ret) (r, c, h)
      else if Ascii.eqb pivot "e" then
        let '(r, c) := p_empty c in
        p_value_return ret (fun _ => DSON_NONE ret) (r, c, h)
      else if Ascii.eqb pivot "s" then
        let pivot := char_at (s c + 1) in
        if Ascii.eqb pivot "o" then
          p_value_return ret (fun r => DSON_ARRAY ret (fst r) (snd r))
            (p_array fuel' c h)
        else if Ascii.eqb pivot "u" then
          p_value_return ret
            (fun r => let '(dict, keys, values, entries) := r in
                      DSON_DICT ret dict keys values entries)
            (p_dict fuel' c h)
        else (ERROR c UnknownValueType, c, free ret h)
      else (ERROR c UnknownValueType, c, free ret h)
  end

with p_array (fuel : nat) (c : context) (h : heap) {struct fuel}
  : result (ptr * list dson_value) * context * heap :=
  match fuel with
  | 0 => (OutOfFuel, c, h)
  | S fuel' =>
      let '(array, h) := CALLOC h in
      match p_chars c 2 with
      | (None, c) => (ERROR c ExpectedArrayGotEnd, c, h)
      | (Some sp, c) =>
          if strncmp sp (list_ascii_of_string "so") 2
          then (ERROR c ExpectedSo, c, h)
          else
            let c := maybe_p_whitespace c in
            let loop :=
              if negb (Ascii.eqb (peek c) "m")
              then p_array_loop fuel' c h array []
              else (Ok [], c, h) in
            match loop with
            | (Ok elts, c, h) =>
                match p_chars c 4 with
                | (None, c) =>
                    (ERROR c EndOfInputInArray, c, array_free array elts h)
                | (Some sp, c) =>
                    if strncmp sp (list_ascii_of_string "many") 4
                    then (ERROR c ExpectedMany, c, array_free array elts h)
                    else (Ok (array, elts), c, h)
                end
            | (Err err, c, h) => (Err err, c, h)
            | (Undefined u, c, h) => (Undefined u, c, h)
            | (OutOfFuel, c, h) => (OutOfFuel, c, h)
            end
      end
  end

with p_array_loop (fuel : nat) (c : context) (h : heap) (array : ptr)
    (elts : list dson_value) {struct fuel}
  : result (list dson_value) * context * heap :=
  match fuel with
  | 0 => (OutOfFuel, c, h)
  | S fuel' =>
      match p_value fuel' c h with
      | (Ok v, c, h) =>
          let elts := elts ++ [v] in
          let c := maybe_p_whitespace c in
          if negb (Ascii.eqb (peek c) "a") then (Ok elts, c, h)
          else
            match p_chars c 3 with
            | (None, c) =>
                (ERROR c EndOfInputInArray, c, array_free array elts h)
            | (Some sp, c) =>
                if negb (strncmp sp (list_ascii_of_string "and") 3) then
                  let c := maybe_p_whitespace c in
                  p_array_loop fuel' c h array elts
                else if strncmp sp (list_ascii_of_string "als") 3 then
                  (ERROR c ExpectedAlso, c, array_free array elts h)
                else
                  match p_char c with
                  | (None, c) =>
                      (ERROR c EndOfInputInArray, c, array_free array elts h)
                  | (Some sp, c) =>
                      if negb (Ascii.eqb (char_at sp) "o") then
                        (ERROR c ExpectedAlso, c, array_free array elts h)
                      else
                        let c := maybe_p_whitespace c in
                        p_array_loop fuel' c h array elts
                  end
            end
      | (Err err, c, h) => (Err err, c, array_free array elts h)
      | (Undefined u, c, h) => (Undefined u, c, h)
      | (OutOfFuel, c, h) => (OutOfFuel, c, h)
      end
  end

with p_dict (fuel : nat) (c : context) (h : heap) {struct fuel}
  : result (ptr * ptr * ptr * list (ptr * list ascii * dson_value))
    * context * heap :=
  match fuel with
  | 0 => (OutOfFuel, c, h)
  | S fuel' =>
      let '(keys, h) := CALLOC h in
      let '(values, h) := CALLOC h in
      let '(dict, h) := CALLOC h in
      match p_chars c 4 with
      | (None, c) =>
          (ERROR c ExpectedDictGotEnd, c, dict_free dict keys values [] h)
      | (Some sp, c) =>
          if strncmp sp (list_ascii_of_string "such") 4
          then (ERROR c ExpectedSuch, c, dict_free dict keys values [] h)
          else
            match p_dict_loop fuel' c h dict keys values [] with
            | (Ok entries, c, h) =>
                match p_chars c 3 with
                | (None, c) =>
                    (ERROR c EndOfInputBeforeWow, c,
                     dict_free dict keys values entries h)
                | (Some sp, c) =>
                    if strncmp sp (list_ascii_of_string "wow") 3
                    then (ERROR c ExpectedWow, c,
                          dict_free dict keys values entries h)
                    else (Ok (dict, keys, values, entries), c, h)
                end
            | (Err err, c, h) => (Err err, c, h)
            | (Undefined u, c, h) => (Undefined u, c, h)
            | (OutOfFuel, c, h) => (OutOfFuel, c, h)
            end
      end
  end

with p_dict_loop (fuel : nat) (c : context) (h : heap)
    (dict keys values : ptr)
    (entries : list (ptr * list ascii * dson_value)) {struct fuel}
  : result (list (ptr * list ascii * dson_value)) * context * heap :=
  match fuel with
  | 0 => (OutOfFuel, c, h)
  | S fuel' =>
      let c := maybe_p_whitespace c in
      match p_string c h with
      | (Ok (k, kbytes), c, h) =>
          let c := maybe_p_whitespace c in
          match p_chars c 2 with
          | (None, c) =>
              (* BURY: the key [k] is not among [keys] yet *)
              (ERROR c EndOfInputInDict, c,
               dict_free dict keys values entries h)
          | (Some sp, c) =>
              if strncmp sp (list_ascii_of_string "is") 2
              then (ERROR c ExpectedIs, c,
                    dict_free dict keys values entries h)
              else
                let c := maybe_p_whitespace c in
                match p_value fuel' c h with
                | (Ok v, c, h) =>
                    let entries := entries ++ [(k, kbytes, v)] in
                    let c := maybe_p_whitespace c in
                    if is_separator (peek c)
                    then p_dict_loop fuel' (snd (p_char c)) h
                           dict keys values entries
                    else (Ok entries, c, h)
                | (Err err, c, h) =>
                    (Err err, c, dict_free dict keys values entries h)
                | (Undefined u, c, h) => (Undefined u, c, h)
                | (OutOfFuel, c, h) => (OutOfFuel, c, h)
                end
          end
      | (Err err, c, h) => (Err err, c, dict_free dict keys values entries h)
      | (Undefined u, c, h) => (Undefined u, c, h)
      | (OutOfFuel, c, h) => (OutOfFuel, c, h)
      end
  end.

End Parser.

(** ** The entry point *)

(** [dson_parse(input, length, unsafe, &out)] returns the C return value
    ([Ok tt] for NULL, [Err] for a message) and what [*out] holds. A value
    of [length] bytes nests fewer than [length] levels, and [2 * length + 2]
    is fuel enough for them. *)
Definition dson_parse (input : list ascii) (length : nat) (unsafe : bool)
    (h : heap) : result unit * option dson_value * heap :=
  let out : option dson_value := None in
  if negb (Ascii.eqb (nth length input NUL) NUL)
  then (Err NotNulTerminated, out, h)
  else
    let c := mkContext 0 length 0 unsafe in
    match p_value input (2 * length + 2) c h with
    | (Ok ret, _, h) => (Ok tt, Some ret, h)
    | (Err err, _, h) => (Err err, out, h)
    | (Undefined u, _, h) => (Undefined u, out, h)
    | (OutOfFuel, _, h) => (OutOfFuel, out, h)
    end.

(** ** Dictionary lookup ([cdson.c]) *)

(** A C string: the bytes before the first NUL. *)
Fixpoint c_string (l : list ascii) : list ascii :=
  match l with
  | [] => []
  | x :: l' => if Ascii.eqb x NUL then [] else x :: c_string l'
  end.

(** [strcoll(a, b) != 0], in the C locale, where it compares as [strcmp]
    does. *)
Definition strcoll (a b : list ascii) : bool :=
  if list_eq_dec ascii_dec (c_string a) (c_string b) then false else true.

(** A local variable of a C function. *)
Inductive local (A : Type) : Type :=
| Uninitialised
| Holds (a : A).

Arguments Uninitialised {A}.
Arguments Holds {A} a.

(** The [for] loop of [dson_dict_get] over [keys[i]] and [values[i]]. *)
Fixpoint dict_get_loop (entries : list (ptr * list ascii * dson_value))
    (key : list ascii) (v : local (option dson_value))
  : local (option dson_value) :=
  match entries with
  | [] => v
  | (_, k, value) :: entries' =>
      dict_get_loop entries' key
        (if negb (strcoll key k) then Holds (Some value) else v)
  end.

(** [dson_dict_get(d, key)]; [d] is [None] for NULL, and the result holds
    [None] for a returned NULL. *)
Definition dson_dict_get
    (d : option (list (ptr * list ascii * dson_value))) (key : list ascii)
  : local (option dson_value) :=
  match d with
  | None => Holds None
  | Some entries => dict_get_loop entries key Uninitialised
  end.

(** [dson_dict_keys(d)]. *)
Definition dson_dict_keys (d : list (ptr * list ascii * dson_value))
  : list (list ascii) :=
  map (fun e => snd (fst e)) d.

(** ** Concrete inputs *)

(** The bytes of a string literal, an empty heap, and the top-level call on
    a literal (its length is the number of its bytes). *)
Definition str (x : string) : list ascii := list_ascii_of_string x.

Definition empty_heap : heap := mkHeap [] 0 [].

Definition parse (text : list ascii) (unsafe : bool)
  : result unit * option dson_value * heap :=
  dson_parse text (List.length text) unsafe empty_heap.

(** ** The specification's table of UTF-8 lengths *)

(** The lengths as the specification words them: thresholds 0x80, 0x800,
    0x20000 and 0x200000, and no encoding (length 0, which
    [handle_escaped] reports as an error) at or beyond the last. *)
Definition spec_bytes_needed (point : Z) : Z :=
  if (point <? 0x80)%Z then 1
  else if (point <? 0x800)%Z then 2
  else if (point <? 0x20000)%Z then 3
  else if (point <? 0x200000)%Z then 4
  else 0.

(** ** Release of a value in [cdson.c] *)

(** The [dson_free] of [cdson.c], on the same value tree: of a string it
    releases the buffer, of an array the elements up to the first NULL, of
    a dictionary each key, each value and the [dson_dict]; then the value
    itself. It has no [free] for the vector of an array nor for the two
    vectors of a dictionary. *)
Module Cdson.

Fixpoint free_value (v : dson_value) (h : heap) : heap :=
  match v with
  | DSON_STRING self sp _ => free self (free sp h)
  | DSON_DOUBLE self _ => free self h
  | DSON_BOOL self _ => free self h
  | DSON_NONE self => free self h
  | DSON_ARRAY self array elts =>
      let h :=
        (fix elements (vs : list dson_value) (h : heap) : heap :=
           match vs with
           | [] => h
           | v :: vs' => elements vs' (free_value v h)
           end) elts h in
      free self h
  | DSON_DICT self dict keys values entries =>
      let h :=
        (fix pairs (es : list (ptr * list ascii * dson_value)) (h : heap)
           : heap :=
           match es with
           | [] => h
           | (k, _, v) :: es' => pairs es' (free_value v (free k h))
           end) entries h in
      free self (free dict h)
  end.

(** [dson_free(v)]: [None] is a NULL [v], [Some None] a handle that holds
    NULL, whose [type] the function reads. *)
Definition dson_free (v : option (option dson_value)) (h : heap)
  : result (option (option dson_value)) * heap :=
  match v with
  | None => (Ok None, h)
  | Some None => (Undefined NullDereference, h)
  | Some (Some value) => (Ok (Some None), free_value value h)
  end.


(** *** The parser of [cdson.c]

    [cdson.c] is the parser as it was before errors were returned to the
    caller: its [ERROR] macro prints the function, the line and the offset
    of the cursor and calls [exit(1)], and [p_chars] does so at the end of
    the input. Its context has no unsafe flag. [calloc], [malloc] and
    [reallocarray] are the allocator of the heap above: an allocation
    takes a fresh block, and [reallocarray] keeps the identity of the
    block it resizes. The allocation of a record or a vector does not
    fail; the [malloc] of [p_string] may. *)

Record context : Type := mkContext {
  s : nat;            (* const char *s *)
  s_end : nat;        (* const char *s_end *)
  beginning : nat     (* const char *beginning *)
}.

Definition advance (c : context) (n : nat) : context :=
  mkContext (s c + n) (s_end c) (beginning c).

(** Behaviour C leaves undefined that the parser can come to: a store
    past the end of an allocation of [capacity] bytes. *)
Inductive fault : Type :=
| StoreOverflow (written : list ascii) (capacity : Z).

(** How a call ends: it returns, the process exits in [ERROR] at a line of
    [cdson.c] with the offset printed, or the behaviour is undefined. *)
Inductive outcome (A : Type) : Type :=
| Returns (a : A)
| Exits (line : nat) (pos : Z)
| Faults (f : fault)
| NoFuel.

Arguments Returns {A} a.
Arguments Exits {A} line pos.
Arguments Faults {A} f.
Arguments NoFuel {A}.

Definition bind {A B : Type} (m : outcome A) (k : A -> outcome B)
  : outcome B :=
  match m with
  | Returns a => k a
  | Exits line pos => Exits line pos
  | Faults f => Faults f
  | NoFuel => NoFuel
  end.

Notation "'do' p <- m ; k" := (bind m (fun p => k))
  (at level 10, p pattern, m at level 100, k at level 200).

(** [ERROR], at a line of the source. *)
Definition ERROR {A : Type} (line : nat) (c : context) : outcome A :=
  Exits line (Z.of_nat (s c) - Z.of_nat (beginning c)).

Section Parser.

Variable input : list ascii.

(** The local [num_escapes] of [p_string] is declared without a value,
    and nothing assigns it one before [num_escapes++] and the computation
    of [length] read it: what they read is what its place on the stack
    holds when the function is entered. [slot c] is that content, at the
    call entered with the cursor [c]; a call that returns has moved the
    cursor, so the calls of a run have cursors of their own. Nothing is
    assumed of [slot]: every property of the parser is stated for every
    content of the slot, or names the contents it is about. *)
Variable slot : context -> Z.

(** [malloc(length)], then, is asked for a number of bytes that goes by
    the slot and can be any [size_t]: [grants c length] tells whether it
    returns a block, at the call of [p_string] entered with the cursor
    [c]. Nothing is assumed of [grants] either. The allocations of a
    record or a vector do not fail. *)
Variable grants : context -> Z -> bool.

Definition peek (c : context) : ascii := char_at input (s c).

(** Returns the old position. *)
Definition p_chars (c : context) (n : nat) : outcome (nat * context) :=
  if s_end c <? s c + n then ERROR 86 c
  else Returns (s c, advance c n).

Definition p_char (c : context) : outcome (nat * context) := p_chars c 1.

(** The loop of [maybe_p_whitespace]; a pass consumes one byte or exits in
    [p_char], so [s_end - s + 1] passes end it. *)
Fixpoint whitespace_loop (fuel : nat) (c : context) : outcome context :=
  match fuel with
  | 0 => NoFuel
  | S fuel' =>
      let pivot := peek c in
      if Ascii.eqb pivot NUL || negb (strchr whitespace pivot)
      then Returns c
      else
        do (_, c) <- p_char c;
        whitespace_loop fuel' c
  end.

Definition maybe_p_whitespace (c : context) : outcome context :=
  whitespace_loop (S (s_end c - s c)) c.

(** [memcmp(lit, p, strlen(lit)) != 0]. *)
Fixpoint memcmp (lit : list ascii) (p : nat) : bool :=
  match lit with
  | [] => false
  | x :: lit' =>
      if Ascii.eqb (char_at input p) x then memcmp lit' (S p) else true
  end.

Definition p_empty (c : context) : outcome (unit * context) :=
  let empty := list_ascii_of_string "empty" in
  do (sp, c) <- p_chars c (List.length empty);
  if memcmp empty sp then ERROR 114 c
  else Returns (tt, c).

Definition p_bool (c : context) : outcome (bool * context) :=
  do (sp, c) <- p_chars c 2;
  if Ascii.eqb (char_at input sp) "y"
     && Ascii.eqb (char_at input (sp + 1)) "e" then
    do (sp, c) <- p_char c;
    if negb (Ascii.eqb (char_at input sp) "s") then ERROR 124 c
    else Returns (true, c)
  else if Ascii.eqb (char_at input sp) "n"
          && Ascii.eqb (char_at input (sp + 1)) "o"
  then Returns (false, c)
  else ERROR 129 c.

(** The first loop of [p_string]: finds the closing quote. Returns [end]
    and [num_escapes], a [size_t]; a pass consumes a byte or exits. *)
Fixpoint string_scan (fuel : nat) (c : context) (num_escapes : Z)
  : outcome (nat * Z * context) :=
  match fuel with
  | 0 => NoFuel
  | S fuel' =>
      do (e, c) <- p_char c;
      if Ascii.eqb (char_at input e) dquote
      then Returns (e, num_escapes, c)
      else if Ascii.eqb (char_at input e) backslash then
        do (e, c) <- p_char c;
        if Ascii.eqb (char_at input e) "u" then ERROR 152 c
        else string_scan fuel' c ((num_escapes + 1) mod 2 ^ 64)%Z
      else string_scan fuel' c num_escapes
  end.

(** A store of [bytes] at [out + i], where [i] is the number of bytes
    stored so far and [length] the size of the allocation. *)
Definition store (length : Z) (out bytes : list ascii)
  : outcome (list ascii) :=
  if (Z.of_nat (List.length out + List.length bytes) <=? length)%Z
  then Returns (out ++ bytes)
  else Faults (StoreOverflow (out ++ bytes) length).

(** The second loop of [p_string], [for (p = start; p < end; p++)]. *)
Fixpoint string_decode (fuel : nat) (c : context) (p e : nat) (length : Z)
    (out : list ascii) : outcome (list ascii) :=
  if e <=? p then Returns out
  else
    match fuel with
    | 0 => NoFuel
    | S fuel' =>
        if negb (Ascii.eqb (char_at input p) backslash) then
          do out <- store length out [char_at input p];
          string_decode fuel' c (S p) e length out
        else
          let p := S p in
          let ch := char_at input p in
          let put (x : ascii) :=
            do out <- store length out [x];
            string_decode fuel' c (S p) e length out in
          if Ascii.eqb ch dquote || Ascii.eqb ch backslash || Ascii.eqb ch "/"
          then put ch
          else if Ascii.eqb ch "b" then put "008"%char
          else if Ascii.eqb ch "f" then put "012"%char
          else if Ascii.eqb ch "n" then put "010"%char
          else if Ascii.eqb ch "r" then put "013"%char
          else if Ascii.eqb ch "t" then put "009"%char
          else if Ascii.eqb ch "u" then ERROR 185 c
          else ERROR 187 c
    end.

(** [p_string(c, &length)] returns the buffer, its bytes before the
    terminator and [*length_out]. [num_escapes] starts from the content of
    its slot; [length] is a [size_t], and [malloc] may refuse it. *)
Definition p_string (c : context) (h : heap)
  : outcome (ptr * list ascii * Z * context * heap) :=
  let num_escapes := (slot c mod 2 ^ 64)%Z in
  let granted := grants c in
  do (start, c) <- p_char c;
  if negb (Ascii.eqb (char_at input start) dquote) then ERROR 142 c
  else
    do (e, num_escapes, c) <- string_scan (S (s_end c - s c)) c num_escapes;
    let start := S start in
    let length :=
      ((Z.of_nat e - Z.of_nat start - num_escapes + 1) mod 2 ^ 64)%Z in
    if negb (granted length) then ERROR 163 c
    else
      let '(out, h) := CALLOC h in
      do bytes <- string_decode (e - start) c start e length [];
      do _ <- store length bytes [NUL];
      Returns (out, bytes, length, c, h).

(** The loop of [p_octal], with the accumulator [n]. *)
Fixpoint octal_loop (fuel : nat) (n : float) (c : context)
  : outcome (float * context) :=
  match fuel with
  | 0 => NoFuel
  | S fuel' =>
      if is_octal (peek c) then
        let n := PrimFloat.mul n 8%float in
        do (sp, c) <- p_char c;
        let n := PrimFloat.add n (digit (char_at input sp)) in
        octal_loop fuel' n c
      else Returns (n, c)
  end.

Definition p_octal (c : context) : outcome (float * context) :=
  octal_loop (S (s_end c - s c)) 0%float c.

(** The loop over the fractional digits of [p_double]. *)
Fixpoint fraction_loop (fuel : nat) (n divisor : float) (c : context)
  : outcome (float * context) :=
  match fuel with
  | 0 => NoFuel
  | S fuel' =>
      if is_octal (peek c) then
        do (sp, c) <- p_char c;
        let n :=
          PrimFloat.add n (PrimFloat.div (digit (char_at input sp)) divisor) in
        let divisor := PrimFloat.mul divisor 2%float in
        fraction_loop fuel' n divisor c
      else Returns (n, c)
  end.

Definition p_double (c : context) : outcome (float * context) :=
  let isneg := Ascii.eqb (peek c) "-" in
  do c <- (if isneg then do (_, c) <- p_char c; Returns c else Returns c);
  do c <- maybe_p_whitespace c;
  do (n, c) <- (if Ascii.eqb (peek c) "0"
                then do (_, c) <- p_char c; Returns (0%float, c)
                else p_octal c);
  do c <- maybe_p_whitespace c;
  do (n, c) <- (if Ascii.eqb (peek c) "." then
                  do (_, c) <- p_char c;
                  if negb (is_octal (peek c)) then ERROR 228 c
                  else
                    do (n, c) <- fraction_loop (S (s_end c - s c)) n
                                   8%float c;
                    do c <- maybe_p_whitespace c;
                    Returns (n, c)
                else Returns (n, c));
  do (n, c) <- (if Ascii.eqb (peek c) "v" || Ascii.eqb (peek c) "V" then
                  do (sp, c) <- p_chars c 4;
                  if strncasecmp input sp (list_ascii_of_string "very") 4
                  then ERROR 240 c
                  else
                    let powneg :=
                      negb (Ascii.eqb (peek c) "+")
                      && Ascii.eqb (peek c) "-" in
                    do c <- (if Ascii.eqb (peek c) "+"
                             then do (_, c) <- p_char c; Returns c
                             else if Ascii.eqb (peek c) "-"
                             then do (_, c) <- p_char c; Returns c
                             else Returns c);
                    do c <- maybe_p_whitespace c;
                    if negb (is_octal (peek c)) then ERROR 252 c
                    else
                      do (power, c) <- p_octal c;
                      let power :=
                        if powneg then PrimFloat.opp power else power in
                      Returns (PrimFloat.mul n (pow8 power), c)
                else Returns (n, c));
  Returns (if isneg then PrimFloat.opp n else n, c).

(** [p_value], [p_array] and [p_dict] call each other; [fuel] bounds the
    depth of the calls and the passes of the two loops, which carry the
    elements and the entries stored so far. *)
Fixpoint p_value (fuel : nat) (c : context) (h : heap) {struct fuel}
  : outcome (dson_value * context * heap) :=
  match fuel with
  | 0 => NoFuel
  | S fuel' =>
      let '(ret, h) := CALLOC h in
      do c <- maybe_p_whitespace c;
      let pivot := peek c in
      if Ascii.eqb pivot dquote then
        do (sp, bytes, _, c, h) <- p_string c h;
        Returns (DSON_STRING ret sp bytes, c, h)
      else if Ascii.eqb pivot "-" || is_octal pivot then
        do (n, c) <- p_double c;
        Returns (DSON_DOUBLE ret n, c, h)
      else if Ascii.eqb pivot "y" || Ascii.eqb pivot "n" then
        do (b, c) <- p_bool c;
        Returns (DSON_BOOL ret b, c, h)
      else if Ascii.eqb pivot "e" then
        do (_, c) <- p_empty c;
        Returns (DSON_NONE ret, c, h)
      else if Ascii.eqb pivot "s" then
        let pivot := char_at input (s c + 1) in
        if Ascii.eqb pivot "o" then
          do (array, elts, c, h) <- p_array fuel' c h;
          Returns (DSON_ARRAY ret array elts, c, h)
        else if Ascii.eqb pivot "u" then
          do (dict, keys, values, entries, c, h) <- p_dict fuel' c h;
          Returns (DSON_DICT ret dict keys values entries, c, h)
        else ERROR 405 c
      else ERROR 408 c
  end

with p_array (fuel : nat) (c : context) (h : heap) {struct fuel}
  : outcome (ptr * list dson_value * context * heap) :=
  match fuel with
  | 0 => NoFuel
  | S fuel' =>
      let '(array, h) := CALLOC h in
      do (sp, c) <- p_chars c 2;
      if strncmp input sp (list_ascii_of_string "so") 2 then ERROR 279 c
      else
        do c <- maybe_p_whitespace c;
        do (elts, c, h) <- (if negb (Ascii.eqb (peek c) "m")
                            then p_array_loop fuel' c h []
                            else Returns ([], c, h));
        do (sp, c) <- p_chars c 4;
        if strncmp input sp (list_ascii_of_string "many") 4
        then ERROR 311 c
        else Returns (array, elts, c, h)
  end

with p_array_loop (fuel : nat) (c : context) (h : heap)
    (elts : list dson_value) {struct fuel}
  : outcome (list dson_value * context * heap) :=
  match fuel with
  | 0 => NoFuel
  | S fuel' =>
      do (v, c, h) <- p_value fuel' c h;
      let elts := elts ++ [v] in
      do c <- maybe_p_whitespace c;
      if negb (Ascii.eqb (peek c) "a") then Returns (elts, c, h)
      else
        do (sp, c) <- p_chars c 3;
        if negb (strncmp input sp (list_ascii_of_string "and") 3)
        then p_array_loop fuel' c h elts
        else if strncmp input sp (list_ascii_of_string "als") 3
        then ERROR 301 c
        else
          do (sp, c) <- p_char c;
          if negb (Ascii.eqb (char_at input sp) "o") then ERROR 304 c
          else
            do c <- maybe_p_whitespace c;
            p_array_loop fuel' c h elts
  end

with p_dict (fuel : nat) (c : context) (h : heap) {struct fuel}
  : outcome (ptr * ptr * ptr * list (ptr * list ascii * dson_value)
             * context * heap) :=
  match fuel with
  | 0 => NoFuel
  | S fuel' =>
      let '(keys, h) := CALLOC h in
      let '(values, h) := CALLOC h in
      let '(dict, h) := CALLOC h in
      do (sp, c) <- p_chars c 4;
      if strncmp input sp (list_ascii_of_string "such") 4 then ERROR 331 c
      else
        do c <- maybe_p_whitespace c;
        do (entries, c, h) <- p_dict_loop fuel' c h [];
        do (sp, c) <- p_chars c 3;
        if strncmp input sp (list_ascii_of_string "wow") 3
        then ERROR 367 c
        else Returns (dict, keys, values, entries, c, h)
  end

with p_dict_loop (fuel : nat) (c : context) (h : heap)
    (entries : list (ptr * list ascii * dson_value)) {struct fuel}
  : outcome (list (ptr * list ascii * dson_value) * context * heap) :=
  match fuel with
  | 0 => NoFuel
  | S fuel' =>
      do (k, kbytes, _, c, h) <- p_string c h;
      do c <- maybe_p_whitespace c;
      do (sp, c) <- p_chars c 2;
      if strncmp input sp (list_ascii_of_string "is") 2 then ERROR 340 c
      else
        do c <- maybe_p_whitespace c;
        do (v, c, h) <- p_value fuel' c h;
        let entries := entries ++ [(k, kbytes, v)] in
        do c <- maybe_p_whitespace c;
        let pivot := peek c in
        if is_separator pivot then
          do (_, c) <- p_char c;
          p_dict_loop fuel' c h entries
        else Returns (entries, c, h)
  end.

End Parser.

(** [dson_parse(input, length)]; the value returned is [None] for NULL. *)
Definition dson_parse (input : list ascii) (slot : context -> Z)
    (grants : context -> Z -> bool) (length : nat) (h : heap)
  : outcome (option dson_value * heap) :=
  if negb (Ascii.eqb (nth length input NUL) NUL)
  then Returns (None, h)
  else
    let c := mkContext 0 length 0 in
    do (ret, _, h) <- p_value input slot grants (2 * length + 2) c h;
    Returns (Some ret, h).

End Cdson.

(** * The vocabulary of the properties *)

Unset Implicit Arguments.

(** ** Dictionary entries *)

(** [matches key e]: the entry [e] has the key [key], as [strcoll]
    compares. *)
Definition matches (key : list ascii) (e : ptr * list ascii * dson_value)
  : bool :=
  negb (strcoll key (snd (fst e))).

(** ** Cursors *)

(** [steps c c']: [c'] is [c] moved forward, within the same buffer. *)
Definition steps (c c' : context) : Prop :=
  s c <= s c' /\ s_end c' = s_end c /\ beginning c' = beginning c /\
  unsafe c' = unsafe c /\ (s c <= s_end c -> s c' <= s_end c').

(** [at_cursor r c']: an error among the results carries the offset of
    the cursor [c'] it is returned with. *)
Definition at_cursor {A : Type} (r : result A) (c' : context) : Prop :=
  forall e, r = Err e ->
    exists msg,
      e = AtInputChar (Z.of_nat (s c') - Z.of_nat (beginning c')) msg.

(** What every parser guarantees of the cursor it returns. *)
Definition post {A : Type} (c : context) (r : result A) (c' : context)
  : Prop :=
  steps c c' /\ at_cursor r c'.

(** ** Blocks of the heap *)

(** The blocks a value owns, in the order [dson_free] releases them. *)
Fixpoint blocks (v : dson_value) : list ptr :=
  match v with
  | DSON_STRING self sp _ => [sp; self]
  | DSON_DOUBLE self _ => [self]
  | DSON_BOOL self _ => [self]
  | DSON_NONE self => [self]
  | DSON_ARRAY self array elts => flat_map blocks elts ++ [array; self]
  | DSON_DICT self dict keys values entries =>
      flat_map (fun e => fst (fst e) :: blocks (snd e)) entries
        ++ [keys; values; dict; self]
  end.

(** [free] of each block of [ps], in order. *)
Definition free_all (ps : list ptr) (h : heap) : heap :=
  fold_left (fun h p => free p h) ps h.

(** [allocated h h' bs]: from the heap [h] to the heap [h'] the blocks [bs]
    have been allocated, each once, and nothing has been released. *)
Definition allocated (h h' : heap) (bs : list ptr) : Prop :=
  next h <= next h' /\
  invalid_frees h' = invalid_frees h /\
  live h' = rev (seq (next h) (next h' - next h)) ++ live h /\
  Permutation bs (seq (next h) (next h' - next h)).

(** ** The bytes of the input *)

(** [reads input p l]: the bytes of [input] from offset [p] on are [l]. *)
Definition reads (input : list ascii) (p : nat) (l : list ascii) : Prop :=
  forall i, i < List.length l -> char_at input (p + i) = nth i l NUL.

(** The bytes [maybe_p_whitespace] skips. *)
Definition is_space (ch : ascii) : bool :=
  negb (Ascii.eqb ch NUL || negb (strchr whitespace ch)).

(** The value [p_octal] accumulates over the digits [ds], from [n]. *)
Definition octal_value (n : float) (ds : list ascii) : float :=
  fold_left (fun n d => PrimFloat.add (PrimFloat.mul n 8%float) (digit d))
    ds n.

(** ** Escapes *)

(** A byte that the two loops of [p_string] take as it is. *)
Definition plain (ch : ascii) : bool :=
  negb (Ascii.eqb ch dquote) && negb (Ascii.eqb ch backslash).

(** What the specification says of the byte after a backslash. *)
Inductive escape_class : Type :=
| Maps (x : ascii)     (* decodes to the byte [x] *)
| Forbidden            (* [\b] or [\u] without the unsafe flag *)
| UnicodeEscape        (* [\u] with the unsafe flag *)
| Unrecognized.        (* any other byte *)

Definition classify_escape (e : ascii) (unsafe : bool) : escape_class :=
  if Ascii.eqb e dquote || Ascii.eqb e backslash || Ascii.eqb e "/"
  then Maps e
  else if Ascii.eqb e "b" then (if unsafe then Maps "008"%char else Forbidden)
  else if Ascii.eqb e "u" then (if unsafe then UnicodeEscape else Forbidden)
  else if Ascii.eqb e "f" then Maps "012"%char
  else if Ascii.eqb e "n" then Maps "010"%char
  else if Ascii.eqb e "r" then Maps "013"%char
  else if Ascii.eqb e "t" then Maps "009"%char
  else Unrecognized.

(** ** Number tokens *)

(** A number token, part by part, as the grammar of the specification has
    it: an optional sign, whitespace, the integer part (a lone zero or a
    run of octal digits), whitespace, an optional fraction (a dot, digits,
    whitespace) and an optional exponent (the word very in any case, an
    optional sign, whitespace, digits). *)
Inductive integer_part : Type :=
| LoneZero
| OctalRun (ds : list ascii).

Inductive exponent_sign : Type := NoSign | PlusSign | MinusSign.

Record fraction_part : Type := mkFraction {
  fraction_digits : list ascii;
  fraction_ws : list ascii
}.

Record exponent_part : Type := mkExponent {
  exponent_very : list ascii;
  exponent_sign_of : exponent_sign;
  exponent_ws : list ascii;
  exponent_digits : list ascii
}.

Record number_token : Type := mkNumber {
  negative : bool;
  sign_ws : list ascii;
  integer : integer_part;
  integer_ws : list ascii;
  fraction : option fraction_part;
  exponent : option exponent_part
}.

(** The text of a token. *)
Definition integer_text (i : integer_part) : list ascii :=
  match i with
  | LoneZero => ["0"%char]
  | OctalRun ds => ds
  end.

Definition fraction_text (f : option fraction_part) : list ascii :=
  match f with
  | Some f => "."%char :: fraction_digits f ++ fraction_ws f
  | None => []
  end.

Definition sign_text (sg : exponent_sign) : list ascii :=
  match sg with
  | NoSign => []
  | PlusSign => ["+"%char]
  | MinusSign => ["-"%char]
  end.

Definition exponent_text (x : option exponent_part) : list ascii :=
  match x with
  | Some x =>
      exponent_very x ++ sign_text (exponent_sign_of x) ++ exponent_ws x
        ++ exponent_digits x
  | None => []
  end.

Definition number_text (t : number_token) : list ascii :=
  (if negative t then ["-"%char] else []) ++ sign_ws t
    ++ integer_text (integer t) ++ integer_ws t
    ++ fraction_text (fraction t) ++ exponent_text (exponent t).

(** The value of a token, as the specification words it: fractional
    digits weigh 1/8, 1/16, 1/32, ...: the divisor starts at 8 and doubles
    per digit. *)
Fixpoint fraction_value (n divisor : float) (ds : list ascii) : float :=
  match ds with
  | [] => n
  | d :: ds' =>
      fraction_value (PrimFloat.add n (PrimFloat.div (digit d) divisor))
        (PrimFloat.mul divisor 2%float) ds'
  end.

Definition integer_value (i : integer_part) : float :=
  match i with
  | LoneZero => 0%float
  | OctalRun ds => octal_value 0%float ds
  end.

Definition exponent_value (x : exponent_part) : float :=
  let power := octal_value 0%float (exponent_digits x) in
  match exponent_sign_of x with
  | MinusSign => PrimFloat.opp power
  | _ => power
  end.

Definition number_value (t : number_token) : float :=
  let n := integer_value (integer t) in
  let n :=
    match fraction t with
    | Some f => fraction_value n 8%float (fraction_digits f)
    | None => n
    end in
  let n :=
    match exponent t with
    | Some x => PrimFloat.mul n (pow8 (exponent_value x))
    | None => n
    end in
  if negative t then PrimFloat.opp n else n.

(** Well-formed tokens. *)
Definition all_space (l : list ascii) : Prop :=
  Forall (fun ch => is_space ch = true) l.

Definition all_octal (l : list ascii) : Prop :=
  Forall (fun ch => is_octal ch = true) l.

(** A run of digits that is the integer part does not start with a zero
    (a leading zero is a lone zero), and an empty run has no whitespace of
    its own after it. *)
Definition integer_ok (i : integer_part) (ws : list ascii) : Prop :=
  match i with
  | LoneZero => True
  | OctalRun ds =>
      all_octal ds /\ hd NUL ds <> "0"%char /\ (ds = [] -> ws = [])
  end.

Definition fraction_ok (f : option fraction_part) : Prop :=
  match f with
  | Some f =>
      fraction_digits f <> [] /\ all_octal (fraction_digits f) /\
      all_space (fraction_ws f)
  | None => True
  end.

Definition exponent_ok (x : option exponent_part) : Prop :=
  match x with
  | Some x =>
      map tolower (exponent_very x) = list_ascii_of_string "very" /\
      all_space (exponent_ws x) /\
      exponent_digits x <> [] /\ all_octal (exponent_digits x)
  | None => True
  end.

Definition number_ok (t : number_token) : Prop :=
  all_space (sign_ws t) /\ integer_ok (integer t) (integer_ws t) /\
  all_space (integer_ws t) /\ fraction_ok (fraction t) /\
  exponent_ok (exponent t).

(** A byte that cannot continue a number (nor start one with a sign). *)
Definition ends_number (ch : ascii) : bool :=
  negb (is_octal ch || is_space ch || Ascii.eqb ch "." || Ascii.eqb ch "v"
        || Ascii.eqb ch "V" || Ascii.eqb ch "-").

(** After an exponent any byte that is not an octal digit ends the token;
    a token without exponent ends before a byte that cannot continue it. *)
Definition ends_exponent (x : option exponent_part) (ch : ascii) : bool :=
  match x with
  | Some _ => negb (is_octal ch)
  | None => ends_number ch
  end.

(** [tail_at input p l]: the input from offset [p] to its end is [l]. *)
Definition tail_at (input : list ascii) (p : nat) (l : list ascii) : Prop :=
  forall i, char_at input (p + i) = nth i l NUL.

(** ** Two buffers *)

(** [widen c e]: the cursor [c] over a buffer that ends at [e]. *)
Definition widen (c : context) (e : nat) : context :=
  mkContext (s c) e (beginning c) (unsafe c).

(** [agree a b k]: the buffers [a] and [b] hold the same bytes at the
    offsets 0 to [k]. *)
Definition agree (a b : list ascii) (k : nat) : Prop :=
  forall p, p <= k -> char_at a p = char_at b p.

(** [framed a c]: the cursor is within the buffer, which ends with NUL at
    [s_end], as [dson_parse] requires. *)
Definition framed (a : list ascii) (c : context) : Prop :=
  s c <= s_end c /\ char_at a (s_end c) = NUL.

(** A marker for the equations [facts] has used. *)
Definition noted {A : Type} (x : A) : Prop := True.

(** A string, a boolean, an array and a dictionary end with a byte of
    their own; a number and [empty] end where the next byte says so. *)
Definition delimited (v : dson_value) : bool :=
  match v with
  | DSON_DOUBLE _ _ | DSON_NONE _ => false
  | _ => true
  end.

(** The offset at which the cursor of [dson_parse] stops. *)
Definition consumed (input : list ascii) (length : nat) (unsafe : bool)
    (h : heap) : nat :=
  s (snd (fst (p_value input (2 * length + 2)
                 (mkContext 0 length 0 unsafe) h))).

(** ** A cursor and its buffer *)

(** [within c c']: [c'] is a cursor of the buffer of [c], not past its
    end. *)
Definition within (c c' : context) : Prop :=
  s c' <= s_end c' /\ s_end c' = s_end c /\ beginning c' = beginning c /\
  unsafe c' = unsafe c.

(** ** UTF-8, as a decoder reads it *)

Definition byte_value (b : ascii) : Z := Z.of_N (N_of_ascii b).

(** The six bits of a continuation byte, [10xxxxxx]. *)
Definition continuation (b : ascii) : option Z :=
  if (Z.land (byte_value b) 0xC0 =? 0x80)%Z
  then Some (Z.land (byte_value b) 0x3F)
  else None.

(** The code point of one well-formed sequence: a lead byte [0xxxxxxx],
    [110xxxxx], [1110xxxx] or [11110xxx], the continuation bytes it
    announces, and no shorter sequence for the same code point. *)
Definition utf8_decode (bs : list ascii) : option Z :=
  match bs with
  | [b0] =>
      if (byte_value b0 <? 0x80)%Z then Some (byte_value b0) else None
  | [b0; b1] =>
      match continuation b1 with
      | Some x1 =>
          let p := Z.lor (Z.shiftl (Z.land (byte_value b0) 0x1F) 6) x1 in
          if (Z.land (byte_value b0) 0xE0 =? 0xC0)%Z && (0x80 <=? p)%Z
          then Some p else None
      | None => None
      end
  | [b0; b1; b2] =>
      match continuation b1, continuation b2 with
      | Some x1, Some x2 =>
          let p := Z.lor (Z.shiftl (Z.land (byte_value b0) 0x0F) 12)
                     (Z.lor (Z.shiftl x1 6) x2) in
          if (Z.land (byte_value b0) 0xF0 =? 0xE0)%Z && (0x800 <=? p)%Z
          then Some p else None
      | _, _ => None
      end
  | [b0; b1; b2; b3] =>
      match continuation b1, continuation b2, continuation b3 with
      | Some x1, Some x2, Some x3 =>
          let p := Z.lor (Z.shiftl (Z.land (byte_value b0) 0x07) 18)
                     (Z.lor (Z.shiftl x1 12) (Z.lor (Z.shiftl x2 6) x3)) in
          if (Z.land (byte_value b0) 0xF8 =? 0xF0)%Z && (0x10000 <=? p)%Z
          then Some p else None
      | _, _, _ => None
      end
  | _ => None
  end.

(** [holds_on d lo f]: [f] holds of the [2 ^ d] integers from [lo] on. *)
Fixpoint holds_on (d : nat) (lo : Z) (f : Z -> bool) : bool :=
  match d with
  | 0 => f lo
  | S d' => holds_on d' lo f && holds_on d' (lo + 2 ^ Z.of_nat d') f
  end.

(** ** The first byte of a value *)

(** The bytes on which [p_value] chooses a parser: [b0] is the byte at the
    cursor and [b1] the next one. *)
Definition starts_value (b0 b1 : ascii) : bool :=
  Ascii.eqb b0 dquote || Ascii.eqb b0 "-" || is_octal b0
  || Ascii.eqb b0 "y" || Ascii.eqb b0 "n" || Ascii.eqb b0 "e"
  || (Ascii.eqb b0 "s" && (Ascii.eqb b1 "o" || Ascii.eqb b1 "u")).

(** ** Where [empty] stands in a value *)

(** [none_free v]: there is no [empty] in [v]. *)
Fixpoint none_free (v : dson_value) : bool :=
  match v with
  | DSON_NONE _ => false
  | DSON_ARRAY _ _ elts => forallb none_free elts
  | DSON_DICT _ _ _ _ entries =>
      forallb (fun e => none_free (snd e)) entries
  | _ => true
  end.

(** ** The text of a string *)

(** An item of the text between the quotes: a byte that stands for itself,
    or a backslash and the byte after it. *)
Inductive item : Type :=
| Plain (ch : ascii)
| Escaped (e : ascii).

Definition item_text (i : item) : list ascii :=
  match i with
  | Plain ch => [ch]
  | Escaped e => [backslash; e]
  end.

(** The items [p_string] decodes to a byte: a plain byte is neither the
    quote nor the backslash, and an escape is one that maps to a byte (so
    not [\u], and [\b] with the unsafe flag only). *)
Definition item_ok (unsafe : bool) (i : item) : bool :=
  match i with
  | Plain ch => plain ch
  | Escaped e =>
      match classify_escape e unsafe with
      | Maps _ => true
      | _ => false
      end
  end.

Definition item_byte (unsafe : bool) (i : item) : ascii :=
  match i with
  | Plain ch => ch
  | Escaped e =>
      match classify_escape e unsafe with
      | Maps x => x
      | _ => NUL
      end
  end.

(** The items the first loop of [p_string] passes two bytes at most at a
    time: a plain byte, and any escape but [\u], which takes the six bytes
    after it as well. *)
Definition passes (i : item) : bool :=
  match i with
  | Plain ch => plain ch
  | Escaped e => negb (Ascii.eqb e "u")
  end.

Definition escapes (items : list item) : nat :=
  List.length (filter (fun i => match i with Escaped _ => true | _ => false end)
                 items).

(** ** The room a string needs *)

(** [tokens fuel p e]: the bytes and escapes from offset [p] to [e], up to
    the first [\u]: as many stores as the second loop of [p_string] can
    come to without the unsafe flag. *)
Fixpoint tokens (input : list ascii) (fuel p e : nat) : nat :=
  if e <=? p then 0
  else
    match fuel with
    | 0 => 0
    | S fuel' =>
        if Ascii.eqb (char_at input p) backslash then
          if Ascii.eqb (char_at input (S p)) "u" then 0
          else S (tokens input fuel' (S (S p)) e)
        else S (tokens input fuel' (S p) e)
    end.

(** ** The heap across a call *)

(** [well_formed h]: every live block is one the allocator has handed
    out. *)
Definition well_formed (h : heap) : Prop :=
  forall p, In p (live h) -> p < next h.

(** [frame n h h']: from the heap [h] to the heap [h'] every pointer handed
    to [free] was live, and the blocks below [n] are as they were. *)
Definition frame (n : ptr) (h h' : heap) : Prop :=
  next h <= next h' /\
  invalid_frees h' = invalid_frees h /\
  well_formed h' /\
  forall p, p < n -> (In p (live h') <-> In p (live h)).

(** [owned n h bs]: the blocks [bs] are distinct, live in [h] and not
    below [n]. *)
Definition owned (n : ptr) (h : heap) (bs : list ptr) : Prop :=
  NoDup bs /\ incl bs (live h) /\ forall p, In p bs -> n <= p.

(** ** The vectors of a value *)

(** The vector of each array of [v] and the two vectors of each of its
    dictionaries. *)
Fixpoint vectors (v : dson_value) : list ptr :=
  match v with
  | DSON_ARRAY _ array elts => flat_map vectors elts ++ [array]
  | DSON_DICT _ _ keys values entries =>
      flat_map (fun e => vectors (snd e)) entries ++ [keys; values]
  | _ => []
  end.

(** The other blocks of [v]: the values, the buffers of strings and keys,
    the [dson_dict] of each dictionary. *)
Fixpoint records (v : dson_value) : list ptr :=
  match v with
  | DSON_STRING self sp _ => [sp; self]
  | DSON_DOUBLE self _ => [self]
  | DSON_BOOL self _ => [self]
  | DSON_NONE self => [self]
  | DSON_ARRAY self _ elts => flat_map records elts ++ [self]
  | DSON_DICT self dict _ _ entries =>
      flat_map (fun e => fst (fst e) :: records (snd e)) entries
        ++ [dict; self]
  end.

(** ** Dictionaries with an entry *)

(** [populated v]: every dictionary in [v] has an entry. *)
Fixpoint populated (v : dson_value) : bool :=
  match v with
  | DSON_ARRAY _ _ elts => forallb populated elts
  | DSON_DICT _ _ _ _ entries =>
      negb (Nat.eqb (List.length entries) 0)
      && forallb (fun e => populated (snd e)) entries
  | _ => true
  end.

(** ** The parser of [cdson.c] *)

(** The cursor of [sniff.c] as a cursor of [cdson.c]. *)
Definition forget (c : context) : Cdson.context :=
  Cdson.mkContext (s c) (s_end c) (beginning c).

(** [stringless v]: there is no string and no dictionary in [v]. *)
Fixpoint stringless (v : dson_value) : bool :=
  match v with
  | DSON_STRING _ _ _ => false
  | DSON_DICT _ _ _ _ _ => false
  | DSON_ARRAY _ _ elts => forallb stringless elts
  | _ => true
  end.

(** [sound strings v]: where [p_string] may return, [v] is any value;
    where it may not, [v] holds no string and no dictionary. *)
Definition sound (strings : bool) (v : dson_value) : bool :=
  strings || stringless v.

(** [ends Over m Q]: the call [m] ends, in one of three ways: it returns
    a result that satisfies [Q], the process exits in [ERROR], or, where
    [Over] holds, a store goes past the end of a buffer. *)
Definition ends {A : Type} (Over : Prop) (m : Cdson.outcome A)
    (Q : A -> Prop) : Prop :=
  match m with
  | Cdson.Returns a => Q a
  | Cdson.Exits _ _ => True
  | Cdson.Faults _ => Over
  | Cdson.NoFuel => False
  end.

(** [follows c c']: [c'] is [c] moved forward, within the same buffer. *)
Definition follows (c c' : Cdson.context) : Prop :=
  Cdson.s c <= Cdson.s c' /\ Cdson.s c' <= Cdson.s_end c' /\
  Cdson.s_end c' = Cdson.s_end c /\ Cdson.beginning c' = Cdson.beginning c.

(** ** A heap given back *)

(** [restored h h']: the heap [h'] holds the live blocks of [h], and
    nothing was released on the way from [h] to [h'] that was not live. *)
Definition restored (h h' : heap) : Prop :=
  next h <= next h' /\
  invalid_frees h' = invalid_frees h /\
  forall p, In p (live h') <-> In p (live h).

(** * Properties *)

(** ** UTF-8 lengths *)

Lemma bytes_needed_cases (point : Z) :
  (bytes_needed point = 1 /\ point < 0x80 \/
   bytes_needed point = 2 /\ 0x80 <= point < 0x800 \/
   bytes_needed point = 3 /\ 0x800 <= point < 0x10000 \/
   bytes_needed point = 4 /\ 0x10000 <= point < 0x110000 \/
   bytes_needed point = 0 /\ 0x110000 <= point)%Z.
Proof.
  unfold bytes_needed.
  destruct (Z.ltb_spec point 0x80); [lia|].
  destruct (Z.ltb_spec point 0x800); [lia|].
  destruct (Z.ltb_spec point 0x10000); [lia|].
  destruct (Z.ltb_spec point 0x110000); lia.
Qed.

Lemma write_utf8_length (point : Z) :
  fst (write_utf8 point) = bytes_needed point /\
  Z.of_nat (List.length (snd (write_utf8 point))) = bytes_needed point.
Proof.
  unfold write_utf8.
  destruct (bytes_needed_cases point) as [[E _]|[[E _]|[[E _]|[[E _]|[E _]]]]];
    rewrite E; simpl; auto.
Qed.

(** C7, as the specification states it, fails: the encoder gives the code
    point 0x10000 four bytes, where a third threshold of 0x20000 would give
    it three. *)
Lemma utf8_threshold_counterexample :
  fst (write_utf8 0x10000) = 4%Z /\ spec_bytes_needed 0x10000 = 3%Z /\
  fst (write_utf8 0x10000) <> spec_bytes_needed 0x10000.
Proof. repeat split; try reflexivity. discriminate. Qed.

(** C7 (amended): the UTF-8 encoder selects 1, 2, 3 or 4 output bytes by
    comparing the code point against the thresholds 0x80, 0x800, 0x10000
    and 0x110000; at or beyond 0x110000 it stores nothing and returns the
    length 0, and that length is exactly what makes [handle_escaped] fail
    with its malformed-escape error. *)
Theorem utf8_lengths :
  (forall point : Z,
     let len := fst (write_utf8 point) in
     Z.of_nat (List.length (snd (write_utf8 point))) = len /\
     (len = 1 <-> point < 0x80)%Z /\
     (len = 2 <-> 0x80 <= point < 0x800)%Z /\
     (len = 3 <-> 0x800 <= point < 0x10000)%Z /\
     (len = 4 <-> 0x10000 <= point < 0x110000)%Z /\
     (len = 0 <-> 0x110000 <= point)%Z) /\
  (forall (input : list ascii) (c : context),
     let acc := fst (handle_escaped_loop input 6 0%float c) in
     let c' := snd (handle_escaped_loop input 6 0%float c) in
     let point := uint32_of_double acc in
     handle_escaped input c =
       if (0x110000 <=? point)%Z
       then (ERROR c' MalformedUnicodeEscape, c')
       else (Ok (snd (write_utf8 point)), c')).
Proof.
  split.
  - intros point len. subst len.
    destruct (write_utf8_length point) as [-> ->].
    destruct (bytes_needed_cases point)
      as [[E ?]|[[E ?]|[[E ?]|[[E ?]|[E ?]]]]]; rewrite E; lia.
  - intros input c acc c' point. unfold handle_escaped.
    fold acc c' point.
    destruct (handle_escaped_loop input 6 0%float c) as [a c0] eqn:L.
    subst acc c' point. simpl fst. simpl snd.
    pose proof (write_utf8_length (uint32_of_double a)) as [F _].
    destruct (write_utf8 (uint32_of_double a)) as [len buf]. simpl in *.
    subst len.
    destruct (bytes_needed_cases (uint32_of_double a))
      as [[E ?]|[[E ?]|[[E ?]|[[E ?]|[E ?]]]]]; rewrite E; simpl;
      destruct (Z.leb_spec 0x110000 (uint32_of_double a)); try lia; reflexivity.
Qed.

(** ** Dictionary lookup *)

Lemma dict_get_loop_app entries e key v :
  dict_get_loop (entries ++ [e]) key v =
  if matches key e then Holds (Some (snd e))
  else dict_get_loop entries key v.
Proof.
  revert v. induction entries as [|[[p k] x] entries IH]; intros v.
  - destruct e as [[p k] x]. reflexivity.
  - simpl. apply IH.
Qed.

(** The scan does not stop at the first match: the lookup returns the last
    entry whose key matches, and what the uninitialised local [v] holds
    when none does. *)
Lemma dson_dict_get_last entries key :
  dson_dict_get (Some entries) key =
  match find (matches key) (rev entries) with
  | Some e => Holds (Some (snd e))
  | None => Uninitialised
  end.
Proof.
  unfold dson_dict_get.
  induction entries as [|e entries IH] using rev_ind; [reflexivity|].
  rewrite dict_get_loop_app, rev_app_distr. simpl.
  destruct (matches key e); [reflexivity|exact IH].
Qed.

Lemma dson_dict_get_absent entries key :
  (forall e, In e entries -> matches key e = false) ->
  dson_dict_get (Some entries) key = Uninitialised.
Proof.
  intros H. rewrite dson_dict_get_last.
  destruct (find (matches key) (rev entries)) as [e|] eqn:F; [|reflexivity].
  apply find_some in F. destruct F as [I M].
  apply in_rev in I. rewrite (H e I) in M. discriminate.
Qed.

(** C5: the lookup is to return an absent indication (NULL) when no entry
    matches the key. It returns the last entry whose key matches, as the
    claim says; when no entry matches, and the dictionary is there, it
    returns the local [v], which was never assigned. In a dictionary whose
    only key is a, the lookup of b returns that unassigned [v]; with the
    key a repeated, the lookup of a returns the second entry. *)
Theorem dson_dict_get_unmatched_key :
  forall (entries : list (ptr * list ascii * dson_value)) (key : list ascii),
    dson_dict_get (Some entries) key
      = match find (matches key) (rev entries) with
        | Some e => Holds (Some (snd e))
        | None => Uninitialised
        end /\
    ((forall e, In e entries -> matches key e = false) <->
     dson_dict_get (Some entries) key = Uninitialised) /\
    dson_dict_get (Some [(4, str "a", DSON_DOUBLE 5 1%float)]) (str "b")
      = Uninitialised /\
    dson_dict_get (Some [(4, str "a", DSON_DOUBLE 5 1%float);
                         (6, str "a", DSON_DOUBLE 7 2%float)]) (str "a")
      = Holds (Some (DSON_DOUBLE 7 2%float)).
Proof.
  intros entries key.
  split; [apply dson_dict_get_last|].
  split; [|split; reflexivity].
  split; [apply dson_dict_get_absent|].
  rewrite dson_dict_get_last. intros H e I.
  destruct (find (matches key) (rev entries)) as [x|] eqn:F; [discriminate|].
  apply (find_none _ _ F). apply in_rev in I. exact I.
Qed.

(** ** Allocations kept by a failed parse *)

(** C4: a failed parse is to retain no allocation. When the value of a
    dictionary entry fails to parse, [BURY] releases the entries stored so
    far and the three blocks of the dictionary, but not the key just read:
    after the failure one block (the key, block 4) is still live. Cut after
    the key, the same input leaks it too. *)
Theorem failed_entry_keeps_key :
  parse (str "such " ++ dquote :: str "a" ++ dquote :: str " is x") false
    = (Err (AtInputChar 12 UnknownValueType), None, mkHeap [4] 6 []) /\
  parse (str "such " ++ dquote :: str "a" ++ [dquote]) false
    = (Err (AtInputChar 8 EndOfInputInDict), None, mkHeap [4] 5 []).
Proof. split; vm_compute; reflexivity. Qed.

(** ** The cursor only moves forward *)

Lemma steps_refl c : steps c c.
Proof. unfold steps; auto. Qed.

Lemma steps_trans c1 c2 c3 : steps c1 c2 -> steps c2 c3 -> steps c1 c3.
Proof.
  unfold steps. intros (A & B & C & D & E) (A' & B' & C' & D' & E').
  repeat split; try lia; try congruence.
Qed.

Lemma at_cursor_ERROR A c msg : at_cursor (@ERROR A c msg) c.
Proof. intros e [= <-]. eauto. Qed.

Lemma at_cursor_Ok A (a : A) c : at_cursor (Ok a) c.
Proof. intros e E. discriminate. Qed.

Lemma at_cursor_Undefined A u c : at_cursor (@Undefined A u) c.
Proof. intros e E. discriminate. Qed.

Lemma at_cursor_OutOfFuel A c : at_cursor (@OutOfFuel A) c.
Proof. intros e E. discriminate. Qed.

Lemma at_cursor_Err A B err c :
  at_cursor (@Err A err) c -> at_cursor (@Err B err) c.
Proof. intros H e [= <-]. apply (H err eq_refl). Qed.

Create HintDb cursor.
#[local] Hint Resolve steps_refl at_cursor_ERROR at_cursor_Ok
  at_cursor_Undefined at_cursor_OutOfFuel at_cursor_Err : cursor.

(** Chains the steps named in the context. *)
Ltac chain :=
  solve [ auto with cursor
        | eapply steps_trans; [eassumption|chain] ].

Ltac post_close :=
  repeat match goal with H : post _ _ _ |- _ => destruct H end;
  first [ split; [chain | solve [eauto with cursor]] | chain ].

(** Closes a goal about a call followed by more steps, from the call's
    own postcondition [H]. *)
Ltac post_via H :=
  let S := fresh in
  let E := fresh in
  destruct H as [S E];
  repeat match goal with P : post _ _ _ |- _ => destruct P end;
  split; [eapply steps_trans; [|exact S]; chain | solve [eauto with cursor]].

Lemma p_chars_steps c n : steps c (snd (p_chars c n)).
Proof.
  unfold p_chars, steps. destruct (Nat.ltb_spec (s_end c) (s c + n)); simpl;
    repeat split; lia.
Qed.

Lemma p_char_steps c : steps c (snd (p_char c)).
Proof. apply p_chars_steps. Qed.

Section Forward.

Variable input : list ascii.

Lemma whitespace_loop_steps fuel c : steps c (whitespace_loop input fuel c).
Proof.
  revert c. induction fuel as [|fuel IH]; intros c; simpl; auto with cursor.
  destruct (_ || _); auto with cursor.
  eapply steps_trans; [apply p_char_steps|apply IH].
Qed.

Lemma maybe_p_whitespace_steps c : steps c (maybe_p_whitespace input c).
Proof. apply whitespace_loop_steps. Qed.

Lemma octal_loop_steps fuel n c : steps c (snd (octal_loop input fuel n c)).
Proof.
  revert n c. induction fuel as [|fuel IH]; intros n c; simpl;
    auto with cursor.
  destruct (is_octal _); simpl; auto with cursor.
  eapply steps_trans; [apply p_char_steps|apply IH].
Qed.

Lemma p_octal_steps c out : steps c (snd (p_octal input c out)).
Proof. apply octal_loop_steps. Qed.

Lemma fraction_loop_steps fuel n d c :
  steps c (snd (fraction_loop input fuel n d c)).
Proof.
  revert n d c. induction fuel as [|fuel IH]; intros n d c; simpl;
    auto with cursor.
  destruct (is_octal _); simpl; auto with cursor.
  eapply steps_trans; [apply p_char_steps|apply IH].
Qed.

Lemma handle_escaped_loop_steps k acc c :
  steps c (snd (handle_escaped_loop input k acc c)).
Proof.
  revert acc c. induction k as [|k IH]; intros acc c; simpl;
    auto with cursor.
  pose proof (p_octal_steps c (PrimFloat.mul acc 8%float)) as P.
  destruct (p_octal input c _) as [a c1]. simpl in P.
  eapply steps_trans; [exact P|apply IH].
Qed.

Lemma handle_escaped_post c :
  post c (fst (handle_escaped input c)) (snd (handle_escaped input c)).
Proof.
  unfold handle_escaped.
  pose proof (handle_escaped_loop_steps 6 0%float c) as P.
  destruct (handle_escaped_loop input 6 0%float c) as [a c1].
  destruct (write_utf8 _) as [len buf]. destruct (len =? 0)%Z; simpl;
    post_close.
Qed.

(** One tactic for the straight-line parsers: split on the conditions,
    name what each call does to the cursor and split on its result. *)
Ltac forward_call :=
  match goal with
  | |- context [if ?b then _ else _] => destruct b
  | |- context [p_chars ?c ?n] =>
      is_var c;
      let P := fresh "P" in
      pose proof (p_chars_steps c n) as P;
      destruct (p_chars c n) as [[?|] ?]
  | |- context [p_char ?c] =>
      is_var c;
      let P := fresh "P" in
      pose proof (p_char_steps c) as P;
      destruct (p_char c) as [[?|] ?]
  | |- context [maybe_p_whitespace input ?c] =>
      is_var c;
      let P := fresh "P" in
      pose proof (maybe_p_whitespace_steps c) as P;
      generalize dependent (maybe_p_whitespace input c); intros
  | |- context [p_octal input ?c ?o] =>
      is_var c;
      let P := fresh "P" in
      pose proof (p_octal_steps c o) as P;
      destruct (p_octal input c o) as [? ?]
  | |- context [fraction_loop input ?f ?n ?d ?c] =>
      is_var c;
      let P := fresh "P" in
      pose proof (fraction_loop_steps f n d c) as P;
      destruct (fraction_loop input f n d c) as [? ?]
  | |- context [handle_escaped input ?c] =>
      is_var c;
      let P := fresh "P" in
      pose proof (handle_escaped_post c) as P;
      destruct (handle_escaped input c) as [[?|?|?|] ?]
  | |- context [match ?x with _ => _ end] => destruct x
  end; cbn [fst snd] in *.

Ltac forward := cbv zeta; repeat forward_call; cbn [fst snd]; try post_close.

Lemma p_empty_post c :
  post c (fst (p_empty input c)) (snd (p_empty input c)).
Proof. unfold p_empty. forward. Qed.

Lemma p_bool_post c : post c (fst (p_bool input c)) (snd (p_bool input c)).
Proof. unfold p_bool. forward. Qed.

Lemma string_scan_post fuel c k :
  post c (fst (string_scan input fuel c k)) (snd (string_scan input fuel c k)).
Proof.
  revert c k. induction fuel as [|fuel IH]; intros c k; simpl.
  { post_close. }
  forward;
    match goal with
    | |- context [string_scan input fuel ?c ?k] => post_via (IH c k)
    end.
Qed.

Lemma string_decode_post fuel c p e len out :
  post c (fst (string_decode input fuel c p e len out))
         (snd (string_decode input fuel c p e len out)).
Proof.
  revert c p out. induction fuel as [|fuel IH]; intros c p out; simpl.
  { destruct (e <=? p); simpl; post_close. }
  destruct (e <=? p); simpl; [post_close|].
  unfold store. forward;
    match goal with
    | |- context [string_decode input fuel ?c ?p ?e ?l ?o] =>
        post_via (IH c p o)
    end.
Qed.

Lemma p_double_integer_steps c : steps c (snd (p_double_integer input c)).
Proof. unfold p_double_integer. forward. Qed.

Lemma p_double_fraction_post n c :
  post c (fst (p_double_fraction input n c))
         (snd (p_double_fraction input n c)).
Proof. unfold p_double_fraction. forward. Qed.

Lemma p_double_exponent_post n c :
  post c (fst (p_double_exponent input n c))
         (snd (p_double_exponent input n c)).
Proof. unfold p_double_exponent. forward. Qed.

Lemma p_double_post c :
  post c (fst (p_double input c)) (snd (p_double input c)).
Proof.
  unfold p_double. cbv zeta.
  set (c1 := if Ascii.eqb (peek input c) "-" then snd (p_char c) else c).
  assert (S1 : steps c c1).
  { subst c1. destruct (Ascii.eqb _ _); auto with cursor.
    apply p_char_steps. }
  clearbody c1.
  pose proof (p_double_integer_steps c1) as S2.
  destruct (p_double_integer input c1) as [n c2]. cbn [fst snd] in S2.
  pose proof (maybe_p_whitespace_steps c2) as S3.
  generalize dependent (maybe_p_whitespace input c2). intros c3 S3.
  pose proof (p_double_fraction_post n c3) as S4.
  destruct (p_double_fraction input n c3) as [[n'|?|?|] c4];
    cbn [fst snd] in *; try post_close.
  pose proof (p_double_exponent_post n' c4) as S5.
  destruct (p_double_exponent input n' c4) as [[n''|?|?|] c5];
    cbn [fst snd] in *; post_close.
Qed.

Lemma p_string_post c h :
  post c (fst (fst (p_string input c h))) (snd (fst (p_string input c h))).
Proof.
  unfold p_string, CALLOC, store. cbv zeta.
  destruct (p_char c) as [[start|] c1] eqn:E1;
    pose proof (p_char_steps c) as P1; rewrite E1 in P1; cbn [fst snd] in *;
    [|post_close].
  destruct (negb _); cbn [fst snd]; [post_close|].
  pose proof (string_scan_post (S (s_end c1 - s c1)) c1 0) as P2.
  destruct (string_scan input _ c1 0) as [[[e k]|?|?|] c2];
    cbn [fst snd] in *; try post_close.
  pose proof (string_decode_post (e - S start) c2 (S start) e
                (e - S start - k + 1) []) as P3.
  destruct (string_decode input _ c2 _ _ _ _) as [[bytes|?|?|] c3];
    cbn [fst snd] in *; try post_close.
  destruct (_ <=? _); cbn [fst snd]; post_close.
Qed.

#[local] Arguments p_value_return : simpl never.
#[local] Arguments strncmp : simpl never.
#[local] Arguments strcmp : simpl never.
#[local] Arguments strncasecmp : simpl never.

Lemma p_value_return_post A ret (mk : A -> dson_value) r c :
  post c (fst (fst r)) (snd (fst r)) ->
  post c (fst (fst (p_value_return ret mk r)))
         (snd (fst (p_value_return ret mk r))).
Proof.
  unfold p_value_return.
  destruct r as [[[?|?|?|] ?] ?]; cbn [fst snd]; intros; post_close.
Qed.

(** The five mutually recursive parsers, by induction on the fuel. *)
Lemma structural_post fuel :
  (forall c h,
     post c (fst (fst (p_value input fuel c h)))
            (snd (fst (p_value input fuel c h)))) /\
  (forall c h,
     post c (fst (fst (p_array input fuel c h)))
            (snd (fst (p_array input fuel c h)))) /\
  (forall c h array elts,
     post c (fst (fst (p_array_loop input fuel c h array elts)))
            (snd (fst (p_array_loop input fuel c h array elts)))) /\
  (forall c h,
     post c (fst (fst (p_dict input fuel c h)))
            (snd (fst (p_dict input fuel c h)))) /\
  (forall c h dict keys values entries,
     post c (fst (fst (p_dict_loop input fuel c h dict keys values entries)))
            (snd (fst (p_dict_loop input fuel c h dict keys values
                         entries)))).
Proof.
  induction fuel as [|fuel (IHv & IHa & IHal & IHd & IHdl)].
  { repeat split; intros; simpl; auto with cursor. }
  split; [|split; [|split; [|split]]]; intros.
  - (* p_value *)
    simpl. unfold CALLOC. cbv zeta.
    repeat match goal with
    | |- context [if ?b then _ else _] => destruct b
    end; cbn [fst snd]; try post_close.
    + apply p_value_return_post, p_string_post.
    + pose proof (p_double_post c) as P.
      destruct (p_double input c) as [r c1].
      apply p_value_return_post. exact P.
    + pose proof (p_bool_post c) as P.
      destruct (p_bool input c) as [r c1].
      apply p_value_return_post. exact P.
    + pose proof (p_empty_post c) as P.
      destruct (p_empty input c) as [r c1].
      apply p_value_return_post. exact P.
    + apply p_value_return_post, IHa.
    + apply p_value_return_post, IHd.
  - (* p_array *)
    simpl. unfold CALLOC. cbv zeta.
    destruct (p_chars c 2) as [[sp|] c1] eqn:E1;
      pose proof (p_chars_steps c 2) as P1; rewrite E1 in P1;
      cbn [fst snd] in *; [|post_close].
    destruct (strncmp _ _ _ _); cbn [fst snd]; [post_close|].
    pose proof (maybe_p_whitespace_steps c1) as P2.
    generalize dependent (maybe_p_whitespace input c1). intros c2 P2.
    assert (L : forall x,
      x = (if negb (Ascii.eqb (peek input c2) "m")
           then p_array_loop input fuel c2
                  (mkHeap (next h :: live h) (S (next h)) (invalid_frees h))
                  (next h) []
           else (Ok [], c2,
                 mkHeap (next h :: live h) (S (next h)) (invalid_frees h))) ->
      post c2 (fst (fst x)) (snd (fst x))).
    { intros x ->. destruct (negb _); [apply IHal|cbn; post_close]. }
    specialize (L _ eq_refl).
    destruct (if negb _ then _ else _) as [[[elts|?|?|] c3] h3];
      cbn [fst snd] in *; try post_close.
    forward.
  - (* p_array_loop *)
    simpl.
    pose proof (IHv c h) as P.
    destruct (p_value input fuel c h) as [[[?|?|?|] ?] ?];
      cbn [fst snd] in *; try post_close.
    forward;
      match goal with
      | |- context [p_array_loop input fuel ?c ?h ?a ?l] =>
          post_via (IHal c h a l)
      end.
  - (* p_dict *)
    simpl. unfold CALLOC. cbv zeta.
    destruct (p_chars c 4) as [[sp|] c1] eqn:E1;
      pose proof (p_chars_steps c 4) as P1; rewrite E1 in P1;
      cbn [fst snd] in *; [|post_close].
    destruct (strncmp _ _ _ _); cbn [fst snd]; [post_close|].
    match goal with
    | |- context [p_dict_loop input fuel ?c ?h ?d ?k ?v ?l] =>
        pose proof (IHdl c h d k v l) as P2;
        destruct (p_dict_loop input fuel c h d k v l)
          as [[[entries|?|?|] c2] h2]
    end; cbn [fst snd] in *; try post_close.
    forward.
  - (* p_dict_loop *)
    simpl.
    pose proof (maybe_p_whitespace_steps c) as P0.
    generalize dependent (maybe_p_whitespace input c). intros c0 P0.
    pose proof (p_string_post c0 h) as P1.
    destruct (p_string input c0 h) as [[[[k kbytes]|?|?|] c1] h1];
      cbn [fst snd] in *; try post_close.
    pose proof (maybe_p_whitespace_steps c1) as P2.
    generalize dependent (maybe_p_whitespace input c1). intros c2 P2.
    destruct (p_chars c2 2) as [[sp|] c3] eqn:E3;
      pose proof (p_chars_steps c2 2) as P3; rewrite E3 in P3;
      cbn [fst snd] in *; [|post_close].
    destruct (strncmp _ _ _ _); cbn [fst snd]; [post_close|].
    pose proof (maybe_p_whitespace_steps c3) as P4.
    generalize dependent (maybe_p_whitespace input c3). intros c4 P4.
    pose proof (IHv c4 h1) as P5.
    destruct (p_value input fuel c4 h1) as [[[v|?|?|] c5] h5];
      cbn [fst snd] in *; try post_close.
    pose proof (maybe_p_whitespace_steps c5) as P6.
    generalize dependent (maybe_p_whitespace input c5). intros c6 P6.
    destruct (is_separator _); cbn [fst snd]; [|post_close].
    pose proof (p_char_steps c6) as P7.
    match goal with
    | |- context [p_dict_loop input fuel ?c ?h ?d ?k ?v ?l] =>
        post_via (IHdl c h d k v l)
    end.
Qed.

End Forward.

(** C9: the cursor's offset never decreases: character consumption,
    whitespace skipping, every primitive parser and every structural parser
    return a cursor whose offset is at least the one they were given,
    whatever the input, the cursor and the outcome. *)
Theorem cursor_monotone :
  forall (input : list ascii) (c : context),
    (forall n, s c <= s (snd (p_chars c n))) /\
    s c <= s (snd (p_char c)) /\
    s c <= s (maybe_p_whitespace input c) /\
    s c <= s (snd (p_empty input c)) /\
    s c <= s (snd (p_bool input c)) /\
    (forall out, s c <= s (snd (p_octal input c out))) /\
    s c <= s (snd (handle_escaped input c)) /\
    s c <= s (snd (p_double input c)) /\
    (forall h, s c <= s (snd (fst (p_string input c h)))) /\
    (forall fuel h, s c <= s (snd (fst (p_value input fuel c h)))) /\
    (forall fuel h, s c <= s (snd (fst (p_array input fuel c h)))) /\
    (forall fuel h, s c <= s (snd (fst (p_dict input fuel c h)))).
Proof.
  intros input c.
  repeat split; intros.
  - apply p_chars_steps.
  - apply p_char_steps.
  - apply maybe_p_whitespace_steps.
  - apply p_empty_post.
  - apply p_bool_post.
  - apply p_octal_steps.
  - apply handle_escaped_post.
  - apply p_double_post.
  - apply p_string_post.
  - apply (structural_post input fuel).
  - apply (structural_post input fuel).
  - apply (structural_post input fuel).
Qed.

(** ** The fuel of the model is enough *)

(** The loops of the two passes of [p_string] and the calls among
    [p_value], [p_array] and [p_dict] are bounded by the bytes left in the
    buffer: with the fuel [dson_parse] gives them, none runs out. *)

Lemma p_chars_consumes c n p c' :
  p_chars c n = (Some p, c') ->
  s c' = s c + n /\ s_end c' = s_end c /\ s c + n <= s_end c.
Proof.
  unfold p_chars. destruct (Nat.ltb_spec (s_end c) (s c + n)); [discriminate|].
  intros [= <- <-]. cbn [advance s s_end]. auto.
Qed.

Ltac returned := cbn [fst snd]; unfold ERROR; discriminate.

Section Fuel.

Variable input : list ascii.

Lemma string_scan_returns : forall fuel c k,
  s_end c - s c < fuel -> fst (string_scan input fuel c k) <> OutOfFuel.
Proof.
  induction fuel as [|fuel IH]; intros c k L; [lia|].
  cbn [string_scan]. unfold p_char.
  destruct (p_chars c 1) as [[e1|] c1] eqn:E1; [|returned].
  apply p_chars_consumes in E1.
  destruct (Ascii.eqb _ dquote); [returned|].
  destruct (Ascii.eqb _ backslash); [|apply IH; lia].
  destruct (p_chars c1 1) as [[e2|] c2] eqn:E2; [|returned].
  apply p_chars_consumes in E2.
  destruct (Ascii.eqb _ "u"); [|apply IH; lia].
  destruct (p_chars c2 6) as [[e3|] c3] eqn:E3; [|returned].
  apply p_chars_consumes in E3. apply IH. lia.
Qed.

Lemma handle_escaped_returns c : fst (handle_escaped input c) <> OutOfFuel.
Proof.
  unfold handle_escaped.
  destruct (handle_escaped_loop input 6 0%float c) as [acc c1].
  destruct (write_utf8 _) as [len buf]. destruct (len =? 0)%Z; returned.
Qed.

Lemma string_decode_returns : forall fuel c p e len out,
  e - p <= fuel -> fst (string_decode input fuel c p e len out) <> OutOfFuel.
Proof.
  induction fuel as [|fuel IH]; intros c p e len out L;
    cbn [string_decode]; destruct (Nat.leb_spec e p); try returned; [lia|].
  assert (Put : forall x q,
            p <= q ->
            fst (match store len out x with
                 | Ok out' => string_decode input fuel c (S q) e len out'
                 | Err err => (Err err, c)
                 | Undefined u => (Undefined u, c)
                 | OutOfFuel => (OutOfFuel, c)
                 end) <> OutOfFuel).
  { intros x q Lq. unfold store.
    destruct (_ <=? len); [apply IH; lia|returned]. }
  destruct (negb _); [apply Put; lia|]. cbv zeta.
  repeat match goal with
  | |- context [if ?b then _ else _] => destruct b
  end; try (apply Put; lia); try returned.
  pose proof (handle_escaped_returns c) as R.
  destruct (handle_escaped input c) as [[buf| | |] c0]; cbn [fst] in R;
    try returned; [|contradiction].
  unfold store. destruct (_ <=? len); [apply IH; lia|returned].
Qed.

Lemma p_string_returns c h : fst (fst (p_string input c h)) <> OutOfFuel.
Proof.
  unfold p_string, p_char. cbv zeta.
  destruct (p_chars c 1) as [[start|] c0]; [|returned].
  destruct (negb _); [returned|].
  pose proof (string_scan_returns (S (s_end c0 - s c0)) c0 0) as R.
  destruct (string_scan input _ c0 0) as [[[e k]| | |] c1]; cbn [fst] in R;
    try returned; [|exfalso; apply R; [lia|reflexivity]].
  destruct (CALLOC h) as [out h0].
  pose proof (string_decode_returns (e - S start) c1 (S start) e
                (e - S start - k + 1) []) as D.
  destruct (string_decode input _ c1 _ _ _ _) as [[bytes| | |] c2];
    cbn [fst] in D; try returned; [|exfalso; apply D; [lia|reflexivity]].
  unfold store. destruct (_ <=? _); returned.
Qed.

Lemma p_empty_returns c : fst (p_empty input c) <> OutOfFuel.
Proof.
  unfold p_empty. destruct (p_chars c _) as [[sp|] c0]; [|returned].
  destruct (strcmp _ _ _); returned.
Qed.

Lemma p_bool_returns c : fst (p_bool input c) <> OutOfFuel.
Proof.
  unfold p_bool, p_char. destruct (p_chars c 2) as [[sp|] c0]; [|returned].
  destruct (_ && _).
  - destruct (p_chars c0 1) as [[sp1|] c1]; [|returned].
    destruct (negb _); returned.
  - destruct (_ && _); returned.
Qed.

Lemma p_double_fraction_returns n c :
  fst (p_double_fraction input n c) <> OutOfFuel.
Proof.
  unfold p_double_fraction. destruct (Ascii.eqb _ "."); [|returned].
  cbv zeta. destruct (negb _); [returned|].
  destruct (fraction_loop input _ _ _ _); returned.
Qed.

Lemma p_double_exponent_returns n c :
  fst (p_double_exponent input n c) <> OutOfFuel.
Proof.
  unfold p_double_exponent. destruct (_ || _); [|returned].
  destruct (p_chars c 4) as [[sp|] c0]; [|returned].
  destruct (strncasecmp _ _ _ _); [returned|]. cbv zeta.
  destruct (negb _); [returned|].
  destruct (p_octal input _ _); returned.
Qed.

Lemma p_double_returns c : fst (p_double input c) <> OutOfFuel.
Proof.
  unfold p_double. cbv zeta.
  destruct (p_double_integer input _) as [n c0].
  pose proof (p_double_fraction_returns n (maybe_p_whitespace input c0)) as R.
  destruct (p_double_fraction input n _) as [[n1| | |] c1]; cbn [fst] in R;
    try returned; [|contradiction].
  pose proof (p_double_exponent_returns n1 c1) as R1.
  destruct (p_double_exponent input n1 c1) as [[n2| | |] c2]; cbn [fst] in R1;
    try returned. contradiction.
Qed.

#[local] Arguments p_value_return : simpl never.
#[local] Arguments strncmp : simpl never.

Lemma p_value_return_returns A ret (mk : A -> dson_value) r :
  fst (fst r) <> OutOfFuel ->
  fst (fst (p_value_return ret mk r)) <> OutOfFuel.
Proof.
  unfold p_value_return. destruct r as [[[?|?|?|] ?] ?]; cbn [fst snd]; auto;
    discriminate.
Qed.

(** The five mutually recursive parsers: each call takes one unit of fuel,
    and between two calls of [p_value] at least two bytes are consumed. *)
Lemma structural_returns : forall fuel,
  (forall c h,
     2 * (s_end c - s c) + 2 <= fuel ->
     fst (fst (p_value input fuel c h)) <> OutOfFuel) /\
  (forall c h,
     2 * (s_end c - s c) + 1 <= fuel ->
     fst (fst (p_array input fuel c h)) <> OutOfFuel) /\
  (forall c h array elts,
     2 * (s_end c - s c) + 3 <= fuel ->
     fst (fst (p_array_loop input fuel c h array elts)) <> OutOfFuel) /\
  (forall c h,
     2 * (s_end c - s c) + 1 <= fuel ->
     fst (fst (p_dict input fuel c h)) <> OutOfFuel) /\
  (forall c h dict keys values entries,
     2 * (s_end c - s c) + 1 <= fuel ->
     fst (fst (p_dict_loop input fuel c h dict keys values entries))
       <> OutOfFuel).
Proof.
  induction fuel as [|fuel (IHv & IHa & IHal & IHd & IHdl)].
  { repeat split; intros; lia. }
  split; [|split; [|split; [|split]]].
  - (* p_value *)
    intros c h L. simpl. unfold CALLOC. cbv zeta.
    repeat match goal with
    | |- context [if ?b then _ else _] => destruct b
    end; try returned.
    + apply p_value_return_returns, p_string_returns.
    + pose proof (p_double_returns c) as R.
      destruct (p_double input c) as [r c1].
      apply p_value_return_returns. exact R.
    + pose proof (p_bool_returns c) as R.
      destruct (p_bool input c) as [r c1].
      apply p_value_return_returns. exact R.
    + pose proof (p_empty_returns c) as R.
      destruct (p_empty input c) as [r c1].
      apply p_value_return_returns. exact R.
    + apply p_value_return_returns, IHa. lia.
    + apply p_value_return_returns, IHd. lia.
  - (* p_array *)
    intros c h L. simpl. unfold CALLOC. cbv zeta.
    destruct (p_chars c 2) as [[sp|] c1] eqn:E1; [|returned].
    apply p_chars_consumes in E1.
    destruct (strncmp _ _ _ 2); [returned|].
    pose proof (maybe_p_whitespace_steps input c1) as S1.
    remember (maybe_p_whitespace input c1) as c2 eqn:W. clear W.
    unfold steps in S1.
    destruct (negb _).
    + match goal with
      | |- context [p_array_loop input fuel c2 ?h ?a ?l] =>
          pose proof (IHal c2 h a l) as R;
          destruct (p_array_loop input fuel c2 h a l) as [[[elts| | |] c3] h3]
      end; cbn [fst] in R; try returned; [|exfalso; apply R; [lia|reflexivity]].
      destruct (p_chars c3 4) as [[sp4|] c4]; [|returned].
      destruct (strncmp _ _ _ 4); returned.
    + destruct (p_chars c2 4) as [[sp4|] c4]; [|returned].
      destruct (strncmp _ _ _ 4); returned.
  - (* p_array_loop *)
    intros c h array elts L. simpl.
    pose proof (IHv c h) as R.
    pose proof (proj1 (structural_post input fuel) c h) as [S0 _].
    destruct (p_value input fuel c h) as [[[v| | |] c1] h1];
      cbn [fst snd] in R, S0; try returned; [|exfalso; apply R; [lia|reflexivity]].
    pose proof (maybe_p_whitespace_steps input c1) as S1.
    remember (maybe_p_whitespace input c1) as c2 eqn:W. clear W.
    unfold steps in S0, S1.
    destruct (negb (Ascii.eqb _ "a")); [returned|].
    destruct (p_chars c2 3) as [[sp|] c3] eqn:E3; [|returned].
    apply p_chars_consumes in E3.
    pose proof (maybe_p_whitespace_steps input c3) as S3.
    unfold steps in S3.
    destruct (negb (strncmp _ _ _ 3)); [apply IHal; lia|].
    destruct (strncmp _ _ _ 3); [returned|]. unfold p_char.
    destruct (p_chars c3 1) as [[sp1|] c4] eqn:E4; [|returned].
    apply p_chars_consumes in E4.
    destruct (negb _); [returned|].
    pose proof (maybe_p_whitespace_steps input c4) as S4.
    unfold steps in S4. apply IHal. lia.
  - (* p_dict *)
    intros c h L. simpl. unfold CALLOC. cbv zeta.
    destruct (p_chars c 4) as [[sp|] c1] eqn:E1; [|returned].
    apply p_chars_consumes in E1.
    destruct (strncmp _ _ _ 4); [returned|].
    match goal with
    | |- context [p_dict_loop input fuel c1 ?h ?d ?k ?v ?l] =>
        pose proof (IHdl c1 h d k v l) as R;
        destruct (p_dict_loop input fuel c1 h d k v l)
          as [[[entries| | |] c2] h2]
    end; cbn [fst] in R; try returned; [|exfalso; apply R; [lia|reflexivity]].
    destruct (p_chars c2 3) as [[sp3|] c3]; [|returned].
    destruct (strncmp _ _ _ 3); returned.
  - (* p_dict_loop *)
    intros c h dict keys values entries L. simpl.
    pose proof (maybe_p_whitespace_steps input c) as S0.
    remember (maybe_p_whitespace input c) as c0 eqn:W. clear W.
    pose proof (p_string_returns c0 h) as R.
    pose proof (p_string_post input c0 h) as [S1 _].
    destruct (p_string input c0 h) as [[[[k kbytes]| | |] c1] h1];
      cbn [fst snd] in R, S1; try returned; [|contradiction].
    pose proof (maybe_p_whitespace_steps input c1) as S2.
    remember (maybe_p_whitespace input c1) as c2 eqn:W. clear W.
    destruct (p_chars c2 2) as [[sp|] c3] eqn:E3; [|returned].
    apply p_chars_consumes in E3.
    destruct (strncmp _ _ _ 2); [returned|].
    pose proof (maybe_p_whitespace_steps input c3) as S3.
    remember (maybe_p_whitespace input c3) as c4 eqn:W. clear W.
    unfold steps in S0, S1, S2, S3.
    pose proof (IHv c4 h1) as Rv.
    pose proof (proj1 (structural_post input fuel) c4 h1) as [S4 _].
    destruct (p_value input fuel c4 h1) as [[[v| | |] c5] h5];
      cbn [fst snd] in Rv, S4; try returned; [|exfalso; apply Rv; [lia|reflexivity]].
    pose proof (maybe_p_whitespace_steps input c5) as S5.
    remember (maybe_p_whitespace input c5) as c6 eqn:W. clear W.
    pose proof (p_char_steps c6) as S6.
    unfold steps in S4, S5, S6.
    destruct (is_separator _); [|returned].
    apply IHdl. lia.
Qed.

End Fuel.

(** [dson_parse] returns: a value, an error, or the undefined behaviour
    of a store past the end of the string's allocation. *)
Lemma dson_parse_returns input length unsafe h :
  fst (fst (dson_parse input length unsafe h)) <> OutOfFuel.
Proof.
  unfold dson_parse. destruct (negb _); [discriminate|].
  pose proof (proj1 (structural_returns input (2 * length + 2))
                (mkContext 0 length 0 unsafe) h) as R.
  cbn [s s_end] in R.
  destruct (p_value input _ _ h) as [[[v| | |] c'] h']; cbn [fst] in *;
    try discriminate.
  exfalso. apply R; [lia|reflexivity].
Qed.

(** ** Failure of the top-level call *)

(** C6, as stated, fails: with [length] 0 on the buffer 7 the byte
    [input[length]] is not NUL, the call fails, and the message it returns
    is the bare string, with no position. *)
Lemma not_nul_terminated_counterexample :
  dson_parse (str "7") 0 false empty_heap
    = (Err NotNulTerminated, None, empty_heap) /\
  ~ (exists pos msg, NotNulTerminated = AtInputChar pos msg).
Proof.
  split; [reflexivity|]. intros (pos & msg & E). discriminate.
Qed.

(** C6 (amended): whenever the parse fails the output handle is left null
    and an error is returned; the error of a failed NUL-terminator check is
    the bare message, every other error carries an offset into the input,
    between 0 and [length]. A root value is delivered exactly when the call
    returns no error. The call always returns: the fuel of the model never
    runs out. *)
Theorem parse_failure_returns_no_value :
  forall (input : list ascii) (length : nat) (unsafe : bool) (h : heap),
    let r := dson_parse input length unsafe h in
    match fst (fst r) with
    | Ok _ =>
        (exists v, snd (fst r) = Some v) /\ nth length input NUL = NUL
    | Err e =>
        snd (fst r) = None /\
        (e = NotNulTerminated <-> nth length input NUL <> NUL) /\
        (forall pos msg,
           e = AtInputChar pos msg -> (0 <= pos <= Z.of_nat length)%Z)
    | Undefined _ => snd (fst r) = None
    | OutOfFuel => False
    end.
Proof.
  intros input length unsafe h r. subst r.
  pose proof (dson_parse_returns input length unsafe h) as R.
  unfold dson_parse in *.
  destruct (Ascii.eqb_spec (nth length input NUL) NUL) as [E|E];
    cbn [negb fst snd] in *.
  2:{ repeat split; auto; try discriminate. }
  pose proof (proj1 (structural_post input (2 * length + 2))
                (mkContext 0 length 0 unsafe) h) as [S A].
  destruct (p_value input _ _ h) as [[[v|e|u|] c'] h'];
    cbn [fst snd] in *; auto.
  - split; [eauto|assumption].
  - destruct (A e eq_refl) as [msg ->].
    split; [reflexivity|]. split.
    + split; [discriminate|]. intros N. contradiction.
    + intros pos msg' [= <- _].
      destruct S as (S1 & S2 & S3 & _ & S5). cbn in *. lia.
Qed.

(** ** Releasing a value tree *)

(** Induction on a value with the elements of arrays and dictionaries. *)
Section Value_induction.

Variable P : dson_value -> Prop.
Hypothesis P_string : forall self sp bytes, P (DSON_STRING self sp bytes).
Hypothesis P_double : forall self n, P (DSON_DOUBLE self n).
Hypothesis P_bool : forall self b, P (DSON_BOOL self b).
Hypothesis P_none : forall self, P (DSON_NONE self).
Hypothesis P_array : forall self array elts,
  Forall P elts -> P (DSON_ARRAY self array elts).
Hypothesis P_dict : forall self dict keys values entries,
  Forall (fun e => P (snd e)) entries ->
  P (DSON_DICT self dict keys values entries).

Fixpoint dson_value_nested_ind (v : dson_value) : P v :=
  match v with
  | DSON_STRING self sp bytes => P_string self sp bytes
  | DSON_DOUBLE self n => P_double self n
  | DSON_BOOL self b => P_bool self b
  | DSON_NONE self => P_none self
  | DSON_ARRAY self array elts =>
      P_array self array elts
        ((fix all (l : list dson_value) : Forall P l :=
            match l with
            | [] => Forall_nil P
            | x :: l' => Forall_cons x (dson_value_nested_ind x) (all l')
            end) elts)
  | DSON_DICT self dict keys values entries =>
      P_dict self dict keys values entries
        ((fix all (l : list (ptr * list ascii * dson_value))
            : Forall (fun e => P (snd e)) l :=
            match l with
            | [] => Forall_nil _
            | e :: l' =>
                Forall_cons (P := fun e => P (snd e)) e
                  (dson_value_nested_ind (snd e)) (all l')
            end) entries)
  end.

End Value_induction.

Lemma free_all_app ps qs h : free_all (ps ++ qs) h = free_all qs (free_all ps h).
Proof. apply fold_left_app. Qed.

Lemma free_value_blocks v : forall h, free_value v h = free_all (blocks v) h.
Proof.
  induction v using dson_value_nested_ind; intros h; try reflexivity.
  - (* array *)
    cbn [free_value blocks]. rewrite free_all_app. cbn [free_all fold_left].
    do 2 f_equal. revert h.
    induction H as [|x l Hx Hl IH]; intros h; [reflexivity|].
    cbn [flat_map]. rewrite free_all_app, <- Hx. apply IH.
  - (* dictionary *)
    cbn [free_value blocks]. rewrite free_all_app. cbn [free_all fold_left].
    do 4 f_equal. revert h.
    induction H as [|[[k b] x] l Hx Hl IH]; intros h; [reflexivity|].
    cbn [flat_map fst snd]. rewrite free_all_app.
    change (free_all (k :: blocks x) h) with (free_all (blocks x) (free k h)).
    cbn [snd] in Hx. rewrite <- Hx. apply IH.
Qed.

Lemma free_live p h :
  In p (live h) ->
  invalid_frees (free p h) = invalid_frees h /\
  next (free p h) = next h /\
  live (free p h) = remove Nat.eq_dec p (live h).
Proof.
  intros I. unfold free. destruct (in_dec Nat.eq_dec p (live h)); [|tauto].
  auto.
Qed.

(** Releasing distinct live blocks removes exactly them and is never an
    invalid free. *)
Lemma free_all_live ps : forall h,
  NoDup ps -> incl ps (live h) ->
  invalid_frees (free_all ps h) = invalid_frees h /\
  next (free_all ps h) = next h /\
  (forall p, In p (live (free_all ps h)) <-> In p (live h) /\ ~ In p ps).
Proof.
  induction ps as [|q ps IH]; intros h N I.
  - cbn. intuition.
  - cbn [free_all fold_left]. fold (free_all ps (free q h)).
    inversion N as [|? ? Nq Nps]; subst.
    destruct (free_live q h) as (F1 & F2 & F3); [apply I; left; reflexivity|].
    destruct (IH (free q h) Nps) as (G1 & G2 & G3).
    { intros p Hp. rewrite F3. apply in_in_remove.
      - intros ->. contradiction.
      - apply I. right. exact Hp. }
    split; [congruence|]. split; [congruence|].
    intros p. rewrite G3, F3. split.
    + intros [R Np]. apply in_remove in R. destruct R as [R Rq].
      split; [exact R|]. intros [->|?]; tauto.
    + intros [R Np]. split.
      * apply in_in_remove; [|exact R]. intros ->. apply Np. left. reflexivity.
      * intros ?. apply Np. right. assumption.
Qed.

(** C8: [dson_free] is to be safe on an empty value, and a second release
    after the handle has been cleared is to be harmless. The first release
    is as claimed: on a handle that holds a value tree of any shape, whose
    blocks are distinct and live, it releases every block of the tree (and
    nothing else, with no invalid free) and leaves NULL in the handle; and
    given a NULL pointer to a handle it returns at once. But the function
    reads the type of the value before anything else, and only the pointer
    to the handle is tested: on a handle that holds NULL, which is what the
    handle holds once it has been cleared, it dereferences NULL. So the
    second release through the cleared handle is undefined behaviour, not
    a release of nothing. *)
Theorem dson_free_cleared_handle :
  forall (v : dson_value) (h : heap),
    NoDup (blocks v) -> incl (blocks v) (live h) ->
    exists handle h',
      dson_free (Some (Some v)) h = (Ok (Some handle), h') /\
      handle = None /\
      invalid_frees h' = invalid_frees h /\
      (forall p, In p (live h') <-> In p (live h) /\ ~ In p (blocks v)) /\
      dson_free (Some handle) h' = (Undefined NullDereference, h') /\
      (forall h0, dson_free (Some None) h0 = (Undefined NullDereference, h0)) /\
      (forall h0, dson_free None h0 = (Ok None, h0)).
Proof.
  intros v h N I. exists None, (free_value v h).
  split; [reflexivity|]. split; [reflexivity|].
  rewrite free_value_blocks.
  destruct (free_all_live _ h N I) as (F1 & F2 & F3).
  split; [exact F1|]. split; [exact F3|].
  split; [reflexivity|]. split; reflexivity.
Qed.

(** The value parsed from an array of a string and a dictionary, released
    from the heap the parse left: every block goes, and the second release
    through the same handle dereferences NULL. *)
Lemma dson_free_cleared_handle_witness :
  let v := DSON_ARRAY 0 1
             [DSON_STRING 2 3 (str "a");
              DSON_DICT 4 7 5 6 [(8, str "k", DSON_NONE 9)]] in
  let h := mkHeap [9; 8; 7; 6; 5; 4; 3; 2; 1; 0] 10 [] in
  (NoDup (blocks v) /\ incl (blocks v) (live h)) /\
  exists handle h',
    dson_free (Some (Some v)) h = (Ok (Some handle), h') /\
    handle = None /\
    invalid_frees h' = invalid_frees h /\
    (forall p, In p (live h') <-> In p (live h) /\ ~ In p (blocks v)) /\
    dson_free (Some handle) h' = (Undefined NullDereference, h') /\
    (forall h0, dson_free (Some None) h0 = (Undefined NullDereference, h0)) /\
    (forall h0, dson_free None h0 = (Ok None, h0)).
Proof.
  intros v h.
  assert (N : NoDup (blocks v)).
  { cbn.
    repeat (apply NoDup_cons;
            [cbn; intros H;
             repeat (destruct H as [H|H]; [discriminate H|]); exact H|]).
    apply NoDup_nil. }
  assert (I : incl (blocks v) (live h)).
  { intros x Hx. cbn in Hx |- *.
    repeat (destruct Hx as [Hx|Hx];
            [subst x; repeat (first [left; reflexivity | right])|]).
    contradiction. }
  split; [split; assumption|].
  exact (dson_free_cleared_handle v h N I).
Defined.

(** ** Reading a known layout *)

Lemma advance_0 c : advance c 0 = c.
Proof. destruct c. unfold advance. cbn. f_equal. lia. Qed.

Lemma advance_advance c a b : advance (advance c a) b = advance c (a + b).
Proof. unfold advance. cbn. f_equal. lia. Qed.

Lemma p_chars_ok c n :
  s c + n <= s_end c -> p_chars c n = (Some (s c), advance c n).
Proof.
  intros H. unfold p_chars.
  destruct (Nat.ltb_spec (s_end c) (s c + n)); [lia|reflexivity].
Qed.

Lemma p_char_ok c :
  s c + 1 <= s_end c -> p_char c = (Some (s c), advance c 1).
Proof. apply p_chars_ok. Qed.

Section Layout.

Variable input : list ascii.

Lemma reads_nil p : reads input p [].
Proof. intros i H. cbn in H. lia. Qed.

Lemma reads_cons p x l :
  reads input p (x :: l) <-> char_at input p = x /\ reads input (S p) l.
Proof.
  split.
  - intros H. split.
    + specialize (H 0). rewrite Nat.add_0_r in H. apply H. cbn. lia.
    + intros i Hi. specialize (H (S i)).
      replace (p + S i) with (S p + i) in H by lia. apply H. cbn. lia.
  - intros [H0 H] [|i] Hi.
    + rewrite Nat.add_0_r. exact H0.
    + replace (p + S i) with (S p + i) by lia. apply H. cbn in Hi. lia.
Qed.

Lemma reads_app p l1 l2 :
  reads input p (l1 ++ l2) <->
  reads input p l1 /\ reads input (p + List.length l1) l2.
Proof.
  revert p. induction l1 as [|x l1 IH]; intros p.
  - cbn. rewrite Nat.add_0_r. split; [intros H; split; [apply reads_nil|exact H]|tauto].
  - cbn [app List.length]. rewrite !reads_cons, IH.
    replace (p + S (List.length l1)) with (S p + List.length l1) by lia.
    tauto.
Qed.

Lemma reads_head p x l : reads input p (x :: l) -> char_at input p = x.
Proof. intros H. apply reads_cons in H. tauto. Qed.

(** Skipping a run of whitespace that is followed by something else. *)
Lemma whitespace_loop_run ws : forall fuel c,
  reads input (s c) ws ->
  Forall (fun ch => is_space ch = true) ws ->
  is_space (char_at input (s c + List.length ws)) = false ->
  s c + List.length ws <= s_end c ->
  List.length ws <= fuel ->
  whitespace_loop input fuel c = advance c (List.length ws).
Proof.
  induction ws as [|w ws IH]; intros fuel c R F E B L.
  - cbn [List.length] in *. rewrite advance_0. destruct fuel; [reflexivity|].
    cbn [whitespace_loop]. unfold peek. rewrite Nat.add_0_r in E.
    unfold is_space in E. apply negb_false_iff in E. rewrite E. reflexivity.
  - cbn [List.length] in *. destruct fuel as [|fuel]; [lia|].
    apply reads_cons in R. destruct R as [R0 R].
    inversion F as [|? ? Fw Fws]; subst.
    cbn [whitespace_loop]. unfold peek.
    unfold is_space in Fw. apply negb_true_iff in Fw. rewrite Fw.
    rewrite p_char_ok by lia. cbn [snd].
    rewrite (IH fuel (advance c 1)); cbn [advance s s_end];
      rewrite ?advance_advance; auto; try lia.
    + replace (s c + 1) with (S (s c)) by lia. exact R.
    + replace (s c + 1 + List.length ws) with (s c + S (List.length ws))
        by lia. exact E.
Qed.

Lemma maybe_p_whitespace_run ws c :
  reads input (s c) ws ->
  Forall (fun ch => is_space ch = true) ws ->
  is_space (char_at input (s c + List.length ws)) = false ->
  s c + List.length ws <= s_end c ->
  maybe_p_whitespace input c = advance c (List.length ws).
Proof.
  intros. unfold maybe_p_whitespace. apply whitespace_loop_run; auto. lia.
Qed.

(** Reading a run of octal digits that is followed by something else. *)
Lemma octal_loop_run ds : forall fuel n c,
  reads input (s c) ds ->
  Forall (fun ch => is_octal ch = true) ds ->
  is_octal (char_at input (s c + List.length ds)) = false ->
  s c + List.length ds <= s_end c ->
  List.length ds <= fuel ->
  octal_loop input fuel n c = (octal_value n ds, advance c (List.length ds)).
Proof.
  induction ds as [|d ds IH]; intros fuel n c R F E B L.
  - cbn [List.length octal_value fold_left] in *. rewrite advance_0.
    destruct fuel; [reflexivity|].
    cbn [octal_loop]. unfold peek. rewrite Nat.add_0_r in E. rewrite E.
    reflexivity.
  - cbn [List.length] in *. destruct fuel as [|fuel]; [lia|].
    apply reads_cons in R. destruct R as [R0 R].
    inversion F as [|? ? Fd Fds]; subst.
    cbn [octal_loop]. unfold peek. rewrite Fd.
    rewrite p_char_ok by lia. cbn [snd].
    rewrite (IH fuel _ (advance c 1)); cbn [advance s s_end];
      rewrite ?advance_advance; auto; try lia.
    + replace (s c + 1) with (S (s c)) by lia. exact R.
    + replace (s c + 1 + List.length ds) with (s c + S (List.length ds))
        by lia. exact E.
Qed.

Lemma p_octal_run ds c out :
  reads input (s c) ds ->
  Forall (fun ch => is_octal ch = true) ds ->
  is_octal (char_at input (s c + List.length ds)) = false ->
  s c + List.length ds <= s_end c ->
  p_octal input c out
    = (octal_value 0%float ds, advance c (List.length ds)).
Proof.
  intros. unfold p_octal. apply octal_loop_run; auto. lia.
Qed.

End Layout.

(** ** String escapes *)

Section Strings.

Variable input : list ascii.

Lemma string_scan_plain pre : forall fuel c k,
  reads input (s c) pre ->
  Forall (fun ch => plain ch = true) pre ->
  s c + List.length pre <= s_end c ->
  List.length pre <= fuel ->
  string_scan input fuel c k
    = string_scan input (fuel - List.length pre)
        (advance c (List.length pre)) k.
Proof.
  induction pre as [|x pre IH]; intros fuel c k R F B L.
  - cbn [List.length]. rewrite advance_0, Nat.sub_0_r. reflexivity.
  - cbn [List.length] in *. destruct fuel as [|fuel]; [lia|].
    apply reads_cons in R. destruct R as [R0 R].
    inversion F as [|? ? Fx Fpre]; subst.
    unfold plain in Fx. apply andb_true_iff in Fx. destruct Fx as [Fq Fb].
    apply negb_true_iff in Fq, Fb.
    cbn [string_scan]. rewrite p_char_ok by lia. rewrite Fq, Fb.
    rewrite (IH fuel (advance c 1)); cbn [advance s s_end];
      rewrite ?advance_advance; auto; try lia.
    replace (s c + 1) with (S (s c)) by lia. exact R.
Qed.

Lemma string_decode_plain pre : forall fuel c p e len out,
  reads input p pre ->
  Forall (fun ch => plain ch = true) pre ->
  p + List.length pre <= e ->
  List.length out + List.length pre <= len ->
  List.length pre <= fuel ->
  string_decode input fuel c p e len out
    = string_decode input (fuel - List.length pre) c (p + List.length pre)
        e len (out ++ pre).
Proof.
  induction pre as [|x pre IH]; intros fuel c p e len out R F B C L.
  - cbn [List.length]. rewrite Nat.add_0_r, Nat.sub_0_r, app_nil_r.
    reflexivity.
  - cbn [List.length] in *. destruct fuel as [|fuel]; [lia|].
    apply reads_cons in R. destruct R as [R0 R].
    inversion F as [|? ? Fx Fpre]; subst.
    unfold plain in Fx. apply andb_true_iff in Fx. destruct Fx as [Fq Fb].
    apply negb_true_iff in Fb.
    cbn [string_decode].
    destruct (Nat.leb_spec e p); [lia|].
    rewrite Fb. cbn [negb]. unfold store. cbn [List.length].
    destruct (Nat.leb_spec (List.length out + 1) len); [|lia].
    rewrite (IH fuel c (S p) e len (out ++ [char_at input p])); auto;
      try lia.
    + cbn [Nat.sub]. rewrite <- app_assoc. cbn [app].
      replace (S p + List.length pre) with (p + S (List.length pre)) by lia.
      reflexivity.
    + rewrite length_app. cbn [List.length]. lia.
Qed.

End Strings.

Lemma reads_middle before l rest :
  reads (before ++ l ++ rest) (List.length before) l.
Proof.
  intros i Hi. unfold char_at.
  rewrite app_nth2 by lia.
  replace (List.length before + i - List.length before) with i by lia.
  rewrite app_nth1 by lia. reflexivity.
Qed.

Lemma Forall_plain_skipn n l :
  Forall (fun ch => plain ch = true) l ->
  Forall (fun ch => plain ch = true) (skipn n l).
Proof.
  revert l. induction n as [|n IH]; intros [|x l] F; cbn; auto.
  inversion F; auto.
Qed.

Lemma reads_skipn input p n l :
  reads input p l -> n <= List.length l -> reads input (p + n) (skipn n l).
Proof.
  intros R L.
  rewrite <- (firstn_skipn n l) in R. apply reads_app in R.
  destruct R as [_ R]. rewrite length_firstn in R.
  replace (Nat.min n (List.length l)) with n in R by lia. exact R.
Qed.

Lemma reads_at input p q l : reads input p l -> p = q -> reads input q l.
Proof. intros R <-. exact R. Qed.

(** The first loop on a string with one escape: the closing quote is found
    and the escape counted (three times for [\u], whose six bytes are
    skipped). *)
(** Rewrites with [H : char_at input p = x] at an occurrence whose offset
    is [p] up to arithmetic. *)
Ltac char_at_is H :=
  match type of H with
  | char_at ?i ?p = _ =>
      match goal with
      | |- context [char_at i ?x] =>
          replace x with p by (cbn [advance s s_end]; lia); rewrite H
      end
  end.

Lemma string_scan_one_escape input pre e post c :
  reads input (s c) (pre ++ backslash :: e :: post ++ [dquote]) ->
  Forall (fun ch => plain ch = true) pre ->
  Forall (fun ch => plain ch = true) post ->
  s c + (List.length pre + List.length post + 3) <= s_end c ->
  (e = "u"%char -> 6 <= List.length post) ->
  string_scan input (S (s_end c - s c)) c 0
    = (Ok (s c + List.length pre + List.length post + 2,
           if Ascii.eqb e "u" then 3 else 1),
       advance c (List.length pre + List.length post + 3)).
Proof.
  intros R Fpre Fpost B U.
  apply reads_app in R. destruct R as [Rpre R].
  apply reads_cons in R. destruct R as [Rb R].
  apply reads_cons in R. destruct R as [Re R].
  apply reads_app in R. destruct R as [Rpost R].
  apply reads_head in R.
  rewrite (string_scan_plain input pre _ c 0 Rpre) by (auto; lia).
  replace (S (s_end c - s c) - List.length pre)
    with (S (s_end c - s c - List.length pre)) by lia.
  cbn [string_scan]. rewrite p_char_ok by (cbn; lia).
  char_at_is Rb. cbn [Ascii.eqb dquote backslash Bool.eqb andb].
  rewrite p_char_ok by (cbn; lia).
  char_at_is Re.
  set (fuel := s_end c - s c - List.length pre).
  destruct (Ascii.eqb_spec e "u") as [->|Ne].
  - specialize (U eq_refl).
    rewrite p_chars_ok by (cbn; lia). rewrite !advance_advance.
    pose proof (reads_skipn input _ 6 post Rpost U) as R6.
    rewrite (string_scan_plain input (skipn 6 post));
      [ | eapply reads_at; [exact R6|cbn; lia]
        | apply Forall_plain_skipn; assumption
        | rewrite length_skipn; cbn; lia
        | rewrite length_skipn; subst fuel; lia ].
    rewrite length_skipn, !advance_advance.
    replace (fuel - (List.length post - 6))
      with (S (fuel - (List.length post - 6) - 1)) by (subst fuel; lia).
    cbn [string_scan].
    rewrite p_char_ok by (cbn; lia). rewrite !advance_advance.
    char_at_is R. rewrite Ascii.eqb_refl.
    cbn [advance s]. do 2 f_equal; [f_equal; lia|lia].
  - rewrite !advance_advance.
    rewrite (string_scan_plain input post);
      [ | eapply reads_at; [exact Rpost|cbn; lia]
        | assumption
        | cbn; lia
        | subst fuel; lia ].
    rewrite !advance_advance.
    replace (fuel - List.length post)
      with (S (fuel - List.length post - 1)) by (subst fuel; lia).
    cbn [string_scan].
    rewrite p_char_ok by (cbn; lia). rewrite !advance_advance.
    char_at_is R. rewrite Ascii.eqb_refl.
    cbn [advance s]. do 2 f_equal; [f_equal; lia|lia].
Qed.

Lemma string_decode_done input fuel c p e len out :
  e <= p -> string_decode input fuel c p e len out = (Ok out, c).
Proof.
  intros H. destruct fuel; cbn [string_decode];
    destruct (Nat.leb_spec e p); try lia; reflexivity.
Qed.

(** The second loop on a string with one escape. *)
Lemma string_decode_one_escape input pre e post c p len :
  reads input p (pre ++ backslash :: e :: post ++ [dquote]) ->
  Forall (fun ch => plain ch = true) pre ->
  Forall (fun ch => plain ch = true) post ->
  List.length pre <= len ->
  (forall x, classify_escape e (unsafe c) = Maps x ->
             List.length pre + List.length post + 1 <= len) ->
  let e_ := p + List.length pre + List.length post + 2 in
  string_decode input (e_ - p) c p e_ len [] =
  match classify_escape e (unsafe c) with
  | Maps x => (Ok (pre ++ x :: post), c)
  | UnicodeEscape => string_decode input (e_ - p) c p e_ len []
  | _ => (ERROR c (UnrecognizedOrForbiddenEscape e), c)
  end.
Proof.
  intros R Fpre Fpost L1 L2 e_.
  destruct (classify_escape e (unsafe c)) eqn:K; [| |reflexivity|].
  all: apply reads_app in R; destruct R as [Rpre R];
    apply reads_cons in R; destruct R as [Rb R];
    apply reads_cons in R; destruct R as [Re R];
    apply reads_app in R; destruct R as [Rpost _];
    rewrite (string_decode_plain input pre _ c p e_ len [] Rpre)
      by (auto; subst e_; cbn; lia);
    remember (S (List.length post)) as f eqn:Ef;
    replace (e_ - p - List.length pre) with (S f) by (subst e_; lia);
    cbn [string_decode app]; subst f;
    (destruct (Nat.leb_spec e_ (p + List.length pre)); [subst e_; lia|]);
    rewrite Rb, Ascii.eqb_refl; cbn [negb]; rewrite Re; unfold store;
    unfold classify_escape in K.
  - (* the escape maps to a byte *)
    specialize (L2 x eq_refl).
    assert (D : forall y,
      string_decode input (S (List.length post)) c
        (S (S (p + List.length pre))) e_ len (pre ++ [y])
      = (Ok (pre ++ y :: post), c)).
    { intros y.
      rewrite (string_decode_plain input post);
        [ | exact Rpost | assumption | subst e_; lia
          | rewrite length_app; cbn; lia | lia ].
      rewrite string_decode_done by (subst e_; lia).
      rewrite <- app_assoc. reflexivity. }
    cbn [List.length].
    destruct (Nat.leb_spec (List.length pre + 1) len); [|lia].
    destruct (Ascii.eqb e dquote || Ascii.eqb e backslash || Ascii.eqb e "/")
      eqn:E1; [injection K as <-; apply D|].
    destruct (Ascii.eqb_spec e "b") as [->|Nb].
    { destruct (unsafe c); [|discriminate]. injection K as <-. apply D. }
    cbn [andb].
    destruct (Ascii.eqb_spec e "u") as [->|Nu].
    { destruct (unsafe c); discriminate. }
    destruct (Ascii.eqb_spec e "f") as [->|Nf]; [injection K as <-; apply D|].
    destruct (Ascii.eqb_spec e "n") as [->|Nn]; [injection K as <-; apply D|].
    destruct (Ascii.eqb_spec e "r") as [->|Nr]; [injection K as <-; apply D|].
    destruct (Ascii.eqb_spec e "t") as [->|Nt]; [injection K as <-; apply D|].
    discriminate.
  - (* forbidden *)
    destruct (Ascii.eqb e dquote || Ascii.eqb e backslash || Ascii.eqb e "/")
      eqn:E1; [discriminate|].
    destruct (Ascii.eqb_spec e "b") as [->|Nb].
    { destruct (unsafe c); [discriminate|]. reflexivity. }
    destruct (Ascii.eqb_spec e "u") as [->|Nu].
    { destruct (unsafe c); [discriminate|]. reflexivity. }
    destruct (Ascii.eqb e "f"); [discriminate|].
    destruct (Ascii.eqb e "n"); [discriminate|].
    destruct (Ascii.eqb e "r"); [discriminate|].
    destruct (Ascii.eqb e "t"); discriminate.
  - (* unrecognized *)
    destruct (Ascii.eqb e dquote || Ascii.eqb e backslash || Ascii.eqb e "/")
      eqn:E1; [discriminate|].
    destruct (Ascii.eqb_spec e "b") as [->|Nb].
    { destruct (unsafe c); discriminate. }
    destruct (Ascii.eqb_spec e "u") as [->|Nu].
    { destruct (unsafe c); discriminate. }
    destruct (Ascii.eqb e "f"); [discriminate|].
    destruct (Ascii.eqb e "n"); [discriminate|].
    destruct (Ascii.eqb e "r"); [discriminate|].
    destruct (Ascii.eqb e "t"); [discriminate|]. reflexivity.
Qed.

Lemma s_advance c n : s (advance c n) = s c + n.
Proof. reflexivity. Qed.

Lemma s_end_advance c n : s_end (advance c n) = s_end c.
Proof. reflexivity. Qed.

Lemma unsafe_advance c n : unsafe (advance c n) = unsafe c.
Proof. reflexivity. Qed.

Lemma classify_escape_u_Maps u x : classify_escape "u" u <> Maps x.
Proof. destruct u; discriminate. Qed.

(** *** Loops in a buffer that ends with NUL, and the code point of
    [handle_escaped] *)

Lemma framed_not_at_end a c :
  framed a c -> peek a c <> NUL -> s c + 1 <= s_end c.
Proof.
  intros [F1 F2] N. unfold peek in N.
  destruct (Nat.eq_dec (s c) (s_end c)) as [E|]; [|lia].
  rewrite E in N. contradiction.
Qed.

Lemma is_octal_not_NUL ch : is_octal ch = true -> ch <> NUL.
Proof. intros H ->. discriminate. Qed.

(** [p_octal] stops in front of a byte that is no octal digit, and a run
    that starts there is empty. *)
Lemma octal_loop_stops x : forall fuel n c,
  framed x c -> s_end c - s c <= fuel ->
  is_octal (peek x (snd (octal_loop x fuel n c))) = false.
Proof.
  induction fuel as [|fuel IH]; intros n c F L; cbn [octal_loop].
  - cbn [snd]. destruct F as [F1 F2]. unfold peek.
    replace (s c) with (s_end c) by lia. rewrite F2. reflexivity.
  - destruct (is_octal (peek x c)) eqn:O; [|exact O].
    pose proof (framed_not_at_end x c F (is_octal_not_NUL _ O)) as In.
    rewrite p_char_ok by exact In. cbn [snd]. apply IH.
    + destruct F as [F1 F2].
      split; [rewrite s_advance, s_end_advance; lia|exact F2].
    + rewrite s_advance, s_end_advance. lia.
Qed.

(** The loops over whitespace and over the digits of a fraction end by
    their own test too, within a buffer that ends with NUL: the passes the
    model gives them are never used up in front of a byte that would go
    on. *)
Lemma whitespace_loop_stops x : forall fuel c,
  framed x c -> s_end c - s c <= fuel ->
  is_space (peek x (whitespace_loop x fuel c)) = false.
Proof.
  induction fuel as [|fuel IH]; intros c F L; cbn [whitespace_loop].
  - destruct F as [F1 F2]. unfold peek.
    replace (s c) with (s_end c) by lia. rewrite F2. reflexivity.
  - destruct (Ascii.eqb (peek x c) NUL || negb (strchr whitespace (peek x c)))
      eqn:Stop.
    + unfold is_space. rewrite Stop. reflexivity.
    + assert (N : peek x c <> NUL).
      { intros N. rewrite N in Stop. discriminate. }
      pose proof (framed_not_at_end x c F N) as In.
      rewrite p_char_ok by exact In. cbn [snd]. apply IH.
      * destruct F as [F1 F2].
        split; [rewrite s_advance, s_end_advance; lia|exact F2].
      * rewrite s_advance, s_end_advance. lia.
Qed.

Lemma fraction_loop_stops x : forall fuel n d c,
  framed x c -> s_end c - s c <= fuel ->
  is_octal (peek x (snd (fraction_loop x fuel n d c))) = false.
Proof.
  induction fuel as [|fuel IH]; intros n d c F L; cbn [fraction_loop].
  - cbn [snd]. destruct F as [F1 F2]. unfold peek.
    replace (s c) with (s_end c) by lia. rewrite F2. reflexivity.
  - destruct (is_octal (peek x c)) eqn:O; [|exact O].
    pose proof (framed_not_at_end x c F (is_octal_not_NUL _ O)) as In.
    rewrite p_char_ok by exact In. cbn [snd]. apply IH.
    + destruct F as [F1 F2].
      split; [rewrite s_advance, s_end_advance; lia|exact F2].
    + rewrite s_advance, s_end_advance. lia.
Qed.

Lemma octal_loop_empty x fuel c :
  is_octal (peek x c) = false -> octal_loop x fuel 0%float c = (0%float, c).
Proof.
  intros O. destruct fuel; cbn [octal_loop]; [|rewrite O]; reflexivity.
Qed.

Lemma handle_escaped_loop_step x k acc c :
  handle_escaped_loop x (S k) acc c
  = handle_escaped_loop x k (fst (p_octal x c (PrimFloat.mul acc 8%float)))
      (snd (p_octal x c (PrimFloat.mul acc 8%float))).
Proof.
  cbn [handle_escaped_loop]. destruct (p_octal x c _). reflexivity.
Qed.

Lemma handle_escaped_loop_empty x : forall k acc c,
  is_octal (peek x c) = false ->
  handle_escaped_loop x k acc c
  = (match k with 0 => acc | S _ => 0%float end, c).
Proof.
  induction k as [|k IH]; intros acc c O; [reflexivity|].
  rewrite handle_escaped_loop_step. unfold p_octal.
  rewrite (octal_loop_empty x _ c O). cbn [fst snd].
  rewrite (IH _ c O). destruct k; reflexivity.
Qed.

(** The second to sixth [p_octal] of [handle_escaped] find no digit and
    store zero: the byte written is NUL, whatever digits were read. *)
Lemma handle_escaped_zero x c :
  framed x c ->
  handle_escaped x c = (Ok [NUL], snd (p_octal x c 0%float)).
Proof.
  intros F. unfold handle_escaped.
  rewrite handle_escaped_loop_step.
  assert (O : is_octal (peek x (snd (p_octal x c 0%float))) = false).
  { apply octal_loop_stops; [exact F|lia]. }
  change (p_octal x c (PrimFloat.mul 0 8)) with (p_octal x c 0%float).
  rewrite (handle_escaped_loop_empty x 5 _ _ O).
  reflexivity.
Qed.

(** Plain bytes that do not fit: the store of the last one is past the end
    of the allocation. *)
Lemma string_decode_overflow input post : forall x fuel c p e len out,
  reads input p (x :: post) ->
  Forall (fun ch => plain ch = true) (x :: post) ->
  p + S (List.length post) <= e ->
  List.length out + List.length post = len ->
  S (List.length post) <= fuel ->
  string_decode input fuel c p e len out
    = (Undefined (HeapOverflow (out ++ x :: post) len), c).
Proof.
  induction post as [|y post IH]; intros x fuel c p e len out R F B C L;
    cbn [List.length] in *; (destruct fuel as [|fuel]; [lia|]);
    apply reads_cons in R; destruct R as [R0 R];
    inversion F as [|? ? Fx Fpost]; subst;
    unfold plain in Fx; apply andb_true_iff in Fx; destruct Fx as [Fq Fb];
    apply negb_true_iff in Fb;
    cbn [string_decode]; (destruct (Nat.leb_spec e p); [lia|]);
    rewrite Fb; cbn [negb]; unfold store; cbn [List.length].
  - destruct (Nat.leb_spec (List.length out + 1) (List.length out + 0));
      [lia|]. reflexivity.
  - destruct (Nat.leb_spec (List.length out + 1)
                (List.length out + S (List.length post))); [|lia].
    rewrite (IH y fuel c (S p) e _ (out ++ [char_at input p])); auto;
      try lia.
    + rewrite <- app_assoc. reflexivity.
    + rewrite length_app. cbn [List.length]. lia.
Qed.

(** The second loop on a string with one [\u] escape, with the unsafe
    flag: the escape stores NUL, and the bytes after it no longer fit. *)
Lemma string_decode_unicode_escape input pre post c p :
  reads input p (pre ++ backslash :: "u"%char :: post ++ [dquote]) ->
  Forall (fun ch => plain ch = true) pre ->
  Forall (fun ch => plain ch = true) post ->
  1 <= List.length post ->
  unsafe c = true ->
  framed input c ->
  string_decode input (List.length pre + List.length post + 2) c p
    (p + List.length pre + List.length post + 2)
    (List.length pre + List.length post) []
  = (Undefined (HeapOverflow (pre ++ NUL :: post)
                  (List.length pre + List.length post)),
     snd (p_octal input c 0%float)).
Proof.
  intros R Fpre Fpost L U F.
  apply reads_app in R. destruct R as [Rpre R].
  apply reads_cons in R. destruct R as [Rb R].
  apply reads_cons in R. destruct R as [Re R].
  apply reads_app in R. destruct R as [Rpost _].
  rewrite (string_decode_plain input pre _ c p _ _ [] Rpre)
    by (auto; cbn; lia).
  remember (S (List.length post)) as f eqn:Ef.
  replace (List.length pre + List.length post + 2 - List.length pre)
    with (S f) by lia.
  cbn [string_decode app]. subst f.
  destruct (Nat.leb_spec (p + List.length pre + List.length post + 2)
              (p + List.length pre)); [lia|].
  rewrite Rb, Ascii.eqb_refl. cbn [negb]. rewrite Re, U.
  cbn [Ascii.eqb Bool.eqb orb andb dquote backslash].
  rewrite (handle_escaped_zero input c F).
  unfold store at 1. cbn [List.length].
  destruct (Nat.leb_spec (List.length pre + 1)
              (List.length pre + List.length post)); [|lia].
  destruct post as [|x post]; [cbn in L; lia|].
  rewrite (string_decode_overflow input post x); auto.
  - rewrite <- app_assoc. reflexivity.
  - cbn [List.length]. lia.
  - rewrite length_app. cbn [List.length]. lia.
Qed.

Lemma classify_escape_unicode e u :
  classify_escape e u = UnicodeEscape -> e = "u"%char /\ u = true.
Proof.
  unfold classify_escape.
  destruct (_ || _); [discriminate|].
  destruct (Ascii.eqb e "b"); [destruct u; discriminate|].
  destruct (Ascii.eqb_spec e "u") as [->|];
    [destruct u; [auto|discriminate]|].
  repeat (destruct (Ascii.eqb e _); [discriminate|]). discriminate.
Qed.

(** [p_string] on a string with one escape, anywhere in the input. *)
Lemma p_string_one_escape before pre e post rest c h :
  let text := dquote :: pre ++ backslash :: e :: post ++ [dquote] in
  let input := before ++ text ++ rest in
  Forall (fun ch => plain ch = true) pre ->
  Forall (fun ch => plain ch = true) post ->
  s c = List.length before ->
  List.length before + List.length text <= s_end c ->
  (e = "u"%char -> 6 <= List.length post) ->
  let c' := advance c (List.length text) in
  match classify_escape e (unsafe c) with
  | Maps x =>
      p_string input c h
        = (Ok (next h, pre ++ x :: post), c', snd (CALLOC h))
  | UnicodeEscape =>
      char_at input (s_end c) = NUL ->
      p_string input c h
        = (Undefined (HeapOverflow (pre ++ NUL :: post)
                        (List.length pre + List.length post)),
           snd (p_octal input c' 0%float), snd (CALLOC h))
  | _ =>
      p_string input c h
        = (ERROR c' (UnrecognizedOrForbiddenEscape e), c',
           free (next h) (snd (CALLOC h)))
  end.
Proof.
  intros text input Fpre Fpost Sc B U c'.
  assert (Lt : List.length text = List.length pre + List.length post + 4).
  { subst text. cbn [List.length]. rewrite length_app. cbn [List.length].
    rewrite length_app. cbn. lia. }
  assert (R : reads input (s c) text).
  { rewrite Sc. apply reads_middle. }
  subst text. apply reads_cons in R. destruct R as [Rq R].
  set (len := List.length pre + List.length post + 2 -
              (if Ascii.eqb e "u" then 3 else 1) + 1).
  assert (Scan := string_scan_one_escape input pre e post (advance c 1)).
  rewrite ?s_advance, ?s_end_advance in Scan.
  assert (R1 : reads input (s c + 1)
                 (pre ++ backslash :: e :: post ++ [dquote])).
  { eapply reads_at; [exact R|lia]. }
  assert (B1 : s c + 1 + (List.length pre + List.length post + 3) <= s_end c)
    by lia.
  specialize (Scan R1 Fpre Fpost B1 U).
  assert (Dec := string_decode_one_escape input pre e post
                   (advance c (List.length pre + List.length post + 4))
                   (S (s c)) len R Fpre Fpost).
  cbv zeta in Dec. rewrite ?unsafe_advance in Dec.
  assert (P : p_string input c h =
    match string_decode input (List.length pre + List.length post + 2)
            (advance c (List.length pre + List.length post + 4))
            (S (s c)) (S (s c) + List.length pre + List.length post + 2)
            len [] with
    | (Ok bytes, c2) =>
        match store len bytes [NUL] with
        | Ok _ => (Ok (next h, bytes), c2, snd (CALLOC h))
        | Err err => (Err err, c2, snd (CALLOC h))
        | Undefined u => (Undefined u, c2, snd (CALLOC h))
        | OutOfFuel => (OutOfFuel, c2, snd (CALLOC h))
        end
    | (Err err, c2) => (Err err, c2, free (next h) (snd (CALLOC h)))
    | (Undefined u, c2) => (Undefined u, c2, snd (CALLOC h))
    | (OutOfFuel, c2) => (OutOfFuel, c2, snd (CALLOC h))
    end).
  { unfold p_string. rewrite p_char_ok by lia. rewrite Rq, Ascii.eqb_refl.
    cbn [negb]. rewrite ?s_advance, ?s_end_advance. rewrite Scan.
    rewrite advance_advance.
    unfold CALLOC. cbn [fst snd].
    replace (s c + 1 + List.length pre + List.length post + 2 - S (s c))
      with (List.length pre + List.length post + 2) by lia.
    replace (s c + 1 + List.length pre + List.length post + 2)
      with (S (s c) + List.length pre + List.length post + 2) by lia.
    replace (1 + (List.length pre + List.length post + 3))
      with (List.length pre + List.length post + 4) by lia.
    reflexivity. }
  replace (S (s c) + List.length pre + List.length post + 2 - S (s c))
    with (List.length pre + List.length post + 2) in Dec by lia.
  subst c'. rewrite Lt.
  destruct (classify_escape e (unsafe c)) eqn:K.
  - (* maps to a byte: the escape is not \u, one byte per escape *)
    assert (Nu : Ascii.eqb e "u" = false).
    { destruct (Ascii.eqb_spec e "u") as [->|]; [|reflexivity].
      exfalso. exact (classify_escape_u_Maps _ _ K). }
    subst len. rewrite Nu in *.
    rewrite P, Dec; [| lia | intros; lia].
    unfold store. rewrite length_app. cbn [List.length].
    destruct (Nat.leb_spec
                (List.length pre + S (List.length post) + 1)
                (List.length pre + List.length post + 2 - 1 + 1)); [|lia].
    reflexivity.
  - rewrite P, Dec; [reflexivity| | intros; discriminate].
    subst len. destruct (Ascii.eqb_spec e "u") as [->|]; [|lia].
    specialize (U eq_refl). lia.
  - (* the escape u with the flag *)
    intros N. apply classify_escape_unicode in K. destruct K as [Eu Ku].
    specialize (U Eu). rewrite P. clear P Dec Scan. subst len.
    rewrite Eu in *. rewrite Ascii.eqb_refl.
    replace (List.length pre + List.length post + 2 - 3 + 1)
      with (List.length pre + List.length post) by lia.
    rewrite (string_decode_unicode_escape input pre post _ (S (s c))
               R Fpre Fpost); [reflexivity|lia|exact Ku|].
    split; [rewrite s_advance, s_end_advance; lia|exact N].
  - rewrite P, Dec; [reflexivity| | intros; discriminate].
    subst len. destruct (Ascii.eqb_spec e "u") as [->|]; [|lia].
    specialize (U eq_refl). lia.
Qed.

(** ** Unicode escapes *)

(** C2: a [\u] escape is to decode the six octal digits that follow it.
    [handle_escaped] reads its digits at the cursor, which stands after the
    closing quote, and each [p_octal] starts again from zero: whatever the
    digits, the code point it encodes is 0. So in a string with one [\u]
    escape among plain bytes, with the unsafe flag set, a NUL is stored,
    the six digits are copied as plain bytes, and the last store overruns
    the allocation. On the string [\u000101] (code point 0101, the letter
    A) the seventh store overruns the six bytes allocated. With the digits
    101 after the closing quote the outcome is the same and the cursor has
    moved over them (offset 13). Where the six bytes are three [\n]
    escapes, nothing overruns and the string is a NUL and three
    newlines. *)
Theorem unicode_escape_not_decoded :
  forall (before pre post rest : list ascii) (c : context) (h : heap),
    let text := dquote :: pre ++ backslash :: "u"%char :: post ++ [dquote] in
    let input := before ++ text ++ rest in
    Forall (fun ch => plain ch = true) pre ->
    Forall (fun ch => plain ch = true) post ->
    s c = List.length before ->
    List.length before + List.length text <= s_end c ->
    6 <= List.length post ->
    unsafe c = true ->
    char_at input (s_end c) = NUL ->
    let c' := advance c (List.length text) in
    handle_escaped input c' = (Ok [NUL], snd (p_octal input c' 0%float)) /\
    p_string input c h
      = (Undefined (HeapOverflow (pre ++ NUL :: post)
                      (List.length pre + List.length post)),
         snd (p_octal input c' 0%float), snd (CALLOC h)) /\
    parse (dquote :: backslash :: str "u000101" ++ [dquote]) true
      = (Undefined (HeapOverflow (NUL :: str "000101") 6), None,
         mkHeap [1; 0] 2 []) /\
    (let input := dquote :: backslash :: str "u000101" ++ dquote :: str "101" in
     p_string input (mkContext 0 13 0 true) empty_heap
      = (Undefined (HeapOverflow (NUL :: str "000101") 6),
         mkContext 13 13 0 true, mkHeap [0] 1 [])) /\
    (let n := [backslash; "n"%char] in
     parse (dquote :: backslash :: "u"%char :: n ++ n ++ n ++ [dquote]) true
      = (Ok tt, Some (DSON_STRING 0 1 [NUL; "010"; "010"; "010"]%char),
         mkHeap [1; 0] 2 [])).
Proof.
  intros before pre post rest c h text input Fpre Fpost Sc B L Ku N c'.
  split.
  { apply handle_escaped_zero. split; [|exact N].
    subst c'. rewrite s_advance, s_end_advance. lia. }
  split; [|split; [|split]; vm_compute; reflexivity].
  pose proof (p_string_one_escape before pre "u" post rest c h
                Fpre Fpost Sc B (fun _ => L)) as P.
  cbv zeta in P. rewrite Ku in P. exact (P N).
Qed.

(** The string [\u000101] alone. *)
Lemma unicode_escape_not_decoded_witness :
  p_string (dquote :: backslash :: str "u000101" ++ [dquote])
    (mkContext 0 10 0 true) empty_heap
  = (Undefined (HeapOverflow (NUL :: str "000101") 6),
     mkContext 10 10 0 true, mkHeap [0] 1 []).
Proof.
  exact (proj1 (proj2
    (unicode_escape_not_decoded [] [] (str "000101") []
       (mkContext 0 10 0 true) empty_heap
       (Forall_nil _) ltac:(repeat constructor) eq_refl
       ltac:(cbn; lia) ltac:(cbn; lia) eq_refl eq_refl))).
Defined.

(** ** Number tokens *)

Lemma tail_at_here before l : tail_at (before ++ l) (List.length before) l.
Proof.
  intros i. unfold char_at. rewrite app_nth2 by lia. f_equal. lia.
Qed.

Lemma tail_at_app input p l1 l2 :
  tail_at input p (l1 ++ l2) ->
  reads input p l1 /\ tail_at input (p + List.length l1) l2.
Proof.
  intros T. split.
  - intros i Hi. rewrite T. apply app_nth1. exact Hi.
  - intros i. rewrite <- Nat.add_assoc, T. rewrite app_nth2 by lia.
    f_equal. lia.
Qed.

Lemma tail_at_head input p l : tail_at input p l -> char_at input p = hd NUL l.
Proof.
  intros T. specialize (T 0). rewrite Nat.add_0_r in T. rewrite T.
  destruct l; reflexivity.
Qed.

Lemma tail_at_eq input p q l : tail_at input p l -> p = q -> tail_at input q l.
Proof. intros T <-. exact T. Qed.

(** The loop over the fractional digits on a run of digits. *)
Lemma fraction_loop_run input ds : forall fuel n d c,
  reads input (s c) ds ->
  all_octal ds ->
  is_octal (char_at input (s c + List.length ds)) = false ->
  s c + List.length ds <= s_end c ->
  List.length ds <= fuel ->
  fraction_loop input fuel n d c
    = (fraction_value n d ds, advance c (List.length ds)).
Proof.
  induction ds as [|x ds IH]; intros fuel n d c R F E B L.
  - cbn [List.length fraction_value] in *. rewrite advance_0.
    destruct fuel; [reflexivity|].
    cbn [fraction_loop]. unfold peek. rewrite Nat.add_0_r in E. rewrite E.
    reflexivity.
  - cbn [List.length] in *. destruct fuel as [|fuel]; [lia|].
    apply reads_cons in R. destruct R as [R0 R].
    inversion F as [|? ? Fd Fds]; subst.
    cbn [fraction_loop fraction_value]. unfold peek. rewrite Fd.
    rewrite p_char_ok by lia. cbn [snd].
    rewrite (IH fuel _ _ (advance c 1)); rewrite ?s_advance, ?s_end_advance,
      ?advance_advance; auto; try lia.
    + eapply reads_at; [exact R|lia].
    + replace (s c + 1 + List.length ds) with (s c + S (List.length ds))
        by lia. exact E.
Qed.

(** Facts about single bytes, by enumeration. *)
Ltac by_byte ch :=
  destruct ch as [[] [] [] [] [] [] [] []]; cbn; intros;
  try reflexivity; try discriminate; auto.

Lemma octal_not_space ch : is_octal ch = true -> is_space ch = false.
Proof. by_byte ch. Qed.

Lemma space_not_octal ch : is_space ch = true -> is_octal ch = false.
Proof. by_byte ch. Qed.

Lemma octal_not_sign ch :
  is_octal ch = true ->
  Ascii.eqb ch "-" = false /\ Ascii.eqb ch "+" = false.
Proof. by_byte ch. Qed.

Lemma space_not_sign ch :
  is_space ch = true ->
  Ascii.eqb ch "-" = false /\ Ascii.eqb ch "+" = false.
Proof. by_byte ch. Qed.

Lemma tolower_v ch :
  tolower ch = "v"%char ->
  Ascii.eqb ch "v" || Ascii.eqb ch "V" = true.
Proof. by_byte ch. Qed.

Lemma ends_number_inv ch :
  ends_number ch = true ->
  is_octal ch = false /\ is_space ch = false /\ Ascii.eqb ch "." = false /\
  Ascii.eqb ch "v" || Ascii.eqb ch "V" = false /\ Ascii.eqb ch "-" = false.
Proof.
  unfold ends_number. intros H. apply negb_true_iff in H.
  repeat (apply orb_false_iff in H; destruct H as [H ?]).
  repeat split; auto. apply orb_false_iff. split; assumption.
Qed.

Lemma hd_app (l1 l2 : list ascii) :
  hd NUL (l1 ++ l2) = match l1 with [] => hd NUL l2 | x :: _ => x end.
Proof. destruct l1; reflexivity. Qed.

Section Number_blocks.

Variable input : list ascii.

(** Whitespace followed by the rest of the input [T]. *)
Lemma whitespace_block c ws T :
  tail_at input (s c) (ws ++ T) ->
  all_space ws ->
  is_space (hd NUL T) = false ->
  s c + List.length ws <= s_end c ->
  maybe_p_whitespace input c = advance c (List.length ws) /\
  tail_at input (s c + List.length ws) T.
Proof.
  intros A F E B. apply tail_at_app in A. destruct A as [R A].
  split; [|exact A].
  apply maybe_p_whitespace_run; auto.
  rewrite (tail_at_head _ _ _ A). exact E.
Qed.

(** A run of digits followed by the rest of the input [T]. *)
Lemma octal_block c out ds T :
  tail_at input (s c) (ds ++ T) ->
  all_octal ds ->
  is_octal (hd NUL T) = false ->
  s c + List.length ds <= s_end c ->
  p_octal input c out
    = (octal_value 0%float ds, advance c (List.length ds)) /\
  tail_at input (s c + List.length ds) T.
Proof.
  intros A F E B. apply tail_at_app in A. destruct A as [R A].
  split; [|exact A].
  apply p_octal_run; auto.
  rewrite (tail_at_head _ _ _ A). exact E.
Qed.

Lemma peek_head c T : tail_at input (s c) T -> peek input c = hd NUL T.
Proof. apply tail_at_head. Qed.

(** The integer part of a token. *)
Lemma p_double_integer_token c ws i T :
  tail_at input (s c) (ws ++ integer_text i ++ T) ->
  all_space ws ->
  integer_ok i [] ->
  is_space (hd NUL (integer_text i ++ T)) = false ->
  is_octal (hd NUL T) = false ->
  s c + List.length ws + List.length (integer_text i) <= s_end c ->
  p_double_integer input c
    = (integer_value i,
       advance c (List.length ws + List.length (integer_text i))) /\
  tail_at input (s c + List.length ws + List.length (integer_text i)) T.
Proof.
  intros A Fws Oi Es Eo B.
  destruct (whitespace_block c ws _ A Fws Es ltac:(lia)) as [W A1].
  unfold p_double_integer. rewrite W.
  rewrite (peek_head (advance c (List.length ws)) _ A1).
  destruct i as [|ds]; cbn [integer_text integer_value List.length] in *.
  - cbn [app hd Ascii.eqb Bool.eqb andb].
    rewrite p_char_ok by (rewrite s_advance, s_end_advance; lia).
    cbn [snd]. rewrite advance_advance. split; [reflexivity|].
    apply (tail_at_app input _ ["0"%char] T) in A1.
    destruct A1 as [_ A1]. eapply tail_at_eq; [exact A1|].
    rewrite ?s_advance. cbn. lia.
  - destruct Oi as (Fo & Hz & _).
    assert (Z : Ascii.eqb (hd NUL (ds ++ T)) "0" = false).
    { rewrite hd_app. destruct ds as [|d ds].
      - destruct (Ascii.eqb_spec (hd NUL T) "0") as [E|]; [|reflexivity].
        rewrite E in Eo. discriminate.
      - apply Ascii.eqb_neq. exact Hz. }
    rewrite Z.
    destruct (octal_block (advance c (List.length ws)) 0%float ds T)
      as [O A2]; auto;
      try (rewrite ?s_advance, ?s_end_advance; lia).
    rewrite O, advance_advance. split; [reflexivity|].
    eapply tail_at_eq; [exact A2|]. rewrite ?s_advance. lia.
Qed.

(** The optional fraction of a token. *)
Lemma p_double_fraction_token c n f T :
  tail_at input (s c) (fraction_text f ++ T) ->
  fraction_ok f ->
  is_octal (hd NUL T) = false ->
  is_space (hd NUL T) = false ->
  Ascii.eqb (hd NUL T) "." = false ->
  s c + List.length (fraction_text f) <= s_end c ->
  p_double_fraction input n c
    = (Ok match f with
          | Some f => fraction_value n 8%float (fraction_digits f)
          | None => n
          end,
       advance c (List.length (fraction_text f))) /\
  tail_at input (s c + List.length (fraction_text f)) T.
Proof.
  intros A Of Eo Es Ed B. unfold p_double_fraction.
  rewrite (peek_head c _ A).
  destruct f as [[ds ws]|]; cbn [fraction_text fraction_digits fraction_ws
                                 app hd List.length] in *.
  - unfold fraction_ok in Of. cbn [fraction_digits fraction_ws] in Of.
    destruct Of as (Ne & Fo & Fs).
    cbn [Ascii.eqb Bool.eqb andb].
    rewrite p_char_ok by lia. cbn [snd].
    apply (tail_at_app input _ ["."%char]) in A. destruct A as [_ A].
    cbn [List.length] in A. rewrite <- app_assoc in A.
    rewrite (peek_head (advance c 1) _ A).
    rewrite length_app in B.
    destruct ds as [|d ds]; [contradiction|].
    assert (Fd : is_octal d = true) by (inversion Fo; assumption).
    cbn [app hd]. rewrite Fd. cbn [negb].
    apply (tail_at_app input _ (d :: ds)) in A. destruct A as [R A].
    assert (Next : is_octal (hd NUL (ws ++ T)) = false).
    { rewrite hd_app. destruct ws as [|w ws]; [exact Eo|].
      apply space_not_octal. inversion Fs; assumption. }
    rewrite (fraction_loop_run input (d :: ds) _ n 8%float (advance c 1));
      auto; rewrite ?s_advance, ?s_end_advance; try lia.
    2:{ rewrite (tail_at_head _ _ _ A). exact Next. }
    rewrite advance_advance.
    destruct (whitespace_block
                (advance c (1 + List.length (d :: ds))) ws T) as [W A2];
      auto; rewrite ?s_advance, ?s_end_advance; try lia.
    { eapply tail_at_eq; [exact A|]. lia. }
    rewrite W, advance_advance. split.
    + do 2 f_equal. cbn [List.length]. rewrite length_app. lia.
    + eapply tail_at_eq; [exact A2|]. rewrite ?s_advance.
      cbn [List.length]. rewrite length_app. lia.
  - rewrite Ed. rewrite advance_0, Nat.add_0_r. split; [reflexivity|exact A].
Qed.

Lemma strncasecmp_very p very :
  reads input p very ->
  map tolower very = list_ascii_of_string "very" ->
  strncasecmp input p (list_ascii_of_string "very") 4 = false.
Proof.
  intros R E.
  destruct very as [|a [|b [|x [|y [|? ?]]]]]; try discriminate.
  cbn in E. injection E as Ea Eb Ex Ey.
  apply reads_cons in R. destruct R as [Ra R].
  apply reads_cons in R. destruct R as [Rb R].
  apply reads_cons in R. destruct R as [Rx R].
  apply reads_cons in R. destruct R as [Ry _].
  cbn [strncasecmp list_ascii_of_string].
  rewrite Ra, Rb, Rx, Ry, Ea, Eb, Ex, Ey. reflexivity.
Qed.

(** The optional exponent of a token. *)
Lemma p_double_exponent_token c n x T :
  tail_at input (s c) (exponent_text x ++ T) ->
  exponent_ok x ->
  ends_exponent x (hd NUL T) = true ->
  s c + List.length (exponent_text x) <= s_end c ->
  p_double_exponent input n c
    = (Ok match x with
          | Some x => PrimFloat.mul n (pow8 (exponent_value x))
          | None => n
          end,
       advance c (List.length (exponent_text x))).
Proof.
  intros A Ox E B. unfold p_double_exponent.
  destruct x as [[very sg ws ds]|];
    cbn [exponent_text exponent_very exponent_sign_of exponent_ws
         exponent_digits app hd List.length ends_exponent] in *.
  2:{ destruct (ends_number_inv _ E) as (Eo & Es & Ed & Ev & Em).
      rewrite (peek_head c _ A), Ev, advance_0. reflexivity. }
  apply negb_true_iff in E. rename E into Eo.
  rewrite <- !app_assoc in A. rewrite (peek_head c _ A).
  unfold exponent_ok in Ox.
  cbn [exponent_very exponent_sign_of exponent_ws exponent_digits] in Ox.
  destruct Ox as (Very & Fs & Ne & Fo).
  assert (L4 : List.length very = 4).
  { rewrite <- (length_map tolower), Very. reflexivity. }
  assert (V : Ascii.eqb (hd NUL (very ++ sign_text sg ++ ws ++ ds ++ T)) "v"
              || Ascii.eqb (hd NUL (very ++ sign_text sg ++ ws ++ ds ++ T))
                   "V" = true).
  { destruct very as [|a very]; [discriminate|]. cbn [app hd].
    apply tolower_v. cbn in Very. injection Very as Ea _. exact Ea. }
  rewrite V.
  rewrite !length_app in B.
  rewrite p_chars_ok by lia.
  apply tail_at_app in A. destruct A as [Rv A]. rewrite L4 in A.
  rewrite (strncasecmp_very _ _ Rv Very).
  rewrite (peek_head (advance c 4) _ A).
  destruct ds as [|d ds]; [contradiction|].
  assert (Fd : is_octal d = true) by (inversion Fo; assumption).
  assert (Nd : is_space (hd NUL ((d :: ds) ++ T)) = false).
  { cbn [app hd]. apply octal_not_space. exact Fd. }
  (* the sign, then whitespace *)
  assert (Sg : exists c1,
    (if Ascii.eqb (hd NUL (sign_text sg ++ ws ++ (d :: ds) ++ T)) "+"
     then snd (p_char (advance c 4))
     else if Ascii.eqb (hd NUL (sign_text sg ++ ws ++ (d :: ds) ++ T)) "-"
          then snd (p_char (advance c 4))
          else advance c 4) = c1 /\
    c1 = advance c (4 + List.length (sign_text sg)) /\
    Ascii.eqb (hd NUL (sign_text sg ++ ws ++ (d :: ds) ++ T)) "-"
      = match sg with MinusSign => true | _ => false end).
  { eexists. split; [reflexivity|].
    destruct sg; cbn [sign_text app hd List.length Ascii.eqb Bool.eqb andb];
      cbn [sign_text List.length] in B.
    - assert (X : Ascii.eqb (hd NUL (ws ++ d :: ds ++ T)) "-" = false /\
                  Ascii.eqb (hd NUL (ws ++ d :: ds ++ T)) "+" = false).
      { rewrite hd_app. destruct ws as [|w ws].
        - cbn [hd]. apply octal_not_sign. exact Fd.
        - apply space_not_sign. inversion Fs; assumption. }
      destruct X as [-> ->]. split; reflexivity.
    - rewrite p_char_ok by (rewrite ?s_advance, ?s_end_advance; lia).
      cbn [snd]. rewrite advance_advance. split; reflexivity.
    - rewrite p_char_ok by (rewrite ?s_advance, ?s_end_advance; lia).
      cbn [snd]. rewrite advance_advance. split; reflexivity. }
  destruct Sg as (c1 & -> & -> & ->).
  apply tail_at_app in A. destruct A as [_ A].
  destruct (whitespace_block
              (advance c (4 + List.length (sign_text sg))) ws
              ((d :: ds) ++ T)) as [W A2];
    auto; rewrite ?s_advance, ?s_end_advance; try lia.
  { eapply tail_at_eq; [exact A|]. rewrite ?s_advance. lia. }
  rewrite W, advance_advance.
  rewrite (peek_head (advance c (4 + List.length (sign_text sg)
                                   + List.length ws)) ((d :: ds) ++ T)).
  2:{ eapply tail_at_eq; [exact A2|]. rewrite ?s_advance. lia. }
  cbn [app hd]. rewrite Fd. cbn [negb].
  destruct (octal_block
              (advance c (4 + List.length (sign_text sg) + List.length ws))
              0%float (d :: ds) T) as [O _];
    auto; rewrite ?s_advance, ?s_end_advance; try lia.
  { eapply tail_at_eq; [exact A2|]. rewrite ?s_advance. lia. }
  rewrite O, advance_advance. unfold exponent_value.
  cbn [exponent_digits exponent_sign_of].
  f_equal.
  - destruct sg; reflexivity.
  - f_equal. rewrite !length_app, L4. cbn [List.length]. lia.
Qed.

End Number_blocks.

Lemma very_head_quiet ch :
  Ascii.eqb ch "v" || Ascii.eqb ch "V" = true ->
  is_octal ch = false /\ is_space ch = false /\ Ascii.eqb ch "." = false /\
  Ascii.eqb ch "-" = false.
Proof. by_byte ch. Qed.

(** [p_double] on a token followed by a byte that ends it. *)
Lemma p_double_token input c t rest :
  tail_at input (s c) (number_text t ++ rest) ->
  number_ok t ->
  ends_exponent (exponent t) (hd NUL rest) = true ->
  s c + List.length (number_text t) <= s_end c ->
  p_double input c
    = (Ok (number_value t), advance c (List.length (number_text t))).
Proof.
  destruct t as [neg ws0 i ws1 f x].
  unfold number_text, number_value, number_ok.
  cbn [negative sign_ws integer integer_ws fraction exponent].
  intros A (F0 & Oi & F1 & Of & Ox) E B.
  rewrite <- !app_assoc in A. rewrite !length_app in B.
  set (T4 := exponent_text x ++ rest) in *.
  set (T3 := fraction_text f ++ T4) in *.
  set (T2 := ws1 ++ T3) in *.
  set (T1 := integer_text i ++ T2) in *.
  set (T0 := ws0 ++ T1) in *.
  assert (Q4 : is_octal (hd NUL T4) = false /\ is_space (hd NUL T4) = false
               /\ Ascii.eqb (hd NUL T4) "." = false
               /\ Ascii.eqb (hd NUL T4) "-" = false).
  { subst T4. destruct x as [[very sg ws ds]|]; cbn [exponent_text app].
    - destruct Ox as (Very & _). cbn [exponent_very] in Very.
      destruct very as [|a very]; [discriminate|]. cbn [app hd].
      apply very_head_quiet, tolower_v. cbn in Very.
      injection Very as Ea _. exact Ea.
    - cbn [ends_exponent] in E.
      destruct (ends_number_inv _ E) as (Eo & Es & Ed & Ev & Em). auto. }
  destruct Q4 as (Q4o & Q4s & Q4d & Q4m).
  assert (Q3 : is_octal (hd NUL T3) = false /\ is_space (hd NUL T3) = false
               /\ Ascii.eqb (hd NUL T3) "-" = false).
  { subst T3. destruct f as [[ds ws]|]; cbn [fraction_text app hd]; auto. }
  destruct Q3 as (Q3o & Q3s & Q3m).
  assert (Q2 : is_octal (hd NUL T2) = false
               /\ Ascii.eqb (hd NUL T2) "-" = false).
  { subst T2. rewrite hd_app. destruct ws1 as [|w ws1]; [auto|].
    inversion F1; subst. split; [apply space_not_octal; assumption|].
    apply space_not_sign. assumption. }
  destruct Q2 as (Q2o & Q2m).
  assert (Q1 : is_space (hd NUL T1) = false
               /\ Ascii.eqb (hd NUL T1) "-" = false).
  { subst T1. rewrite hd_app. destruct i as [|[|d ds]]; cbn [integer_text].
    - split; reflexivity.
    - destruct Oi as (_ & _ & W1). subst T2. rewrite (W1 eq_refl).
      cbn [app]. auto.
    - destruct Oi as (Fo & _ & _). inversion Fo; subst.
      split; [apply octal_not_space; assumption|].
      apply octal_not_sign. assumption. }
  destruct Q1 as (Q1s & Q1m).
  assert (Q0 : Ascii.eqb (hd NUL T0) "-" = false).
  { subst T0. rewrite hd_app. destruct ws0 as [|w ws0]; [auto|].
    inversion F0; subst. apply space_not_sign. assumption. }
  assert (Oi' : integer_ok i []).
  { destruct i as [|ds]; [exact I|]. destruct Oi as (? & ? & ?).
    repeat split; auto. }
  (* the sign *)
  set (sign := if neg then ["-"%char] else []) in *.
  assert (Sg : Ascii.eqb (peek input c) "-" = neg /\
               (if Ascii.eqb (peek input c) "-" then snd (p_char c) else c)
                 = advance c (List.length sign)).
  { rewrite (peek_head input c _ A). subst sign. destruct neg.
    - cbn [app hd Ascii.eqb Bool.eqb andb List.length].
      rewrite p_char_ok by (cbn [List.length] in B; lia). auto.
    - cbn [app List.length]. rewrite Q0, advance_0. auto. }
  destruct Sg as (Sg1 & Sg2).
  apply tail_at_app in A. destruct A as [_ A].
  unfold p_double. cbv zeta. rewrite Sg2, Sg1.
  (* the integer part *)
  destruct (p_double_integer_token input (advance c (List.length sign))
              ws0 i T2) as [Pi A2];
    auto; rewrite ?s_advance, ?s_end_advance; try lia.
  rewrite Pi, advance_advance.
  (* whitespace *)
  destruct (whitespace_block input
              (advance c (List.length sign
                          + (List.length ws0 + List.length (integer_text i))))
              ws1 T3) as [W A3];
    auto; rewrite ?s_advance, ?s_end_advance; try lia.
  { eapply tail_at_eq; [exact A2|]. rewrite ?s_advance. lia. }
  rewrite W, advance_advance.
  (* the fraction *)
  destruct (p_double_fraction_token input
              (advance c (List.length sign
                          + (List.length ws0 + List.length (integer_text i))
                          + List.length ws1))
              (integer_value i) f T4) as [Pf A4];
    auto; rewrite ?s_advance, ?s_end_advance; try lia.
  { eapply tail_at_eq; [exact A3|]. rewrite ?s_advance. lia. }
  rewrite Pf, advance_advance.
  (* the exponent *)
  rewrite (p_double_exponent_token input _ _ x rest);
    auto; rewrite ?s_advance, ?s_end_advance; try lia.
  2:{ eapply tail_at_eq; [exact A4|]. rewrite ?s_advance. lia. }
  rewrite advance_advance. do 2 f_equal. rewrite !length_app. lia.
Qed.

(** C1: for every number token, wherever it stands in the input and
    whatever byte that cannot continue it follows, [p_double] consumes
    exactly the token and returns the value the specification gives it: the
    base-8 value of the integer run (0 for a lone zero), plus the
    fractional digits weighted d/8, d/16, d/32, ..., times 8 to the
    exponent when the word very, an optional sign and digits are present,
    negated after a leading minus. In particular 7, -7, 10, 1.4, 2very2 and
    2very-1 parse to 7, -7, 8, 1.5, 128 and 0.25. *)
Theorem number_semantics :
  forall (before : list ascii) (t : number_token) (rest : list ascii)
         (c : context),
    let input := before ++ number_text t ++ rest in
    number_ok t ->
    ends_exponent (exponent t) (hd NUL rest) = true ->
    s c = List.length before ->
    List.length before + List.length (number_text t) <= s_end c ->
    p_double input c
      = (Ok (number_value t), advance c (List.length (number_text t))) /\
    parse (str "7") false
      = (Ok tt, Some (DSON_DOUBLE 0 7%float), mkHeap [0] 1 []) /\
    parse (str "-7") false
      = (Ok tt, Some (DSON_DOUBLE 0 (-7)%float), mkHeap [0] 1 []) /\
    parse (str "10") false
      = (Ok tt, Some (DSON_DOUBLE 0 8%float), mkHeap [0] 1 []) /\
    parse (str "1.4") false
      = (Ok tt, Some (DSON_DOUBLE 0 1.5%float), mkHeap [0] 1 []) /\
    parse (str "2very2") false
      = (Ok tt, Some (DSON_DOUBLE 0 128%float), mkHeap [0] 1 []) /\
    parse (str "2very-1") false
      = (Ok tt, Some (DSON_DOUBLE 0 0.25%float), mkHeap [0] 1 []).
Proof.
  intros before t rest c input Ok E Sc B.
  split; [|repeat split; vm_compute; reflexivity].
  apply (p_double_token input c t rest); auto; [|lia].
  rewrite Sc. apply tail_at_here.
Qed.

(** The token -17.44 VeRy-2 as the second element of an array: minus
    (15 + 4/8 + 4/16) / 64. *)
Lemma number_semantics_witness :
  p_double (str "so 1 and -17.44 VeRy-2 many") (mkContext 9 27 0 false)
    = (Ok (-0.24609375)%float, mkContext 22 27 0 false).
Proof.
  pose (t := mkNumber true [] (OctalRun (str "17")) []
               (Some (mkFraction (str "44") (str " ")))
               (Some (mkExponent (str "VeRy") MinusSign [] (str "2")))).
  assert (Ok : number_ok t).
  { unfold number_ok, t, integer_ok, fraction_ok, exponent_ok, all_space,
      all_octal. cbn.
    repeat split; repeat constructor; discriminate. }
  exact (proj1 (number_semantics (str "so 1 and ") t (str " many")
                  (mkContext 9 27 0 false) Ok eq_refl eq_refl
                  ltac:(cbn; lia))).
Defined.

(** ** What a successful parse has read *)

Lemma agree_le a b k j : agree a b k -> j <= k -> agree a b j.
Proof. intros A L p Hp. apply A. lia. Qed.

Lemma framed_steps a c c' : framed a c -> steps c c' -> framed a c'.
Proof.
  intros [F1 F2] (S1 & S2 & _ & _ & S5). split; [auto|]. rewrite S2. exact F2.
Qed.

Lemma widen_advance c e n : widen (advance c n) e = advance (widen c e) n.
Proof. reflexivity. Qed.

Lemma p_chars_widen c n p c' e :
  p_chars c n = (Some p, c') -> s c' <= e ->
  p_chars (widen c e) n = (Some p, widen c' e).
Proof.
  unfold p_chars. destruct (Nat.ltb_spec (s_end c) (s c + n)); [discriminate|].
  intros [= <- <-] L. cbn [widen advance s s_end] in *.
  destruct (Nat.ltb_spec e (s c + n)); [lia|]. reflexivity.
Qed.

Lemma p_chars_some c n p c' :
  p_chars c n = (Some p, c') ->
  p = s c /\ s c' = s c + n /\ s c + n <= s_end c.
Proof.
  unfold p_chars. destruct (Nat.ltb_spec (s_end c) (s c + n)); [discriminate|].
  intros [= <- <-]. auto.
Qed.

Section Extension.

Variables a b : list ascii.
Variable e : nat.

Lemma peek_agree c k :
  agree a b k -> s c <= k -> peek b (widen c e) = peek a c.
Proof. intros A L. unfold peek. cbn [widen s]. symmetry. apply A. exact L. Qed.

Lemma whitespace_loop_ext : forall fuel1 fuel2 c,
  framed a c ->
  s_end c - s c <= fuel1 ->
  agree a b (s (whitespace_loop a fuel1 c)) ->
  s (whitespace_loop a fuel1 c) <= e ->
  e - s c <= fuel2 ->
  whitespace_loop b fuel2 (widen c e) = widen (whitespace_loop a fuel1 c) e.
Proof.
  induction fuel1 as [|fuel1 IH]; intros fuel2 c F L1 A B L2.
  - cbn [whitespace_loop] in *.
    assert (P : peek a c = NUL).
    { destruct F as [F1 F2]. unfold peek.
      replace (s c) with (s_end c) by lia. exact F2. }
    destruct fuel2; [reflexivity|]. cbn [whitespace_loop].
    rewrite (peek_agree c _ A) by lia. rewrite P. reflexivity.
  - cbn [whitespace_loop] in *.
    destruct (Ascii.eqb (peek a c) NUL || negb (strchr whitespace (peek a c)))
      eqn:Stop.
    + destruct fuel2; [reflexivity|]. cbn [whitespace_loop].
      rewrite (peek_agree c _ A) by lia. rewrite Stop. reflexivity.
    + assert (N : peek a c <> NUL).
      { intros N. rewrite N in Stop. discriminate. }
      pose proof (framed_not_at_end a c F N) as In.
      rewrite p_char_ok in * by exact In. cbn [snd] in *.
      pose proof (whitespace_loop_steps a fuel1 (advance c 1)) as St.
      destruct St as (St & _). rewrite s_advance in St.
      destruct fuel2 as [|fuel2]; [lia|]. cbn [whitespace_loop].
      rewrite (peek_agree c _ A) by lia. rewrite Stop.
      rewrite p_char_ok by (cbn [widen s s_end]; lia). cbn [snd].
      rewrite <- widen_advance. apply IH; auto.
      * destruct F as [F1 F2]. split; [rewrite s_advance, s_end_advance; lia|].
        exact F2.
      * rewrite s_advance, s_end_advance. lia.
      * rewrite s_advance. lia.
Qed.

Lemma maybe_p_whitespace_ext c :
  framed a c ->
  agree a b (s (maybe_p_whitespace a c)) ->
  s (maybe_p_whitespace a c) <= e ->
  maybe_p_whitespace b (widen c e) = widen (maybe_p_whitespace a c) e.
Proof.
  intros F A B. unfold maybe_p_whitespace in *. cbn [widen s s_end].
  apply (whitespace_loop_ext (s_end c - s c) (e - s c) c); auto.
Qed.

Lemma octal_loop_ext : forall fuel1 fuel2 n c,
  framed a c ->
  s_end c - s c <= fuel1 ->
  agree a b (s (snd (octal_loop a fuel1 n c))) ->
  s (snd (octal_loop a fuel1 n c)) <= e ->
  e - s c <= fuel2 ->
  octal_loop b fuel2 n (widen c e)
    = (fst (octal_loop a fuel1 n c), widen (snd (octal_loop a fuel1 n c)) e).
Proof.
  induction fuel1 as [|fuel1 IH]; intros fuel2 n c F L1 A B L2.
  - cbn [octal_loop fst snd] in *.
    assert (P : peek a c = NUL).
    { destruct F as [F1 F2]. unfold peek.
      replace (s c) with (s_end c) by lia. exact F2. }
    destruct fuel2; [reflexivity|]. cbn [octal_loop].
    rewrite (peek_agree c _ A) by lia. rewrite P. reflexivity.
  - cbn [octal_loop] in *.
    destruct (is_octal (peek a c)) eqn:Go; cbn [fst snd] in *.
    + pose proof (framed_not_at_end a c F (is_octal_not_NUL _ Go)) as In.
      rewrite p_char_ok in * by exact In. cbn [snd] in *.
      pose proof (octal_loop_steps a fuel1
                    (PrimFloat.add (PrimFloat.mul n 8%float)
                                   (digit (peek a c)))
                    (advance c 1)) as St.
      destruct St as (St & _). rewrite s_advance in St.
      destruct fuel2 as [|fuel2]; [lia|]. cbn [octal_loop].
      rewrite (peek_agree c _ A) by lia. rewrite Go.
      rewrite p_char_ok by (cbn [widen s s_end]; lia). cbn [snd].
      rewrite <- widen_advance. apply IH; auto.
      * destruct F as [F1 F2]. split; [rewrite s_advance, s_end_advance; lia|].
        exact F2.
      * rewrite s_advance, s_end_advance. lia.
      * rewrite s_advance. lia.
    + destruct fuel2; [reflexivity|]. cbn [octal_loop].
      rewrite (peek_agree c _ A) by lia. rewrite Go. reflexivity.
Qed.

Lemma p_octal_ext c out :
  framed a c ->
  agree a b (s (snd (p_octal a c out))) ->
  s (snd (p_octal a c out)) <= e ->
  p_octal b (widen c e) out
    = (fst (p_octal a c out), widen (snd (p_octal a c out)) e).
Proof.
  intros F A B. unfold p_octal in *. cbn [widen s s_end].
  apply (octal_loop_ext (s_end c - s c) (e - s c)); auto.
Qed.

Lemma fraction_loop_ext : forall fuel1 fuel2 n d c,
  framed a c ->
  s_end c - s c <= fuel1 ->
  agree a b (s (snd (fraction_loop a fuel1 n d c))) ->
  s (snd (fraction_loop a fuel1 n d c)) <= e ->
  e - s c <= fuel2 ->
  fraction_loop b fuel2 n d (widen c e)
    = (fst (fraction_loop a fuel1 n d c),
       widen (snd (fraction_loop a fuel1 n d c)) e).
Proof.
  induction fuel1 as [|fuel1 IH]; intros fuel2 n d c F L1 A B L2.
  - cbn [fraction_loop fst snd] in *.
    assert (P : peek a c = NUL).
    { destruct F as [F1 F2]. unfold peek.
      replace (s c) with (s_end c) by lia. exact F2. }
    destruct fuel2; [reflexivity|]. cbn [fraction_loop].
    rewrite (peek_agree c _ A) by lia. rewrite P. reflexivity.
  - cbn [fraction_loop] in *.
    destruct (is_octal (peek a c)) eqn:Go; cbn [fst snd] in *.
    + pose proof (framed_not_at_end a c F (is_octal_not_NUL _ Go)) as In.
      rewrite p_char_ok in * by exact In. cbn [snd] in *.
      pose proof (fraction_loop_steps a fuel1
                    (PrimFloat.add n (PrimFloat.div (digit (peek a c)) d))
                    (PrimFloat.mul d 2%float)
                    (advance c 1)) as St.
      destruct St as (St & _). rewrite s_advance in St.
      destruct fuel2 as [|fuel2]; [lia|]. cbn [fraction_loop].
      rewrite (peek_agree c _ A) by lia. rewrite Go.
      rewrite p_char_ok by (cbn [widen s s_end]; lia). cbn [snd].
      rewrite <- widen_advance. apply IH; auto.
      * destruct F as [F1 F2]. split; [rewrite s_advance, s_end_advance; lia|].
        exact F2.
      * rewrite s_advance, s_end_advance. lia.
      * rewrite s_advance. lia.
    + destruct fuel2; [reflexivity|]. cbn [fraction_loop].
      rewrite (peek_agree c _ A) by lia. rewrite Go. reflexivity.
Qed.

(** The same facts for a call whose result is named. *)
Lemma maybe_p_whitespace_ext_eq c c1 :
  maybe_p_whitespace a c = c1 ->
  framed a c -> agree a b (s c1) -> s c1 <= e ->
  maybe_p_whitespace b (widen c e) = widen c1 e.
Proof. intros <-. apply maybe_p_whitespace_ext. Qed.

Lemma p_octal_ext_eq c out v c1 :
  p_octal a c out = (v, c1) ->
  framed a c -> agree a b (s c1) -> s c1 <= e ->
  p_octal b (widen c e) out = (v, widen c1 e).
Proof.
  intros E F A B. pose proof (p_octal_ext c out F) as X.
  rewrite E in X. apply X; assumption.
Qed.

Lemma fraction_loop_ext_eq c n d v c1 :
  fraction_loop a (s_end c - s c) n d c = (v, c1) ->
  framed a c -> agree a b (s c1) -> s c1 <= e ->
  fraction_loop b (e - s c) n d (widen c e) = (v, widen c1 e).
Proof.
  intros E F A B.
  pose proof (fraction_loop_ext (s_end c - s c) (e - s c) n d c F) as X.
  rewrite E in X. apply X; auto.
Qed.

Lemma strncmp_agree k : forall n lit p,
  agree a b k -> p + n <= S k -> strncmp b p lit n = strncmp a p lit n.
Proof.
  induction n as [|n IH]; intros lit p A L; [destruct lit; reflexivity|].
  destruct lit as [|x lit]; cbn [strncmp]; rewrite <- (A p) by lia;
    [reflexivity|].
  destruct (Ascii.eqb _ _); [|reflexivity]. apply IH; auto. lia.
Qed.

Lemma strncasecmp_agree k : forall n lit p,
  agree a b k -> p + n <= S k ->
  strncasecmp b p lit n = strncasecmp a p lit n.
Proof.
  induction n as [|n IH]; intros lit p A L; [destruct lit; reflexivity|].
  destruct lit as [|x lit]; cbn [strncasecmp]; rewrite <- (A p) by lia;
    [reflexivity|].
  destruct (Ascii.eqb _ _); [|reflexivity]. apply IH; auto. lia.
Qed.

Lemma strcmp_agree k : forall lit p,
  agree a b k -> p + List.length lit <= k ->
  strcmp b lit p = strcmp a lit p.
Proof.
  induction lit as [|x lit IH]; intros p A L; cbn [strcmp List.length] in *;
    rewrite <- (A p) by lia; [reflexivity|].
  destruct (Ascii.eqb _ _); [|reflexivity]. apply IH; auto. lia.
Qed.

End Extension.

(** The tactics of the extension proofs. [path H] splits the successful
    run [H] into the equations of its calls and tests; [facts] states what
    each call did to the cursor; [replay] rewrites the run on the second
    buffer with them. *)
Ltac path H :=
  repeat (match type of H with
          | context [maybe_p_whitespace ?a ?c] =>
              is_var c;
              let c1 := fresh "c" in
              let E := fresh "W" in
              remember (maybe_p_whitespace a c) as c1 eqn:E in *;
              symmetry in E
          | context [match ?x with _ => _ end] =>
              let E := fresh "E" in destruct x eqn:E
          end; cbn [fst snd] in H; try discriminate H).

Ltac fact_of E lemma :=
  let Sx := fresh "Sx" in
  let Nx := fresh "Nx" in
  pose proof lemma as Sx; rewrite E in Sx; cbn [fst snd] in Sx;
  lazymatch type of Sx with
  | post _ _ _ => destruct Sx as [Sx _]
  | _ => idtac
  end;
  pose proof Sx as Nx; unfold steps in Nx.

Ltac facts a :=
  unfold p_char in *;
  repeat match goal with
  | E : p_chars ?c ?n = (Some _, _) |- _ =>
      lazymatch goal with
      | _ : noted E |- _ => fail
      | _ => assert (noted E) by exact I;
             let X := fresh "X" in
             pose proof (p_chars_some _ _ _ _ E) as X;
             fact_of E (p_chars_steps c n)
      end
  | E : maybe_p_whitespace a ?c = _ |- _ =>
      lazymatch goal with
      | _ : noted E |- _ => fail
      | _ => assert (noted E) by exact I;
             fact_of E (maybe_p_whitespace_steps a c)
      end
  | E : p_octal a ?c ?o = _ |- _ =>
      lazymatch goal with
      | _ : noted E |- _ => fail
      | _ => assert (noted E) by exact I;
             fact_of E (p_octal_steps a c o)
      end
  | E : fraction_loop a ?f ?n ?d ?c = _ |- _ =>
      lazymatch goal with
      | _ : noted E |- _ => fail
      | _ => assert (noted E) by exact I;
             fact_of E (fraction_loop_steps a f n d c)
      end
  end.

Ltac side a :=
  first [ assumption | lia
        | eapply agree_le; [eassumption|lia]
        | solve [repeat first [assumption
                              | eapply framed_steps; [|eassumption]]] ].

Ltac replay a b :=
  unfold p_char in *;
  repeat (match goal with
   | E : p_chars ?c ?n = (Some ?p, ?c1)
     |- context [p_chars (widen ?c ?e) ?n] =>
       rewrite (p_chars_widen c n p c1 e E) by side a
   | E : maybe_p_whitespace a ?c = ?c1
     |- context [maybe_p_whitespace b (widen ?c ?e)] =>
       rewrite (maybe_p_whitespace_ext_eq a b e c c1 E) by side a
   | E : p_octal a ?c ?o = (?v, ?c1)
     |- context [p_octal b (widen ?c ?e) ?o] =>
       rewrite (p_octal_ext_eq a b e c o v c1 E) by side a
   | A : agree a b _ |- context [peek b (widen ?c ?e)] =>
       rewrite (peek_agree a b e c _ A) by side a
   | A : agree a b _ |- context [char_at b ?p] =>
       rewrite <- (A p) by lia
   | A : agree a b ?k |- context [strncmp b ?p ?lit ?n] =>
       rewrite (strncmp_agree a b k n lit p A) by lia
   | A : agree a b ?k |- context [strncasecmp b ?p ?lit ?n] =>
       rewrite (strncasecmp_agree a b k n lit p A) by lia
   | A : agree a b ?k |- context [strcmp b ?lit ?p] =>
       rewrite (strcmp_agree a b k lit p A) by (cbn [List.length]; lia)
   | E : ?cond = _ |- context [if ?cond then _ else _] => rewrite E
   end; cbn [fst snd]).

Arguments p_value_return : simpl never.
Arguments strncmp : simpl never.
Arguments strcmp : simpl never.
Arguments strncasecmp : simpl never.

Section Extension_parsers.

Variables a b : list ascii.
Variable e : nat.

Lemma p_bool_ext c r c' :
  framed a c ->
  p_bool a c = (Ok r, c') ->
  agree a b (s c' - 1) -> s c' <= e ->
  p_bool b (widen c e) = (Ok r, widen c' e).
Proof.
  intros F H A B. unfold p_bool in *.
  path H; injection H as <- <-; facts a; replay a b; reflexivity.
Qed.

Lemma p_empty_ext c r c' :
  framed a c ->
  p_empty a c = (Ok r, c') ->
  agree a b (s c') -> s c' <= e ->
  p_empty b (widen c e) = (Ok r, widen c' e).
Proof.
  intros F H A B. unfold p_empty in *. cbv zeta in *.
  path H; injection H as <- <-; facts a. cbn [List.length] in *.
  replay a b; reflexivity.
Qed.

Lemma handle_escaped_loop_ext : forall k acc c v c1,
  framed a c ->
  handle_escaped_loop a k acc c = (v, c1) ->
  agree a b (s c1) -> s c1 <= e ->
  handle_escaped_loop b k acc (widen c e) = (v, widen c1 e).
Proof.
  induction k as [|k IH]; intros acc c v c1 F H A B;
    cbn [handle_escaped_loop] in *.
  - injection H as <- <-. reflexivity.
  - destruct (p_octal a c (PrimFloat.mul acc 8%float)) as [acc' c0] eqn:E.
    pose proof (handle_escaped_loop_steps a k acc' c0) as St.
    rewrite H in St. cbn [snd] in St.
    facts a. unfold steps in St.
    rewrite (p_octal_ext_eq a b e c _ acc' c0 E) by side a.
    apply IH; auto. eapply framed_steps; eassumption.
Qed.

Lemma handle_escaped_ext c r c' :
  framed a c ->
  handle_escaped a c = (Ok r, c') ->
  agree a b (s c') -> s c' <= e ->
  handle_escaped b (widen c e) = (Ok r, widen c' e).
Proof.
  intros F H A B. unfold handle_escaped in *.
  destruct (handle_escaped_loop a 6 0%float c) as [acc c0] eqn:E.
  destruct (write_utf8 (uint32_of_double acc)) as [len buf] eqn:Wu.
  destruct (len =? 0)%Z eqn:Z0; [discriminate|]. injection H as <- <-.
  rewrite (handle_escaped_loop_ext 6 _ c acc c0 F E A B), Wu, Z0.
  reflexivity.
Qed.

Lemma snd_p_char c :
  framed a c -> peek a c <> NUL -> snd (p_chars c 1) = advance c 1.
Proof.
  intros F N. rewrite p_chars_ok; [reflexivity|].
  apply (framed_not_at_end a c F N).
Qed.

Lemma snd_p_char_widen c :
  s c + 1 <= e -> snd (p_chars (widen c e) 1) = widen (advance c 1) e.
Proof. intros L. rewrite p_chars_ok by exact L. reflexivity. Qed.

(** Proves [peek a c <> NUL] from a test on [peek a c] that holds. *)
Ltac peek_not_NUL :=
  let N := fresh in
  intros N;
  match goal with
  | E : context [peek _ _] |- _ => rewrite N in E; discriminate E
  end.

Lemma p_double_integer_ext c n c' :
  framed a c ->
  p_double_integer a c = (n, c') ->
  agree a b (s c') -> s c' <= e ->
  p_double_integer b (widen c e) = (n, widen c' e).
Proof.
  intros F H A B. unfold p_double_integer in *. cbv zeta in *.
  unfold p_char in *.
  remember (maybe_p_whitespace a c) as c0 eqn:W. symmetry in W.
  facts a. assert (F0 : framed a c0) by side a.
  destruct (Ascii.eqb (peek a c0) "0") eqn:Z.
  - rewrite (snd_p_char c0 F0) in H by peek_not_NUL.
    injection H as <- <-. rewrite s_advance in *.
    replay a b. rewrite snd_p_char_widen by lia. reflexivity.
  - facts a. replay a b. reflexivity.
Qed.

Lemma p_double_fraction_ext n c r c' :
  framed a c ->
  p_double_fraction a n c = (Ok r, c') ->
  agree a b (s c') -> s c' <= e ->
  p_double_fraction b n (widen c e) = (Ok r, widen c' e).
Proof.
  intros F H A B. unfold p_double_fraction in *. cbv zeta in *.
  unfold p_char in *.
  destruct (Ascii.eqb (peek a c) ".") eqn:D.
  - rewrite (snd_p_char c F) in H by peek_not_NUL.
    assert (F1 : framed a (advance c 1)).
    { destruct F as [F1 F2]. split; [|exact F2].
      rewrite s_advance, s_end_advance.
      apply (framed_not_at_end a c (conj F1 F2)). peek_not_NUL. }
    destruct (negb (is_octal (peek a (advance c 1)))) eqn:O; [discriminate|].
    destruct (fraction_loop a _ n 8%float (advance c 1)) as [v c1] eqn:L.
    remember (maybe_p_whitespace a c1) as c2 eqn:W. symmetry in W.
    injection H as <- <-. facts a. rewrite s_advance in *.
    rewrite (peek_agree a b e c _ A) by lia. rewrite D.
    rewrite snd_p_char_widen by lia.
    rewrite (peek_agree a b e (advance c 1) _ A)
      by (rewrite s_advance; lia).
    rewrite O. cbn [widen s s_end].
    change (mkContext (s (advance c 1)) e (beginning (advance c 1))
              (unsafe (advance c 1))) with (widen (advance c 1) e).
    rewrite (fraction_loop_ext_eq a b e (advance c 1) n 8%float v c1 L)
      by side a.
    rewrite (maybe_p_whitespace_ext_eq a b e c1 c2 W) by side a.
    reflexivity.
  - injection H as <- <-.
    rewrite (peek_agree a b e c _ A) by lia. rewrite D. reflexivity.
Qed.

Lemma p_double_exponent_ext n c r c' :
  framed a c ->
  p_double_exponent a n c = (Ok r, c') ->
  agree a b (s c') -> s c' <= e ->
  p_double_exponent b n (widen c e) = (Ok r, widen c' e).
Proof.
  intros F H A B. unfold p_double_exponent in *. cbv zeta in *.
  unfold p_char in *.
  destruct (Ascii.eqb (peek a c) "v" || Ascii.eqb (peek a c) "V") eqn:V.
  2:{ injection H as <- <-.
      rewrite (peek_agree a b e c _ A) by lia. rewrite V. reflexivity. }
  destruct (p_chars c 4) as [[sp|] c0] eqn:E4; [|discriminate].
  destruct (strncasecmp a sp _ 4) eqn:Very; [discriminate|].
  facts a. assert (F0 : framed a c0) by side a.
  set (c1 := if Ascii.eqb (peek a c0) "+" then snd (p_chars c0 1)
             else if Ascii.eqb (peek a c0) "-" then snd (p_chars c0 1)
             else c0) in *.
  assert (C1 : steps c0 c1 /\
               (s c1 <= e ->
                (if Ascii.eqb (peek a c0) "+"
                 then snd (p_chars (widen c0 e) 1)
                 else if Ascii.eqb (peek a c0) "-"
                      then snd (p_chars (widen c0 e) 1)
                      else widen c0 e) = widen c1 e)).
  { subst c1. destruct (Ascii.eqb (peek a c0) "+") eqn:Plus.
    - rewrite (snd_p_char c0 F0) by peek_not_NUL.
      split; [|intros L; rewrite s_advance in L;
                rewrite snd_p_char_widen by lia; reflexivity].
      rewrite <- (snd_p_char c0 F0) by peek_not_NUL. apply p_chars_steps.
    - destruct (Ascii.eqb (peek a c0) "-") eqn:Minus.
      + rewrite (snd_p_char c0 F0) by peek_not_NUL.
        split; [|intros L; rewrite s_advance in L;
                  rewrite snd_p_char_widen by lia; reflexivity].
        rewrite <- (snd_p_char c0 F0) by peek_not_NUL. apply p_chars_steps.
      + split; [apply steps_refl|reflexivity]. }
  destruct C1 as [SS1 C1]. clearbody c1.
  remember (maybe_p_whitespace a c1) as c2 eqn:W. symmetry in W.
  destruct (negb (is_octal (peek a c2))) eqn:O; [discriminate|].
  destruct (p_octal a c2 0%float) as [power c3] eqn:P.
  injection H as <- <-. facts a.
  pose proof SS1 as NS1. unfold steps in NS1.
  rewrite (peek_agree a b e c _ A) by lia. rewrite V.
  rewrite (p_chars_widen c 4 sp c0 e E4) by lia.
  rewrite (strncasecmp_agree a b _ 4 _ sp A) by lia. rewrite Very.
  rewrite !(peek_agree a b e c0 _ A) by lia.
  rewrite C1 by lia.
  rewrite (maybe_p_whitespace_ext_eq a b e c1 c2 W) by side a.
  rewrite (peek_agree a b e c2 _ A) by lia. rewrite O.
  rewrite (p_octal_ext_eq a b e c2 _ power c3 P) by side a.
  reflexivity.
Qed.

Lemma p_double_ext c r c' :
  framed a c ->
  p_double a c = (Ok r, c') ->
  agree a b (s c') -> s c' <= e ->
  p_double b (widen c e) = (Ok r, widen c' e).
Proof.
  intros F H A B. unfold p_double in *. cbv zeta in *. unfold p_char in *.
  set (c1 := if Ascii.eqb (peek a c) "-" then snd (p_chars c 1) else c) in *.
  assert (C1 : steps c c1 /\
               (s c1 <= e ->
                (if Ascii.eqb (peek a c) "-"
                 then snd (p_chars (widen c e) 1) else widen c e)
                = widen c1 e)).
  { subst c1. destruct (Ascii.eqb (peek a c) "-") eqn:Minus.
    - rewrite (snd_p_char c F) by peek_not_NUL.
      split; [|intros L; rewrite s_advance in L;
                rewrite snd_p_char_widen by lia; reflexivity].
      rewrite <- (snd_p_char c F) by peek_not_NUL. apply p_chars_steps.
    - split; [apply steps_refl|reflexivity]. }
  destruct C1 as [SS1 C1]. clearbody c1.
  destruct (p_double_integer a c1) as [n c2] eqn:Pi.
  remember (maybe_p_whitespace a c2) as c3 eqn:W. symmetry in W.
  destruct (p_double_fraction a n c3) as [[n1|?|?|] c4] eqn:Pf;
    try discriminate.
  destruct (p_double_exponent a n1 c4) as [[n2|?|?|] c5] eqn:Px;
    try discriminate.
  injection H as <- <-.
  pose proof SS1 as NS1. unfold steps in NS1.
  fact_of Pi (p_double_integer_steps a c1).
  facts a.
  fact_of Pf (p_double_fraction_post a n c3).
  fact_of Px (p_double_exponent_post a n1 c4).
  rewrite (peek_agree a b e c _ A) by lia.
  rewrite C1 by lia.
  rewrite (p_double_integer_ext c1 n c2) by side a.
  rewrite (maybe_p_whitespace_ext_eq a b e c2 c3 W) by side a.
  rewrite (p_double_fraction_ext n c3 n1 c4) by side a.
  rewrite (p_double_exponent_ext n1 c4 n2 c5) by side a.
  reflexivity.
Qed.

Lemma string_scan_ext : forall fuel1 fuel2 c k r c',
  string_scan a fuel1 c k = (Ok r, c') ->
  agree a b (s c' - 1) -> s c' <= e ->
  e - s c < fuel2 ->
  string_scan b fuel2 (widen c e) k = (Ok r, widen c' e).
Proof.
  induction fuel1 as [|fuel1 IH]; intros fuel2 c k r c' H A B L;
    cbn [string_scan] in H; [discriminate|].
  destruct fuel2 as [|fuel2]; [lia|]. cbn [string_scan].
  unfold p_char in *.
  destruct (p_chars c 1) as [[e1|] c1] eqn:E1; [|discriminate].
  destruct (Ascii.eqb (char_at a e1) dquote) eqn:Q.
  { injection H as <- <-. facts a. replay a b. reflexivity. }
  destruct (Ascii.eqb (char_at a e1) backslash) eqn:Bs.
  2:{ pose proof (string_scan_post a fuel1 c1 k) as [St _].
      rewrite H in St. cbn [snd] in St. unfold steps in St.
      facts a. replay a b. apply IH; auto. lia. }
  destruct (p_chars c1 1) as [[e2|] c2] eqn:E2; [|discriminate].
  destruct (Ascii.eqb (char_at a e2) "u") eqn:U.
  - destruct (p_chars c2 6) as [[e3|] c3] eqn:E3; [|discriminate].
    pose proof (string_scan_post a fuel1 c3 (S k + 2)) as [St _].
    rewrite H in St. cbn [snd] in St. unfold steps in St.
    facts a. replay a b. apply IH; auto. lia.
  - pose proof (string_scan_post a fuel1 c2 (S k)) as [St _].
    rewrite H in St. cbn [snd] in St. unfold steps in St.
    facts a. replay a b. apply IH; auto. lia.
Qed.

Lemma unsafe_widen c : unsafe (widen c e) = unsafe c.
Proof. reflexivity. Qed.

Lemma string_decode_ext : forall fuel c p e_ len out r c',
  framed a c ->
  string_decode a fuel c p e_ len out = (Ok r, c') ->
  e_ <= s c ->
  agree a b (s c') -> s c' <= e ->
  string_decode b fuel (widen c e) p e_ len out = (Ok r, widen c' e).
Proof.
  induction fuel as [|fuel IH]; intros c p e_ len out r c' F H P A B.
  - cbn [string_decode] in *. destruct (e_ <=? p); [|discriminate].
    injection H as <- <-. reflexivity.
  - cbn [string_decode] in *. destruct (e_ <=? p) eqn:Done.
    { injection H as <- <-. reflexivity. }
    apply Nat.leb_gt in Done.
    pose proof (string_decode_post a fuel) as Post.
    rewrite unsafe_widen.
    assert (Sc : s c <= s c').
    { pose proof (string_decode_post a (S fuel) c p e_ len out) as [St _].
      cbn [string_decode] in St.
      destruct (Nat.leb_spec e_ p); [lia|].
      rewrite H in St. apply St. }
    rewrite <- (A p) by lia.
    destruct (negb (Ascii.eqb (char_at a p) backslash)) eqn:Plain.
    { destruct (store len out [char_at a p]) as [out'| | |] eqn:St;
        try discriminate. apply IH; auto. }
    rewrite <- !(A (S p)) by lia.
    repeat match type of H with
    | context [if ?x then _ else _] =>
        let E := fresh "C" in destruct x eqn:E
    end;
    try discriminate H;
    try (destruct (store len out _) as [out'| | |] eqn:St;
           try discriminate; apply IH; auto).
    destruct (handle_escaped a c) as [[buf|?|?|] c0] eqn:HE;
      try discriminate.
    destruct (store len out buf) as [out'| | |] eqn:St; try discriminate.
    pose proof (handle_escaped_post a c) as [S0 _].
    rewrite HE in S0. cbn [snd] in S0.
    pose proof (Post c0 (S (S p)) e_ len out') as [S1 _].
    rewrite H in S1. cbn [snd] in S1.
    pose proof S0 as N0. pose proof S1 as NS1. unfold steps in N0, NS1.
    rewrite (handle_escaped_ext c buf c0) by side a.
    rewrite St. apply IH; auto.
    + eapply framed_steps; eassumption.
    + lia.
Qed.

Lemma p_string_ext c h r c' h' :
  framed a c ->
  p_string a c h = (Ok r, c', h') ->
  agree a b (s c') -> s c' <= e ->
  p_string b (widen c e) h = (Ok r, widen c' e, h').
Proof.
  intros F H A B. unfold p_string in *. unfold p_char in *. cbv zeta in *.
  destruct (p_chars c 1) as [[start|] c0] eqn:E0; [|discriminate].
  destruct (negb (Ascii.eqb (char_at a start) dquote)) eqn:Q;
    [discriminate|].
  destruct (string_scan a _ c0 0) as [[[e_ k]|?|?|] c1] eqn:Scan;
    try discriminate.
  destruct (CALLOC h) as [out h0] eqn:Ca.
  destruct (string_decode a _ c1 _ _ _ _) as [[bytes|?|?|] c2] eqn:Dec;
    try discriminate.
  destruct (store _ bytes [NUL]) eqn:St; try discriminate.
  injection H as <- <- <-.
  facts a.
  fact_of Scan (string_scan_post a (S (s_end c0 - s c0)) c0 0).
  fact_of Dec (string_decode_post a (e_ - S start) c1 (S start) e_
                 (e_ - S start - k + 1) []).
  (* the closing quote is behind the cursor *)
  assert (Eq : e_ < s c1).
  { clear - Scan.
    remember (S (s_end c0 - s c0)) as fuel eqn:Ef. clear Ef.
    remember 0 as k0 eqn:Ek. clear Ek.
    revert c0 k0 Scan. induction fuel as [|fuel IH]; intros c0 k0 Scan;
      cbn [string_scan] in Scan; [discriminate|].
    unfold p_char in Scan.
    destruct (p_chars c0 1) as [[e1|] c] eqn:E1; [|discriminate].
    apply p_chars_some in E1. destruct E1 as (-> & E1 & _).
    destruct (Ascii.eqb _ dquote).
    { injection Scan as <- <- <-. lia. }
    destruct (Ascii.eqb _ backslash); [|eauto].
    destruct (p_chars c 1) as [[e2|] c2]; [|discriminate].
    destruct (Ascii.eqb _ "u"); [|eauto].
    destruct (p_chars c2 6) as [[e3|] c3]; [|discriminate]. eauto. }
  replay a b.
  cbn [widen s s_end].
  change (mkContext (s c0) e (beginning c0) (unsafe c0)) with (widen c0 e).
  rewrite (string_scan_ext _ (S (e - s c0)) c0 0 (e_, k) c1 Scan)
    by (try lia; side a).
  rewrite (string_decode_ext _ c1 (S start) e_ _ [] bytes c2)
    by (try lia; side a).
  rewrite St. reflexivity.
Qed.

Lemma p_value_return_ok A ret (mk : A -> dson_value) x r c' h' :
  p_value_return ret mk x = (Ok r, c', h') ->
  exists v, x = (Ok v, c', h') /\ r = mk v.
Proof.
  unfold p_value_return. destruct x as [[[v|?|?|] c0] h0]; try discriminate.
  intros [= <- <- <-]. eauto.
Qed.

Lemma p_value_post fuel c h :
  post c (fst (fst (p_value a fuel c h))) (snd (fst (p_value a fuel c h))).
Proof. apply (structural_post a fuel). Qed.

Lemma p_array_post fuel c h :
  post c (fst (fst (p_array a fuel c h))) (snd (fst (p_array a fuel c h))).
Proof. apply (structural_post a fuel). Qed.

Lemma p_array_loop_post fuel c h array elts :
  post c (fst (fst (p_array_loop a fuel c h array elts)))
         (snd (fst (p_array_loop a fuel c h array elts))).
Proof. apply (structural_post a fuel). Qed.

Lemma p_dict_post fuel c h :
  post c (fst (fst (p_dict a fuel c h))) (snd (fst (p_dict a fuel c h))).
Proof. apply (structural_post a fuel). Qed.

Lemma p_dict_loop_post fuel c h dict keys values entries :
  post c (fst (fst (p_dict_loop a fuel c h dict keys values entries)))
         (snd (fst (p_dict_loop a fuel c h dict keys values entries))).
Proof. apply (structural_post a fuel). Qed.

(** An array or a dictionary that parses has consumed its opening keyword. *)
Lemma p_array_progress fuel c h r c' h' :
  p_array a fuel c h = (Ok r, c', h') -> s c + 2 <= s c'.
Proof.
  destruct fuel as [|fuel]; [discriminate|]. simpl. unfold CALLOC.
  destruct (p_chars c 2) as [[sp|] c0] eqn:E0; [|discriminate].
  destruct (strncmp a sp _ 2); [discriminate|].
  pose proof (maybe_p_whitespace_steps a c0) as S1.
  remember (maybe_p_whitespace a c0) as c1 eqn:W. clear W.
  match goal with
  | |- context [if ?x then ?l else ?r] =>
      assert (S2 : steps c1 (snd (fst (if x then l else r))))
  end.
  { destruct (negb _); [apply p_array_loop_post|apply steps_refl]. }
  destruct (if negb _ then _ else _) as [[[elts|?|?|] c2] h2];
    try discriminate. cbn [fst snd] in S2.
  destruct (p_chars c2 4) as [[sp4|] c3] eqn:E4; [|discriminate].
  destruct (strncmp a sp4 _ 4); [discriminate|].
  intros [= <- <- <-].
  apply p_chars_some in E0, E4. unfold steps in *. lia.
Qed.

Lemma p_dict_progress fuel c h r c' h' :
  p_dict a fuel c h = (Ok r, c', h') -> s c + 2 <= s c'.
Proof.
  destruct fuel as [|fuel]; [discriminate|]. simpl. unfold CALLOC.
  destruct (p_chars c 4) as [[sp|] c0] eqn:E0; [|discriminate].
  destruct (strncmp a sp _ 4); [discriminate|].
  match goal with
  | |- context [p_dict_loop a fuel ?c ?h ?d ?k ?v ?l] =>
      pose proof (p_dict_loop_post fuel c h d k v l) as [S1 _];
      destruct (p_dict_loop a fuel c h d k v l) as [[[entries|?|?|] c1] h1]
  end; try discriminate. cbn [fst snd] in S1.
  destruct (p_chars c1 3) as [[sp3|] c2] eqn:E3; [|discriminate].
  destruct (strncmp a sp3 _ 3); [discriminate|].
  intros [= <- <- <-].
  apply p_chars_some in E0, E3. unfold steps in *. lia.
Qed.

(** The five mutually recursive parsers: a run that succeeds on [a] is the
    run on [b], with at least as much fuel. *)
Lemma structural_ext : forall fuel1,
  (forall fuel2 c h r c' h',
     fuel1 <= fuel2 -> framed a c ->
     p_value a fuel1 c h = (Ok r, c', h') ->
     agree a b (s c') -> s c' <= e ->
     p_value b fuel2 (widen c e) h = (Ok r, widen c' e, h')) /\
  (forall fuel2 c h r c' h',
     fuel1 <= fuel2 -> framed a c ->
     p_array a fuel1 c h = (Ok r, c', h') ->
     agree a b (s c' - 1) -> s c' <= e ->
     p_array b fuel2 (widen c e) h = (Ok r, widen c' e, h')) /\
  (forall fuel2 c h array elts r c' h',
     fuel1 <= fuel2 -> framed a c ->
     p_array_loop a fuel1 c h array elts = (Ok r, c', h') ->
     agree a b (s c') -> s c' <= e ->
     p_array_loop b fuel2 (widen c e) h array elts
       = (Ok r, widen c' e, h')) /\
  (forall fuel2 c h r c' h',
     fuel1 <= fuel2 -> framed a c ->
     p_dict a fuel1 c h = (Ok r, c', h') ->
     agree a b (s c' - 1) -> s c' <= e ->
     p_dict b fuel2 (widen c e) h = (Ok r, widen c' e, h')) /\
  (forall fuel2 c h dict keys values entries r c' h',
     fuel1 <= fuel2 -> framed a c ->
     p_dict_loop a fuel1 c h dict keys values entries = (Ok r, c', h') ->
     agree a b (s c') -> s c' <= e ->
     p_dict_loop b fuel2 (widen c e) h dict keys values entries
       = (Ok r, widen c' e, h')).
Proof.
  induction fuel1 as [|fuel1 (IHv & IHa & IHal & IHd & IHdl)].
  { repeat split; intros; discriminate. }
  split; [|split; [|split; [|split]]].
  - (* p_value *)
    intros fuel2 c h r c' h' Lf F H A B.
    assert (A1 : agree a b (s c' - 1)) by (eapply agree_le; [exact A|lia]).
    destruct fuel2 as [|fuel2]; [lia|]. apply le_S_n in Lf.
    pose proof (p_value_post (S fuel1) c h) as [St _].
    rewrite H in St. cbn [fst snd] in St. pose proof St as Nt.
    unfold steps in Nt.
    simpl in H |- *. unfold CALLOC in *. cbv zeta in *.
    rewrite (peek_agree a b e c _ A) by lia.
    destruct (Ascii.eqb (peek a c) dquote) eqn:K1.
    { apply p_value_return_ok in H. destruct H as ([sp bytes] & H & ->).
      rewrite (p_string_ext c _ _ _ _ F H A B). reflexivity. }
    destruct (Ascii.eqb (peek a c) "-" || is_octal (peek a c)) eqn:K2.
    { destruct (p_double a c) as [rd cd] eqn:Pd.
      apply p_value_return_ok in H. destruct H as (n & [= -> <- <-] & ->).
      rewrite (p_double_ext c _ _ F Pd A B). reflexivity. }
    destruct (Ascii.eqb (peek a c) "y" || Ascii.eqb (peek a c) "n") eqn:K3.
    { destruct (p_bool a c) as [rd cd] eqn:Pd.
      apply p_value_return_ok in H. destruct H as (n & [= -> <- <-] & ->).
      rewrite (p_bool_ext c _ _ F Pd A1 B).
      reflexivity. }
    destruct (Ascii.eqb (peek a c) "e") eqn:K4.
    { destruct (p_empty a c) as [rd cd] eqn:Pd.
      apply p_value_return_ok in H. destruct H as (n & [= -> <- <-] & ->).
      rewrite (p_empty_ext c _ _ F Pd A B). reflexivity. }
    destruct (Ascii.eqb (peek a c) "s") eqn:K5; [|discriminate].
    cbn [widen s].
    destruct (Ascii.eqb (char_at a (s c + 1)) "o") eqn:K6.
    { apply p_value_return_ok in H. destruct H as ([arr elts] & H & ->).
      pose proof (p_array_progress _ _ _ _ _ _ H) as Pr.
      rewrite <- (A (s c + 1)) by lia. rewrite K6.
      change (mkContext (s c) e (beginning c) (unsafe c)) with (widen c e).
      rewrite (IHa fuel2 c _ _ _ _ Lf F H A1 B).
      reflexivity. }
    destruct (Ascii.eqb (char_at a (s c + 1)) "u") eqn:K7; [|discriminate].
    apply p_value_return_ok in H.
    destruct H as ([[[dict keys] values] entries] & H & ->).
    pose proof (p_dict_progress _ _ _ _ _ _ H) as Pr.
    rewrite <- (A (s c + 1)) by lia. rewrite K6, K7.
    change (mkContext (s c) e (beginning c) (unsafe c)) with (widen c e).
    rewrite (IHd fuel2 c _ _ _ _ Lf F H A1 B).
    reflexivity.
  - (* p_array *)
    intros fuel2 c h r c' h' Lf F H A B.
    destruct fuel2 as [|fuel2]; [lia|]. apply le_S_n in Lf.
    simpl in H |- *. unfold CALLOC in *. cbv zeta in *.
    destruct (p_chars c 2) as [[sp|] c0] eqn:E0; [|discriminate].
    destruct (strncmp a sp _ 2) eqn:So; [discriminate|].
    remember (maybe_p_whitespace a c0) as c1 eqn:W. symmetry in W.
    set (h0 := mkHeap (next h :: live h) (S (next h)) (invalid_frees h)) in *.
    destruct (negb (Ascii.eqb (peek a c1) "m")) eqn:M.
    + destruct (p_array_loop a fuel1 c1 h0 (next h) [])
        as [[[elts|?|?|] c2] h2] eqn:Lp; try discriminate.
      destruct (p_chars c2 4) as [[sp4|] c3] eqn:E4; [|discriminate].
      destruct (strncmp a sp4 _ 4) eqn:Many; [discriminate|].
      injection H as <- <- <-.
      facts a. fact_of Lp (p_array_loop_post fuel1 c1 h0 (next h) []).
      replay a b.
      rewrite (IHal fuel2 c1 h0 (next h) [] elts c2 h2 Lf) by side a.
      replay a b. reflexivity.
    + destruct (p_chars c1 4) as [[sp4|] c3] eqn:E4; [|discriminate].
      destruct (strncmp a sp4 _ 4) eqn:Many; [discriminate|].
      injection H as <- <- <-.
      facts a. replay a b. reflexivity.
  - (* p_array_loop *)
    intros fuel2 c h array elts r c' h' Lf F H A B.
    destruct fuel2 as [|fuel2]; [lia|]. apply le_S_n in Lf.
    simpl in H |- *. cbv zeta in *. unfold p_char in *.
    destruct (p_value a fuel1 c h) as [[[v|?|?|] c0] h0] eqn:Pv;
      try discriminate.
    remember (maybe_p_whitespace a c0) as c1 eqn:W. symmetry in W.
    fact_of Pv (p_value_post fuel1 c h).
    destruct (negb (Ascii.eqb (peek a c1) "a")) eqn:Sep.
    { injection H as <- <- <-. facts a.
      rewrite (IHv fuel2 c h v c0 h0 Lf) by side a.
      replay a b. reflexivity. }
    destruct (p_chars c1 3) as [[sp|] c2] eqn:E3; [|discriminate].
    destruct (negb (strncmp a sp _ 3)) eqn:And.
    { remember (maybe_p_whitespace a c2) as c3 eqn:W3. symmetry in W3.
      fact_of H (p_array_loop_post fuel1 c3 h0 array (elts ++ [v])).
      facts a.
      rewrite (IHv fuel2 c h v c0 h0 Lf) by side a.
      replay a b.
      apply IHal; auto. side a. }
    destruct (strncmp a sp ["a"; "l"; "s"]%char 3) eqn:Als; [discriminate|].
    destruct (p_chars c2 1) as [[sp1|] c3] eqn:E1; [|discriminate].
    destruct (negb (Ascii.eqb (char_at a sp1) "o")) eqn:O; [discriminate|].
    remember (maybe_p_whitespace a c3) as c4 eqn:W4. symmetry in W4.
    fact_of H (p_array_loop_post fuel1 c4 h0 array (elts ++ [v])).
    facts a.
    rewrite (IHv fuel2 c h v c0 h0 Lf) by side a.
    replay a b.
    apply IHal; auto. side a.
  - (* p_dict *)
    intros fuel2 c h r c' h' Lf F H A B.
    destruct fuel2 as [|fuel2]; [lia|]. apply le_S_n in Lf.
    simpl in H |- *. unfold CALLOC in *. cbv zeta in *. cbn [fst snd] in *.
    destruct (p_chars c 4) as [[sp|] c0] eqn:E0; [|discriminate].
    destruct (strncmp a sp _ 4) eqn:Such; [discriminate|].
    match type of H with
    | context [p_dict_loop a fuel1 c0 ?h ?d ?k ?v ?l] =>
        destruct (p_dict_loop a fuel1 c0 h d k v l)
          as [[[entries|?|?|] c1] h1] eqn:Lp; try discriminate;
        fact_of Lp (p_dict_loop_post fuel1 c0 h d k v l)
    end.
    destruct (p_chars c1 3) as [[sp3|] c2] eqn:E3; [|discriminate].
    destruct (strncmp a sp3 _ 3) eqn:Wow; [discriminate|].
    injection H as <- <- <-.
    facts a. replay a b.
    rewrite (IHdl fuel2 c0 _ _ _ _ _ entries c1 h1 Lf) by side a.
    replay a b. reflexivity.
  - (* p_dict_loop *)
    intros fuel2 c h dict keys values entries r c' h' Lf F H A B.
    destruct fuel2 as [|fuel2]; [lia|]. apply le_S_n in Lf.
    simpl in H |- *. cbv zeta in *. unfold p_char in *.
    remember (maybe_p_whitespace a c) as c0 eqn:W0. symmetry in W0.
    destruct (p_string a c0 h) as [[[[k kbytes]|?|?|] c1] h1] eqn:Ps;
      try discriminate.
    fact_of Ps (p_string_post a c0 h).
    remember (maybe_p_whitespace a c1) as c2 eqn:W2. symmetry in W2.
    destruct (p_chars c2 2) as [[sp|] c3] eqn:E2; [|discriminate].
    destruct (strncmp a sp _ 2) eqn:Is; [discriminate|].
    remember (maybe_p_whitespace a c3) as c4 eqn:W4. symmetry in W4.
    destruct (p_value a fuel1 c4 h1) as [[[v|?|?|] c5] h5] eqn:Pv;
      try discriminate.
    fact_of Pv (p_value_post fuel1 c4 h1).
    remember (maybe_p_whitespace a c5) as c6 eqn:W6. symmetry in W6.
    facts a.
    destruct (is_separator (peek a c6)) eqn:Sep.
    + assert (F6 : framed a c6) by side a.
      assert (N6 : peek a c6 <> NUL).
      { intros N. rewrite N in Sep. discriminate. }
      rewrite (snd_p_char c6 F6 N6) in H.
      fact_of H (p_dict_loop_post fuel1 (advance c6 1) h5 dict keys values
                   (entries ++ [(k, kbytes, v)])).
      rewrite s_advance in *.
      replay a b.
      rewrite (p_string_ext c0 h (k, kbytes) c1 h1) by side a.
      replay a b.
      rewrite (IHv fuel2 c4 h1 v c5 h5 Lf) by side a.
      replay a b.
      rewrite snd_p_char_widen by lia.
      apply IHdl; auto.
      destruct F6 as [F61 F62]. split; [|exact F62].
      rewrite s_advance, s_end_advance.
      apply (framed_not_at_end a c6 (conj F61 F62) N6).
    + injection H as <- <- <-.
      replay a b.
      rewrite (p_string_ext c0 h (k, kbytes) c1 h1) by side a.
      replay a b.
      rewrite (IHv fuel2 c4 h1 v c5 h5 Lf) by side a.
      replay a b. reflexivity.
Qed.

End Extension_parsers.

(** ** Values that end themselves *)

Section Closed.

Variables a b : list ascii.
Variable e : nat.
Hypothesis b_ends : char_at b e = NUL.

(** The decoding of a string reads the bytes between the quotes only,
    wherever the cursor is. *)
Lemma string_decode_closed : forall fuel c p e_ len out r c' c2,
  framed a c -> framed b c2 -> unsafe c2 = unsafe c ->
  string_decode a fuel c p e_ len out = (Ok r, c') ->
  agree a b e_ ->
  exists c2', string_decode b fuel c2 p e_ len out = (Ok r, c2').
Proof.
  induction fuel as [|fuel IH]; intros c p e_ len out r c' c2 F F2 U H A.
  - cbn [string_decode] in *. destruct (e_ <=? p); [|discriminate].
    injection H as <- <-. eauto.
  - cbn [string_decode] in *. destruct (e_ <=? p) eqn:Done.
    { injection H as <- <-. eauto. }
    apply Nat.leb_gt in Done.
    rewrite U.
    rewrite <- (A p) by lia.
    destruct (negb (Ascii.eqb (char_at a p) backslash)) eqn:Plain.
    { destruct (store len out [char_at a p]) as [out'| | |] eqn:St;
        try discriminate. eapply IH; eauto. }
    rewrite <- !(A (S p)) by lia.
    repeat match type of H with
    | context [if ?x then _ else _] =>
        let E := fresh "C" in destruct x eqn:E
    end;
    try discriminate H;
    try (destruct (store len out _) as [out'| | |] eqn:St;
           try discriminate; eapply IH; eauto).
    rewrite (handle_escaped_zero a c F) in H.
    rewrite (handle_escaped_zero b c2 F2).
    destruct (store len out [NUL]) as [out'| | |] eqn:St; try discriminate.
    pose proof (p_octal_steps a c 0%float) as Sa.
    pose proof (p_octal_steps b c2 0%float) as Sb.
    eapply IH; [| | |exact H|exact A].
    + eapply framed_steps; eassumption.
    + eapply framed_steps; eassumption.
    + unfold steps in Sa, Sb. destruct Sa as (_ & _ & _ & -> & _).
      destruct Sb as (_ & _ & _ & -> & _). exact U.
Qed.

Lemma string_scan_end : forall fuel c k e_ n c',
  string_scan a fuel c k = (Ok (e_, n), c') -> s c' = e_ + 1.
Proof.
  induction fuel as [|fuel IH]; intros c k e_ n c' Scan;
    cbn [string_scan] in Scan; [discriminate|].
  unfold p_char in Scan.
  destruct (p_chars c 1) as [[e1|] c1] eqn:E1; [|discriminate].
  apply p_chars_some in E1. destruct E1 as (-> & E1 & _).
  destruct (Ascii.eqb _ dquote).
  { injection Scan as <- <- <-. lia. }
  destruct (Ascii.eqb _ backslash); [|eauto].
  destruct (p_chars c1 1) as [[e2|] c2]; [|discriminate].
  destruct (Ascii.eqb _ "u"); [|eauto].
  destruct (p_chars c2 6) as [[e3|] c3]; [|discriminate]. eauto.
Qed.

Lemma p_string_closed c h r c' h' :
  framed a c ->
  p_string a c h = (Ok r, c', h') ->
  agree a b (s c' - 1) -> s c' <= e ->
  exists c2, p_string b (widen c e) h = (Ok r, c2, h').
Proof.
  intros F H A B. unfold p_string in *. unfold p_char in *. cbv zeta in *.
  destruct (p_chars c 1) as [[start|] c0] eqn:E0; [|discriminate].
  destruct (negb (Ascii.eqb (char_at a start) dquote)) eqn:Q;
    [discriminate|].
  destruct (string_scan a _ c0 0) as [[[e_ k]|?|?|] c1] eqn:Scan;
    try discriminate.
  destruct (CALLOC h) as [out h0] eqn:Ca.
  destruct (string_decode a _ c1 _ _ _ _) as [[bytes|?|?|] c2] eqn:Dec;
    try discriminate.
  destruct (store _ bytes [NUL]) eqn:St; try discriminate.
  injection H as <- <- <-.
  pose proof (string_scan_end _ _ _ _ _ _ Scan) as Eq.
  facts a.
  fact_of Scan (string_scan_post a (S (s_end c0 - s c0)) c0 0).
  fact_of Dec (string_decode_post a (e_ - S start) c1 (S start) e_
                 (e_ - S start - k + 1) []).
  replay a b.
  cbn [widen s s_end].
  change (mkContext (s c0) e (beginning c0) (unsafe c0)) with (widen c0 e).
  rewrite (string_scan_ext a b e _ (S (e - s c0)) c0 0 (e_, k) c1 Scan)
    by (try lia; side a).
  destruct (string_decode_closed (e_ - S start) c1 (S start) e_
              (e_ - S start - k + 1) [] bytes c2 (widen c1 e))
    as [c2' Dec2]; try (exact Dec); try reflexivity.
  - side a.
  - split; [cbn [widen s s_end]; lia|exact b_ends].
  - side a.
  - rewrite Dec2, St. eauto.
Qed.

Lemma p_string_progress c h r c' h' :
  p_string a c h = (Ok r, c', h') -> s c + 1 <= s c'.
Proof.
  intros H. unfold p_string, p_char in H. cbv zeta in H.
  destruct (p_chars c 1) as [[start|] c0] eqn:E0; [|discriminate].
  destruct (negb _); [discriminate|].
  pose proof (string_scan_post a (S (s_end c0 - s c0)) c0 0) as [S1 _].
  destruct (string_scan a _ c0 0) as [[[e_ k]|?|?|] c1];
    try discriminate. cbn [fst snd] in S1.
  destruct (CALLOC h) as [out h0].
  pose proof (string_decode_post a (e_ - S start) c1 (S start) e_
                (e_ - S start - k + 1) []) as [S2 _].
  destruct (string_decode a _ c1 _ _ _ _) as [[bytes|?|?|] c2];
    try discriminate. cbn [fst snd] in S2.
  destruct (store _ bytes [NUL]); try discriminate.
  injection H as <- <- <-.
  apply p_chars_some in E0. unfold steps in *. lia.
Qed.

Lemma p_bool_progress c r c' :
  p_bool a c = (Ok r, c') -> s c + 2 <= s c'.
Proof.
  intros H. unfold p_bool in H.
  path H; injection H as <- <-; facts a; lia.
Qed.

(** A delimited value that parses on [a] parses on every [b] that holds
    the bytes of the value, whatever follows them. *)
Lemma p_value_closed fuel1 fuel2 c h r c' h' :
  fuel1 <= fuel2 -> framed a c ->
  p_value a fuel1 c h = (Ok r, c', h') -> delimited r = true ->
  agree a b (s c' - 1) -> s c' <= e ->
  exists c2, p_value b fuel2 (widen c e) h = (Ok r, c2, h').
Proof.
  intros Lf F H D A B.
  destruct fuel1 as [|fuel1]; [discriminate|].
  destruct fuel2 as [|fuel2]; [lia|]. apply le_S_n in Lf.
  destruct (structural_ext a b e fuel1) as (_ & IHa & _ & IHd & _).
  simpl in H |- *. unfold CALLOC in *. cbv zeta in *.
  destruct (Ascii.eqb (peek a c) dquote) eqn:K1.
  { apply p_value_return_ok in H. destruct H as ([sp bytes] & H & ->).
    pose proof (p_string_progress _ _ _ _ _ H) as Pr.
    rewrite (peek_agree a b e c _ A) by lia. rewrite K1.
    destruct (p_string_closed c _ _ _ _ F H A B) as [c2 ->].
    eexists. reflexivity. }
  destruct (Ascii.eqb (peek a c) "-" || is_octal (peek a c)) eqn:K2.
  { destruct (p_double a c) as [rd cd] eqn:Pd.
    apply p_value_return_ok in H. destruct H as (n & _ & ->).
    discriminate. }
  destruct (Ascii.eqb (peek a c) "y" || Ascii.eqb (peek a c) "n") eqn:K3.
  { destruct (p_bool a c) as [rd cd] eqn:Pd.
    apply p_value_return_ok in H. destruct H as (n & [= -> <- <-] & ->).
    pose proof (p_bool_progress _ _ _ Pd) as Pr.
    rewrite (peek_agree a b e c _ A) by lia. rewrite K1, K2, K3.
    rewrite (p_bool_ext a b e c _ _ F Pd A B). eexists. reflexivity. }
  destruct (Ascii.eqb (peek a c) "e") eqn:K4.
  { destruct (p_empty a c) as [rd cd] eqn:Pd.
    apply p_value_return_ok in H. destruct H as (n & _ & ->).
    discriminate. }
  destruct (Ascii.eqb (peek a c) "s") eqn:K5; [|discriminate].
  destruct (Ascii.eqb (char_at a (s c + 1)) "o") eqn:K6.
  { apply p_value_return_ok in H. destruct H as ([arr elts] & H & ->).
    pose proof (p_array_progress a _ _ _ _ _ _ H) as Pr.
    rewrite (peek_agree a b e c _ A) by lia.
    rewrite K1, K2, K3, K4, K5. cbn [widen s].
    rewrite <- (A (s c + 1)) by lia. rewrite K6.
    change (mkContext (s c) e (beginning c) (unsafe c)) with (widen c e).
    rewrite (IHa fuel2 c _ _ _ _ Lf F H A B). eexists. reflexivity. }
  destruct (Ascii.eqb (char_at a (s c + 1)) "u") eqn:K7; [|discriminate].
  apply p_value_return_ok in H.
  destruct H as ([[[dict keys] values] entries] & H & ->).
  pose proof (p_dict_progress a _ _ _ _ _ _ H) as Pr.
  rewrite (peek_agree a b e c _ A) by lia.
  rewrite K1, K2, K3, K4, K5. cbn [widen s].
  rewrite <- (A (s c + 1)) by lia. rewrite K6, K7.
  change (mkContext (s c) e (beginning c) (unsafe c)) with (widen c e).
  rewrite (IHd fuel2 c _ _ _ _ Lf F H A B). eexists. reflexivity.
Qed.

End Closed.

(** ** What follows the value *)

Lemma consumed_within a la unsafe h : consumed a la unsafe h <= la.
Proof.
  unfold consumed.
  pose proof (structural_post a (2 * la + 2)) as (P & _).
  destruct (P (mkContext 0 la 0 unsafe) h) as [(_ & E & _ & _ & In) _].
  cbn [s s_end] in *. rewrite E in In. apply In. lia.
Qed.

Lemma framed_start a la unsafe :
  nth la a NUL = NUL -> framed a (mkContext 0 la 0 unsafe).
Proof. intros N. split; [cbn [s]; lia|exact N]. Qed.


(** The call reads no byte beyond the one at which its cursor stops: when
    it succeeds on the buffer [a], with the cursor at the offset
    [consumed], it succeeds with the same value and the same heap on every
    NUL-terminated buffer [b], at least as long, that holds the same bytes
    up to that offset; after a string, a boolean, an array or a
    dictionary, up to the byte before it. *)
Lemma parse_reads_to_cursor :
  forall (a b : list ascii) (la lb : nat) (unsafe : bool) (h h' : heap)
         (v : dson_value),
    dson_parse a la unsafe h = (Ok tt, Some v, h') ->
    la <= lb ->
    nth lb b NUL = NUL ->
    agree a b (consumed a la unsafe h - (if delimited v then 1 else 0)) ->
    dson_parse b lb unsafe h = (Ok tt, Some v, h').
Proof.
  intros a b la lb unsafe h h' v H L Nb A.
  pose proof (consumed_within a la unsafe h) as Cw.
  unfold dson_parse, consumed in *. rewrite Nb.
  destruct (Ascii.eqb (nth la a NUL) NUL) eqn:Na; [|discriminate].
  apply Ascii.eqb_eq in Na. pose proof (framed_start a la unsafe Na) as F.
  cbn [negb Ascii.eqb Bool.eqb NUL] in *.
  destruct (p_value a (2 * la + 2) (mkContext 0 la 0 unsafe) h)
    as [[[r|?|?|] c'] h1] eqn:P; try discriminate.
  injection H as <- <-. cbn [fst snd] in *.
  assert (Lf : 2 * la + 2 <= 2 * lb + 2) by lia.
  assert (B : s c' <= lb) by lia.
  destruct (delimited r) eqn:D.
  - destruct (p_value_closed a b lb Nb _ _ _ h r c' h1 Lf F P D A B)
      as [c2 P2].
    change (widen (mkContext 0 la 0 unsafe) lb)
      with (mkContext 0 lb 0 unsafe) in P2.
    rewrite P2. reflexivity.
  - rewrite Nat.sub_0_r in A.
    pose proof (proj1 (structural_ext a b lb (2 * la + 2))
                  _ _ h r c' h1 Lf F P A B) as P2.
    change (widen (mkContext 0 la 0 unsafe) lb)
      with (mkContext 0 lb 0 unsafe) in P2.
    rewrite P2. reflexivity.
Qed.

(** A string, a boolean, an array or a dictionary that parses is parsed
    again whatever bytes are appended to the input. *)
Lemma delimited_value_then_anything :
  forall (text rest : list ascii) (unsafe : bool) (h h' : heap)
         (v : dson_value),
    dson_parse text (List.length text) unsafe h = (Ok tt, Some v, h') ->
    delimited v = true ->
    dson_parse (text ++ rest) (List.length (text ++ rest)) unsafe h
      = (Ok tt, Some v, h').
Proof.
  intros text rest unsafe h h' v H D.
  pose proof (consumed_within text (List.length text) unsafe h) as Cw.
  assert (Ne : 0 < List.length text).
  { destruct text; [|cbn [List.length]; lia]. discriminate H. }
  assert (Na : nth (List.length text) text NUL = NUL)
    by (apply nth_overflow; lia).
  assert (Nb : nth (List.length (text ++ rest)) (text ++ rest) NUL = NUL)
    by (apply nth_overflow; lia).
  unfold dson_parse, consumed in *. rewrite Na in H. rewrite Nb.
  pose proof (framed_start text _ unsafe Na) as F.
  cbn [negb Ascii.eqb Bool.eqb NUL] in *.
  destruct (p_value text _ _ h) as [[[r|?|?|] c'] h1] eqn:P;
    try discriminate.
  injection H as <- <-. cbn [fst snd] in *.
  destruct (p_value_closed text (text ++ rest) (List.length (text ++ rest))
              Nb (2 * List.length text + 2)
              (2 * List.length (text ++ rest) + 2)
              (mkContext 0 (List.length text) 0 unsafe) h r c' h1)
    as [c2 P2]; auto.
  - rewrite length_app. lia.
  - intros p Hp. unfold char_at. rewrite app_nth1 by lia. reflexivity.
  - rewrite length_app. lia.
  - change (widen (mkContext 0 (List.length text) 0 unsafe)
              (List.length (text ++ rest)))
      with (mkContext 0 (List.length (text ++ rest)) 0 unsafe) in P2.
    rewrite P2. reflexivity.
Qed.

Lemma octal_not_quote ch : is_octal ch = true -> Ascii.eqb ch dquote = false.
Proof. by_byte ch. Qed.

(** A number token at the start of the input, followed by any bytes of
    which the first cannot continue it. *)
Lemma number_then_anything :
  forall (t : number_token) (rest : list ascii) (unsafe : bool) (h : heap),
    number_ok t ->
    is_octal (hd NUL (number_text t)) = true
    \/ hd NUL (number_text t) = "-"%char ->
    ends_exponent (exponent t) (hd NUL rest) = true ->
    dson_parse (number_text t ++ rest)
      (List.length (number_text t ++ rest)) unsafe h
      = (Ok tt, Some (DSON_DOUBLE (next h) (number_value t)),
         snd (CALLOC h)).
Proof.
  intros t rest unsafe h Wf St E.
  set (input := number_text t ++ rest).
  assert (Hd : char_at input 0 = hd NUL (number_text t)).
  { unfold input, char_at. destruct (number_text t) as [|x l];
      [|reflexivity].
    cbn [hd] in St. destruct St as [St|St]; discriminate St. }
  unfold dson_parse.
  rewrite (nth_overflow input NUL (Nat.le_refl _)).
  cbn [negb Ascii.eqb Bool.eqb NUL].
  replace (2 * List.length input + 2) with (S (2 * List.length input + 1))
    by lia.
  cbn [p_value]. unfold CALLOC at 1. cbv zeta.
  change (peek input (mkContext 0 (List.length input) 0 unsafe))
    with (char_at input 0).
  rewrite Hd.
  assert (Q : Ascii.eqb (hd NUL (number_text t)) dquote = false).
  { destruct St as [St|St]; [apply octal_not_quote; exact St|].
    rewrite St. reflexivity. }
  assert (D : Ascii.eqb (hd NUL (number_text t)) "-"
              || is_octal (hd NUL (number_text t)) = true).
  { destruct St as [St|St]; [rewrite St; apply orb_true_r|].
    rewrite St. reflexivity. }
  rewrite Q, D.
  rewrite (p_double_token input (mkContext 0 (List.length input) 0 unsafe)
             t rest); auto.
  - exact (tail_at_here [] (number_text t ++ rest)).
  - cbn [s s_end]. unfold input. rewrite length_app. lia.
Qed.



(** Of [empty] the claim fails through the code: [p_empty] compares with
    [strcmp], up to the terminator of the buffer, so [empty] followed by
    any byte is refused. *)
Lemma empty_then_anything_fails :
  forall (x : ascii) (rest : list ascii) (unsafe : bool) (h : heap),
    x <> NUL ->
    dson_parse (str "empty" ++ x :: rest)
      (List.length (str "empty" ++ x :: rest)) unsafe h
      = (Err (AtInputChar 5 ExpectedEmpty), None,
         free (next h) (snd (CALLOC h))).
Proof.
  intros x rest unsafe h N.
  unfold dson_parse.
  rewrite (nth_overflow _ NUL (Nat.le_refl _)).
  cbn [negb Ascii.eqb Bool.eqb NUL].
  cbn [str list_ascii_of_string app List.length].
  replace (2 * S (S (S (S (S (S (List.length rest)))))) + 2)
    with (S (2 * S (S (S (S (S (S (List.length rest)))))) + 1)) by lia.
  cbn [p_value]. unfold CALLOC at 1. cbv zeta.
  unfold peek at 1. cbn [s].
  change (char_at ("e" :: "m" :: "p" :: "t" :: "y" :: x :: rest)%char 0)
    with "e"%char.
  cbn [Ascii.eqb Bool.eqb dquote orb is_octal code nat_of_ascii].
  change (is_octal "e") with false. cbn [orb].
  unfold p_empty. cbv zeta.
  change (List.length (list_ascii_of_string "empty")) with 5.
  rewrite p_chars_ok by (cbn [s s_end]; lia). cbn [s].
  assert (C : strcmp ("e" :: "m" :: "p" :: "t" :: "y" :: x :: rest)%char
                (list_ascii_of_string "empty") 0 = true).
  { change (negb (Ascii.eqb x NUL) = true).
    apply negb_true_iff, Ascii.eqb_neq. exact N. }
  rewrite C. reflexivity.
Qed.

(** ** The blocks of a parsed value *)

(** A parse that succeeds never calls [free]: its blocks are the ones it
    has taken from the allocator, each once, and they are the blocks of
    the value it returns. So the tree [dson_parse] returns is one that
    [dson_free] releases whole. *)

Lemma allocated_refl h : allocated h h [].
Proof.
  unfold allocated. rewrite Nat.sub_diag. cbn. auto using Permutation_refl.
Qed.

Lemma allocated_CALLOC h : allocated h (snd (CALLOC h)) [fst (CALLOC h)].
Proof.
  unfold allocated, CALLOC. cbn [fst snd next live invalid_frees].
  replace (S (next h) - next h) with 1 by lia. cbn.
  repeat split; auto using Permutation_refl.
Qed.

Lemma allocated_trans h h1 h2 bs1 bs2 :
  allocated h h1 bs1 -> allocated h1 h2 bs2 -> allocated h h2 (bs1 ++ bs2).
Proof.
  intros (N1 & I1 & L1 & P1) (N2 & I2 & L2 & P2). unfold allocated.
  replace (next h2 - next h)
    with ((next h1 - next h) + (next h2 - next h1)) by lia.
  rewrite seq_app.
  replace (next h + (next h1 - next h)) with (next h1) by lia.
  split; [lia|]. split; [congruence|]. split.
  - rewrite rev_app_distr, L2, L1, app_assoc. reflexivity.
  - apply Permutation_app; assumption.
Qed.

Lemma allocated_perm h h' bs bs' :
  Permutation bs' bs -> allocated h h' bs -> allocated h h' bs'.
Proof.
  intros P (N & I & L & Q). repeat split; auto.
  eapply Permutation_trans; eassumption.
Qed.

(** The blocks allocated are distinct and live, and the blocks that were
    live before are older. *)
Lemma allocated_owned h h' bs :
  allocated h h' bs ->
  NoDup bs /\ incl bs (live h') /\
  (forall p, In p bs -> next h <= p) /\
  (forall p, In p (live h') <-> In p bs \/ In p (live h)).
Proof.
  intros (N & I & L & P).
  assert (E : forall p, In p bs <-> In p (seq (next h) (next h' - next h))).
  { intros p. split; apply Permutation_in; [|apply Permutation_sym]; exact P. }
  split; [|split; [|split]].
  - eapply Permutation_NoDup; [apply Permutation_sym; exact P|].
    apply seq_NoDup.
  - intros p Hp. rewrite L. apply in_or_app. left. apply in_rev.
    rewrite rev_involutive. apply E. exact Hp.
  - intros p Hp. apply E, in_seq in Hp. lia.
  - intros p. rewrite L, in_app_iff, <- in_rev, E. reflexivity.
Qed.

Section Allocation.

Variable input : list ascii.

Lemma p_string_allocated c h sp bytes c' h' :
  p_string input c h = (Ok (sp, bytes), c', h') -> allocated h h' [sp].
Proof.
  unfold p_string. destruct (p_char c) as [[start|] c0]; [|discriminate].
  destruct (negb _); [discriminate|].
  destruct (string_scan input _ c0 0) as [[[e k]| | |] c1]; try discriminate.
  pose proof (allocated_CALLOC h) as A. cbv zeta.
  destruct (CALLOC h) as [out h0]. cbn [fst snd] in A.
  destruct (string_decode input _ c1 _ _ _ _) as [[b| | |] c2];
    try discriminate.
  destruct (store _ b [NUL]); try discriminate.
  intros [= <- _ _ <-]. exact A.
Qed.

Lemma structural_allocated : forall fuel,
  (forall c h v c' h',
     p_value input fuel c h = (Ok v, c', h') -> allocated h h' (blocks v)) /\
  (forall c h array elts c' h',
     p_array input fuel c h = (Ok (array, elts), c', h') ->
     allocated h h' (array :: flat_map blocks elts)) /\
  (forall c h array elts elts' c' h',
     p_array_loop input fuel c h array elts = (Ok elts', c', h') ->
     exists new,
       elts' = elts ++ new /\ allocated h h' (flat_map blocks new)) /\
  (forall c h dict keys values entries c' h',
     p_dict input fuel c h = (Ok (dict, keys, values, entries), c', h') ->
     allocated h h'
       (keys :: values :: dict
          :: flat_map (fun e => fst (fst e) :: blocks (snd e)) entries)) /\
  (forall c h dict keys values entries entries' c' h',
     p_dict_loop input fuel c h dict keys values entries
       = (Ok entries', c', h') ->
     exists new,
       entries' = entries ++ new /\
       allocated h h'
         (flat_map (fun e => fst (fst e) :: blocks (snd e)) new)).
Proof.
  induction fuel as [|fuel (IHv & IHa & IHal & IHd & IHdl)].
  { repeat split; intros; discriminate. }
  split; [|split; [|split; [|split]]].
  - (* p_value *)
    intros c h v c' h' H. cbn [p_value] in H.
    pose proof (allocated_CALLOC h) as A. cbv zeta in H.
    destruct (CALLOC h) as [ret h0]. cbn [fst snd] in A.
    destruct (Ascii.eqb (peek input c) dquote).
    { apply p_value_return_ok in H. destruct H as ([sp bytes] & H & ->).
      apply p_string_allocated in H. cbn [blocks fst snd].
      eapply allocated_perm; [|eapply allocated_trans; [exact A|exact H]].
      apply perm_swap. }
    destruct (_ || _).
    { destruct (p_double input c) as [r c1].
      apply p_value_return_ok in H. destruct H as (n & [= -> <- <-] & ->).
      exact A. }
    destruct (_ || _).
    { destruct (p_bool input c) as [r c1].
      apply p_value_return_ok in H. destruct H as (n & [= -> <- <-] & ->).
      exact A. }
    destruct (Ascii.eqb _ "e").
    { destruct (p_empty input c) as [r c1].
      apply p_value_return_ok in H. destruct H as (n & [= -> <- <-] & ->).
      exact A. }
    destruct (Ascii.eqb _ "s"); [|discriminate].
    destruct (Ascii.eqb _ "o").
    { apply p_value_return_ok in H. destruct H as ([array elts] & H & ->).
      apply IHa in H. cbn [blocks fst snd].
      eapply allocated_perm; [|eapply allocated_trans; [exact A|exact H]].
      cbn [app]. apply Permutation_sym.
      change (flat_map blocks elts ++ [array; ret])
        with (flat_map blocks elts ++ [array] ++ [ret]).
      rewrite app_assoc.
      eapply Permutation_trans; [|apply Permutation_cons_append].
      apply perm_skip, Permutation_cons_append. }
    destruct (Ascii.eqb _ "u"); [|discriminate].
    apply p_value_return_ok in H.
    destruct H as ([[[dict keys] values] entries] & H & ->).
    apply IHd in H. cbn [blocks].
    eapply allocated_perm; [|eapply allocated_trans; [exact A|exact H]].
    cbn [app]. apply Permutation_sym.
    change [keys; values; dict; ret] with ([keys; values; dict] ++ [ret]).
    rewrite app_assoc.
    eapply Permutation_trans; [|apply Permutation_cons_append].
    apply perm_skip.
    apply (Permutation_app_comm [keys; values; dict]).
  - (* p_array *)
    intros c h array elts c' h' H. cbn [p_array] in H.
    pose proof (allocated_CALLOC h) as A. cbv zeta in H.
    destruct (CALLOC h) as [array0 h0]. cbn [fst snd] in A.
    destruct (p_chars c 2) as [[sp|] c0]; [|discriminate].
    destruct (strncmp _ _ _ 2); [discriminate|].
    destruct (negb _).
    + destruct (p_array_loop input fuel _ h0 array0 [])
        as [[[elts0| | |] c2] h2] eqn:Lp; try discriminate.
      apply IHal in Lp. destruct Lp as (new & -> & Al).
      destruct (p_chars c2 4) as [[sp4|] c3]; [|discriminate].
      destruct (strncmp _ _ _ 4); [discriminate|].
      injection H as <- <- _ <-. cbn [app].
      exact (allocated_trans _ _ _ _ _ A Al).
    + destruct (p_chars _ 4) as [[sp4|] c3]; [|discriminate].
      destruct (strncmp _ _ _ 4); [discriminate|].
      injection H as <- <- _ <-. exact A.
  - (* p_array_loop *)
    intros c h array elts elts' c' h' H. cbn [p_array_loop] in H.
    destruct (p_value input fuel c h) as [[[v| | |] c1] h1] eqn:Pv;
      try discriminate.
    apply IHv in Pv. cbv zeta in H.
    assert (Next : forall c2,
              p_array_loop input fuel c2 h1 array (elts ++ [v])
                = (Ok elts', c', h') ->
              exists new,
                elts' = elts ++ new /\ allocated h h' (flat_map blocks new)).
    { intros c2 H2. apply IHal in H2. destruct H2 as (new & -> & Al).
      exists (v :: new). split; [rewrite <- app_assoc; reflexivity|].
      cbn [flat_map]. exact (allocated_trans _ _ _ _ _ Pv Al). }
    destruct (negb (Ascii.eqb _ "a")).
    { injection H as <- _ <-. exists [v]. split; [reflexivity|].
      cbn [flat_map]. rewrite app_nil_r. exact Pv. }
    destruct (p_chars _ 3) as [[sp|] c3]; [|discriminate].
    destruct (negb (strncmp _ _ _ 3)); [eapply Next; exact H|].
    destruct (strncmp _ _ _ 3); [discriminate|].
    destruct (p_char c3) as [[sp1|] c4]; [|discriminate].
    destruct (negb _); [discriminate|]. eapply Next; exact H.
  - (* p_dict *)
    intros c h dict keys values entries c' h' H. cbn [p_dict] in H.
    pose proof (allocated_CALLOC h) as A1. cbv zeta in H.
    destruct (CALLOC h) as [keys0 h1]. cbn [fst snd] in A1.
    pose proof (allocated_CALLOC h1) as A2.
    destruct (CALLOC h1) as [values0 h2]. cbn [fst snd] in A2.
    pose proof (allocated_CALLOC h2) as A3.
    destruct (CALLOC h2) as [dict0 h3]. cbn [fst snd] in A3.
    destruct (p_chars c 4) as [[sp|] c0]; [|discriminate].
    destruct (strncmp _ _ _ 4); [discriminate|].
    destruct (p_dict_loop input fuel c0 h3 dict0 keys0 values0 [])
      as [[[entries0| | |] c2] h4] eqn:Lp; try discriminate.
    apply IHdl in Lp. destruct Lp as (new & -> & Al).
    destruct (p_chars c2 3) as [[sp3|] c3]; [|discriminate].
    destruct (strncmp _ _ _ 3); [discriminate|].
    injection H as <- <- <- <- _ <-. cbn [app].
    exact (allocated_trans _ _ _ _ _ A1
             (allocated_trans _ _ _ _ _ A2
                (allocated_trans _ _ _ _ _ A3 Al))).
  - (* p_dict_loop *)
    intros c h dict keys values entries entries' c' h' H.
    cbn [p_dict_loop] in H. cbv zeta in H.
    destruct (p_string input _ h) as [[[[k kbytes]| | |] c1] h1] eqn:Ps;
      try discriminate.
    apply p_string_allocated in Ps.
    destruct (p_chars _ 2) as [[sp|] c3]; [|discriminate].
    destruct (strncmp _ _ _ 2); [discriminate|].
    destruct (p_value input fuel _ h1) as [[[v| | |] c5] h5] eqn:Pv;
      try discriminate.
    apply IHv in Pv.
    pose proof (allocated_trans _ _ _ _ _ Ps Pv) as A. cbn [app] in A.
    destruct (is_separator _).
    + apply IHdl in H. destruct H as (new & -> & Al).
      exists ((k, kbytes, v) :: new).
      split; [rewrite <- app_assoc; reflexivity|].
      cbn [flat_map fst snd].
      exact (allocated_trans _ _ _ _ _ A Al).
    + injection H as <- _ <-. exists [(k, kbytes, v)].
      split; [reflexivity|]. cbn [flat_map fst snd]. rewrite app_nil_r.
      exact A.
Qed.

End Allocation.

(** The value [dson_parse] returns owns exactly the blocks the call has
    allocated, and [dson_free] gives the heap back as it was before the
    parse, with no invalid free. *)
Lemma parse_then_free input length unsafe h v h' :
  dson_parse input length unsafe h = (Ok tt, Some v, h') ->
  (forall p, In p (live h) -> p < next h) ->
  NoDup (blocks v) /\ incl (blocks v) (live h') /\
  invalid_frees h' = invalid_frees h /\
  fst (dson_free (Some (Some v)) h') = Ok (Some None) /\
  invalid_frees (snd (dson_free (Some (Some v)) h')) = invalid_frees h /\
  (forall p, In p (live (snd (dson_free (Some (Some v)) h')))
             <-> In p (live h)).
Proof.
  intros H W. unfold dson_parse in H.
  destruct (negb _); [discriminate|].
  destruct (p_value input _ _ h) as [[[r| | |] c'] h1] eqn:P;
    try discriminate.
  injection H as <- <-.
  apply (proj1 (structural_allocated input _)) in P.
  destruct (allocated_owned _ _ _ P) as (N & I & Fr & Li).
  destruct P as (_ & Inv & _ & _).
  split; [exact N|]. split; [exact I|]. split; [exact Inv|].
  cbn [dson_free fst snd]. rewrite free_value_blocks.
  destruct (free_all_live _ h1 N I) as (F1 & _ & F3).
  split; [reflexivity|]. split; [congruence|].
  intros p. rewrite F3, Li. split.
  - intros [[B|L] Nb]; [contradiction|exact L].
  - intros L. split; [right; exact L|].
    intros B. apply Fr in B. apply W in L. lia.
Qed.

(** * Further properties of the parser *)

(** ** The cursor stays in its buffer *)

Lemma steps_within c c' : s c <= s_end c -> steps c c' -> within c c'.
Proof.
  intros L (_ & E & B & U & In). unfold within.
  repeat split; auto.
Qed.

(** X1: no parsing function moves the cursor past the end of the buffer,
    and none changes the end, the beginning or the unsafe flag of the
    cursor, whatever the input and the outcome. *)
Theorem cursor_stays_in_buffer :
  forall (input : list ascii) (c : context),
    s c <= s_end c ->
    (forall n, within c (snd (p_chars c n))) /\
    within c (maybe_p_whitespace input c) /\
    within c (snd (p_empty input c)) /\
    within c (snd (p_bool input c)) /\
    (forall out, within c (snd (p_octal input c out))) /\
    within c (snd (handle_escaped input c)) /\
    within c (snd (p_double input c)) /\
    (forall h, within c (snd (fst (p_string input c h)))) /\
    (forall fuel h, within c (snd (fst (p_value input fuel c h)))) /\
    (forall fuel h, within c (snd (fst (p_array input fuel c h)))) /\
    (forall fuel h, within c (snd (fst (p_dict input fuel c h)))).
Proof.
  intros input c L.
  assert (W : forall c', steps c c' -> within c c')
    by (intros c'; apply steps_within; exact L).
  split; [intros; apply W, p_chars_steps|].
  split; [apply W, maybe_p_whitespace_steps|].
  split; [apply W, p_empty_post|].
  split; [apply W, p_bool_post|].
  split; [intros; apply W, p_octal_steps|].
  split; [apply W, handle_escaped_post|].
  split; [apply W, p_double_post|].
  split; [intros; apply W, p_string_post|].
  split; [intros; apply W, (structural_post input fuel)|].
  split; intros; apply W, (structural_post input fuel).
Qed.

(** An array cut before its closing keyword: the parse fails with the
    cursor at the end of the buffer, not past it. *)
Lemma cursor_stays_in_buffer_witness :
  within (mkContext 0 7 0 false)
    (snd (fst (p_value (str "so 7 ma") 16 (mkContext 0 7 0 false)
                 empty_heap))).
Proof.
  destruct (cursor_stays_in_buffer (str "so 7 ma") (mkContext 0 7 0 false)
              ltac:(cbn; lia))
    as (_ & _ & _ & _ & _ & _ & _ & _ & V & _).
  exact (V 16 empty_heap).
Defined.

(** ** Termination *)

Lemma p_value_return_fuel A ret (mk : A -> dson_value) r :
  fst (fst (p_value_return ret mk r)) <> OutOfFuel ->
  fst (fst r) <> OutOfFuel.
Proof.
  unfold p_value_return. destruct r as [[[?|?|?|] ?] ?]; cbn [fst snd];
    intros N E; try discriminate E. apply N. reflexivity.
Qed.

Section Fuel_monotone.

Variable input : list ascii.

(** A run that does not exhaust its fuel is the run with any more fuel. *)
Lemma structural_mono : forall fuel1,
  (forall fuel2 c h,
     fuel1 <= fuel2 ->
     fst (fst (p_value input fuel1 c h)) <> OutOfFuel ->
     p_value input fuel2 c h = p_value input fuel1 c h) /\
  (forall fuel2 c h,
     fuel1 <= fuel2 ->
     fst (fst (p_array input fuel1 c h)) <> OutOfFuel ->
     p_array input fuel2 c h = p_array input fuel1 c h) /\
  (forall fuel2 c h array elts,
     fuel1 <= fuel2 ->
     fst (fst (p_array_loop input fuel1 c h array elts)) <> OutOfFuel ->
     p_array_loop input fuel2 c h array elts
       = p_array_loop input fuel1 c h array elts) /\
  (forall fuel2 c h,
     fuel1 <= fuel2 ->
     fst (fst (p_dict input fuel1 c h)) <> OutOfFuel ->
     p_dict input fuel2 c h = p_dict input fuel1 c h) /\
  (forall fuel2 c h dict keys values entries,
     fuel1 <= fuel2 ->
     fst (fst (p_dict_loop input fuel1 c h dict keys values entries))
       <> OutOfFuel ->
     p_dict_loop input fuel2 c h dict keys values entries
       = p_dict_loop input fuel1 c h dict keys values entries).
Proof.
  induction fuel1 as [|fuel1 (IHv & IHa & IHal & IHd & IHdl)].
  { repeat split; intros; cbn in *; congruence. }
  split; [|split; [|split; [|split]]].
  - (* p_value *)
    intros fuel2 c h L N. destruct fuel2 as [|fuel2]; [lia|].
    apply le_S_n in L. cbn [p_value] in *. cbv zeta in *.
    destruct (CALLOC h) as [ret h0].
    repeat match goal with
    | |- context [if ?b then _ else _] => destruct b
    end; try reflexivity.
    + apply p_value_return_fuel in N. rewrite (IHa fuel2 c h0 L N).
      reflexivity.
    + apply p_value_return_fuel in N. rewrite (IHd fuel2 c h0 L N).
      reflexivity.
  - (* p_array *)
    intros fuel2 c h L N. destruct fuel2 as [|fuel2]; [lia|].
    apply le_S_n in L. cbn [p_array] in *. cbv zeta in *.
    destruct (CALLOC h) as [array h0].
    destruct (p_chars c 2) as [[sp|] c0]; [|reflexivity].
    destruct (strncmp _ _ _ 2); [reflexivity|].
    destruct (negb _); [|reflexivity].
    rewrite (IHal fuel2 _ h0 array [] L); [reflexivity|].
    intros E. apply N.
    destruct (p_array_loop input fuel1 _ h0 array []) as [[[?|?|?|] ?] ?];
      try discriminate E. reflexivity.
  - (* p_array_loop *)
    intros fuel2 c h array elts L N. destruct fuel2 as [|fuel2]; [lia|].
    apply le_S_n in L. cbn [p_array_loop] in *. cbv zeta in *.
    rewrite (IHv fuel2 c h L).
    2:{ intros E. apply N.
        destruct (p_value input fuel1 c h) as [[[?|?|?|] ?] ?];
          try discriminate E. reflexivity. }
    destruct (p_value input fuel1 c h) as [[[v|?|?|] c1] h1];
      try reflexivity.
    destruct (negb (Ascii.eqb _ "a")); [reflexivity|].
    destruct (p_chars _ 3) as [[sp|] c3]; [|reflexivity].
    destruct (negb (strncmp _ _ _ 3)); [apply IHal; assumption|].
    destruct (strncmp _ _ _ 3); [reflexivity|].
    destruct (p_char c3) as [[sp1|] c4]; [|reflexivity].
    destruct (negb _); [reflexivity|]. apply IHal; assumption.
  - (* p_dict *)
    intros fuel2 c h L N. destruct fuel2 as [|fuel2]; [lia|].
    apply le_S_n in L. cbn [p_dict] in *. cbv zeta in *.
    destruct (CALLOC h) as [keys h1]. destruct (CALLOC h1) as [values h2].
    destruct (CALLOC h2) as [dict h3].
    destruct (p_chars c 4) as [[sp|] c0]; [|reflexivity].
    destruct (strncmp _ _ _ 4); [reflexivity|].
    rewrite (IHdl fuel2 c0 h3 dict keys values [] L); [reflexivity|].
    intros E. apply N.
    destruct (p_dict_loop input fuel1 c0 h3 dict keys values [])
      as [[[?|?|?|] ?] ?]; try discriminate E. reflexivity.
  - (* p_dict_loop *)
    intros fuel2 c h dict keys values entries L N.
    destruct fuel2 as [|fuel2]; [lia|].
    apply le_S_n in L. cbn [p_dict_loop] in *. cbv zeta in *.
    destruct (p_string input _ h) as [[[[k kbytes]|?|?|] c1] h1];
      try reflexivity.
    destruct (p_chars _ 2) as [[sp|] c3]; [|reflexivity].
    destruct (strncmp _ _ _ 2); [reflexivity|].
    rewrite (IHv fuel2 _ h1 L).
    2:{ intros E. apply N.
        destruct (p_value input fuel1 _ h1) as [[[?|?|?|] ?] ?];
          try discriminate E. reflexivity. }
    destruct (p_value input fuel1 _ h1) as [[[v|?|?|] c5] h5];
      try reflexivity.
    destruct (is_separator _); [|reflexivity]. apply IHdl; assumption.
Qed.

End Fuel_monotone.

(** The loops that go by the byte under the cursor end at the terminator:
    in a buffer that ends with NUL at [s_end], a run over the bytes left is
    the run with any more passes allowed. *)
Section Loops_end.

Variable input : list ascii.

Lemma framed_advance_one c :
  framed input c -> s c < s_end c -> framed input (advance c 1).
Proof. intros [L Z] Lt. split; cbn [advance s s_end]; [lia|exact Z]. Qed.

Lemma framed_end c :
  framed input c -> s_end c - s c = 0 -> peek input c = NUL.
Proof.
  intros [L Z] E. unfold peek. replace (s c) with (s_end c) by lia. exact Z.
Qed.

Lemma whitespace_loop_ends : forall left fuel c,
  framed input c -> s_end c - s c = left -> left <= fuel ->
  whitespace_loop input fuel c = whitespace_loop input left c.
Proof.
  induction left as [|left IH]; intros fuel c Fr E L.
  - destruct fuel as [|fuel]; [reflexivity|]. cbn [whitespace_loop].
    rewrite (framed_end c Fr E). reflexivity.
  - destruct fuel as [|fuel]; [lia|]. cbn [whitespace_loop].
    destruct (_ || _); [reflexivity|].
    rewrite p_char_ok by lia. cbn [snd].
    apply IH; [apply framed_advance_one; [exact Fr|lia]
              |cbn [advance s s_end]; lia|lia].
Qed.

Lemma octal_loop_ends : forall left fuel n c,
  framed input c -> s_end c - s c = left -> left <= fuel ->
  octal_loop input fuel n c = octal_loop input left n c.
Proof.
  induction left as [|left IH]; intros fuel n c Fr E L.
  - destruct fuel as [|fuel]; [reflexivity|]. cbn [octal_loop].
    rewrite (framed_end c Fr E). reflexivity.
  - destruct fuel as [|fuel]; [lia|]. cbn [octal_loop].
    destruct (is_octal _); [|reflexivity].
    rewrite p_char_ok by lia. cbn [snd].
    apply IH; [apply framed_advance_one; [exact Fr|lia]
              |cbn [advance s s_end]; lia|lia].
Qed.

Lemma fraction_loop_ends : forall left fuel n d c,
  framed input c -> s_end c - s c = left -> left <= fuel ->
  fraction_loop input fuel n d c = fraction_loop input left n d c.
Proof.
  induction left as [|left IH]; intros fuel n d c Fr E L.
  - destruct fuel as [|fuel]; [reflexivity|]. cbn [fraction_loop].
    rewrite (framed_end c Fr E). reflexivity.
  - destruct fuel as [|fuel]; [lia|]. cbn [fraction_loop].
    destruct (is_octal _); [|reflexivity].
    rewrite p_char_ok by lia. cbn [snd].
    apply IH; [apply framed_advance_one; [exact Fr|lia]
              |cbn [advance s s_end]; lia|lia].
Qed.

End Loops_end.

(** X2: in a buffer that ends with NUL at [s_end], as [dson_parse]
    requires, [p_value] terminates, and with it [p_array] and [p_dict]:
    every call and every pass of their loops consumes input, so twice the
    bytes left plus two calls deep is as far as the recursion goes. The
    run with that much fuel never exhausts it, and it is the run with any
    more fuel. The loops that go by the byte under the cursor (whitespace,
    octal digits, digits of a fraction) end at the terminator from every
    cursor the parse comes to: their run over the bytes left is the run
    with any more passes allowed. Without the terminator these loops of
    the code need not end, and the property is not claimed. *)
Theorem p_value_terminates :
  forall (input : list ascii) (fuel : nat) (c : context) (h : heap),
    framed input c ->
    2 * (s_end c - s c) + 2 <= fuel ->
    fst (fst (p_value input fuel c h)) <> OutOfFuel /\
    p_value input fuel c h
      = p_value input (2 * (s_end c - s c) + 2) c h /\
    (forall c' more,
       steps c c' -> s_end c' - s c' <= more ->
       framed input c' /\
       whitespace_loop input more c' = maybe_p_whitespace input c' /\
       (forall out, octal_loop input more 0 c' = p_octal input c' out) /\
       (forall n d,
          fraction_loop input more n d c'
          = fraction_loop input (s_end c' - s c') n d c')).
Proof.
  intros input fuel c h Fr L.
  pose proof (proj1 (structural_returns input (2 * (s_end c - s c) + 2))
                c h (Nat.le_refl _)) as R.
  pose proof (proj1 (structural_mono input (2 * (s_end c - s c) + 2))
                fuel c h L R) as E.
  split; [rewrite E; exact R|]. split; [exact E|].
  intros c' more St Lm.
  pose proof (framed_steps input c c' Fr St) as Fr'.
  split; [exact Fr'|]. split; [|split].
  - exact (whitespace_loop_ends input _ more c' Fr' eq_refl Lm).
  - intros out. exact (octal_loop_ends input _ more 0 c' Fr' eq_refl Lm).
  - intros n d.
    exact (fraction_loop_ends input _ more n d c' Fr' eq_refl Lm).
Qed.

(** Three arrays inside one another, with a thousand units of fuel. *)
Lemma p_value_terminates_witness :
  p_value (str "so so so many many many") 1000 (mkContext 0 23 0 false)
    empty_heap
  = p_value (str "so so so many many many") 48 (mkContext 0 23 0 false)
      empty_heap.
Proof.
  exact (proj1 (proj2 (p_value_terminates (str "so so so many many many")
                         1000 (mkContext 0 23 0 false) empty_heap
                         (conj (Nat.le_0_l 23) eq_refl)
                         ltac:(cbn; lia)))).
Defined.

(** ** The bytes of [write_utf8] *)

Lemma holds_on_spec f : forall d lo,
  holds_on d lo f = true ->
  forall p, (lo <= p < lo + 2 ^ Z.of_nat d)%Z -> f p = true.
Proof.
  induction d as [|d IH]; intros lo H p Hp; cbn [holds_on] in H.
  - change (2 ^ Z.of_nat 0)%Z with 1%Z in Hp.
    replace p with lo by lia. exact H.
  - apply andb_true_iff in H. destruct H as [H1 H2].
    rewrite Nat2Z.inj_succ, Z.pow_succ_r in Hp by lia.
    destruct (Z.lt_ge_cases p (lo + 2 ^ Z.of_nat d)).
    + apply (IH lo H1). lia.
    + apply (IH _ H2). lia.
Qed.

(** The high bits [x] over the [k] low bits [y]. *)
Lemma lor_shiftl_low x k y :
  (0 <= x)%Z -> (0 <= k)%Z -> (0 <= y < 2 ^ k)%Z ->
  Z.lor (Z.shiftl x k) y = (x * 2 ^ k + y)%Z.
Proof.
  intros Hx Hk Hy.
  assert (D : Z.land (Z.shiftl x k) y = 0%Z).
  { apply Z.bits_inj'. intros n Hn.
    rewrite Z.land_spec, Z.bits_0.
    destruct (Z.lt_ge_cases n k) as [L|L].
    - rewrite Z.shiftl_spec_low by exact L. reflexivity.
    - destruct (Z.eq_dec y 0) as [->|Ny];
        [rewrite Z.bits_0; apply andb_false_r|].
      rewrite (Z.bits_above_log2 y n); [apply andb_false_r|lia|].
      apply Z.log2_lt_pow2; [lia|].
      apply Z.lt_le_trans with (2 ^ k)%Z; [lia|].
      apply Z.pow_le_mono_r; lia. }
  rewrite <- Z.lxor_lor by exact D.
  rewrite <- Z.add_nocarry_lxor by exact D.
  rewrite Z.shiftl_mul_pow2 by exact Hk. reflexivity.
Qed.

(** The continuation byte and the three lead bytes, as the encoder packs
    them and as a decoder takes them apart. *)
Lemma continuation_packed x :
  (0 <= x < 64)%Z -> continuation (byte (Z.lor 0x80 x)) = Some x.
Proof.
  intros H.
  pose proof (holds_on_spec
    (fun x => match continuation (byte (Z.lor 0x80 x)) with
              | Some y => (y =? x)%Z
              | None => false
              end) 6 0 eq_refl x H) as C.
  cbv beta in C. destruct (continuation _) as [y|]; [|discriminate].
  apply Z.eqb_eq in C. congruence.
Qed.

Lemma lead_packed mark mask low d x :
  holds_on d 0
    (fun x => let v := byte_value (byte (Z.lor mark x)) in
              (Z.land v mask =? mark)%Z && (Z.land v low =? x)%Z) = true ->
  (0 <= x < 2 ^ Z.of_nat d)%Z ->
  Z.land (byte_value (byte (Z.lor mark x))) mask = mark /\
  Z.land (byte_value (byte (Z.lor mark x))) low = x.
Proof.
  intros C H. pose proof (holds_on_spec _ d 0 C x H) as K. cbv beta zeta in K.
  apply andb_true_iff in K. destruct K as [K1 K2].
  split; apply Z.eqb_eq; assumption.
Qed.

Lemma land_127 p : Z.land p 0x7F = (p mod 128)%Z.
Proof. exact (Z.land_ones p 7 ltac:(lia)). Qed.

Lemma land_63 p : Z.land p 0x3F = (p mod 64)%Z.
Proof. exact (Z.land_ones p 6 ltac:(lia)). Qed.

Lemma land_31 p : Z.land p 0x1F = (p mod 32)%Z.
Proof. exact (Z.land_ones p 5 ltac:(lia)). Qed.

Lemma land_15 p : Z.land p 0x0F = (p mod 16)%Z.
Proof. exact (Z.land_ones p 4 ltac:(lia)). Qed.

Lemma land_7 p : Z.land p 0x07 = (p mod 8)%Z.
Proof. exact (Z.land_ones p 3 ltac:(lia)). Qed.

Lemma shiftr_6 p : Z.shiftr p 6 = (p / 64)%Z.
Proof. exact (Z.shiftr_div_pow2 p 6 ltac:(lia)). Qed.

(** X3: for every code point below 0x110000 (the surrogates among them,
    which the encoder does not refuse) the bytes [write_utf8] stores are
    the UTF-8 sequence of that code point: a decoder reads the code point
    back from them, they are the shortest sequence for it, and their
    number is the length returned. *)
Theorem utf8_round_trip :
  forall p : Z,
    (0 <= p < 0x110000)%Z ->
    utf8_decode (snd (write_utf8 p)) = Some p /\
    Z.of_nat (List.length (snd (write_utf8 p))) = fst (write_utf8 p).
Proof.
  intros p Hp. unfold write_utf8, bytes_needed. cbv zeta.
  rewrite !shiftr_6, !land_63, land_127, land_31, land_15, land_7.
  destruct (Z.ltb_spec p 0x80) as [L1|L1]; cbn [Z.eqb Pos.eqb fst snd List.length].
  { split; [|reflexivity]. cbn [utf8_decode].
    rewrite Z.mod_small by lia.
    assert (B : byte_value (byte p) = p).
    { apply Z.eqb_eq.
      apply (holds_on_spec (fun p => (byte_value (byte p) =? p)%Z) 7 0
               eq_refl).
      change (2 ^ Z.of_nat 7)%Z with 128%Z. lia. }
    rewrite B. destruct (Z.ltb_spec p 0x80); [reflexivity|lia]. }
  destruct (Z.ltb_spec p 0x800) as [L2|L2]; cbn [Z.eqb Pos.eqb fst snd List.length].
  { split; [|reflexivity]. cbn [utf8_decode].
    rewrite continuation_packed by (apply Z.mod_pos_bound; lia).
    destruct (lead_packed 0xC0 0xE0 0x1F 5 ((p / 64) mod 32) eq_refl)
      as [M1 M2]; [apply Z.mod_pos_bound; lia|].
    rewrite M1, M2.
    rewrite (lor_shiftl_low _ 6) by
      (try apply Z.mod_pos_bound; try lia).
    change (2 ^ 6)%Z with 64%Z.
    replace ((p / 64) mod 32 * 64 + p mod 64)%Z with p by (Z.div_mod_to_equations; lia).
    cbn [Z.eqb andb Pos.eqb].
    destruct (Z.leb_spec 0x80 p); [reflexivity|lia]. }
  destruct (Z.ltb_spec p 0x10000) as [L3|L3]; cbn [Z.eqb Pos.eqb fst snd List.length].
  { split; [|reflexivity]. cbn [utf8_decode].
    rewrite !continuation_packed by (apply Z.mod_pos_bound; lia).
    destruct (lead_packed 0xE0 0xF0 0x0F 4 ((p / 64 / 64) mod 16)
                eq_refl) as [M1 M2]; [apply Z.mod_pos_bound; lia|].
    rewrite M1, M2.
    rewrite (lor_shiftl_low ((p / 64) mod 64) 6) by
      (try apply Z.mod_pos_bound; try lia).
    change (2 ^ 6)%Z with 64%Z.
    rewrite (lor_shiftl_low _ 12);
      [ | apply Z.mod_pos_bound; lia | lia
        | change (2 ^ 12)%Z with 4096%Z;
          pose proof (Z.mod_pos_bound (p / 64) 64);
          pose proof (Z.mod_pos_bound p 64); lia ].
    change (2 ^ 12)%Z with 4096%Z.
    replace ((p / 64 / 64) mod 16 * 4096
             + ((p / 64) mod 64 * 64 + p mod 64))%Z with p by (Z.div_mod_to_equations; lia).
    cbn [Z.eqb andb Pos.eqb].
    destruct (Z.leb_spec 0x800 p); [reflexivity|lia]. }
  destruct (Z.ltb_spec p 0x110000) as [L4|L4]; [|lia].
  cbn [Z.eqb Pos.eqb fst snd List.length].
  split; [|reflexivity]. cbn [utf8_decode].
  rewrite !continuation_packed by (apply Z.mod_pos_bound; lia).
  destruct (lead_packed 0xF0 0xF8 0x07 3 ((p / 64 / 64 / 64) mod 8)
              eq_refl) as [M1 M2]; [apply Z.mod_pos_bound; lia|].
  rewrite M1, M2.
  rewrite (lor_shiftl_low ((p / 64) mod 64) 6) by
    (try apply Z.mod_pos_bound; try lia).
  change (2 ^ 6)%Z with 64%Z.
  rewrite (lor_shiftl_low ((p / 64 / 64) mod 64) 12);
    [ | apply Z.mod_pos_bound; lia | lia
      | change (2 ^ 12)%Z with 4096%Z;
        pose proof (Z.mod_pos_bound (p / 64) 64);
        pose proof (Z.mod_pos_bound p 64); lia ].
  change (2 ^ 12)%Z with 4096%Z.
  rewrite (lor_shiftl_low _ 18);
    [ | apply Z.mod_pos_bound; lia | lia
      | change (2 ^ 18)%Z with 262144%Z;
        pose proof (Z.mod_pos_bound (p / 64 / 64) 64);
        pose proof (Z.mod_pos_bound (p / 64) 64);
        pose proof (Z.mod_pos_bound p 64); lia ].
  change (2 ^ 18)%Z with 262144%Z.
  replace ((p / 64 / 64 / 64) mod 8 * 262144
           + ((p / 64 / 64) mod 64 * 4096
              + ((p / 64) mod 64 * 64 + p mod 64)))%Z with p by (Z.div_mod_to_equations; lia).
  cbn [Z.eqb andb Pos.eqb].
  destruct (Z.leb_spec 0x10000 p); [reflexivity|lia].
Qed.

(** The euro sign, U+20AC: the three bytes E2 82 AC. *)
Lemma utf8_round_trip_witness :
  utf8_decode (snd (write_utf8 0x20AC)) = Some 0x20AC%Z /\
  snd (write_utf8 0x20AC) = ["226"; "130"; "172"]%char.
Proof.
  split; [|reflexivity].
  exact (proj1 (utf8_round_trip 0x20AC ltac:(lia))).
Defined.

(** ** Whitespace *)

Lemma is_space_iff ch : is_space ch = true <-> In ch whitespace.
Proof.
  destruct ch as [[] [] [] [] [] [] [] []]; cbn; split; intros H;
    try discriminate H; try reflexivity;
    try (repeat (first [left; reflexivity | right]); fail);
    repeat match goal with
    | D : _ \/ _ |- _ => destruct D as [D|D]
    end; try discriminate; try contradiction.
Qed.

Lemma whitespace_loop_skips input : forall fuel c,
  framed input c -> s_end c - s c <= fuel ->
  whitespace_loop input fuel c
    = advance c (s (whitespace_loop input fuel c) - s c) /\
  (forall p, s c <= p < s (whitespace_loop input fuel c) ->
             is_space (char_at input p) = true).
Proof.
  induction fuel as [|fuel IH]; intros c F L; cbn [whitespace_loop].
  - rewrite Nat.sub_diag, advance_0. split; [reflexivity|]. intros p Hp. lia.
  - destruct (Ascii.eqb (peek input c) NUL
              || negb (strchr whitespace (peek input c))) eqn:Stop.
    + rewrite Nat.sub_diag, advance_0. split; [reflexivity|].
      intros p Hp. lia.
    + assert (N : peek input c <> NUL).
      { intros N. rewrite N in Stop. discriminate. }
      pose proof (framed_not_at_end input c F N) as In.
      rewrite p_char_ok by exact In. cbn [snd].
      destruct (IH (advance c 1)) as [E A].
      { destruct F as [F1 F2].
        split; [rewrite s_advance, s_end_advance; lia|exact F2]. }
      { rewrite s_advance, s_end_advance. lia. }
      pose proof (whitespace_loop_steps input fuel (advance c 1)) as (St & _).
      rewrite s_advance in St, E, A.
      split.
      * rewrite E at 1. rewrite advance_advance. f_equal. lia.
      * intros p Hp. destruct (Nat.eq_dec p (s c)) as [->|Np].
        -- unfold is_space. fold (peek input c). rewrite Stop. reflexivity.
        -- apply A. lia.
Qed.

(** X4: in a buffer that ends with NUL, [maybe_p_whitespace] moves the
    cursor over bytes of the set space, tab, newline, carriage return,
    vertical tab, form feed only, stops in front of the first byte that is
    not one of them, changes nothing else of the cursor, and does nothing
    when called again. *)
Theorem maybe_p_whitespace_skips :
  forall (input : list ascii) (c : context),
    s c <= s_end c ->
    char_at input (s_end c) = NUL ->
    let c' := maybe_p_whitespace input c in
    c' = advance c (s c' - s c) /\
    (forall p, s c <= p < s c' -> In (char_at input p) whitespace) /\
    ~ In (peek input c') whitespace /\
    maybe_p_whitespace input c' = c'.
Proof.
  intros input c L N c'.
  assert (F : framed input c) by (split; assumption).
  destruct (whitespace_loop_skips input (s_end c - s c) c F (Nat.le_refl _))
    as [E A].
  fold (maybe_p_whitespace input c) in E, A. fold c' in E, A.
  pose proof (whitespace_loop_stops input (s_end c - s c) c F (Nat.le_refl _))
    as Stop.
  fold (maybe_p_whitespace input c) in Stop. fold c' in Stop.
  split; [exact E|]. split; [|split].
  - intros p Hp. apply is_space_iff, A, Hp.
  - intros I. apply is_space_iff in I. congruence.
  - unfold maybe_p_whitespace. unfold is_space in Stop.
    apply negb_false_iff in Stop.
    destruct (s_end c' - s c'); cbn [whitespace_loop]; [reflexivity|].
    rewrite Stop. reflexivity.
Qed.

(** Two spaces and a tab in front of a number. *)
Lemma maybe_p_whitespace_skips_witness :
  maybe_p_whitespace (" " :: " " :: "009" :: str "7")%char
    (mkContext 0 4 0 false)
  = advance (mkContext 0 4 0 false) 3.
Proof.
  exact (proj1 (maybe_p_whitespace_skips
                  (" " :: " " :: "009" :: str "7")%char
                  (mkContext 0 4 0 false) ltac:(cbn; lia) eq_refl)).
Defined.

(** ** Inputs that start no value *)

Lemma space_starts_no_value b0 b1 :
  is_space b0 = true -> starts_value b0 b1 = false.
Proof.
  destruct b0 as [[] [] [] [] [] [] [] []]; cbn; intros H;
    try discriminate H; reflexivity.
Qed.

(** X5: [dson_parse] does not skip anything in front of the value: when
    the first byte is not a quote, a minus sign, an octal digit, y, n, e,
    or s followed by o or u -- so for the empty input and for an input
    that starts with whitespace -- the call fails at offset 0 with the
    unknown-value-type message, and the one block it had allocated is
    released. *)
Theorem no_value_at_start :
  forall (input : list ascii) (length : nat) (unsafe : bool) (h : heap),
    nth length input NUL = NUL ->
    length = 0 \/ is_space (nth 0 input NUL) = true \/
      starts_value (nth 0 input NUL) (nth 1 input NUL) = false ->
    dson_parse input length unsafe h
      = (Err (AtInputChar 0 UnknownValueType), None,
         free (next h) (snd (CALLOC h))).
Proof.
  intros input length unsafe h N H.
  assert (S0 : starts_value (nth 0 input NUL) (nth 1 input NUL) = false).
  { destruct H as [->|[H|H]]; [|apply space_starts_no_value; exact H|exact H].
    rewrite N. reflexivity. }
  clear H. unfold dson_parse. rewrite N. cbn [negb Ascii.eqb Bool.eqb NUL].
  replace (2 * length + 2) with (S (2 * length + 1)) by lia.
  cbn [p_value]. unfold peek, char_at. cbn [s CALLOC fst snd Nat.add].
  unfold starts_value in S0.
  apply orb_false_iff in S0. destruct S0 as [S0 Ks].
  apply orb_false_iff in S0. destruct S0 as [S0 Ke].
  apply orb_false_iff in S0. destruct S0 as [S0 Kn].
  apply orb_false_iff in S0. destruct S0 as [S0 Ky].
  apply orb_false_iff in S0. destruct S0 as [S0 Ko].
  apply orb_false_iff in S0. destruct S0 as [Kq Km].
  rewrite Kq, Km, Ko, Ky, Kn, Ke. cbn [orb].
  unfold ERROR. cbn [s beginning Z.of_nat Z.sub Z.opp Z.add].
  destruct (Ascii.eqb (nth 0 input NUL) "s"); [|reflexivity].
  cbn [andb] in Ks. apply orb_false_iff in Ks. destruct Ks as [K1 K2].
  rewrite K1, K2. reflexivity.
Qed.

(** A space in front of a number. *)
Lemma no_value_at_start_witness :
  dson_parse (str " 7") 2 false empty_heap
    = (Err (AtInputChar 0 UnknownValueType), None, mkHeap [] 1 []).
Proof.
  exact (no_value_at_start (str " 7") 2 false empty_heap eq_refl
           (or_intror (or_introl eq_refl))).
Defined.

(** ** Where [empty] is accepted *)

Lemma strcmp_equal input : forall lit p,
  strcmp input lit p = false ->
  reads input p lit /\ char_at input (p + List.length lit) = NUL.
Proof.
  induction lit as [|x lit IH]; intros p H.
  - change (negb (Ascii.eqb (char_at input p) NUL) = false) in H.
    apply negb_false_iff, Ascii.eqb_eq in H.
    split; [apply reads_nil|]. cbn [List.length].
    rewrite Nat.add_0_r. exact H.
  - change ((if Ascii.eqb (char_at input p) x
             then strcmp input lit (S p) else true) = false) in H.
    destruct (Ascii.eqb_spec (char_at input p) x) as [E|]; [|discriminate].
    destruct (IH (S p) H) as [R N]. split.
    + apply reads_cons. split; assumption.
    + cbn [List.length].
      replace (p + S (List.length lit)) with (S p + List.length lit) by lia.
      exact N.
Qed.

Lemma strncmp_first input p x lit n :
  strncmp input p (x :: lit) (S n) = false -> char_at input p = x.
Proof.
  intros H.
  change ((if Ascii.eqb (char_at input p) x
           then strncmp input (S p) lit n else true) = false) in H.
  destruct (Ascii.eqb_spec (char_at input p) x); [assumption|discriminate].
Qed.

Lemma maybe_p_whitespace_at_NUL input c :
  peek input c = NUL -> maybe_p_whitespace input c = c.
Proof.
  intros N. unfold maybe_p_whitespace.
  destruct (s_end c - s c); cbn [whitespace_loop]; [reflexivity|].
  rewrite N. reflexivity.
Qed.

Lemma p_empty_at_end input c c' :
  p_empty input c = (Ok tt, c') ->
  c' = advance c 5 /\ reads input (s c) (str "empty") /\
  char_at input (s c') = NUL.
Proof.
  unfold p_empty. cbv zeta.
  change (List.length (list_ascii_of_string "empty")) with 5.
  unfold p_chars. destruct (s_end c <? s c + 5); [discriminate|].
  destruct (strcmp input _ (s c)) eqn:Cmp; [discriminate|].
  intros [= <-]. apply strcmp_equal in Cmp. destruct Cmp as [R N].
  split; [reflexivity|]. split; [exact R|exact N].
Qed.

Section None.

Variable input : list ascii.

(** Past an [empty] the buffer ends, so nothing can follow it: not the
    rest of an array, not the rest of a dictionary. *)
Lemma structural_none : forall fuel,
  (forall c h v c' h',
     p_value input fuel c h = (Ok v, c', h') ->
     none_free v = true \/
     (exists self, v = DSON_NONE self) /\ char_at input (s c') = NUL) /\
  (forall c h array elts c' h',
     p_array input fuel c h = (Ok (array, elts), c', h') ->
     forallb none_free elts = true) /\
  (forall c h array elts elts' c' h',
     p_array_loop input fuel c h array elts = (Ok elts', c', h') ->
     exists new,
       elts' = elts ++ new /\
       (forallb none_free new = true \/ char_at input (s c') = NUL)) /\
  (forall c h dict keys values entries c' h',
     p_dict input fuel c h = (Ok (dict, keys, values, entries), c', h') ->
     forallb (fun e => none_free (snd e)) entries = true) /\
  (forall c h dict keys values entries entries' c' h',
     p_dict_loop input fuel c h dict keys values entries
       = (Ok entries', c', h') ->
     exists new,
       entries' = entries ++ new /\
       (forallb (fun e => none_free (snd e)) new = true \/
        char_at input (s c') = NUL)).
Proof.
  induction fuel as [|fuel (IHv & IHa & IHal & IHd & IHdl)].
  { repeat split; intros; discriminate. }
  split; [|split; [|split; [|split]]].
  - (* p_value *)
    intros c h v c' h' H. cbn [p_value] in H. cbv zeta in H.
    destruct (CALLOC h) as [ret h0].
    destruct (Ascii.eqb (peek input c) dquote).
    { apply p_value_return_ok in H. destruct H as ([sp bytes] & _ & ->).
      left. reflexivity. }
    destruct (_ || _).
    { destruct (p_double input c) as [r c1].
      apply p_value_return_ok in H. destruct H as (n & _ & ->).
      left. reflexivity. }
    destruct (_ || _).
    { destruct (p_bool input c) as [r c1].
      apply p_value_return_ok in H. destruct H as (n & _ & ->).
      left. reflexivity. }
    destruct (Ascii.eqb _ "e").
    { destruct (p_empty input c) as [r c1] eqn:Pe.
      apply p_value_return_ok in H. destruct H as ([] & [= -> <- <-] & ->).
      apply p_empty_at_end in Pe. destruct Pe as (_ & _ & N).
      right. split; [eauto|exact N]. }
    destruct (Ascii.eqb _ "s"); [|discriminate].
    destruct (Ascii.eqb _ "o").
    { apply p_value_return_ok in H. destruct H as ([array elts] & H & ->).
      apply IHa in H. left. exact H. }
    destruct (Ascii.eqb _ "u"); [|discriminate].
    apply p_value_return_ok in H.
    destruct H as ([[[dict keys] values] entries] & H & ->).
    apply IHd in H. left. exact H.
  - (* p_array *)
    intros c h array elts c' h' H. cbn [p_array] in H. cbv zeta in H.
    destruct (CALLOC h) as [array0 h0].
    destruct (p_chars c 2) as [[sp|] c0]; [|discriminate].
    destruct (strncmp _ _ _ 2); [discriminate|].
    destruct (negb _).
    + destruct (p_array_loop input fuel _ h0 array0 [])
        as [[[elts0| | |] c2] h2] eqn:Lp; try discriminate.
      apply IHal in Lp. destruct Lp as (new & -> & D).
      destruct (p_chars c2 4) as [[sp4|] c3] eqn:E4; [|discriminate].
      destruct (strncmp _ _ _ 4) eqn:Many; [discriminate|].
      injection H as _ <- _ _. cbn [app].
      destruct D as [D|D]; [exact D|].
      apply p_chars_some in E4. destruct E4 as (-> & _ & _).
      apply strncmp_first in Many. rewrite D in Many. discriminate.
    + destruct (p_chars _ 4) as [[sp4|] c3]; [|discriminate].
      destruct (strncmp _ _ _ 4); [discriminate|].
      injection H as _ <- _ _. reflexivity.
  - (* p_array_loop *)
    intros c h array elts elts' c' h' H. cbn [p_array_loop] in H.
    destruct (p_value input fuel c h) as [[[v| | |] c1] h1] eqn:Pv;
      try discriminate.
    apply IHv in Pv. cbv zeta in H.
    destruct Pv as [Nf|[_ N]].
    2:{ rewrite (maybe_p_whitespace_at_NUL input c1 N) in H.
        unfold peek in H at 1. rewrite N in H.
        cbn [Ascii.eqb Bool.eqb negb NUL] in H.
        injection H as <- <- _. exists [v]. split; [reflexivity|].
        right. exact N. }
    assert (Next : forall c2,
              p_array_loop input fuel c2 h1 array (elts ++ [v])
                = (Ok elts', c', h') ->
              exists new,
                elts' = elts ++ new /\
                (forallb none_free new = true \/
                 char_at input (s c') = NUL)).
    { intros c2 H2. apply IHal in H2. destruct H2 as (new & -> & D).
      exists (v :: new). split; [rewrite <- app_assoc; reflexivity|].
      cbn [forallb]. rewrite Nf. exact D. }
    destruct (negb (Ascii.eqb _ "a")).
    { injection H as <- _ _. exists [v]. split; [reflexivity|].
      left. cbn [forallb]. rewrite Nf. reflexivity. }
    destruct (p_chars _ 3) as [[sp|] c3]; [|discriminate].
    destruct (negb (strncmp _ _ _ 3)); [eapply Next; exact H|].
    destruct (strncmp _ _ _ 3); [discriminate|].
    destruct (p_char c3) as [[sp1|] c4]; [|discriminate].
    destruct (negb _); [discriminate|]. eapply Next; exact H.
  - (* p_dict *)
    intros c h dict keys values entries c' h' H. cbn [p_dict] in H.
    cbv zeta in H.
    destruct (CALLOC h) as [keys0 h1]. destruct (CALLOC h1) as [values0 h2].
    destruct (CALLOC h2) as [dict0 h3].
    destruct (p_chars c 4) as [[sp|] c0]; [|discriminate].
    destruct (strncmp _ _ _ 4); [discriminate|].
    destruct (p_dict_loop input fuel c0 h3 dict0 keys0 values0 [])
      as [[[entries0| | |] c2] h4] eqn:Lp; try discriminate.
    apply IHdl in Lp. destruct Lp as (new & -> & D).
    destruct (p_chars c2 3) as [[sp3|] c3] eqn:E3; [|discriminate].
    destruct (strncmp _ _ _ 3) eqn:Wow; [discriminate|].
    injection H as _ _ _ <- _ _. cbn [app].
    destruct D as [D|D]; [exact D|].
    apply p_chars_some in E3. destruct E3 as (-> & _ & _).
    apply strncmp_first in Wow. rewrite D in Wow. discriminate.
  - (* p_dict_loop *)
    intros c h dict keys values entries entries' c' h' H.
    cbn [p_dict_loop] in H. cbv zeta in H.
    destruct (p_string input _ h) as [[[[k kbytes]| | |] c1] h1];
      try discriminate.
    destruct (p_chars _ 2) as [[sp|] c3]; [|discriminate].
    destruct (strncmp _ _ _ 2); [discriminate|].
    destruct (p_value input fuel _ h1) as [[[v| | |] c5] h5] eqn:Pv;
      try discriminate.
    apply IHv in Pv.
    destruct Pv as [Nf|[_ N]].
    2:{ rewrite (maybe_p_whitespace_at_NUL input c5 N) in H.
        unfold peek in H at 1. rewrite N in H.
        cbn [is_separator Ascii.eqb Bool.eqb orb NUL] in H.
        injection H as <- <- _. exists [(k, kbytes, v)].
        split; [reflexivity|]. right. exact N. }
    destruct (is_separator _).
    + apply IHdl in H. destruct H as (new & -> & D).
      exists ((k, kbytes, v) :: new).
      split; [rewrite <- app_assoc; reflexivity|].
      cbn [forallb snd]. rewrite Nf. exact D.
    + injection H as <- _ _. exists [(k, kbytes, v)].
      split; [reflexivity|]. left. cbn [forallb snd]. rewrite Nf.
      reflexivity.
Qed.

End None.

(** X6: [p_empty] compares with [strcmp], up to the terminator of the
    buffer, so [empty] is accepted only where the buffer ends right after
    it. A value that [dson_parse] returns is therefore either [empty]
    itself, from an input that reads empty and then NUL, or has no [empty]
    anywhere in it: no array with an [empty] element and no dictionary with
    an [empty] value is ever returned. *)
Theorem empty_only_alone :
  forall (input : list ascii) (length : nat) (unsafe : bool) (h h' : heap)
         (v : dson_value),
    dson_parse input length unsafe h = (Ok tt, Some v, h') ->
    none_free v = true \/
    (exists self, v = DSON_NONE self) /\
    reads input 0 (str "empty") /\ nth 5 input NUL = NUL.
Proof.
  intros input length unsafe h h' v H. unfold dson_parse in H.
  destruct (negb _); [discriminate|].
  destruct (p_value input _ _ h) as [[[r| | |] c'] h1] eqn:P;
    try discriminate.
  injection H as <- <-.
  replace (2 * length + 2) with (S (2 * length + 1)) in P by lia.
  pose proof (proj1 (structural_none input _) _ _ _ _ _ P) as [Nf|[[self ->] N]];
    [left; exact Nf|].
  right. split; [eauto|].
  cbn [p_value] in P. cbv zeta in P. destruct (CALLOC h) as [ret h0].
  unfold peek in P. cbn [s] in P.
  destruct (Ascii.eqb (char_at input 0) dquote).
  { apply p_value_return_ok in P. destruct P as (x & _ & E). discriminate. }
  destruct (_ || _).
  { destruct (p_double input _) as [x c1].
    apply p_value_return_ok in P. destruct P as (y & _ & E). discriminate. }
  destruct (_ || _).
  { destruct (p_bool input _) as [x c1].
    apply p_value_return_ok in P. destruct P as (y & _ & E). discriminate. }
  destruct (Ascii.eqb _ "e").
  { destruct (p_empty input _) as [x c1] eqn:Pe.
    apply p_value_return_ok in P. destruct P as ([] & [= -> <- <-] & _).
    apply p_empty_at_end in Pe. destruct Pe as (-> & R & Nu).
    split; [exact R|exact Nu]. }
  destruct (Ascii.eqb _ "s"); [|discriminate].
  destruct (Ascii.eqb _ "o").
  { apply p_value_return_ok in P. destruct P as (x & _ & E). discriminate. }
  destruct (Ascii.eqb _ "u"); [|discriminate].
  apply p_value_return_ok in P.
  destruct P as ([[[? ?] ?] ?] & _ & E). discriminate.
Qed.

(** An array of a number and a boolean: no [empty] in it. *)
Lemma empty_only_alone_witness :
  none_free (DSON_ARRAY 0 1 [DSON_DOUBLE 2 7%float; DSON_BOOL 3 true])
    = true \/
  (exists self,
     DSON_ARRAY 0 1 [DSON_DOUBLE 2 7%float; DSON_BOOL 3 true]
     = DSON_NONE self) /\
  reads (str "so 7 and yes many") 0 (str "empty") /\
  nth 5 (str "so 7 and yes many") NUL = NUL.
Proof.
  apply (empty_only_alone (str "so 7 and yes many") 17 false empty_heap
           (mkHeap [3; 2; 1; 0] 4 [])).
  vm_compute. reflexivity.
Defined.

(** ** The bytes of a string *)

Lemma item_text_length items :
  List.length (flat_map item_text items)
  = List.length items + escapes items.
Proof.
  unfold escapes.
  induction items as [|[ch|e] items IH]; cbn [flat_map item_text app filter
    List.length]; [reflexivity| |]; rewrite ?length_app; cbn [List.length];
    lia.
Qed.

Section Items.

Variable input : list ascii.

Lemma string_scan_items : forall items fuel c k unsafe,
  reads input (s c) (flat_map item_text items ++ [dquote]) ->
  forallb (item_ok unsafe) items = true ->
  s c + List.length (flat_map item_text items) + 1 <= s_end c ->
  List.length (flat_map item_text items) + 1 <= fuel ->
  string_scan input fuel c k
    = (Ok (s c + List.length (flat_map item_text items),
           k + escapes items),
       advance c (List.length (flat_map item_text items) + 1)).
Proof.
  induction items as [|[ch|e] items IH]; intros fuel c k unsafe R F B L;
    cbn [flat_map item_text app List.length forallb] in *;
    (destruct fuel as [|fuel]; [lia|]); cbn [string_scan];
    rewrite p_char_ok by lia.
  - apply reads_head in R. rewrite R, Ascii.eqb_refl.
    unfold escapes. cbn. rewrite !Nat.add_0_r. reflexivity.
  - apply andb_true_iff in F. destruct F as [Fx F].
    apply reads_cons in R. destruct R as [R0 R].
    unfold plain in Fx. apply andb_true_iff in Fx. destruct Fx as [Fq Fb].
    apply negb_true_iff in Fq, Fb. rewrite R0, Fq, Fb.
    rewrite (IH fuel (advance c 1) k unsafe); rewrite ?s_advance,
      ?s_end_advance; auto; try lia.
    + rewrite advance_advance.
      change (escapes (Plain ch :: items)) with (escapes items).
      replace (s c + 1 + List.length (flat_map item_text items))
        with (s c + S (List.length (flat_map item_text items))) by lia.
      replace (1 + (List.length (flat_map item_text items) + 1))
        with (S (List.length (flat_map item_text items)) + 1) by lia.
      reflexivity.
    + replace (s c + 1) with (S (s c)) by lia. exact R.
  - apply andb_true_iff in F. destruct F as [Fx F].
    apply reads_cons in R. destruct R as [R0 R].
    apply reads_cons in R. destruct R as [R1 R].
    rewrite R0. cbn [Ascii.eqb Bool.eqb dquote backslash andb].
    rewrite p_char_ok by (rewrite s_advance, s_end_advance; lia).
    rewrite s_advance. replace (s c + 1) with (S (s c)) by lia. rewrite R1.
    assert (Nu : Ascii.eqb e "u" = false).
    { destruct (Ascii.eqb_spec e "u") as [->|]; [|reflexivity].
      destruct unsafe; discriminate Fx. }
    rewrite Nu, advance_advance. change (1 + 1) with 2.
    rewrite (IH fuel (advance c 2) (S k) unsafe); rewrite ?s_advance,
      ?s_end_advance; auto; try lia.
    + rewrite advance_advance.
      change (escapes (Escaped e :: items)) with (S (escapes items)).
      replace (s c + 2 + List.length (flat_map item_text items))
        with (s c + S (S (List.length (flat_map item_text items)))) by lia.
      replace (2 + (List.length (flat_map item_text items) + 1))
        with (S (S (List.length (flat_map item_text items))) + 1) by lia.
      replace (S k + escapes items) with (k + S (escapes items)) by lia.
      reflexivity.
    + replace (s c + 2) with (S (S (s c))) by lia. exact R.
Qed.

Lemma string_decode_escape fuel c p e_ len out e x :
  char_at input p = backslash ->
  char_at input (S p) = e ->
  classify_escape e (unsafe c) = Maps x ->
  p < e_ ->
  List.length out + 1 <= len ->
  string_decode input (S fuel) c p e_ len out
    = string_decode input fuel c (S (S p)) e_ len (out ++ [x]).
Proof.
  intros Rb Re K Lp Ll. cbn [string_decode].
  destruct (Nat.leb_spec e_ p); [lia|].
  rewrite Rb, Ascii.eqb_refl. cbn [negb]. rewrite Re. unfold store.
  cbn [List.length].
  destruct (Nat.leb_spec (List.length out + 1) len); [|lia].
  unfold classify_escape in K.
  destruct (Ascii.eqb e dquote || Ascii.eqb e backslash || Ascii.eqb e "/")
    eqn:E1; [injection K as <-; reflexivity|].
  destruct (Ascii.eqb_spec e "b") as [->|Nb].
  { destruct (unsafe c); [|discriminate]. injection K as <-. reflexivity. }
  cbn [andb].
  destruct (Ascii.eqb_spec e "u") as [->|Nu].
  { destruct (unsafe c); discriminate. }
  destruct (Ascii.eqb_spec e "f") as [->|Nf];
    [injection K as <-; reflexivity|].
  destruct (Ascii.eqb_spec e "n") as [->|Nn];
    [injection K as <-; reflexivity|].
  destruct (Ascii.eqb_spec e "r") as [->|Nr];
    [injection K as <-; reflexivity|].
  destruct (Ascii.eqb_spec e "t") as [->|Nt];
    [injection K as <-; reflexivity|].
  discriminate.
Qed.

Lemma string_decode_items : forall items fuel c p len out,
  reads input p (flat_map item_text items) ->
  forallb (item_ok (unsafe c)) items = true ->
  List.length out + List.length items <= len ->
  List.length items <= fuel ->
  string_decode input fuel c p
    (p + List.length (flat_map item_text items)) len out
  = (Ok (out ++ map (item_byte (unsafe c)) items), c).
Proof.
  induction items as [|[ch|e] items IH]; intros fuel c p len out R F Ll Lf;
    cbn [flat_map item_text app List.length forallb map] in *.
  - rewrite string_decode_done by lia. rewrite app_nil_r. reflexivity.
  - apply andb_true_iff in F. destruct F as [Fx F].
    apply reads_cons in R. destruct R as [R0 R].
    destruct fuel as [|fuel]; [lia|].
    rewrite (string_decode_plain input [ch] (S fuel) c p _ len out);
      cbn [List.length]; try lia.
    + replace (p + S (List.length (flat_map item_text items)))
        with (p + 1 + List.length (flat_map item_text items)) by lia.
      cbn [Nat.sub]. rewrite Nat.sub_0_r.
      rewrite (IH fuel c (p + 1) len (out ++ [ch]));
        [rewrite <- app_assoc; reflexivity| |exact F| |lia].
      * replace (p + 1) with (S p) by lia. exact R.
      * rewrite length_app. cbn [List.length]. lia.
    + apply reads_cons. split; [exact R0|apply reads_nil].
    + constructor; [exact Fx|constructor].
  - apply andb_true_iff in F. destruct F as [Fx F].
    apply reads_cons in R. destruct R as [R0 R].
    apply reads_cons in R. destruct R as [R1 R].
    destruct fuel as [|fuel]; [lia|].
    cbn [item_ok] in Fx.
    destruct (classify_escape e (unsafe c)) as [x| | |] eqn:K;
      try discriminate Fx.
    rewrite (string_decode_escape fuel c p _ len out e x R0 R1 K)
      by lia.
    replace (p + S (S (List.length (flat_map item_text items))))
      with (S (S p) + List.length (flat_map item_text items)) by lia.
    rewrite (IH fuel c (S (S p)) len (out ++ [x]));
      [rewrite <- app_assoc; cbn [item_byte app]; rewrite K; reflexivity
      |exact R|exact F| |lia].
    rewrite length_app. cbn [List.length]. lia.
Qed.

End Items.

(** X7: [p_string] decodes a string of any number of plain bytes and
    escapes, wherever it stands in the input: the bytes between the quotes
    are taken item by item, a plain byte as it is, a backslash with a
    quote, a backslash or a slash as that byte, with f, n, r or t (and b
    under the unsafe flag) as the control character; the string returned
    is in a fresh block and holds exactly the decoded bytes, no store
    leaves the buffer, and the cursor stops after the closing quote. *)
Theorem p_string_decodes :
  forall (before : list ascii) (items : list item) (rest : list ascii)
         (c : context) (h : heap),
    let text := dquote :: flat_map item_text items ++ [dquote] in
    let input := before ++ text ++ rest in
    forallb (item_ok (unsafe c)) items = true ->
    s c = List.length before ->
    List.length before + List.length text <= s_end c ->
    p_string input c h
      = (Ok (next h, map (item_byte (unsafe c)) items),
         advance c (List.length text), snd (CALLOC h)).
Proof.
  intros before items rest c h text input F Sc B.
  set (n := List.length (flat_map item_text items)).
  assert (Lt : List.length text = n + 2).
  { subst text n. cbn [List.length]. rewrite length_app. cbn. lia. }
  assert (R : reads input (s c) text).
  { rewrite Sc. apply reads_middle. }
  subst text. apply reads_cons in R. destruct R as [Rq R].
  assert (St : store (List.length items + 1)
                 (map (item_byte (unsafe c)) items) [NUL]
               = Ok (map (item_byte (unsafe c)) items ++ [NUL])).
  { unfold store. rewrite length_map. cbn [List.length].
    destruct (Nat.leb_spec (List.length items + 1) (List.length items + 1));
      [reflexivity|lia]. }
  unfold p_string. rewrite p_char_ok by lia. rewrite Rq, Ascii.eqb_refl.
  cbn [negb].
  rewrite (string_scan_items input items _ (advance c 1) 0 (unsafe c));
    rewrite ?s_advance, ?s_end_advance; auto; try (fold n; lia).
  2:{ replace (s c + 1) with (S (s c)) by lia. exact R. }
  fold n. cbn [Nat.add]. rewrite advance_advance.
  unfold CALLOC. cbn [fst snd].
  replace (s c + 1 + n - S (s c)) with n by lia.
  replace (s c + 1 + n) with (S (s c) + n) by lia.
  assert (Rm : reads input (S (s c)) (flat_map item_text items)).
  { apply reads_app in R. apply R. }
  unfold n at 3.
  rewrite (string_decode_items input items n _ (S (s c)) _ []);
    rewrite ?unsafe_advance; auto.
  - cbn [app].
    replace (n - escapes items + 1) with (List.length items + 1)
      by (subst n; rewrite item_text_length; lia).
    rewrite St. rewrite Lt. do 2 f_equal. f_equal. lia.
  - cbn [List.length]. subst n. rewrite item_text_length. lia.
  - subst n. rewrite item_text_length. lia.
Qed.

(** A key of a dictionary: a, an escaped quote, b and an escaped newline
    decode to four bytes. *)
Lemma p_string_decodes_witness :
  p_string
    (str "such " ++ dquote :: "a" :: backslash :: dquote :: "b" :: backslash
       :: "n" :: dquote :: str " is 1 wow")%char
    (mkContext 5 22 0 false) empty_heap
  = (Ok (0, ["a"; dquote; "b"; "010"]%char), mkContext 13 22 0 false,
     mkHeap [0] 1 []).
Proof.
  exact (p_string_decodes (str "such ")
           [Plain "a"; Escaped dquote; Plain "b"; Escaped "n"]
           (str " is 1 wow") (mkContext 5 22 0 false) empty_heap
           eq_refl eq_refl ltac:(cbn; lia)).
Defined.

(** ** No store past the end of a string's buffer *)

Section Room.

Variable input : list ascii.

(** The first loop of [p_string] counts one byte less for each escape it
    passes and three less for each [\u]: what is left is room for every
    token. *)
Lemma string_scan_room : forall fuel c k e n c',
  string_scan input fuel c k = (Ok (e, n), c') ->
  s c <= e /\ k <= n /\
  forall f, tokens input f (s c) e + (n - k) <= e - s c.
Proof.
  induction fuel as [|fuel IH]; intros c k e n c' H;
    cbn [string_scan] in H; [discriminate|].
  unfold p_char in H.
  destruct (p_chars c 1) as [[e1|] c1] eqn:E1; [|discriminate].
  apply p_chars_some in E1. destruct E1 as (-> & E1 & B1).
  destruct (Ascii.eqb (char_at input (s c)) dquote) eqn:Q.
  { injection H as <- <- _. split; [lia|]. split; [lia|].
    intros f. destruct f; cbn [tokens];
      destruct (Nat.leb_spec (s c) (s c)); lia. }
  destruct (Ascii.eqb (char_at input (s c)) backslash) eqn:Bs.
  2:{ apply IH in H. destruct H as (L & K & T). rewrite E1 in L.
      split; [lia|]. split; [lia|]. intros f.
      pose proof (T 0) as T0. pose proof (T (pred f)) as Tf.
      rewrite E1 in T0, Tf.
      replace (s c + 1) with (S (s c)) in T0, Tf by lia.
      destruct f as [|f]; cbn [tokens pred] in *;
        destruct (Nat.leb_spec e (s c)); try lia.
      rewrite Bs. lia. }
  destruct (p_chars c1 1) as [[e2|] c2] eqn:E2; [|discriminate].
  apply p_chars_some in E2. destruct E2 as (-> & E2 & B2).
  rewrite E1 in E2, H.
  destruct (Ascii.eqb (char_at input (s c + 1)) "u") eqn:U.
  - destruct (p_chars c2 6) as [[e3|] c3] eqn:E3; [|discriminate].
    apply p_chars_some in E3. destruct E3 as (-> & E3 & B3).
    apply IH in H. destruct H as (L & K & T). rewrite E3, E2 in L.
    split; [lia|]. split; [lia|]. intros f.
    pose proof (T 0) as T0. rewrite E3, E2 in T0.
    destruct f as [|f]; cbn [tokens];
      destruct (Nat.leb_spec e (s c)); try lia.
    rewrite Bs. replace (S (s c)) with (s c + 1) by lia. rewrite U. lia.
  - apply IH in H. destruct H as (L & K & T). rewrite E2 in L.
    split; [lia|]. split; [lia|]. intros f.
    pose proof (T 0) as T0. pose proof (T (pred f)) as Tf.
    rewrite E2 in T0, Tf.
    replace (s c + 1 + 1) with (S (S (s c))) in T0, Tf by lia.
    destruct f as [|f]; cbn [tokens pred] in *;
      destruct (Nat.leb_spec e (s c)); try lia.
    rewrite Bs. replace (S (s c)) with (s c + 1) by lia. rewrite U.
    replace (S (s c + 1)) with (S (S (s c))) by lia. lia.
Qed.

(** With room for every token the second loop stores within the buffer,
    and leaves room for the terminator. *)
Lemma string_decode_room : forall fuel c p e len out,
  unsafe c = false ->
  List.length out + tokens input fuel p e + 1 <= len ->
  match fst (string_decode input fuel c p e len out) with
  | Ok bytes => List.length bytes + 1 <= len
  | Undefined _ => False
  | _ => True
  end.
Proof.
  induction fuel as [|fuel IH]; intros c p e len out U L;
    cbn [string_decode tokens] in *;
    destruct (Nat.leb_spec e p); cbn [fst]; try lia; try exact I.
  assert (Put : forall x q,
            List.length out + S (tokens input fuel q e) + 1 <= len ->
            match
              fst (match store len out [x] with
                   | Ok out' => string_decode input fuel c q e len out'
                   | Err err => (Err err, c)
                   | Undefined u => (Undefined u, c)
                   | OutOfFuel => (OutOfFuel, c)
                   end)
            with
            | Ok bytes => List.length bytes + 1 <= len
            | Undefined _ => False
            | _ => True
            end).
  { intros x q Lq. unfold store. cbn [List.length].
    destruct (Nat.leb_spec (List.length out + 1) len); [|lia].
    apply IH; [exact U|]. rewrite length_app. cbn [List.length]. lia. }
  destruct (Ascii.eqb (char_at input p) backslash) eqn:Bs; cbn [negb].
  2:{ apply Put. exact L. }
  cbv zeta. rewrite U, !andb_false_r.
  destruct (Ascii.eqb_spec (char_at input (S p)) "u") as [Eu|Nu].
  { rewrite Eu. cbn. exact I. }
  repeat match goal with
  | |- context [if ?b then _ else _] => destruct b
  end; try (apply Put; exact L); cbn [fst]; exact I.
Qed.

Lemma string_scan_defined : forall fuel c k u,
  fst (string_scan input fuel c k) <> Undefined u.
Proof.
  induction fuel as [|fuel IH]; intros c k u; cbn [string_scan]; [returned|].
  unfold p_char.
  destruct (p_chars c 1) as [[e1|] c1]; [|returned].
  destruct (Ascii.eqb _ dquote); [returned|].
  destruct (Ascii.eqb _ backslash); [|apply IH].
  destruct (p_chars c1 1) as [[e2|] c2]; [|returned].
  destruct (Ascii.eqb _ "u"); [|apply IH].
  destruct (p_chars c2 6) as [[e3|] c3]; [|returned]. apply IH.
Qed.

Lemma p_string_defined c h :
  unsafe c = false ->
  forall u, fst (fst (p_string input c h)) <> Undefined u.
Proof.
  intros U u. unfold p_string, p_char. cbv zeta.
  pose proof (p_chars_steps c 1) as S0.
  destruct (p_chars c 1) as [[start|] c0] eqn:E0; [|returned].
  cbn [snd] in S0.
  destruct (negb _); [returned|].
  pose proof (string_scan_post input (S (s_end c0 - s c0)) c0 0) as [St _].
  pose proof (string_scan_defined (S (s_end c0 - s c0)) c0 0) as Sd.
  destruct (string_scan input _ c0 0) as [[[e k]| | |] c1] eqn:Scan;
    try returned; [|exfalso; eapply Sd; reflexivity].
  cbn [fst snd] in St.
  assert (U1 : unsafe c1 = false).
  { destruct St as (_ & _ & _ & -> & _).
    destruct S0 as (_ & _ & _ & -> & _). exact U. }
  apply p_chars_some in E0. destruct E0 as (-> & E0 & B0).
  apply string_scan_room in Scan. destruct Scan as (L & K & T).
  specialize (T (e - S (s c))).
  rewrite E0 in T, L. replace (s c + 1) with (S (s c)) in T by lia.
  destruct (CALLOC h) as [out h0].
  pose proof (string_decode_room (e - S (s c)) c1 (S (s c)) e
                (e - S (s c) - k + 1) [] U1) as D.
  cbn [List.length] in D.
  destruct (string_decode input _ c1 _ _ _ _) as [[bytes| | |] c2];
    cbn [fst snd] in D |- *; try returned.
  - unfold store. cbn [List.length].
    destruct (Nat.leb_spec (List.length bytes + 1) (e - S (s c) - k + 1));
      [returned|].
    exfalso. cut (List.length bytes + 1 <= e - S (s c) - k + 1); [lia|].
    apply D. lia.
  - exfalso. apply D. lia.
Qed.


Lemma p_empty_defined c u : fst (p_empty input c) <> Undefined u.
Proof.
  unfold p_empty. destruct (p_chars c _) as [[sp|] c0]; [|returned].
  destruct (strcmp _ _ _); returned.
Qed.

Lemma p_bool_defined c u : fst (p_bool input c) <> Undefined u.
Proof.
  unfold p_bool, p_char. destruct (p_chars c 2) as [[sp|] c0]; [|returned].
  destruct (_ && _).
  - destruct (p_chars c0 1) as [[sp1|] c1]; [|returned].
    destruct (negb _); returned.
  - destruct (_ && _); returned.
Qed.

Lemma p_double_defined c u : fst (p_double input c) <> Undefined u.
Proof.
  unfold p_double. cbv zeta.
  destruct (p_double_integer input _) as [n c0].
  unfold p_double_fraction.
  destruct (Ascii.eqb _ ".").
  - cbv zeta. destruct (negb _); [returned|].
    destruct (fraction_loop input _ _ _ _) as [n1 c1].
    unfold p_double_exponent. destruct (_ || _); [|returned].
    destruct (p_chars _ 4) as [[sp|] c2]; [|returned].
    destruct (strncasecmp _ _ _ _); [returned|]. cbv zeta.
    destruct (negb _); [returned|].
    destruct (p_octal input _ _); returned.
  - unfold p_double_exponent. destruct (_ || _); [|returned].
    destruct (p_chars _ 4) as [[sp|] c2]; [|returned].
    destruct (strncasecmp _ _ _ _); [returned|]. cbv zeta.
    destruct (negb _); [returned|].
    destruct (p_octal input _ _); returned.
Qed.

Lemma p_value_return_defined A ret (mk : A -> dson_value) r u :
  fst (fst r) <> Undefined u ->
  fst (fst (p_value_return ret mk r)) <> Undefined u.
Proof.
  unfold p_value_return. destruct r as [[[?|?|?|] ?] ?]; cbn [fst snd];
    try discriminate.
  intros N E. apply N. injection E as ->. reflexivity.
Qed.

(** The five mutually recursive parsers pass the flag on unchanged, so
    every string below a value is read without it. *)
Lemma structural_defined : forall fuel,
  (forall c h u,
     unsafe c = false ->
     fst (fst (p_value input fuel c h)) <> Undefined u) /\
  (forall c h u,
     unsafe c = false ->
     fst (fst (p_array input fuel c h)) <> Undefined u) /\
  (forall c h array elts u,
     unsafe c = false ->
     fst (fst (p_array_loop input fuel c h array elts)) <> Undefined u) /\
  (forall c h u,
     unsafe c = false ->
     fst (fst (p_dict input fuel c h)) <> Undefined u) /\
  (forall c h dict keys values entries u,
     unsafe c = false ->
     fst (fst (p_dict_loop input fuel c h dict keys values entries))
       <> Undefined u).
Proof.
  induction fuel as [|fuel (IHv & IHa & IHal & IHd & IHdl)].
  { repeat split; intros; cbn; returned. }
  split; [|split; [|split; [|split]]].
  - (* p_value *)
    intros c h u U. simpl. unfold CALLOC. cbv zeta.
    repeat match goal with
    | |- context [if ?b then _ else _] => destruct b
    end; try returned.
    + apply p_value_return_defined, p_string_defined. exact U.
    + pose proof (p_double_defined c u) as R.
      destruct (p_double input c) as [r c1].
      apply p_value_return_defined. exact R.
    + pose proof (p_bool_defined c u) as R.
      destruct (p_bool input c) as [r c1].
      apply p_value_return_defined. exact R.
    + pose proof (p_empty_defined c u) as R.
      destruct (p_empty input c) as [r c1].
      apply p_value_return_defined. exact R.
    + apply p_value_return_defined, IHa. exact U.
    + apply p_value_return_defined, IHd. exact U.
  - (* p_array *)
    intros c h u U. simpl. unfold CALLOC. cbv zeta.
    pose proof (p_chars_steps c 2) as S0.
    destruct (p_chars c 2) as [[sp|] c1] eqn:E1; [|returned].
    cbn [snd] in S0.
    destruct (strncmp _ _ _ 2); [returned|].
    pose proof (maybe_p_whitespace_steps input c1) as S1.
    remember (maybe_p_whitespace input c1) as c2 eqn:W. clear W.
    unfold steps in S0, S1.
    assert (U2 : unsafe c2 = false).
    { destruct S1 as (_ & _ & _ & -> & _).
      destruct S0 as (_ & _ & _ & -> & _). exact U. }
    destruct (negb _).
    + match goal with
      | |- context [p_array_loop input fuel c2 ?h ?a ?l] =>
          pose proof (IHal c2 h a l u U2) as R;
          destruct (p_array_loop input fuel c2 h a l) as [[[elts| | |] c3] h3]
      end; cbn [fst] in R; try returned; [|intros E; apply R; injection E as ->; reflexivity].
      destruct (p_chars c3 4) as [[sp4|] c4]; [|returned].
      destruct (strncmp _ _ _ 4); returned.
    + destruct (p_chars c2 4) as [[sp4|] c4]; [|returned].
      destruct (strncmp _ _ _ 4); returned.
  - (* p_array_loop *)
    intros c h array elts u U. simpl.
    pose proof (IHv c h u U) as R.
    pose proof (proj1 (structural_post input fuel) c h) as [S0 _].
    destruct (p_value input fuel c h) as [[[v| | |] c1] h1];
      cbn [fst snd] in R, S0; try returned; [|intros E; apply R; injection E as ->; reflexivity].
    pose proof (maybe_p_whitespace_steps input c1) as S1.
    remember (maybe_p_whitespace input c1) as c2 eqn:W. clear W.
    unfold steps in S0, S1.
    assert (U2 : unsafe c2 = false).
    { destruct S1 as (_ & _ & _ & -> & _).
      destruct S0 as (_ & _ & _ & -> & _). exact U. }
    destruct (negb (Ascii.eqb _ "a")); [returned|].
    pose proof (p_chars_steps c2 3) as S3.
    destruct (p_chars c2 3) as [[sp|] c3] eqn:E3; [|returned].
    cbn [snd] in S3.
    assert (U3 : unsafe c3 = false).
    { destruct S3 as (_ & _ & _ & -> & _). exact U2. }
    pose proof (maybe_p_whitespace_steps input c3) as S4.
    unfold steps in S4.
    destruct (negb (strncmp _ _ _ 3)).
    { apply IHal. destruct S4 as (_ & _ & _ & -> & _). exact U3. }
    destruct (strncmp _ _ _ 3); [returned|]. unfold p_char.
    pose proof (p_chars_steps c3 1) as S5.
    destruct (p_chars c3 1) as [[sp1|] c4] eqn:E4; [|returned].
    cbn [snd] in S5.
    destruct (negb _); [returned|].
    pose proof (maybe_p_whitespace_steps input c4) as S6.
    apply IHal.
    destruct S6 as (_ & _ & _ & -> & _).
    destruct S5 as (_ & _ & _ & -> & _). exact U3.
  - (* p_dict *)
    intros c h u U. simpl. unfold CALLOC. cbv zeta.
    pose proof (p_chars_steps c 4) as S0.
    destruct (p_chars c 4) as [[sp|] c1] eqn:E1; [|returned].
    cbn [snd] in S0.
    assert (U1 : unsafe c1 = false).
    { destruct S0 as (_ & _ & _ & -> & _). exact U. }
    destruct (strncmp _ _ _ 4); [returned|].
    match goal with
    | |- context [p_dict_loop input fuel c1 ?h ?d ?k ?v ?l] =>
        pose proof (IHdl c1 h d k v l u U1) as R;
        destruct (p_dict_loop input fuel c1 h d k v l)
          as [[[entries| | |] c2] h2]
    end; cbn [fst] in R; try returned; [|intros E; apply R; injection E as ->; reflexivity].
    destruct (p_chars c2 3) as [[sp3|] c3]; [|returned].
    destruct (strncmp _ _ _ 3); returned.
  - (* p_dict_loop *)
    intros c h dict keys values entries u U. simpl.
    pose proof (maybe_p_whitespace_steps input c) as S0.
    remember (maybe_p_whitespace input c) as c0 eqn:W. clear W.
    assert (U0 : unsafe c0 = false).
    { destruct S0 as (_ & _ & _ & -> & _). exact U. }
    pose proof (p_string_defined c0 h U0 u) as R.
    pose proof (p_string_post input c0 h) as [S1 _].
    destruct (p_string input c0 h) as [[[[k kbytes]| | |] c1] h1];
      cbn [fst snd] in R, S1; try returned; [|intros E; apply R; injection E as ->; reflexivity].
    pose proof (maybe_p_whitespace_steps input c1) as S2.
    remember (maybe_p_whitespace input c1) as c2 eqn:W. clear W.
    pose proof (p_chars_steps c2 2) as S3.
    destruct (p_chars c2 2) as [[sp|] c3] eqn:E3; [|returned].
    cbn [snd] in S3.
    destruct (strncmp _ _ _ 2); [returned|].
    pose proof (maybe_p_whitespace_steps input c3) as S4.
    remember (maybe_p_whitespace input c3) as c4 eqn:W. clear W.
    unfold steps in S0, S1, S2, S3, S4.
    assert (U4 : unsafe c4 = false).
    { destruct S4 as (_ & _ & _ & -> & _).
      destruct S3 as (_ & _ & _ & -> & _).
      destruct S2 as (_ & _ & _ & -> & _).
      destruct S1 as (_ & _ & _ & -> & _). exact U0. }
    pose proof (IHv c4 h1 u U4) as Rv.
    pose proof (proj1 (structural_post input fuel) c4 h1) as [S5 _].
    destruct (p_value input fuel c4 h1) as [[[v| | |] c5] h5];
      cbn [fst snd] in Rv, S5; try returned;
      [|intros E; apply Rv; injection E as ->; reflexivity].
    pose proof (maybe_p_whitespace_steps input c5) as S6.
    remember (maybe_p_whitespace input c5) as c6 eqn:W. clear W.
    pose proof (p_char_steps c6) as S7.
    unfold steps in S5, S6, S7.
    destruct (is_separator _); [|returned].
    apply IHdl.
    destruct S7 as (_ & _ & _ & -> & _).
    destruct S6 as (_ & _ & _ & -> & _).
    destruct S5 as (_ & _ & _ & -> & _). exact U4.
Qed.

End Room.

(** X8: without the unsafe flag no input makes the parser store past the
    end of a buffer it allocated: the first loop of [p_string] leaves room
    for every byte the second loop stores, and for the terminator. So
    [dson_parse] returns either a value or an error and no value, whatever
    the bytes of the input and whatever its declared length. With the flag
    set, a [\u] escape does overrun the buffer (C2). *)
Theorem safe_parse_is_defined :
  forall (input : list ascii) (length : nat) (h : heap),
    match dson_parse input length false h with
    | (Ok _, Some _, _) => True
    | (Err _, None, _) => True
    | _ => False
    end.
Proof.
  intros input length h. unfold dson_parse.
  destruct (negb _); [exact I|].
  pose proof (proj1 (structural_returns input (2 * length + 2))
                (mkContext 0 length 0 false) h) as R.
  pose proof (proj1 (structural_defined input (2 * length + 2))
                (mkContext 0 length 0 false) h) as D.
  cbn [s s_end unsafe] in R, D.
  destruct (p_value input _ _ h) as [[[v| |u|] c'] h']; cbn [fst snd] in *.
  - exact I.
  - exact I.
  - apply (D u); reflexivity.
  - apply R; [lia|reflexivity].
Qed.

(** ** Escapes in any string *)

Section Escapes.

Variable input : list ascii.

(** The second loop over items that decode. *)
Lemma string_decode_prefix : forall items fuel c p e len out,
  reads input p (flat_map item_text items) ->
  forallb (item_ok (unsafe c)) items = true ->
  p + List.length (flat_map item_text items) <= e ->
  List.length out + List.length items <= len ->
  string_decode input (List.length items + fuel) c p e len out
    = string_decode input fuel c
        (p + List.length (flat_map item_text items)) e len
        (out ++ map (item_byte (unsafe c)) items).
Proof.
  induction items as [|[ch|x] items IH]; intros fuel c p e len out R F B Ll;
    cbn [flat_map item_text app List.length forallb map Nat.add] in *.
  - rewrite Nat.add_0_r, app_nil_r. reflexivity.
  - apply andb_true_iff in F. destruct F as [Fx F].
    apply reads_cons in R. destruct R as [R0 R].
    rewrite (string_decode_plain input [ch] (S (List.length items + fuel))
               c p e len out);
      cbn [List.length]; try lia.
    + cbn [Nat.sub]. rewrite Nat.sub_0_r.
      rewrite (IH fuel c (p + 1) e len (out ++ [ch])).
      * rewrite <- app_assoc. cbn [item_byte app]. f_equal. lia.
      * replace (p + 1) with (S p) by lia. exact R.
      * exact F.
      * lia.
      * rewrite length_app. cbn [List.length]. lia.
    + apply reads_cons. split; [exact R0|apply reads_nil].
    + constructor; [exact Fx|constructor].
  - apply andb_true_iff in F. destruct F as [Fx F].
    apply reads_cons in R. destruct R as [R0 R].
    apply reads_cons in R. destruct R as [R1 R].
    cbn [item_ok] in Fx.
    destruct (classify_escape x (unsafe c)) as [y| | |] eqn:K;
      try discriminate Fx.
    rewrite (string_decode_escape input _ c p e len out x y R0 R1 K)
      by lia.
    rewrite (IH fuel c (S (S p)) e len (out ++ [y])).
    + rewrite <- app_assoc. cbn [item_byte app]. rewrite K. f_equal. lia.
    + exact R.
    + exact F.
    + lia.
    + rewrite length_app. cbn [List.length]. lia.
Qed.

(** The second loop at an escape that is refused. *)
Lemma string_decode_refuses fuel c p e_ len out e :
  char_at input p = backslash ->
  char_at input (S p) = e ->
  classify_escape e (unsafe c) = Forbidden
  \/ classify_escape e (unsafe c) = Unrecognized ->
  p < e_ ->
  string_decode input (S fuel) c p e_ len out
    = (ERROR c (UnrecognizedOrForbiddenEscape e), c).
Proof.
  intros Rb Re K Lp. cbn [string_decode].
  destruct (Nat.leb_spec e_ p); [lia|].
  rewrite Rb, Ascii.eqb_refl. cbn [negb]. rewrite Re.
  unfold classify_escape in K.
  destruct (Ascii.eqb e dquote || Ascii.eqb e backslash || Ascii.eqb e "/");
    [destruct K; discriminate|].
  destruct (Ascii.eqb_spec e "b") as [->|Nb].
  { destruct (unsafe c); [destruct K; discriminate|]. reflexivity. }
  destruct (Ascii.eqb_spec e "u") as [->|Nu].
  { destruct (unsafe c); [destruct K; discriminate|]. reflexivity. }
  destruct (Ascii.eqb e "f"); [destruct K; discriminate|].
  destruct (Ascii.eqb e "n"); [destruct K; discriminate|].
  destruct (Ascii.eqb e "r"); [destruct K; discriminate|].
  destruct (Ascii.eqb e "t"); [destruct K; discriminate|].
  reflexivity.
Qed.

(** Every item is a store of the second loop. *)
Lemma tokens_items : forall items f u p e,
  reads input p (flat_map item_text items) ->
  forallb (item_ok u) items = true ->
  p + List.length (flat_map item_text items) <= e ->
  List.length items <= tokens input (List.length items + f) p e.
Proof.
  induction items as [|[ch|x] items IH]; intros f u p e R F B;
    cbn [flat_map item_text app List.length forallb Nat.add tokens] in *;
    [lia| |].
  - apply andb_true_iff in F. destruct F as [Fx F].
    apply reads_cons in R. destruct R as [R0 R].
    destruct (Nat.leb_spec e p); [lia|].
    unfold plain in Fx. apply andb_true_iff in Fx. destruct Fx as [_ Fb].
    apply negb_true_iff in Fb. rewrite R0, Fb.
    specialize (IH f u (S p) e R F). lia.
  - apply andb_true_iff in F. destruct F as [Fx F].
    apply reads_cons in R. destruct R as [R0 R].
    apply reads_cons in R. destruct R as [R1 R].
    destruct (Nat.leb_spec e p); [lia|].
    rewrite R0, Ascii.eqb_refl, R1.
    assert (Nu : Ascii.eqb x "u" = false).
    { destruct (Ascii.eqb_spec x "u") as [->|]; [|reflexivity].
      cbn [item_ok] in Fx.
      destruct (classify_escape "u" u) eqn:K; try discriminate Fx.
      exfalso. exact (classify_escape_u_Maps _ _ K). }
    rewrite Nu. specialize (IH f u (S (S p)) e R F). lia.
Qed.

(** The first loop, when it finds the closing quote, has passed the items
    and the escape after them. *)
Lemma string_scan_through e : forall items fuel c k u close k' c1,
  reads input (s c) (flat_map item_text items ++ [backslash; e]) ->
  forallb (item_ok u) items = true ->
  string_scan input fuel c k = (Ok (close, k'), c1) ->
  s c + List.length (flat_map item_text items) + 2 <= close.
Proof.
  induction items as [|[ch|x] items IH]; intros fuel c k u close k' c1 R F H;
    cbn [flat_map item_text app List.length forallb] in *;
    (destruct fuel as [|fuel]; [discriminate|]); cbn [string_scan] in H;
    unfold p_char in H;
    destruct (p_chars c 1) as [[e1|] c2] eqn:E1; try discriminate;
    apply p_chars_some in E1; destruct E1 as (-> & E1 & B1).
  - apply reads_cons in R. destruct R as [R0 R].
    apply reads_cons in R. destruct R as [R1 _].
    rewrite R0 in H. cbn [Ascii.eqb Bool.eqb dquote backslash andb] in H.
    destruct (p_chars c2 1) as [[e2|] c3] eqn:E2; try discriminate.
    apply p_chars_some in E2. destruct E2 as (-> & E2 & B2).
    destruct (Ascii.eqb _ "u").
    + destruct (p_chars c3 6) as [[e3|] c4] eqn:E3; try discriminate.
      apply p_chars_some in E3. destruct E3 as (-> & E3 & B3).
      apply string_scan_room in H. lia.
    + apply string_scan_room in H. lia.
  - apply andb_true_iff in F. destruct F as [Fx F].
    apply reads_cons in R. destruct R as [R0 R].
    unfold plain in Fx. apply andb_true_iff in Fx. destruct Fx as [Fq Fb].
    apply negb_true_iff in Fq, Fb. rewrite R0, Fq, Fb in H.
    apply (IH fuel c2 k u) in H; [lia| |exact F].
    rewrite E1. replace (s c + 1) with (S (s c)) by lia. exact R.
  - apply andb_true_iff in F. destruct F as [Fx F].
    apply reads_cons in R. destruct R as [R0 R].
    apply reads_cons in R. destruct R as [R1 R].
    rewrite R0 in H. cbn [Ascii.eqb Bool.eqb dquote backslash andb] in H.
    destruct (p_chars c2 1) as [[e2|] c3] eqn:E2; try discriminate.
    apply p_chars_some in E2. destruct E2 as (-> & E2 & B2).
    rewrite E1 in H. replace (s c + 1) with (S (s c)) in H by lia.
    rewrite R1 in H.
    assert (Nu : Ascii.eqb x "u" = false).
    { destruct (Ascii.eqb_spec x "u") as [->|]; [|reflexivity].
      cbn [item_ok] in Fx.
      destruct (classify_escape "u" u) eqn:K; try discriminate Fx.
      exfalso. exact (classify_escape_u_Maps _ _ K). }
    rewrite Nu in H.
    apply (IH fuel c3 (S k) u) in H; [lia| |exact F].
    rewrite E2, E1. replace (s c + 1 + 1) with (S (S (s c))) by lia.
    exact R.
Qed.

(** The first loop fails with one message only. *)
Lemma string_scan_error : forall fuel c k err c1,
  string_scan input fuel c k = (Err err, c1) ->
  err = AtInputChar (Z.of_nat (s c1) - Z.of_nat (beginning c1))
          MissingClosingQuote.
Proof.
  induction fuel as [|fuel IH]; intros c k err c1 H;
    cbn [string_scan] in H; [discriminate|].
  unfold p_char, ERROR in H.
  destruct (p_chars c 1) as [[e1|] c2]; [|injection H as <- <-; reflexivity].
  destruct (Ascii.eqb _ dquote); [discriminate|].
  destruct (Ascii.eqb _ backslash); [|exact (IH _ _ _ _ H)].
  destruct (p_chars c2 1) as [[e2|] c3];
    [|injection H as <- <-; reflexivity].
  destruct (Ascii.eqb _ "u"); [|exact (IH _ _ _ _ H)].
  destruct (p_chars c3 6) as [[e3|] c4];
    [|injection H as <- <-; reflexivity].
  exact (IH _ _ _ _ H).
Qed.

Lemma item_ok_passes u i : item_ok u i = true -> passes i = true.
Proof.
  destruct i as [ch|e]; cbn [item_ok passes]; [auto|].
  destruct (Ascii.eqb_spec e "u") as [->|]; [|reflexivity].
  destruct (classify_escape "u" u) eqn:K; try discriminate.
  exfalso. exact (classify_escape_u_Maps _ _ K).
Qed.

Lemma forallb_item_ok_passes u items :
  forallb (item_ok u) items = true -> forallb passes items = true.
Proof.
  induction items as [|i items IH]; cbn [forallb]; [reflexivity|].
  intros F. apply andb_true_iff in F. destruct F as [Fi F].
  rewrite (item_ok_passes u i Fi). exact (IH F).
Qed.

(** The first loop over items it passes. *)
Lemma string_scan_passes : forall items fuel c k,
  reads input (s c) (flat_map item_text items) ->
  forallb passes items = true ->
  s c + List.length (flat_map item_text items) <= s_end c ->
  List.length items <= fuel ->
  string_scan input fuel c k
    = string_scan input (fuel - List.length items)
        (advance c (List.length (flat_map item_text items)))
        (k + escapes items).
Proof.
  induction items as [|[ch|e] items IH]; intros fuel c k R F B L;
    cbn [flat_map item_text app List.length forallb] in *.
  - rewrite advance_0, Nat.sub_0_r. unfold escapes. cbn.
    rewrite Nat.add_0_r. reflexivity.
  - destruct fuel as [|fuel]; [lia|]. cbn [string_scan Nat.sub].
    rewrite p_char_ok by lia.
    apply andb_true_iff in F. destruct F as [Fx F].
    apply reads_cons in R. destruct R as [R0 R].
    unfold passes, plain in Fx. apply andb_true_iff in Fx.
    destruct Fx as [Fq Fb]. apply negb_true_iff in Fq, Fb.
    rewrite R0, Fq, Fb.
    rewrite (IH fuel (advance c 1) k); rewrite ?s_advance, ?s_end_advance;
      auto; try lia.
    + rewrite advance_advance.
      change (escapes (Plain ch :: items)) with (escapes items).
      reflexivity.
    + replace (s c + 1) with (S (s c)) by lia. exact R.
  - destruct fuel as [|fuel]; [lia|]. cbn [string_scan Nat.sub].
    rewrite p_char_ok by lia.
    apply andb_true_iff in F. destruct F as [Fx F].
    apply reads_cons in R. destruct R as [R0 R].
    apply reads_cons in R. destruct R as [R1 R].
    rewrite R0. cbn [Ascii.eqb Bool.eqb dquote backslash andb].
    rewrite p_char_ok by (rewrite s_advance, s_end_advance; lia).
    rewrite s_advance. replace (s c + 1) with (S (s c)) by lia. rewrite R1.
    cbn [passes] in Fx. apply negb_true_iff in Fx.
    rewrite Fx, advance_advance. change (1 + 1) with 2.
    rewrite (IH fuel (advance c 2) (S k)); rewrite ?s_advance,
      ?s_end_advance; auto; try lia.
    + rewrite advance_advance.
      change (escapes (Escaped e :: items)) with (S (escapes items)).
      replace (S k + escapes items) with (k + S (escapes items)) by lia.
      reflexivity.
    + replace (s c + 2) with (S (S (s c))) by lia. exact R.
Qed.

(** The first loop on a closed string: items it passes, an escape with
    the six bytes it takes if it is [\u], more items, the quote. *)
Lemma string_scan_closed e skipped items more fuel c k :
  let text := flat_map item_text items
              ++ backslash :: e :: skipped
              ++ flat_map item_text more ++ [dquote] in
  reads input (s c) text ->
  forallb passes items = true ->
  forallb passes more = true ->
  List.length skipped = (if Ascii.eqb e "u" then 6 else 0) ->
  s c + List.length text <= s_end c ->
  List.length text <= fuel ->
  exists close k',
    string_scan input fuel c k
      = (Ok (close, k'), advance c (List.length text)).
Proof.
  intros text R Fi Fm Ls B L.
  set (li := List.length (flat_map item_text items)).
  set (lm := List.length (flat_map item_text more)).
  assert (Lt : List.length text = li + 2 + List.length skipped + lm + 1).
  { unfold text, li, lm. rewrite length_app. cbn [List.length].
    rewrite !length_app. cbn [List.length]. lia. }
  pose proof (item_text_length items) as Ni. fold li in Ni.
  pose proof (item_text_length more) as Nm. fold lm in Nm.
  unfold text in R. apply reads_app in R. destruct R as [Ri R]. fold li in R.
  apply reads_cons in R. destruct R as [Rb R].
  apply reads_cons in R. destruct R as [Re R].
  apply reads_app in R. destruct R as [_ R].
  apply reads_app in R. destruct R as [Rm Rq]. fold lm in Rq.
  apply reads_head in Rq.
  rewrite (string_scan_passes items fuel c k Ri Fi) by lia. fold li.
  destruct (fuel - List.length items) as [|f1] eqn:Ef; [lia|].
  cbn [string_scan].
  rewrite p_char_ok by (rewrite ?s_advance, ?s_end_advance; lia).
  rewrite s_advance, Rb. cbn [Ascii.eqb Bool.eqb dquote backslash andb].
  rewrite p_char_ok by (rewrite ?s_advance, ?s_end_advance; lia).
  rewrite !advance_advance, s_advance.
  replace (s c + (li + 1)) with (S (s c + li)) by lia. rewrite Re.
  assert (Tail : forall c2 k2,
            s c2 = S (S (s c + li)) + List.length skipped ->
            s_end c2 = s_end c ->
            exists close k',
              string_scan input f1 c2 k2
                = (Ok (close, k'), advance c2 (lm + 1))).
  { intros c2 k2 S2 E2.
    rewrite (string_scan_passes more f1 c2 k2); rewrite ?S2, ?E2; auto;
      try lia.
    fold lm.
    destruct (f1 - List.length more) as [|f2] eqn:Ef2; [lia|].
    cbn [string_scan].
    rewrite p_char_ok by (rewrite ?s_advance, ?s_end_advance; lia).
    rewrite s_advance, S2, Rq, Ascii.eqb_refl, advance_advance.
    eauto. }
  destruct (Ascii.eqb e "u") eqn:U.
  - rewrite p_chars_ok by (rewrite ?s_advance, ?s_end_advance; lia).
    rewrite advance_advance.
    destruct (Tail (advance c (li + 1 + 1 + 6))
                (S (k + escapes items) + 2)) as (close & k' & T).
    { rewrite s_advance. lia. } { reflexivity. }
    exists close, k'. rewrite T, advance_advance. f_equal. f_equal. lia.
  - destruct (Tail (advance c (li + 1 + 1))
                (S (k + escapes items))) as (close & k' & T).
    { rewrite s_advance. lia. } { reflexivity. }
    exists close, k'. rewrite T, advance_advance. f_equal. f_equal. lia.
Qed.

End Escapes.

(** [p_string] on a string of items that decode, anywhere in the input. *)
Lemma p_string_items before items rest c h :
  let text := dquote :: flat_map item_text items ++ [dquote] in
  let input := before ++ text ++ rest in
  forallb (item_ok (unsafe c)) items = true ->
  s c = List.length before ->
  List.length before + List.length text <= s_end c ->
  p_string input c h
    = (Ok (next h, map (item_byte (unsafe c)) items),
       advance c (List.length text), snd (CALLOC h)).
Proof.
  intros text input F Sc B.
  set (n := List.length (flat_map item_text items)).
  assert (Lt : List.length text = n + 2).
  { subst text n. cbn [List.length]. rewrite length_app. cbn. lia. }
  assert (R : reads input (s c) text).
  { rewrite Sc. apply reads_middle. }
  subst text. apply reads_cons in R. destruct R as [Rq R].
  assert (St : store (List.length items + 1)
                 (map (item_byte (unsafe c)) items) [NUL]
               = Ok (map (item_byte (unsafe c)) items ++ [NUL])).
  { unfold store. rewrite length_map. cbn [List.length].
    destruct (Nat.leb_spec (List.length items + 1) (List.length items + 1));
      [reflexivity|lia]. }
  unfold p_string. rewrite p_char_ok by lia. rewrite Rq, Ascii.eqb_refl.
  cbn [negb].
  rewrite (string_scan_items input items _ (advance c 1) 0 (unsafe c));
    rewrite ?s_advance, ?s_end_advance; auto; try (fold n; lia).
  2:{ replace (s c + 1) with (S (s c)) by lia. exact R. }
  fold n. cbn [Nat.add]. rewrite advance_advance.
  unfold CALLOC. cbn [fst snd].
  replace (s c + 1 + n - S (s c)) with n by lia.
  replace (s c + 1 + n) with (S (s c) + n) by lia.
  assert (Rm : reads input (S (s c)) (flat_map item_text items)).
  { apply reads_app in R. apply R. }
  unfold n at 3.
  rewrite (string_decode_items input items n _ (S (s c)) _ []);
    rewrite ?unsafe_advance; auto.
  - cbn [app].
    replace (n - escapes items + 1) with (List.length items + 1)
      by (subst n; rewrite item_text_length; lia).
    rewrite St. rewrite Lt. do 2 f_equal. f_equal. lia.
  - cbn [List.length]. subst n. rewrite item_text_length. lia.
  - subst n. rewrite item_text_length. lia.
Qed.

(** [p_string] on a string whose first escape that does not decode is
    [\e], forbidden or unrecognized, after items that decode: once the
    first loop has found the closing quote, the second loop stores the
    items and stops at the escape. *)
Lemma p_string_refuses before items e rest c h close k c1 :
  let input :=
    before ++ dquote :: flat_map item_text items ++ backslash :: e :: rest in
  forallb (item_ok (unsafe c)) items = true ->
  s c = List.length before ->
  classify_escape e (unsafe c) = Forbidden
  \/ classify_escape e (unsafe c) = Unrecognized ->
  string_scan input (S (s_end c - (s c + 1))) (advance c 1) 0
    = (Ok (close, k), c1) ->
  p_string input c h
    = (ERROR c1 (UnrecognizedOrForbiddenEscape e), c1,
       free (next h) (snd (CALLOC h))).
Proof.
  intros input F Sc K Scan.
  set (L := List.length (flat_map item_text items)).
  assert (R : reads input (s c)
                (dquote :: flat_map item_text items ++ [backslash; e])).
  { assert (E : input
                = before
                  ++ (dquote :: flat_map item_text items ++ [backslash; e])
                  ++ rest).
    { unfold input. cbn [app]. rewrite <- app_assoc. reflexivity. }
    rewrite E, Sc. apply reads_middle. }
  apply reads_cons in R. destruct R as [Rq R].
  pose proof (string_scan_through input e items
                (S (s_end c - (s c + 1))) (advance c 1) 0 (unsafe c)
                close k c1) as Th.
  rewrite s_advance in Th.
  assert (R' : reads input (s c + 1)
                 (flat_map item_text items ++ [backslash; e]))
    by (replace (s c + 1) with (S (s c)) by lia; exact R).
  specialize (Th R' F Scan). fold L in Th. clear R'.
  pose proof (string_scan_room input _ _ _ _ _ _ Scan) as (_ & _ & Room).
  rewrite s_advance in Room.
  assert (Room' : forall f, tokens input f (S (s c)) close + (k - 0)
                            <= close - S (s c)).
  { intros f. specialize (Room f).
    replace (S (s c)) with (s c + 1) by lia. exact Room. }
  clear Room. rename Room' into Room.
  apply reads_app in R. destruct R as [Ri Re]. fold L in Re.
  apply reads_cons in Re. destruct Re as [Rb Re].
  apply reads_cons in Re. destruct Re as [Rx _].
  pose proof (tokens_items input items (close - S (s c)) (unsafe c)
                (S (s c)) close Ri F) as Tk.
  fold L in Tk. specialize (Tk ltac:(lia)).
  specialize (Room (List.length items + (close - S (s c)))).
  pose proof (string_scan_post input (S (s_end c - (s c + 1)))
                (advance c 1) 0) as [St _].
  rewrite Scan in St. cbn [fst snd] in St.
  assert (U1 : unsafe c1 = unsafe c).
  { destruct St as (_ & _ & _ & -> & _). reflexivity. }
  assert (In1 : s c + 1 <= s_end c).
  { destruct (Nat.le_gt_cases (s c + 1) (s_end c)) as [Le|Gt]; [exact Le|].
    exfalso. cbn [string_scan] in Scan. unfold p_char, p_chars in Scan.
    rewrite s_advance, s_end_advance in Scan.
    destruct (Nat.ltb_spec (s_end c) (s c + 1 + 1)); [discriminate|lia]. }
  unfold p_string. rewrite (p_char_ok c In1). rewrite Rq, Ascii.eqb_refl.
  cbn [negb].
  rewrite s_end_advance, s_advance. rewrite Scan.
  unfold CALLOC. cbn [fst snd].
  assert (Li : List.length items <= L).
  { unfold L. rewrite item_text_length. lia. }
  replace (close - S (s c))
    with (List.length items + S (close - S (s c) - List.length items - 1))
    at 1 by lia.
  rewrite (string_decode_prefix input items _ c1 (S (s c)) close _ []);
    rewrite ?U1; auto; try (fold L; cbn [List.length]; lia).
  fold L.
  rewrite (string_decode_refuses input _ c1 (S (s c) + L) close _ _ e);
    rewrite ?U1; auto; try lia.
Qed.

(** [p_string] on a closed string whose first escape that does not decode
    comes after items that do. *)
Lemma p_string_refuses_closed before items e skipped more rest c h :
  let text := dquote :: flat_map item_text items
                ++ backslash :: e :: skipped
                ++ flat_map item_text more ++ [dquote] in
  let input := before ++ text ++ rest in
  forallb (item_ok (unsafe c)) items = true ->
  forallb passes more = true ->
  List.length skipped = (if Ascii.eqb e "u" then 6 else 0) ->
  classify_escape e (unsafe c) = Forbidden
  \/ classify_escape e (unsafe c) = Unrecognized ->
  s c = List.length before ->
  List.length before + List.length text <= s_end c ->
  p_string input c h
    = (ERROR (advance c (List.length text))
         (UnrecognizedOrForbiddenEscape e),
       advance c (List.length text), free (next h) (snd (CALLOC h))).
Proof.
  intros text input F Fm Ls K Sc B.
  set (body := flat_map item_text items
               ++ backslash :: e :: skipped
               ++ flat_map item_text more ++ [dquote]).
  assert (Lt : List.length text = S (List.length body)) by reflexivity.
  assert (R : reads input (s c) text) by (rewrite Sc; apply reads_middle).
  apply reads_cons in R. destruct R as [_ R].
  assert (Sn : exists close k,
            string_scan input (S (s_end c - (s c + 1))) (advance c 1) 0
              = (Ok (close, k),
                 advance (advance c 1) (List.length body))).
  { apply (string_scan_closed input e skipped items more);
      rewrite ?s_advance, ?s_end_advance; fold body;
      eauto using forallb_item_ok_passes; try lia.
    replace (s c + 1) with (S (s c)) by lia. exact R. }
  destruct Sn as (close & k & Scan). rewrite advance_advance in Scan.
  replace (1 + List.length body) with (List.length text) in Scan by lia.
  assert (E : input
              = before ++ dquote :: flat_map item_text items
                  ++ backslash :: e
                  :: (skipped ++ flat_map item_text more ++ [dquote])
                     ++ rest).
  { unfold input, text. cbn [app]. rewrite <- !app_assoc. cbn [app].
    rewrite <- !app_assoc. reflexivity. }
  rewrite E in Scan |- *.
  exact (p_string_refuses before items e _ c h close k _ F Sc K Scan).
Qed.

(** [p_string] on a string whose first escape that does not decode comes
    after items that do, whatever follows the escape. *)
Lemma p_string_refuses_open before items e rest c h :
  let input :=
    before ++ dquote :: flat_map item_text items ++ backslash :: e :: rest in
  forallb (item_ok (unsafe c)) items = true ->
  classify_escape e (unsafe c) = Forbidden
  \/ classify_escape e (unsafe c) = Unrecognized ->
  s c = List.length before ->
  s c < s_end c ->
  exists c1,
    p_string input c h = (ERROR c1 MissingClosingQuote, c1, h)
    \/ p_string input c h
       = (ERROR c1 (UnrecognizedOrForbiddenEscape e), c1,
          free (next h) (snd (CALLOC h))).
Proof.
  intros input F K Sc In1.
  destruct (string_scan input (S (s_end c - (s c + 1))) (advance c 1) 0)
    as [[[close k]|err|u|] c1] eqn:Scan.
  - exists c1. right.
    exact (p_string_refuses before items e rest c h close k c1 F Sc K Scan).
  - exists c1. left.
    pose proof (string_scan_error input _ _ _ _ _ Scan) as ->.
    assert (Rq : char_at input (s c) = dquote).
    { assert (R : reads input (s c) [dquote]).
      { unfold input. rewrite Sc.
        change (dquote :: flat_map item_text items ++ backslash :: e :: rest)
          with ([dquote]
                ++ flat_map item_text items ++ backslash :: e :: rest).
        apply reads_middle. }
      exact (reads_head input _ _ _ R). }
    unfold p_string. rewrite (p_char_ok c) by lia.
    rewrite Rq, Ascii.eqb_refl. cbn [negb].
    rewrite s_end_advance, s_advance, Scan. reflexivity.
  - exfalso.
    apply (string_scan_defined input (S (s_end c - (s c + 1)))
             (advance c 1) 0 u).
    rewrite Scan. reflexivity.
  - exfalso.
    apply (string_scan_returns input (S (s_end c - (s c + 1)))
             (advance c 1) 0).
    + rewrite s_advance, s_end_advance. lia.
    + rewrite Scan. reflexivity.
Qed.




(** ** What a parse releases *)

(** On its error exits the parser releases blocks: the value under
    construction, the elements and the vector of an array, the entries and
    the three blocks of a dictionary, the buffer of a string. Each of them
    is a block the call itself has allocated and not yet released. *)

Lemma frame_refl n h : well_formed h -> frame n h h.
Proof. intros W. unfold frame. repeat split; auto. Qed.

Lemma frame_trans n h h1 h2 : frame n h h1 -> frame n h1 h2 -> frame n h h2.
Proof.
  intros (N1 & I1 & W1 & L1) (N2 & I2 & W2 & L2).
  split; [lia|]. split; [congruence|]. split; [exact W2|].
  intros p Hp. rewrite (L2 p Hp). apply L1. exact Hp.
Qed.

Lemma frame_weaken m n h h' : m <= n -> frame n h h' -> frame m h h'.
Proof.
  intros L (N & I & W & K). repeat split; auto; apply K; lia.
Qed.

Lemma frame_allocated h h' bs :
  well_formed h -> allocated h h' bs -> frame (next h) h h'.
Proof.
  intros W A. pose proof (allocated_owned _ _ _ A) as (_ & _ & Fr & Li).
  destruct A as (N & I & L & P).
  split; [exact N|]. split; [exact I|]. split.
  - intros p Hp. apply Li in Hp. destruct Hp as [Hp|Hp].
    + apply (Permutation_in _ P), in_seq in Hp. lia.
    + apply W in Hp. lia.
  - intros p Hp. rewrite Li. split; [|auto].
    intros [B|B]; [apply Fr in B; lia|exact B].
Qed.

Lemma frame_CALLOC h :
  well_formed h -> frame (next h) h (snd (CALLOC h)).
Proof. intros W. exact (frame_allocated _ _ _ W (allocated_CALLOC h)). Qed.

Lemma frame_free_all n h ps :
  well_formed h -> owned n h ps -> frame n h (free_all ps h).
Proof.
  intros W (N & I & B).
  destruct (free_all_live ps h N I) as (F1 & F2 & F3).
  split; [lia|]. split; [exact F1|]. split.
  - intros p Hp. apply F3 in Hp. rewrite F2. apply W. tauto.
  - intros p Hp. rewrite F3. split; [tauto|].
    intros L. split; [exact L|]. intros Q. apply B in Q. lia.
Qed.

Lemma frame_free n h p :
  well_formed h -> In p (live h) -> n <= p -> frame n h (free p h).
Proof.
  intros W I L. apply (frame_free_all n h [p] W).
  split; [repeat constructor; intros []|].
  split; intros q [<-|[]]; assumption.
Qed.

Lemma owned_perm n h bs bs' :
  Permutation bs bs' -> owned n h bs -> owned n h bs'.
Proof.
  intros P (N & I & B). split; [|split].
  - exact (Permutation_NoDup P N).
  - intros p Hp. apply I. exact (Permutation_in _ (Permutation_sym P) Hp).
  - intros p Hp. apply B. exact (Permutation_in _ (Permutation_sym P) Hp).
Qed.

(** What is owned stays owned across a call that keeps the blocks it
    found. *)
Lemma owned_frame n h h' bs :
  well_formed h -> frame (next h) h h' -> owned n h bs -> owned n h' bs.
Proof.
  intros W (_ & _ & _ & K) (N & I & B). split; [exact N|]. split; [|exact B].
  intros p Hp. apply I in Hp. apply K; [apply W|]; exact Hp.
Qed.

Lemma owned_allocated n h h' bs new :
  well_formed h -> n <= next h -> allocated h h' new -> owned n h bs ->
  owned n h' (bs ++ new).
Proof.
  intros W L A (N & I & B).
  destruct (allocated_owned _ _ _ A) as (Nn & In' & Fr & Li).
  split; [|split].
  - apply NoDup_app; [exact N|exact Nn|].
    intros p Hp Hq. apply I, W in Hp. apply Fr in Hq. lia.
  - intros p Hp. apply in_app_or in Hp. destruct Hp as [Hp|Hp].
    + apply Li. right. apply I. exact Hp.
    + apply In'. exact Hp.
  - intros p Hp. apply in_app_or in Hp. destruct Hp as [Hp|Hp].
    + apply B. exact Hp.
    + apply Fr in Hp. lia.
Qed.

Lemma array_free_blocks array elts h :
  array_free array elts h = free_all (flat_map blocks elts ++ [array]) h.
Proof.
  unfold array_free. rewrite free_all_app. cbn [free_all fold_left].
  f_equal. revert h.
  induction elts as [|v elts IH]; intros h; [reflexivity|].
  cbn [fold_left flat_map]. rewrite free_all_app, <- free_value_blocks.
  apply IH.
Qed.

Lemma dict_free_blocks dict keys values entries h :
  dict_free dict keys values entries h
    = free_all (flat_map (fun e => fst (fst e) :: blocks (snd e)) entries
                  ++ [keys; values; dict]) h.
Proof.
  unfold dict_free. rewrite free_all_app. cbn [free_all fold_left].
  do 3 f_equal. revert h.
  induction entries as [|e entries IH]; intros h; [reflexivity|].
  cbn [fold_left flat_map]. rewrite free_all_app.
  change (free_all (fst (fst e) :: blocks (snd e)) h)
    with (free_all (blocks (snd e)) (free (fst (fst e)) h)).
  rewrite <- free_value_blocks. apply IH.
Qed.

Section Frame.

Variable input : list ascii.

Lemma p_string_frame c h :
  well_formed h -> frame (next h) h (snd (p_string input c h)).
Proof.
  intros W. unfold p_string.
  destruct (p_char c) as [[start|] c0]; [|apply frame_refl; exact W].
  destruct (negb _); [apply frame_refl; exact W|].
  destruct (string_scan input _ c0 0) as [[[e k]| | |] c1];
    try (apply frame_refl; exact W).
  cbv zeta. pose proof (frame_CALLOC h W) as F.
  unfold CALLOC in *. cbn [fst snd] in *.
  destruct (string_decode input _ c1 _ _ _ _) as [[b| | |] c2];
    cbn [snd]; try exact F.
  - destruct (store _ b [NUL]); exact F.
  - eapply frame_trans; [exact F|].
    apply frame_free; [apply F|left; reflexivity|lia].
Qed.

(** The end of [p_value]: [ret] is the block taken at its start. *)
Lemma p_value_return_frame A (mk : A -> dson_value) h r :
  well_formed h ->
  frame (S (next h)) (snd (CALLOC h)) (snd r) ->
  frame (next h) h (snd (p_value_return (next h) mk r)).
Proof.
  intros W F. pose proof (frame_CALLOC h W) as F0.
  assert (G : frame (next h) h (snd r)).
  { eapply frame_trans; [exact F0|].
    eapply frame_weaken; [|exact F]. lia. }
  unfold p_value_return. destruct r as [[[a|e|u|] c] h1]; cbn [snd] in *;
    try exact G.
  eapply frame_trans; [exact G|].
  apply frame_free; [apply F| |lia].
  apply F; [lia|]. left. reflexivity.
Qed.

Lemma structural_frame : forall fuel,
  (forall c h,
     well_formed h -> frame (next h) h (snd (p_value input fuel c h))) /\
  (forall c h,
     well_formed h -> frame (next h) h (snd (p_array input fuel c h))) /\
  (forall c h array elts n,
     well_formed h -> n <= next h ->
     owned n h (flat_map blocks elts ++ [array]) ->
     frame n h (snd (p_array_loop input fuel c h array elts))) /\
  (forall c h,
     well_formed h -> frame (next h) h (snd (p_dict input fuel c h))) /\
  (forall c h dict keys values entries n,
     well_formed h -> n <= next h ->
     owned n h
       (flat_map (fun e => fst (fst e) :: blocks (snd e)) entries
          ++ [keys; values; dict]) ->
     frame n h (snd (p_dict_loop input fuel c h dict keys values entries))).
Proof.
  induction fuel as [|fuel (IHv & IHa & IHal & IHd & IHdl)].
  { split; [|split; [|split; [|split]]]; intros;
      cbn [p_value p_array p_array_loop p_dict p_dict_loop snd];
      apply frame_refl; assumption. }
  split; [|split; [|split; [|split]]].
  - (* p_value *)
    intros c h W. cbn [p_value]. unfold CALLOC at 1. cbv zeta.
    pose proof (frame_CALLOC h W) as F0.
    assert (W0 : well_formed (snd (CALLOC h))) by apply F0.
    assert (Same : frame (next h) h (free (next h) (snd (CALLOC h)))).
    { eapply frame_trans; [exact F0|].
      apply frame_free; [exact W0|left; reflexivity|lia]. }
    assert (Flat : forall A (mk : A -> dson_value) (r : result A)
                     (c1 : context),
              frame (next h) h
                (snd (p_value_return (next h) mk (r, c1, snd (CALLOC h))))).
    { intros A mk r c1. apply p_value_return_frame; [exact W|].
      apply frame_refl. exact W0. }
    change (mkHeap (next h :: live h) (S (next h)) (invalid_frees h))
      with (snd (CALLOC h)).
    destruct (Ascii.eqb (peek input c) dquote).
    { apply p_value_return_frame; [exact W|].
      apply (p_string_frame c _ W0). }
    destruct (_ || _).
    { destruct (p_double input c) as [r c1]. apply Flat. }
    destruct (_ || _).
    { destruct (p_bool input c) as [r c1]. apply Flat. }
    destruct (Ascii.eqb _ "e").
    { destruct (p_empty input c) as [r c1]. apply Flat. }
    destruct (Ascii.eqb _ "s"); [|exact Same].
    destruct (Ascii.eqb _ "o").
    { apply p_value_return_frame; [exact W|]. apply (IHa c _ W0). }
    destruct (Ascii.eqb _ "u"); [|exact Same].
    apply p_value_return_frame; [exact W|]. apply (IHd c _ W0).
  - (* p_array *)
    intros c h W. cbn [p_array]. cbv zeta.
    pose proof (frame_CALLOC h W) as F0.
    pose proof (allocated_CALLOC h) as A0.
    destruct (CALLOC h) as [array h0] eqn:Ca. cbn [fst snd] in F0, A0.
    assert (W0 : well_formed h0) by apply F0.
    assert (O0 : owned (next h) h0 [array]).
    { apply (owned_allocated (next h) h h0 [] [array] W (Nat.le_refl _) A0).
      split; [constructor|]. split; intros p []. }
    assert (N0 : next h <= next h0) by apply F0.
    destruct (p_chars c 2) as [[sp|] c0]; [|exact F0].
    destruct (strncmp _ _ _ 2); [exact F0|].
    assert (Close : forall c2 h2 elts,
              frame (next h) h h2 ->
              owned (next h) h2 (flat_map blocks elts ++ [array]) ->
              frame (next h) h
                (snd (match p_chars c2 4 with
                      | (None, c) =>
                          (ERROR c EndOfInputInArray, c,
                           array_free array elts h2)
                      | (Some sp, c) =>
                          if strncmp input sp (list_ascii_of_string "many") 4
                          then (ERROR c ExpectedMany, c,
                                array_free array elts h2)
                          else (Ok (array, elts), c, h2)
                      end))).
    { intros c2 h2 elts F2 O2.
      assert (R : frame (next h) h (array_free array elts h2)).
      { eapply frame_trans; [exact F2|]. rewrite array_free_blocks.
        apply frame_free_all; [apply F2|exact O2]. }
      destruct (p_chars c2 4) as [[sp4|] c3]; [|exact R].
      destruct (strncmp _ _ _ 4); [exact R|exact F2]. }
    destruct (negb _).
    + pose proof (IHal (maybe_p_whitespace input c0) h0 array [] (next h)
                    W0 N0 O0) as Fl.
      destruct (p_array_loop input fuel _ h0 array [])
        as [[[elts| | |] c2] h2] eqn:Lp; cbn [snd] in Fl;
        try (eapply frame_trans; [exact F0|exact Fl]).
      apply (proj1 (proj2 (proj2 (structural_allocated input fuel)))) in Lp.
      destruct Lp as (new & -> & Al). cbn [app].
      apply Close; [eapply frame_trans; [exact F0|exact Fl]|].
      eapply owned_perm; [|exact (owned_allocated _ _ _ _ _ W0 N0 Al O0)].
      apply Permutation_app_comm.
    + apply Close; [exact F0|exact O0].
  - (* p_array_loop *)
    intros c h array elts n W N O. cbn [p_array_loop].
    pose proof (IHv c h W) as Fv.
    destruct (p_value input fuel c h) as [[[v| | |] c1] h1] eqn:Pv;
      cbn [snd] in Fv |- *;
      try (eapply frame_weaken; [exact N|exact Fv]).
    2:{ eapply frame_trans; [eapply frame_weaken; [exact N|exact Fv]|].
        rewrite array_free_blocks.
        apply frame_free_all; [apply Fv|].
        exact (owned_frame _ _ _ _ W Fv O). }
    apply (proj1 (structural_allocated input fuel)) in Pv. cbv zeta.
    assert (W1 : well_formed h1) by apply Fv.
    assert (N1 : n <= next h1) by (destruct Fv; lia).
    assert (F1 : frame n h h1)
      by (eapply frame_weaken; [exact N|exact Fv]).
    assert (O1 : owned n h1 (flat_map blocks (elts ++ [v]) ++ [array])).
    { eapply owned_perm; [|exact (owned_allocated _ _ _ _ _ W N Pv O)].
      rewrite flat_map_app. cbn [flat_map]. rewrite app_nil_r.
      rewrite <- !app_assoc. apply Permutation_app_head.
      apply Permutation_app_comm. }
    assert (R : frame n h (array_free array (elts ++ [v]) h1)).
    { eapply frame_trans; [exact F1|]. rewrite array_free_blocks.
      apply frame_free_all; [exact W1|exact O1]. }
    assert (Next : forall c2,
              frame n h
                (snd (p_array_loop input fuel c2 h1 array (elts ++ [v])))).
    { intros c2. eapply frame_trans; [exact F1|].
      apply IHal; assumption. }
    destruct (negb (Ascii.eqb _ "a")); [exact F1|].
    destruct (p_chars _ 3) as [[sp|] c3]; [|exact R].
    destruct (negb (strncmp _ _ _ 3)); [apply Next|].
    destruct (strncmp _ _ _ 3); [exact R|].
    destruct (p_char c3) as [[sp1|] c4]; [|exact R].
    destruct (negb _); [exact R|apply Next].
  - (* p_dict *)
    intros c h W. cbn [p_dict]. cbv zeta.
    pose proof (frame_CALLOC h W) as F1.
    pose proof (allocated_CALLOC h) as A1.
    destruct (CALLOC h) as [keys h1]. cbn [fst snd] in F1, A1.
    assert (W1 : well_formed h1) by apply F1.
    pose proof (frame_CALLOC h1 W1) as F2.
    pose proof (allocated_CALLOC h1) as A2.
    destruct (CALLOC h1) as [values h2]. cbn [fst snd] in F2, A2.
    assert (W2 : well_formed h2) by apply F2.
    pose proof (frame_CALLOC h2 W2) as F3.
    pose proof (allocated_CALLOC h2) as A3.
    destruct (CALLOC h2) as [dict h3]. cbn [fst snd] in F3, A3.
    assert (W3 : well_formed h3) by apply F3.
    pose proof (allocated_trans _ _ _ _ _ A1
                  (allocated_trans _ _ _ _ _ A2 A3)) as A.
    cbn [app] in A.
    assert (F : frame (next h) h h3) by exact (frame_allocated _ _ _ W A).
    assert (N3 : next h <= next h3) by apply F.
    assert (O3 : owned (next h) h3 [keys; values; dict]).
    { apply (owned_allocated (next h) h h3 [] _ W (Nat.le_refl _) A).
      split; [constructor|]. split; intros p []. }
    assert (Close : forall h4 entries,
              frame (next h) h h4 ->
              owned (next h) h4
                (flat_map (fun e => fst (fst e) :: blocks (snd e)) entries
                   ++ [keys; values; dict]) ->
              frame (next h) h (dict_free dict keys values entries h4)).
    { intros h4 entries F4 O4. eapply frame_trans; [exact F4|].
      rewrite dict_free_blocks.
      apply frame_free_all; [apply F4|exact O4]. }
    destruct (p_chars c 4) as [[sp|] c0]; [|apply Close; assumption].
    destruct (strncmp _ _ _ 4); [apply Close; assumption|].
    pose proof (IHdl c0 h3 dict keys values [] (next h) W3 N3 O3) as Fl.
    destruct (p_dict_loop input fuel c0 h3 dict keys values [])
      as [[[entries| | |] c2] h4] eqn:Lp; cbn [snd] in Fl;
      try (eapply frame_trans; [exact F|exact Fl]).
    apply (proj2 (proj2 (proj2 (proj2 (structural_allocated input fuel)))))
      in Lp.
    destruct Lp as (new & -> & Al). cbn [app].
    assert (F4 : frame (next h) h h4)
      by (eapply frame_trans; [exact F|exact Fl]).
    assert (O4 : owned (next h) h4
                   (flat_map (fun e => fst (fst e) :: blocks (snd e)) new
                      ++ [keys; values; dict])).
    { eapply owned_perm; [|exact (owned_allocated _ _ _ _ _ W3 N3 Al O3)].
      apply Permutation_app_comm. }
    destruct (p_chars c2 3) as [[sp3|] c3]; [|apply Close; assumption].
    destruct (strncmp _ _ _ 3); [apply Close; assumption|exact F4].
  - (* p_dict_loop *)
    intros c h dict keys values entries n W N O. cbn [p_dict_loop]. cbv zeta.
    assert (Bury : forall h1,
              frame (next h) h h1 ->
              frame n h (dict_free dict keys values entries h1)).
    { intros h1 F1.
      eapply frame_trans; [eapply frame_weaken; [exact N|exact F1]|].
      rewrite dict_free_blocks.
      apply frame_free_all; [apply F1|].
      exact (owned_frame _ _ _ _ W F1 O). }
    pose proof (p_string_frame (maybe_p_whitespace input c) h W) as Fs.
    destruct (p_string input _ h) as [[[[k kbytes]| | |] c1] h1] eqn:Ps;
      cbn [snd] in Fs |- *;
      try (eapply frame_weaken; [exact N|exact Fs]);
      [|apply Bury; exact Fs].
    apply p_string_allocated in Ps.
    assert (W1 : well_formed h1) by apply Fs.
    destruct (p_chars _ 2) as [[sp|] c3]; [|apply Bury; exact Fs].
    destruct (strncmp _ _ _ 2); [apply Bury; exact Fs|].
    pose proof (IHv (maybe_p_whitespace input c3) h1 W1) as Fv.
    assert (F5 : forall h5,
              frame (next h1) h1 h5 -> frame (next h) h h5).
    { intros h5 F. eapply frame_trans; [exact Fs|].
      eapply frame_weaken; [|exact F]. apply Fs. }
    destruct (p_value input fuel _ h1) as [[[v| | |] c5] h5] eqn:Pv;
      cbn [snd] in Fv |- *;
      try (eapply frame_weaken; [exact N|apply F5; exact Fv]);
      [|apply Bury; apply F5; exact Fv].
    apply (proj1 (structural_allocated input fuel)) in Pv.
    pose proof (allocated_trans _ _ _ _ _ Ps Pv) as A. cbn [app] in A.
    assert (F : frame n h h5).
    { eapply frame_weaken; [exact N|]. apply F5. exact Fv. }
    destruct (is_separator _); [|exact F].
    eapply frame_trans; [exact F|].
    apply IHdl; [apply Fv|destruct F; lia|].
    eapply owned_perm; [|exact (owned_allocated _ _ _ _ _ W N A O)].
    rewrite flat_map_app. cbn [flat_map fst snd]. rewrite app_nil_r.
    rewrite <- !app_assoc. apply Permutation_app_head.
    apply Permutation_app_comm.
Qed.

End Frame.

(** X9: whatever the input and however the parse ends, [dson_parse] hands
    to [free] only blocks that are live (no block is released twice and no
    foreign pointer is released: the allocator records no invalid free),
    and every block that was live before the call is live after it. On an
    error exit the blocks released are the call's own. *)
Theorem parse_releases_only_its_own :
  forall (input : list ascii) (length : nat) (unsafe : bool) (h : heap),
    well_formed h ->
    let h' := snd (dson_parse input length unsafe h) in
    invalid_frees h' = invalid_frees h /\
    (forall p, In p (live h) -> In p (live h')) /\
    (forall p, In p (live h') -> In p (live h) \/ next h <= p < next h').
Proof.
  intros input length unsafe h W h'. subst h'.
  assert (F : frame (next h) h (snd (dson_parse input length unsafe h))).
  { unfold dson_parse. destruct (negb _); [apply frame_refl; exact W|].
    pose proof (proj1 (structural_frame input (2 * length + 2))
                  (mkContext 0 length 0 unsafe) h W) as F.
    destruct (p_value input _ _ h) as [[[v| | |] c'] h']; exact F. }
  destruct F as (N & I & W' & K).
  split; [exact I|]. split.
  - intros p Hp. apply K; [apply W|]; exact Hp.
  - intros p Hp. destruct (Nat.lt_ge_cases p (next h)) as [L|L].
    + left. apply K; assumption.
    + right. split; [exact L|apply W'; exact Hp].
Qed.

(** An array whose second element is no value, parsed in a heap that holds
    two blocks of the caller and one earlier invalid free: the element 7
    and the array are released, and nothing else. *)
Lemma parse_releases_only_its_own_witness :
  let h := mkHeap [3; 1] 5 [2] in
  let h' := snd (dson_parse (str "so 7 and x many") 15 false h) in
  well_formed h /\
  invalid_frees h' = invalid_frees h /\
  (forall p, In p (live h) -> In p (live h')) /\
  (forall p, In p (live h') -> In p (live h) \/ next h <= p < next h').
Proof.
  assert (W : well_formed (mkHeap [3; 1] 5 [2])).
  { intros p [<-|[<-|[]]]; cbn [next]; lia. }
  split; [exact W|].
  exact (parse_releases_only_its_own (str "so 7 and x many") 15 false
           (mkHeap [3; 1] 5 [2]) W).
Defined.

(** ** A parse and the release of its value *)

(** X10: the value a successful [dson_parse] returns owns exactly the
    blocks the call has allocated: they are distinct, the live blocks
    after the call are those and the ones live before, and [dson_free] on
    the value clears the handle and gives back a heap with the live blocks
    it had before the parse, with no invalid free on the way. *)
Theorem parse_then_dson_free :
  forall (input : list ascii) (length : nat) (unsafe : bool) (h h' : heap)
         (v : dson_value),
    well_formed h ->
    dson_parse input length unsafe h = (Ok tt, Some v, h') ->
    NoDup (blocks v) /\
    (forall p, In p (live h') <-> In p (blocks v) \/ In p (live h)) /\
    fst (dson_free (Some (Some v)) h') = Ok (Some None) /\
    invalid_frees (snd (dson_free (Some (Some v)) h')) = invalid_frees h /\
    (forall p, In p (live (snd (dson_free (Some (Some v)) h')))
               <-> In p (live h)).
Proof.
  intros input length unsafe h h' v W H. unfold dson_parse in H.
  destruct (negb _); [discriminate|].
  destruct (p_value input _ _ h) as [[[r| | |] c'] h1] eqn:P;
    try discriminate.
  injection H as <- <-.
  apply (proj1 (structural_allocated input _)) in P.
  destruct (allocated_owned _ _ _ P) as (N & I & Fr & Li).
  destruct P as (_ & Inv & _ & _).
  split; [exact N|]. split; [exact Li|].
  cbn [dson_free fst snd]. rewrite free_value_blocks.
  destruct (free_all_live _ h1 N I) as (F1 & _ & F3).
  split; [reflexivity|]. split; [congruence|].
  intros p. rewrite F3, Li. split.
  - intros [[B|L] Nb]; [contradiction|exact L].
  - intros L. split; [right; exact L|].
    intros B. apply Fr in B. apply W in L. lia.
Qed.

(** A dictionary with an array in it, parsed and released in a heap that
    holds a block of the caller. *)
Lemma parse_then_dson_free_witness :
  let h := mkHeap [1] 2 [] in
  let input := str "such " ++ dquote :: str "k" ++ dquote
                 :: str " is so 7 and yes many wow" in
  let v := DSON_DICT 2 5 3 4
             [(6, str "k",
               DSON_ARRAY 7 8 [DSON_DOUBLE 9 7%float; DSON_BOOL 10 true])] in
  let h' := mkHeap [10; 9; 8; 7; 6; 5; 4; 3; 2; 1] 11 [] in
  (well_formed h /\ dson_parse input 33 false h = (Ok tt, Some v, h')) /\
  NoDup (blocks v) /\
  (forall p, In p (live h') <-> In p (blocks v) \/ In p (live h)) /\
  fst (dson_free (Some (Some v)) h') = Ok (Some None) /\
  invalid_frees (snd (dson_free (Some (Some v)) h')) = invalid_frees h /\
  (forall p, In p (live (snd (dson_free (Some (Some v)) h')))
             <-> In p (live h)).
Proof.
  intros h input v h'.
  assert (W : well_formed h).
  { intros p [<-|[]]; cbn [next h]; lia. }
  assert (P : dson_parse input 33 false h = (Ok tt, Some v, h'))
    by (vm_compute; reflexivity).
  split; [split; [exact W|exact P]|].
  exact (parse_then_dson_free input 33 false h h' v W P).
Defined.

(** ** Lookup of a key the dictionary holds *)

Lemma strcoll_same key : strcoll key key = false.
Proof.
  unfold strcoll.
  destruct (list_eq_dec ascii_dec (c_string key) (c_string key));
    [reflexivity|contradiction].
Qed.

(** X11: a key that [dson_dict_keys] lists is found by [dson_dict_get]:
    the lookup returns the value of an entry of the dictionary whose key
    compares equal to it, and not the local it leaves unassigned when
    nothing matches. *)
Theorem dson_dict_get_listed_key :
  forall (entries : list (ptr * list ascii * dson_value)) (key : list ascii),
    In key (dson_dict_keys entries) ->
    exists e,
      In e entries /\ matches key e = true /\
      dson_dict_get (Some entries) key = Holds (Some (snd e)).
Proof.
  intros entries key I. rewrite dson_dict_get_last.
  destruct (find (matches key) (rev entries)) as [e|] eqn:F.
  - apply find_some in F. destruct F as [In' M].
    exists e. split; [apply in_rev; exact In'|]. split; [exact M|reflexivity].
  - exfalso. unfold dson_dict_keys in I. apply in_map_iff in I.
    destruct I as (e & <- & Ie).
    pose proof (find_none _ _ F e (proj1 (in_rev _ _) Ie)) as M.
    unfold matches in M. rewrite strcoll_same in M. discriminate.
Qed.

(** The second of three keys. *)
Lemma dson_dict_get_listed_key_witness :
  let entries := [(4, str "a", DSON_DOUBLE 5 1%float);
                  (6, str "b", DSON_BOOL 7 true);
                  (8, str "c", DSON_NONE 9)] in
  In (str "b") (dson_dict_keys entries) /\
  exists e,
    In e entries /\ matches (str "b") e = true /\
    dson_dict_get (Some entries) (str "b") = Holds (Some (snd e)).
Proof.
  intros entries.
  assert (I : In (str "b") (dson_dict_keys entries))
    by (right; left; reflexivity).
  split; [exact I|].
  exact (dson_dict_get_listed_key entries (str "b") I).
Defined.

(** ** What [cdson.c] leaves allocated *)

Lemma cdson_free_value_records v :
  forall h, Cdson.free_value v h = free_all (records v) h.
Proof.
  induction v using dson_value_nested_ind; intros h; try reflexivity.
  - (* array *)
    cbn [Cdson.free_value records]. rewrite free_all_app.
    cbn [free_all fold_left]. f_equal. revert h.
    induction H as [|x l Hx Hl IH]; intros h; [reflexivity|].
    cbn [flat_map]. rewrite free_all_app, <- Hx. apply IH.
  - (* dictionary *)
    cbn [Cdson.free_value records]. rewrite free_all_app.
    cbn [free_all fold_left]. do 2 f_equal. revert h.
    induction H as [|[[k b] x] l Hx Hl IH]; intros h; [reflexivity|].
    cbn [flat_map fst snd]. rewrite free_all_app.
    change (free_all (k :: records x) h)
      with (free_all (records x) (free k h)).
    cbn [snd] in Hx. rewrite <- Hx. apply IH.
Qed.

Lemma Permutation_flat_map_split A (f g k : A -> list ptr) l :
  Forall (fun x => Permutation (f x) (g x ++ k x)) l ->
  Permutation (flat_map f l) (flat_map g l ++ flat_map k l).
Proof.
  induction 1 as [|x l Hx Hl IH]; [constructor|].
  cbn [flat_map].
  eapply Permutation_trans; [apply Permutation_app; [exact Hx|exact IH]|].
  rewrite <- !app_assoc. apply Permutation_app_head.
  rewrite !app_assoc. apply Permutation_app_tail.
  apply Permutation_app_comm.
Qed.

(** The blocks of a value are its records and its vectors. *)
Lemma blocks_records_vectors v :
  Permutation (blocks v) (records v ++ vectors v).
Proof.
  induction v using dson_value_nested_ind;
    try (cbn [blocks records vectors]; rewrite app_nil_r;
         apply Permutation_refl).
  - (* array *)
    cbn [blocks records vectors].
    pose proof (Permutation_flat_map_split _ blocks records vectors elts H)
      as P.
    eapply Permutation_trans; [apply Permutation_app_tail; exact P|].
    rewrite <- !app_assoc. apply Permutation_app_head.
    change [array; self] with ([array] ++ [self]).
    rewrite (app_assoc (flat_map vectors elts)).
    apply (Permutation_app_comm _ [self]).
  - (* dictionary *)
    cbn [blocks records vectors].
    assert (P : Permutation
                  (flat_map (fun e => fst (fst e) :: blocks (snd e)) entries)
                  (flat_map (fun e => fst (fst e) :: records (snd e)) entries
                     ++ flat_map (fun e => vectors (snd e)) entries)).
    { apply (Permutation_flat_map_split _
               (fun e => fst (fst e) :: blocks (snd e))
               (fun e => fst (fst e) :: records (snd e))
               (fun e => vectors (snd e))).
      eapply Forall_impl; [|exact H].
      intros e He. cbn [app]. apply perm_skip. exact He. }
    eapply Permutation_trans; [apply Permutation_app_tail; exact P|].
    rewrite <- !app_assoc. apply Permutation_app_head.
    change [keys; values; dict; self] with ([keys; values] ++ [dict; self]).
    rewrite (app_assoc (flat_map (fun e => vectors (snd e)) entries)).
    apply (Permutation_app_comm _ [dict; self]).
Qed.

Lemma NoDup_app_disjoint (a b : list ptr) p :
  NoDup (a ++ b) -> In p a -> In p b -> False.
Proof.
  induction a as [|x a IH]; intros N Ha Hb; [destruct Ha|].
  cbn [app] in N. inversion N as [|? ? Nx Na]; subst.
  destruct Ha as [->|Ha].
  - apply Nx. apply in_or_app. right. exact Hb.
  - exact (IH Na Ha Hb).
Qed.

(** X12: the [dson_free] of [cdson.c], on a value tree whose blocks are
    distinct and live, releases the values, the buffers of strings and
    keys and the [dson_dict] of each dictionary, with no invalid free, and
    leaves allocated the vector of every array and the two vectors of
    every dictionary of the tree: these blocks, which the [dson_free] of
    [sniff.c] releases, are leaked. *)
Theorem cdson_free_keeps_vectors :
  forall (v : dson_value) (h : heap),
    NoDup (blocks v) -> incl (blocks v) (live h) ->
    let h' := snd (Cdson.dson_free (Some (Some v)) h) in
    fst (Cdson.dson_free (Some (Some v)) h) = Ok (Some None) /\
    invalid_frees h' = invalid_frees h /\
    (forall p, In p (live h') <->
               In p (live h) /\ (~ In p (blocks v) \/ In p (vectors v))) /\
    incl (vectors v) (live h') /\
    (forall p, In p (live (snd (dson_free (Some (Some v)) h))) <->
               In p (live h') /\ ~ In p (vectors v)).
Proof.
  intros v h N I h'. subst h'. cbn [Cdson.dson_free dson_free fst snd].
  rewrite cdson_free_value_records, free_value_blocks.
  pose proof (blocks_records_vectors v) as P.
  assert (E : forall p, In p (blocks v) <-> In p (records v) \/ In p (vectors v)).
  { intros p. rewrite <- in_app_iff. split; apply Permutation_in;
      [exact P|apply Permutation_sym; exact P]. }
  pose proof (Permutation_NoDup P N) as N'.
  assert (D : forall p, In p (records v) -> In p (vectors v) -> False).
  { intros p. apply NoDup_app_disjoint. exact N'. }
  assert (Nr : NoDup (records v)) by (apply NoDup_app_remove_r in N'; exact N').
  assert (Ir : incl (records v) (live h)).
  { intros p Hp. apply I, E. left. exact Hp. }
  destruct (free_all_live _ h Nr Ir) as (F1 & _ & F3).
  destruct (free_all_live _ h N I) as (_ & _ & G3).
  split; [reflexivity|]. split; [exact F1|].
  assert (L : forall p, In p (live (free_all (records v) h)) <->
                In p (live h) /\ (~ In p (blocks v) \/ In p (vectors v))).
  { intros p. rewrite F3, E. split.
    - intros [Lp Np]. split; [exact Lp|].
      destruct (in_dec Nat.eq_dec p (vectors v)) as [Y|Y]; [right; exact Y|].
      left. intros [A|A]; contradiction.
    - intros [Lp [Np|Y]]; (split; [exact Lp|]).
      + intros R. apply Np. left. exact R.
      + intros R. exact (D p R Y). }
  split; [exact L|]. split.
  - intros p Hp. apply L. split; [|right; exact Hp].
    apply I, E. right. exact Hp.
  - intros p. rewrite G3, L. specialize (E p). specialize (D p). tauto.
Qed.

(** An array of a string and a dictionary: of its ten blocks the older
    [dson_free] leaves three, the vector of the array and the two vectors
    of the dictionary. *)
Lemma cdson_free_keeps_vectors_witness :
  let v := DSON_ARRAY 0 1
             [DSON_STRING 2 3 (str "a");
              DSON_DICT 4 7 5 6 [(8, str "k", DSON_NONE 9)]] in
  let h := mkHeap [9; 8; 7; 6; 5; 4; 3; 2; 1; 0] 10 [] in
  let h' := snd (Cdson.dson_free (Some (Some v)) h) in
  (NoDup (blocks v) /\ incl (blocks v) (live h)) /\
  vectors v = [5; 6; 1] /\
  fst (Cdson.dson_free (Some (Some v)) h) = Ok (Some None) /\
  invalid_frees h' = invalid_frees h /\
  (forall p, In p (live h') <->
             In p (live h) /\ (~ In p (blocks v) \/ In p (vectors v))) /\
  incl (vectors v) (live h') /\
  (forall p, In p (live (snd (dson_free (Some (Some v)) h))) <->
             In p (live h') /\ ~ In p (vectors v)).
Proof.
  intros v h h'.
  assert (N : NoDup (blocks v)).
  { cbn.
    repeat (apply NoDup_cons;
            [cbn; intros H;
             repeat (destruct H as [H|H]; [discriminate H|]); exact H|]).
    apply NoDup_nil. }
  assert (I : incl (blocks v) (live h)).
  { intros p Hp. cbn in Hp |- *.
    repeat (destruct Hp as [Hp|Hp]; [subst p; tauto|]). destruct Hp. }
  split; [split; [exact N|exact I]|]. split; [reflexivity|].
  exact (cdson_free_keeps_vectors v h N I).
Defined.

(** ** Dictionaries have an entry *)

Section Populated.

Variable input : list ascii.

Lemma forallb_snoc A (f : A -> bool) l x :
  forallb f (l ++ [x]) = forallb f l && f x.
Proof. rewrite forallb_app. cbn [forallb]. rewrite andb_true_r. reflexivity. Qed.

(** The loop of [p_dict] reads a key and a value before it looks for the
    closing keyword. *)
Lemma structural_populated : forall fuel,
  (forall c h v c' h',
     p_value input fuel c h = (Ok v, c', h') -> populated v = true) /\
  (forall c h array elts c' h',
     p_array input fuel c h = (Ok (array, elts), c', h') ->
     forallb populated elts = true) /\
  (forall c h array elts elts' c' h',
     p_array_loop input fuel c h array elts = (Ok elts', c', h') ->
     forallb populated elts = true -> forallb populated elts' = true) /\
  (forall c h dict keys values entries c' h',
     p_dict input fuel c h = (Ok (dict, keys, values, entries), c', h') ->
     entries <> [] /\
     forallb (fun e => populated (snd e)) entries = true) /\
  (forall c h dict keys values entries entries' c' h',
     p_dict_loop input fuel c h dict keys values entries
       = (Ok entries', c', h') ->
     forallb (fun e => populated (snd e)) entries = true ->
     entries' <> [] /\
     forallb (fun e => populated (snd e)) entries' = true).
Proof.
  induction fuel as [|fuel (IHv & IHa & IHal & IHd & IHdl)].
  { repeat split; intros; discriminate. }
  split; [|split; [|split; [|split]]].
  - (* p_value *)
    intros c h v c' h' H. cbn [p_value] in H. cbv zeta in H.
    destruct (CALLOC h) as [ret h0].
    destruct (Ascii.eqb (peek input c) dquote).
    { apply p_value_return_ok in H. destruct H as ([sp bytes] & _ & ->).
      reflexivity. }
    destruct (_ || _).
    { destruct (p_double input c) as [r c1].
      apply p_value_return_ok in H. destruct H as (n & _ & ->).
      reflexivity. }
    destruct (_ || _).
    { destruct (p_bool input c) as [r c1].
      apply p_value_return_ok in H. destruct H as (n & _ & ->).
      reflexivity. }
    destruct (Ascii.eqb _ "e").
    { destruct (p_empty input c) as [r c1].
      apply p_value_return_ok in H. destruct H as (n & _ & ->).
      reflexivity. }
    destruct (Ascii.eqb _ "s"); [|discriminate].
    destruct (Ascii.eqb _ "o").
    { apply p_value_return_ok in H. destruct H as ([array elts] & H & ->).
      apply IHa in H. exact H. }
    destruct (Ascii.eqb _ "u"); [|discriminate].
    apply p_value_return_ok in H.
    destruct H as ([[[dict keys] values] entries] & H & ->).
    apply IHd in H. destruct H as [Ne F]. cbn [populated]. rewrite F.
    destruct entries; [contradiction|reflexivity].
  - (* p_array *)
    intros c h array elts c' h' H. cbn [p_array] in H. cbv zeta in H.
    destruct (CALLOC h) as [array0 h0].
    destruct (p_chars c 2) as [[sp|] c0]; [|discriminate].
    destruct (strncmp _ _ _ 2); [discriminate|].
    destruct (negb _).
    + destruct (p_array_loop input fuel _ h0 array0 [])
        as [[[elts0| | |] c2] h2] eqn:Lp; try discriminate.
      apply IHal in Lp; [|reflexivity].
      destruct (p_chars c2 4) as [[sp4|] c3]; [|discriminate].
      destruct (strncmp _ _ _ 4); [discriminate|].
      injection H as _ <- _ _. exact Lp.
    + destruct (p_chars _ 4) as [[sp4|] c3]; [|discriminate].
      destruct (strncmp _ _ _ 4); [discriminate|].
      injection H as _ <- _ _. reflexivity.
  - (* p_array_loop *)
    intros c h array elts elts' c' h' H F. cbn [p_array_loop] in H.
    destruct (p_value input fuel c h) as [[[v| | |] c1] h1] eqn:Pv;
      try discriminate.
    apply IHv in Pv. cbv zeta in H.
    assert (F1 : forallb populated (elts ++ [v]) = true)
      by (rewrite forallb_snoc, F, Pv; reflexivity).
    destruct (negb (Ascii.eqb _ "a")).
    { injection H as <- _ _. exact F1. }
    destruct (p_chars _ 3) as [[sp|] c3]; [|discriminate].
    destruct (negb (strncmp _ _ _ 3)); [exact (IHal _ _ _ _ _ _ _ H F1)|].
    destruct (strncmp _ _ _ 3); [discriminate|].
    destruct (p_char c3) as [[sp1|] c4]; [|discriminate].
    destruct (negb _); [discriminate|]. exact (IHal _ _ _ _ _ _ _ H F1).
  - (* p_dict *)
    intros c h dict keys values entries c' h' H. cbn [p_dict] in H.
    cbv zeta in H.
    destruct (CALLOC h) as [keys0 h1]. destruct (CALLOC h1) as [values0 h2].
    destruct (CALLOC h2) as [dict0 h3].
    destruct (p_chars c 4) as [[sp|] c0]; [|discriminate].
    destruct (strncmp _ _ _ 4); [discriminate|].
    destruct (p_dict_loop input fuel c0 h3 dict0 keys0 values0 [])
      as [[[entries0| | |] c2] h4] eqn:Lp; try discriminate.
    apply IHdl in Lp; [|reflexivity].
    destruct (p_chars c2 3) as [[sp3|] c3]; [|discriminate].
    destruct (strncmp _ _ _ 3); [discriminate|].
    injection H as _ _ _ <- _ _. exact Lp.
  - (* p_dict_loop *)
    intros c h dict keys values entries entries' c' h' H F.
    cbn [p_dict_loop] in H. cbv zeta in H.
    destruct (p_string input _ h) as [[[[k kbytes]| | |] c1] h1];
      try discriminate.
    destruct (p_chars _ 2) as [[sp|] c3]; [|discriminate].
    destruct (strncmp _ _ _ 2); [discriminate|].
    destruct (p_value input fuel _ h1) as [[[v| | |] c5] h5] eqn:Pv;
      try discriminate.
    apply IHv in Pv.
    assert (F1 : forallb (fun e => populated (snd e))
                   (entries ++ [(k, kbytes, v)]) = true)
      by (rewrite forallb_snoc, F; cbn [snd]; rewrite Pv; reflexivity).
    destruct (is_separator _).
    + exact (IHdl _ _ _ _ _ _ _ _ _ H F1).
    + injection H as <- _ _. split; [|exact F1].
      destruct entries; discriminate.
Qed.

End Populated.

(** X13: a dictionary that [dson_parse] returns, at any depth of the
    value, has at least one entry: [p_dict] reads a key and a value before
    it looks for the closing keyword, so the text of a dictionary with
    nothing between its keywords is refused. An array may be empty. *)
Theorem parsed_dictionaries_have_entries :
  forall (input : list ascii) (length : nat) (unsafe : bool) (h h' : heap)
         (v : dson_value),
    dson_parse input length unsafe h = (Ok tt, Some v, h') ->
    populated v = true.
Proof.
  intros input length unsafe h h' v H. unfold dson_parse in H.
  destruct (negb _); [discriminate|].
  destruct (p_value input _ _ h) as [[[r| | |] c'] h1] eqn:P;
    try discriminate.
  injection H as <- <-.
  exact (proj1 (structural_populated input _) _ _ _ _ _ P).
Qed.

(** An empty array in a dictionary in an array. *)
Lemma parsed_dictionaries_have_entries_witness :
  populated
    (DSON_ARRAY 0 1
       [DSON_DICT 2 5 3 4 [(6, str "k", DSON_ARRAY 7 8 [])]]) = true.
Proof.
  apply (parsed_dictionaries_have_entries
           (str "so such " ++ dquote :: str "k" ++ dquote
              :: str " is so many wow many") 31 false empty_heap
           (mkHeap [8; 7; 6; 5; 4; 3; 2; 1; 0] 9 [])).
  vm_compute. reflexivity.
Defined.

(** * The parser of [cdson.c] *)

(** ** How its calls end *)

Lemma ends_bind A B (Over : Prop) (m : Cdson.outcome A)
    (k : A -> Cdson.outcome B) (Q' : A -> Prop) (Q : B -> Prop) :
  ends Over m Q' -> (forall a, Q' a -> ends Over (k a) Q) ->
  ends Over (Cdson.bind m k) Q.
Proof.
  intros M K. destruct m as [a| | |]; cbn [Cdson.bind ends] in *; auto.
Qed.

Lemma ends_impl A (Over : Prop) (m : Cdson.outcome A)
    (Q' Q : A -> Prop) :
  ends Over m Q' -> (forall a, Q' a -> Q a) -> ends Over m Q.
Proof. intros M K. destruct m; cbn [ends] in *; auto. Qed.

Lemma follows_refl c : Cdson.s c <= Cdson.s_end c -> follows c c.
Proof. intros L. unfold follows. auto. Qed.

Lemma follows_trans c1 c2 c3 : follows c1 c2 -> follows c2 c3 -> follows c1 c3.
Proof.
  unfold follows. intros (A & B & C & D) (A' & B' & C' & D').
  repeat split; try lia; congruence.
Qed.

(** The functions that store nothing end without a fault: [Over] is any
    proposition. *)
Section Cdson_ends.

Variable input : list ascii.
Variable Over : Prop.

Lemma cdson_p_chars_ends c n :
  ends Over (Cdson.p_chars c n)
    (fun r => fst r = Cdson.s c /\ snd r = Cdson.advance c n /\
              Cdson.s c + n <= Cdson.s_end c).
Proof.
  unfold Cdson.p_chars.
  destruct (Nat.ltb_spec (Cdson.s_end c) (Cdson.s c + n)); cbn; auto.
Qed.

Lemma cdson_p_chars_follows c n :
  ends Over (Cdson.p_chars c n)
    (fun r => follows c (snd r) /\ Cdson.s (snd r) = Cdson.s c + n).
Proof.
  eapply ends_impl; [apply cdson_p_chars_ends|].
  intros [sp c1] (_ & -> & L). cbn [fst snd]. unfold follows.
  cbn [Cdson.advance Cdson.s Cdson.s_end Cdson.beginning]. lia.
Qed.

Lemma cdson_whitespace_loop_ends : forall fuel c,
  Cdson.s c <= Cdson.s_end c ->
  Cdson.s_end c - Cdson.s c < fuel ->
  ends Over (Cdson.whitespace_loop input fuel c) (follows c).
Proof.
  induction fuel as [|fuel IH]; intros c L F; [lia|].
  cbn [Cdson.whitespace_loop]. cbv zeta.
  destruct (_ || _); [exact (follows_refl c L)|].
  eapply ends_bind; [apply (cdson_p_chars_follows c 1)|].
  intros [sp c1] [Fo S1]. cbn [fst snd] in *.
  eapply ends_impl; [apply IH; destruct Fo as (? & ? & ? & ?); lia|].
  intros c2 F2. exact (follows_trans _ _ _ Fo F2).
Qed.

Lemma cdson_maybe_p_whitespace_ends c :
  Cdson.s c <= Cdson.s_end c ->
  ends Over (Cdson.maybe_p_whitespace input c) (follows c).
Proof.
  intros L. apply cdson_whitespace_loop_ends; [exact L|lia].
Qed.

Lemma cdson_p_empty_ends c :
  ends Over (Cdson.p_empty input c) (fun r => follows c (snd r)).
Proof.
  unfold Cdson.p_empty. cbv zeta.
  eapply ends_bind; [apply cdson_p_chars_follows|].
  intros [sp c1] [Fo _]. cbn [snd] in Fo.
  destruct (Cdson.memcmp _ _ _); cbn; auto.
Qed.

Lemma cdson_p_bool_ends c :
  ends Over (Cdson.p_bool input c) (fun r => follows c (snd r)).
Proof.
  unfold Cdson.p_bool.
  eapply ends_bind; [apply cdson_p_chars_follows|].
  intros [sp c1] [Fo _]. cbn [snd] in Fo.
  destruct (_ && _).
  - eapply ends_bind; [apply (cdson_p_chars_follows c1 1)|].
    intros [sp1 c2] [Fo2 _]. cbn [snd] in Fo2.
    destruct (negb _); cbn; auto. exact (follows_trans _ _ _ Fo Fo2).
  - destruct (_ && _); cbn; auto.
Qed.

Lemma cdson_octal_loop_ends : forall fuel n c,
  Cdson.s c <= Cdson.s_end c ->
  Cdson.s_end c - Cdson.s c < fuel ->
  ends Over (Cdson.octal_loop input fuel n c) (fun r => follows c (snd r)).
Proof.
  induction fuel as [|fuel IH]; intros n c L F; [lia|].
  cbn [Cdson.octal_loop]. cbv zeta.
  destruct (is_octal _); [|exact (follows_refl c L)].
  eapply ends_bind; [apply (cdson_p_chars_follows c 1)|].
  intros [sp c1] [Fo S1]. cbn [fst snd] in *.
  eapply ends_impl; [apply IH; destruct Fo as (? & ? & ? & ?); lia|].
  intros [n2 c2] F2. exact (follows_trans _ _ _ Fo F2).
Qed.

Lemma cdson_p_octal_ends c :
  Cdson.s c <= Cdson.s_end c ->
  ends Over (Cdson.p_octal input c) (fun r => follows c (snd r)).
Proof.
  intros L. apply cdson_octal_loop_ends; [exact L|lia].
Qed.

Lemma cdson_fraction_loop_ends : forall fuel n d c,
  Cdson.s c <= Cdson.s_end c ->
  Cdson.s_end c - Cdson.s c < fuel ->
  ends Over (Cdson.fraction_loop input fuel n d c) (fun r => follows c (snd r)).
Proof.
  induction fuel as [|fuel IH]; intros n d c L F; [lia|].
  cbn [Cdson.fraction_loop]. cbv zeta.
  destruct (is_octal _); [|exact (follows_refl c L)].
  eapply ends_bind; [apply (cdson_p_chars_follows c 1)|].
  intros [sp c1] [Fo S1]. cbn [fst snd] in *.
  eapply ends_impl; [apply IH; destruct Fo as (? & ? & ? & ?); lia|].
  intros [n2 c2] F2. exact (follows_trans _ _ _ Fo F2).
Qed.

(** A step that may take one byte. *)
Lemma cdson_skip_ends (b : bool) c :
  Cdson.s c <= Cdson.s_end c ->
  ends Over (if b
        then Cdson.bind (Cdson.p_char c) (fun '(_, c) => Cdson.Returns c)
        else Cdson.Returns c)
    (follows c).
Proof.
  intros L. destruct b; [|exact (follows_refl c L)].
  eapply ends_bind; [apply (cdson_p_chars_follows c 1)|].
  intros [sp c1] [Fo _]. exact Fo.
Qed.

Lemma cdson_p_double_ends c :
  Cdson.s c <= Cdson.s_end c ->
  ends Over (Cdson.p_double input c) (fun r => follows c (snd r)).
Proof.
  intros L. unfold Cdson.p_double. cbv zeta.
  eapply ends_bind; [apply (cdson_skip_ends _ c L)|].
  intros c1 F1.
  eapply ends_bind; [apply cdson_maybe_p_whitespace_ends, F1|].
  intros c2 F2. pose proof (follows_trans _ _ _ F1 F2) as F12.
  eapply ends_bind with (Q' := fun r => follows c (snd r)).
  { destruct (Ascii.eqb _ "0").
    - eapply ends_bind; [apply (cdson_p_chars_follows c2 1)|].
      intros [sp c3] [F3 _]. exact (follows_trans _ _ _ F12 F3).
    - eapply ends_impl; [apply cdson_p_octal_ends, F2|].
      intros [n c3] F3. exact (follows_trans _ _ _ F12 F3). }
  intros [n c3] F3. cbn [snd] in F3.
  eapply ends_bind; [apply cdson_maybe_p_whitespace_ends, F3|].
  intros c4 F4. pose proof (follows_trans _ _ _ F3 F4) as F34.
  eapply ends_bind with (Q' := fun r => follows c (snd r)).
  { destruct (Ascii.eqb _ "."); [|exact F34].
    eapply ends_bind; [apply (cdson_p_chars_follows c4 1)|].
    intros [sp c5] [F5 _]. cbn [snd] in F5.
    pose proof (follows_trans _ _ _ F34 F5) as F35.
    destruct (negb _); [exact I|].
    eapply ends_bind;
      [apply cdson_fraction_loop_ends; [apply F5|lia]|].
    intros [n6 c6] F6. cbn [snd] in F6.
    eapply ends_bind; [apply cdson_maybe_p_whitespace_ends, F6|].
    intros c7 F7.
    exact (follows_trans _ _ _ F35 (follows_trans _ _ _ F6 F7)). }
  intros [n5 c5] F5. cbn [snd] in F5.
  eapply ends_bind with (Q' := fun r => follows c (snd r)).
  { destruct (_ || _); [|exact F5].
    eapply ends_bind; [apply (cdson_p_chars_follows c5 4)|].
    intros [sp c6] [F6 _]. cbn [snd] in F6.
    pose proof (follows_trans _ _ _ F5 F6) as F56.
    destruct (strncasecmp _ _ _ _); [exact I|]. cbv zeta.
    eapply ends_bind with (Q' := follows c6).
    { destruct (Ascii.eqb _ "+");
        [apply (cdson_skip_ends true), F6|].
      destruct (Ascii.eqb _ "-");
        [apply (cdson_skip_ends true), F6|apply (cdson_skip_ends false), F6]. }
    intros c7 F7.
    eapply ends_bind; [apply cdson_maybe_p_whitespace_ends, F7|].
    intros c8 F8. destruct (negb _); [exact I|].
    eapply ends_bind; [apply cdson_p_octal_ends, F8|].
    intros [p c9] F9. cbn [snd] in F9.
    exact (follows_trans _ _ _ F56
             (follows_trans _ _ _ F7 (follows_trans _ _ _ F8 F9))). }
  intros [n6 c6] F6. exact F6.
Qed.

End Cdson_ends.

(** ** Strings in [cdson.c] *)

Section Cdson_strings.

Variable input : list ascii.

(** The first loop of [p_string] ends, and without a fault. *)
Lemma cdson_string_scan_ends : forall fuel c k,
  Cdson.s_end c - Cdson.s c < fuel ->
  ends False (Cdson.string_scan input fuel c k) (fun _ => True).
Proof.
  induction fuel as [|fuel IH]; intros c k L; [lia|].
  cbn [Cdson.string_scan].
  eapply ends_bind; [apply (cdson_p_chars_ends False c 1)|].
  intros [e c1] (_ & E1 & L1). cbn [fst snd] in *. subst c1.
  destruct (Ascii.eqb _ dquote); [exact I|].
  destruct (Ascii.eqb _ backslash).
  - eapply ends_bind; [apply (cdson_p_chars_ends False _ 1)|].
    intros [e2 c2] (_ & E2 & L2). cbn [fst snd] in *. subst c2.
    destruct (Ascii.eqb _ "u"); [exact I|].
    apply IH. cbn [Cdson.advance Cdson.s Cdson.s_end] in *. lia.
  - apply IH. cbn [Cdson.advance Cdson.s Cdson.s_end]. lia.
Qed.

(** What the first loop has counted when it finds the closing quote at
    [e]: [num_escapes] has gone up by [j], modulo the size of a [size_t],
    and the bytes it passed are [j] more than the stores the second loop
    has to make. *)
Lemma cdson_string_scan_count : forall fuel c k e n c',
  Cdson.string_scan input fuel c k = Cdson.Returns (e, n, c') ->
  Cdson.s c <= e /\ e < Cdson.s_end c /\
  c' = Cdson.advance c (e + 1 - Cdson.s c) /\
  exists j,
    (n mod 2 ^ 64 = (k + Z.of_nat j) mod 2 ^ 64)%Z /\
    forall f, e - Cdson.s c <= f ->
              j + tokens input f (Cdson.s c) e = e - Cdson.s c.
Proof.
  induction fuel as [|fuel IH]; intros c k e n c' H;
    cbn [Cdson.string_scan] in H; [discriminate|].
  unfold Cdson.p_char, Cdson.p_chars in H.
  destruct (Nat.ltb_spec (Cdson.s_end c) (Cdson.s c + 1)) as [|B1];
    [discriminate|].
  cbn [Cdson.bind] in H.
  destruct (Ascii.eqb (char_at input (Cdson.s c)) dquote) eqn:Q.
  { injection H as <- <- <-. split; [lia|]. split; [lia|].
    split; [f_equal; lia|]. exists 0. split.
    - f_equal. cbn. lia.
    - intros f _. destruct f; cbn [tokens];
        destruct (Nat.leb_spec (Cdson.s c) (Cdson.s c)); lia. }
  destruct (Ascii.eqb (char_at input (Cdson.s c)) backslash) eqn:Bs.
  2:{ apply IH in H. cbn [Cdson.advance Cdson.s Cdson.s_end] in H.
      destruct H as (L & E & -> & j & Hn & T).
      split; [lia|]. split; [lia|]. split.
      { unfold Cdson.advance. cbn [Cdson.s Cdson.s_end Cdson.beginning].
        f_equal. lia. }
      exists j. split; [exact Hn|]. intros f Lf.
      destruct f as [|f]; [lia|]. cbn [tokens].
      destruct (Nat.leb_spec e (Cdson.s c)); [lia|]. rewrite Bs.
      specialize (T f ltac:(lia)).
      replace (S (Cdson.s c)) with (Cdson.s c + 1) by lia. lia. }
  cbn [Cdson.advance Cdson.s Cdson.s_end Cdson.beginning] in H.
  destruct (Nat.ltb_spec (Cdson.s_end c) (Cdson.s c + 1 + 1)) as [|B2];
    [discriminate|].
  cbn [Cdson.bind] in H.
  destruct (Ascii.eqb (char_at input (Cdson.s c + 1)) "u") eqn:U;
    [discriminate|].
  apply IH in H. cbn [Cdson.advance Cdson.s Cdson.s_end Cdson.beginning] in H.
  destruct H as (L & E & -> & j & Hn & T).
  split; [lia|]. split; [lia|]. split.
  { unfold Cdson.advance. cbn [Cdson.s Cdson.s_end Cdson.beginning].
    f_equal. lia. }
  exists (S j). split.
  - rewrite Hn, Z.add_mod_idemp_l by lia. f_equal. lia.
  - intros f Lf. destruct f as [|f]; [lia|]. cbn [tokens].
    destruct (Nat.leb_spec e (Cdson.s c)); [lia|]. rewrite Bs.
    replace (S (Cdson.s c)) with (Cdson.s c + 1) by lia. rewrite U.
    specialize (T f ltac:(lia)).
    replace (S (Cdson.s c + 1)) with (Cdson.s c + 1 + 1) by lia. lia.
Qed.

(** The stores of the second loop: when it returns it has made one for
    each token, and a store that goes past the end of the buffer is one of
    them. *)
Lemma cdson_string_decode_count : forall fuel c p e len out,
  match Cdson.string_decode input fuel c p e len out with
  | Cdson.Returns bytes =>
      List.length bytes = List.length out + tokens input fuel p e
  | Cdson.Exits _ _ => True
  | Cdson.Faults _ =>
      (len < Z.of_nat (List.length out + tokens input fuel p e))%Z
  | Cdson.NoFuel => fuel < e - p
  end.
Proof.
  induction fuel as [|fuel IH]; intros c p e len out;
    cbn [Cdson.string_decode tokens];
    destruct (Nat.leb_spec e p); try lia.
  assert (Put : forall x q,
            S p <= q ->
            match
              Cdson.bind (Cdson.store len out [x])
                (fun out' => Cdson.string_decode input fuel c q e len out')
            with
            | Cdson.Returns bytes =>
                List.length bytes
                = List.length out + S (tokens input fuel q e)
            | Cdson.Exits _ _ => True
            | Cdson.Faults _ =>
                (len < Z.of_nat (List.length out
                                 + S (tokens input fuel q e)))%Z
            | Cdson.NoFuel => S fuel < e - p
            end).
  { intros x q Lq. unfold Cdson.store. cbn [List.length].
    destruct (Z.leb_spec (Z.of_nat (List.length out + 1)) len);
      cbn [Cdson.bind]; [|lia].
    specialize (IH c q e len (out ++ [x])).
    rewrite length_app in IH. cbn [List.length] in IH.
    destruct (Cdson.string_decode input fuel c q e len (out ++ [x]));
      try lia; exact I. }
  destruct (Ascii.eqb (char_at input p) backslash) eqn:Bs; cbn [negb].
  2:{ exact (Put (char_at input p) (S p) (Nat.le_refl _)). }
  cbv zeta.
  destruct (Ascii.eqb (char_at input (S p)) "u") eqn:U.
  { apply Ascii.eqb_eq in U. rewrite U. cbn. exact I. }
  repeat match goal with
         | |- context [if ?b then _ else _] => destruct b
         end; try exact I; apply Put; lia.
Qed.

Variable slot : Cdson.context -> Z.
Variable grants : Cdson.context -> Z -> bool.

(** [p_string] by the content of the slot: with [t] the stores the string
    needs before its terminator, the buffer is asked for [t + 1] bytes
    less the content of the slot, modulo the size of a [size_t]; the call
    returns when that is enough, and otherwise a store goes past the end
    of the buffer. *)
Lemma cdson_p_string_count c h :
  match Cdson.p_string input slot grants c h with
  | Cdson.Returns (out, bytes, len, c', h') =>
      follows c c' /\ Cdson.s c < Cdson.s c' /\
      exists t,
        len = ((Z.of_nat t + 1 - slot c mod 2 ^ 64) mod 2 ^ 64)%Z /\
        List.length bytes = t /\ (Z.of_nat t + 1 <= len)%Z
  | Cdson.Exits _ _ => True
  | Cdson.Faults _ =>
      exists t,
        t < Cdson.s_end c /\
        ((Z.of_nat t + 1 - slot c mod 2 ^ 64) mod 2 ^ 64
         < Z.of_nat t + 1)%Z
  | Cdson.NoFuel => False
  end.
Proof.
  unfold Cdson.p_string. cbv zeta.
  unfold Cdson.p_char at 1. unfold Cdson.p_chars.
  destruct (Nat.ltb_spec (Cdson.s_end c) (Cdson.s c + 1)) as [|B1];
    [exact I|].
  cbn [Cdson.bind]. destruct (negb _); [exact I|].
  cbn [Cdson.advance Cdson.s Cdson.s_end Cdson.beginning].
  pose proof (cdson_string_scan_ends
                (S (Cdson.s_end c - (Cdson.s c + 1)))
                (Cdson.advance c 1) (slot c mod 2 ^ 64)) as En.
  cbn [Cdson.advance Cdson.s Cdson.s_end Cdson.beginning] in En.
  specialize (En ltac:(lia)).
  change (Cdson.mkContext (Cdson.s c + 1) (Cdson.s_end c)
            (Cdson.beginning c)) with (Cdson.advance c 1) in *.
  destruct (Cdson.string_scan input _ (Cdson.advance c 1) _)
    as [[[e n] c2]| | |] eqn:Sc; cbn [Cdson.bind ends] in *;
    try exact I; try contradiction.
  apply cdson_string_scan_count in Sc.
  cbn [Cdson.advance Cdson.s Cdson.s_end Cdson.beginning] in Sc.
  destruct Sc as (L & E & -> & j & Hn & T).
  set (t := tokens input (e - S (Cdson.s c)) (S (Cdson.s c)) e).
  assert (Tt : j + t = e - (Cdson.s c + 1)).
  { unfold t. specialize (T (e - S (Cdson.s c)) ltac:(lia)).
    replace (Cdson.s c + 1) with (S (Cdson.s c)) in T by lia.
    replace (Cdson.s c + 1) with (S (Cdson.s c)) by lia. exact T. }
  assert (Len : ((Z.of_nat e - Z.of_nat (S (Cdson.s c)) - n + 1)
                   mod 2 ^ 64
                 = (Z.of_nat t + 1 - slot c mod 2 ^ 64) mod 2 ^ 64)%Z).
  { replace (Z.of_nat e - Z.of_nat (S (Cdson.s c)) - n + 1)%Z
      with (Z.of_nat j + Z.of_nat t + 1 - n)%Z by lia.
    rewrite <- Zminus_mod_idemp_r, Hn, Zminus_mod_idemp_r.
    f_equal. lia. }
  rewrite Len.
  set (len := ((Z.of_nat t + 1 - slot c mod 2 ^ 64) mod 2 ^ 64)%Z).
  destruct (grants c len); cbn [negb]; [|exact I].
  unfold CALLOC. cbn [fst snd].
  pose proof (cdson_string_decode_count (e - S (Cdson.s c))
                (Cdson.advance (Cdson.advance c 1)
                   (e + 1 - (Cdson.s c + 1)))
                (S (Cdson.s c)) e len []) as D.
  fold t in D. cbn [List.length Nat.add] in D.
  destruct (Cdson.string_decode input _ _ _ _ _ _) as [bytes| | |];
    cbn [Cdson.bind]; try exact I; try lia.
  - unfold Cdson.store. cbn [List.length].
    destruct (Z.leb_spec (Z.of_nat (List.length bytes + 1)) len);
      cbn [Cdson.bind].
    + split.
      { unfold follows.
        cbn [Cdson.advance Cdson.s Cdson.s_end Cdson.beginning]. lia. }
      split; [cbn [Cdson.advance Cdson.s]; lia|].
      exists t. split; [reflexivity|]. split; [exact D|lia].
    + exists t. split; [lia|]. fold len. lia.
  - exists t. split; [lia|]. fold len. lia.
Qed.

(** Whatever the slot holds, [p_string] ends, and a string it returns was
    read forward. *)
Lemma cdson_p_string_ends c h :
  ends True (Cdson.p_string input slot grants c h)
    (fun r => true = true /\ follows c (snd (fst r))).
Proof.
  pose proof (cdson_p_string_count c h) as P.
  destruct (Cdson.p_string input slot grants c h)
    as [[[[[out bytes] len] c'] h']| | |]; cbn [ends fst snd]; auto.
  split; [reflexivity|apply P].
Qed.

(** With a zero in the slot the buffer is the size the string needs, and
    no store goes past its end. *)
Lemma cdson_p_string_zero c h :
  (slot c mod 2 ^ 64 = 0)%Z ->
  (Z.of_nat (Cdson.s_end c) < 2 ^ 64)%Z ->
  ends False (Cdson.p_string input slot grants c h)
    (fun r => true = true /\ follows c (snd (fst r))).
Proof.
  intros Z0 B.
  pose proof (cdson_p_string_count c h) as P.
  destruct (Cdson.p_string input slot grants c h)
    as [[[[[out bytes] len] c'] h']| | |]; cbn [ends fst snd]; auto.
  - split; [reflexivity|apply P].
  - destruct P as (t & Lt & Ov). rewrite Z0 in Ov.
    rewrite Z.mod_small in Ov by lia. lia.
Qed.

(** With a one in the slot the buffer is one byte short, and [p_string]
    does not return. *)
Lemma cdson_p_string_one c h :
  (slot c mod 2 ^ 64 = 1)%Z ->
  ends True (Cdson.p_string input slot grants c h)
    (fun r => false = true /\ follows c (snd (fst r))).
Proof.
  intros Z1.
  pose proof (cdson_p_string_count c h) as P.
  destruct (Cdson.p_string input slot grants c h)
    as [[[[[out bytes] len] c'] h']| | |]; cbn [ends fst snd]; auto.
  exfalso. destruct P as (_ & _ & t & -> & _ & Ov). rewrite Z1 in Ov.
  replace (Z.of_nat t + 1 - 1)%Z with (Z.of_nat t) in Ov by lia.
  pose proof (Z.mod_le (Z.of_nat t) (2 ^ 64) ltac:(lia) ltac:(lia)). lia.
Qed.

End Cdson_strings.

Section Cdson_items.

Variable input : list ascii.

Lemma cdson_p_chars_ok c n :
  Cdson.s c + n <= Cdson.s_end c ->
  Cdson.p_chars c n = Cdson.Returns (Cdson.s c, Cdson.advance c n).
Proof.
  intros H. unfold Cdson.p_chars.
  destruct (Nat.ltb_spec (Cdson.s_end c) (Cdson.s c + n)); [lia|reflexivity].
Qed.

Lemma cdson_advance_advance c a b :
  Cdson.advance (Cdson.advance c a) b = Cdson.advance c (a + b).
Proof.
  unfold Cdson.advance. cbn [Cdson.s Cdson.s_end Cdson.beginning].
  f_equal. lia.
Qed.

(** The first loop over a string of items. *)
Lemma cdson_string_scan_items : forall items fuel c k,
  reads input (Cdson.s c) (flat_map item_text items ++ [dquote]) ->
  forallb (item_ok true) items = true ->
  Cdson.s c + List.length (flat_map item_text items) + 1 <= Cdson.s_end c ->
  List.length (flat_map item_text items) + 1 <= fuel ->
  (0 <= k < 2 ^ 64)%Z ->
  Cdson.string_scan input fuel c k
    = Cdson.Returns
        (Cdson.s c + List.length (flat_map item_text items),
         ((k + Z.of_nat (escapes items)) mod 2 ^ 64)%Z,
         Cdson.advance c (List.length (flat_map item_text items) + 1)).
Proof.
  induction items as [|[ch|e] items IH]; intros fuel c k R F B L K;
    cbn [flat_map item_text app List.length forallb] in *;
    (destruct fuel as [|fuel]; [lia|]); cbn [Cdson.string_scan];
    unfold Cdson.p_char; rewrite cdson_p_chars_ok by lia;
    cbn [Cdson.bind].
  - apply reads_head in R. rewrite R, Ascii.eqb_refl.
    unfold escapes. cbn [filter List.length Z.of_nat].
    rewrite Z.add_0_r, Z.mod_small, Nat.add_0_r by lia. reflexivity.
  - apply andb_true_iff in F. destruct F as [Fx F].
    apply reads_cons in R. destruct R as [R0 R].
    cbn [item_ok] in Fx. unfold plain in Fx. apply andb_true_iff in Fx.
    destruct Fx as [Fq Fb]. apply negb_true_iff in Fq, Fb.
    rewrite R0, Fq, Fb.
    rewrite (IH fuel (Cdson.advance c 1) k);
      cbn [Cdson.advance Cdson.s Cdson.s_end]; auto; try lia.
    + change (escapes (Plain ch :: items)) with (escapes items).
      rewrite cdson_advance_advance. f_equal.
      apply f_equal2; [apply f_equal2; [lia|reflexivity]|f_equal; lia].
    + replace (Cdson.s c + 1) with (S (Cdson.s c)) by lia. exact R.
  - apply andb_true_iff in F. destruct F as [Fx F].
    apply reads_cons in R. destruct R as [R0 R].
    apply reads_cons in R. destruct R as [R1 R].
    rewrite R0. cbn [Ascii.eqb Bool.eqb dquote backslash andb].
    rewrite cdson_p_chars_ok
      by (cbn [Cdson.advance Cdson.s Cdson.s_end]; lia).
    cbn [Cdson.bind Cdson.advance Cdson.s].
    replace (Cdson.s c + 1) with (S (Cdson.s c)) by lia. rewrite R1.
    rewrite (proj1 (Bool.negb_true_iff _)
               (item_ok_passes true (Escaped e) Fx)).
    rewrite (IH fuel _ ((k + 1) mod 2 ^ 64)%Z);
      cbn [Cdson.advance Cdson.s Cdson.s_end Cdson.beginning]; auto;
      try lia.
    + change (escapes (Escaped e :: items)) with (S (escapes items)).
      rewrite Z.add_mod_idemp_l by lia.
      unfold Cdson.advance. cbn [Cdson.s Cdson.s_end Cdson.beginning].
      f_equal.
      apply f_equal2; [apply f_equal2; [lia|f_equal; lia]|f_equal; lia].
    + eapply reads_at; [exact R|lia].
    + apply Z.mod_pos_bound. lia.
Qed.

Lemma cdson_string_decode_escape fuel c p e_ len out e x :
  char_at input p = backslash ->
  char_at input (S p) = e ->
  classify_escape e true = Maps x ->
  p < e_ ->
  Cdson.string_decode input (S fuel) c p e_ len out
    = Cdson.bind (Cdson.store len out [x])
        (fun out => Cdson.string_decode input fuel c (S (S p)) e_ len out).
Proof.
  intros Rb Re K Lp. cbn [Cdson.string_decode].
  destruct (Nat.leb_spec e_ p); [lia|].
  rewrite Rb, Ascii.eqb_refl. cbn [negb]. cbv zeta. rewrite Re.
  unfold classify_escape in K.
  destruct (Ascii.eqb e dquote || Ascii.eqb e backslash || Ascii.eqb e "/")
    eqn:E1; [injection K as <-; reflexivity|].
  destruct (Ascii.eqb_spec e "b") as [->|Nb];
    [injection K as <-; reflexivity|].
  destruct (Ascii.eqb_spec e "u") as [->|Nu]; [discriminate|].
  destruct (Ascii.eqb_spec e "f") as [->|Nf];
    [injection K as <-; reflexivity|].
  destruct (Ascii.eqb_spec e "n") as [->|Nn];
    [injection K as <-; reflexivity|].
  destruct (Ascii.eqb_spec e "r") as [->|Nr];
    [injection K as <-; reflexivity|].
  destruct (Ascii.eqb_spec e "t") as [->|Nt];
    [injection K as <-; reflexivity|].
  discriminate.
Qed.

(** A store and the rest of the second loop, in a buffer of [len]
    bytes. *)
Lemma cdson_store_then (len : Z) out x bytes
    (k : list ascii -> Cdson.outcome (list ascii)) :
  (Z.of_nat (List.length out) <= len)%Z ->
  (forall out',
     out' = out ++ [x] -> (Z.of_nat (List.length out') <= len)%Z ->
     k out'
     = if (Z.of_nat (List.length out' + List.length bytes) <=? len)%Z
       then Cdson.Returns (out' ++ bytes)
       else Cdson.Faults
              (Cdson.StoreOverflow
                 (out' ++ firstn (Z.to_nat len + 1 - List.length out') bytes)
                 len)) ->
  Cdson.bind (Cdson.store len out [x]) k
  = if (Z.of_nat (List.length out + S (List.length bytes)) <=? len)%Z
    then Cdson.Returns (out ++ x :: bytes)
    else Cdson.Faults
           (Cdson.StoreOverflow
              (out ++ firstn (Z.to_nat len + 1 - List.length out)
                        (x :: bytes))
              len).
Proof.
  intros Lo K. unfold Cdson.store. cbn [List.length].
  destruct (Z.leb_spec (Z.of_nat (List.length out + 1)) len) as [Fit|Over];
    cbn [Cdson.bind].
  - rewrite (K _ eq_refl) by (rewrite length_app; cbn [List.length]; lia).
    rewrite length_app. cbn [List.length].
    replace (List.length out + 1 + List.length bytes)
      with (List.length out + S (List.length bytes)) by lia.
    destruct (Z.leb_spec
                (Z.of_nat (List.length out + S (List.length bytes))) len).
    + rewrite <- app_assoc. reflexivity.
    + rewrite <- app_assoc. cbn [app].
      replace (Z.to_nat len + 1 - List.length out)
        with (S (Z.to_nat len + 1 - (List.length out + 1))) by lia.
      reflexivity.
  - destruct (Z.leb_spec (Z.of_nat (List.length out + S (List.length bytes)))
                len); [lia|].
    replace (Z.to_nat len + 1 - List.length out) with 1 by lia.
    reflexivity.
Qed.

(** The second loop over a string of items, in a buffer of [len] bytes:
    the bytes of the items if they fit, and otherwise a store past the
    end of the buffer. *)
Lemma cdson_string_decode_items : forall items fuel c p len out,
  reads input p (flat_map item_text items) ->
  forallb (item_ok true) items = true ->
  List.length items <= fuel ->
  (Z.of_nat (List.length out) <= len)%Z ->
  Cdson.string_decode input fuel c p
    (p + List.length (flat_map item_text items)) len out
  = if (Z.of_nat (List.length out + List.length items) <=? len)%Z
    then Cdson.Returns (out ++ map (item_byte true) items)
    else Cdson.Faults
           (Cdson.StoreOverflow
              (out ++ firstn (Z.to_nat len + 1 - List.length out)
                        (map (item_byte true) items))
              len).
Proof.
  induction items as [|[ch|e] items IH]; intros fuel c p len out R F Lf Lo;
    cbn [flat_map item_text app List.length forallb map] in *.
  - rewrite !Nat.add_0_r.
    destruct (Z.leb_spec (Z.of_nat (List.length out)) len); [|lia].
    rewrite app_nil_r.
    destruct fuel; cbn [Cdson.string_decode];
      destruct (Nat.leb_spec p p); try lia; reflexivity.
  - apply andb_true_iff in F. destruct F as [Fx F].
    apply reads_cons in R. destruct R as [R0 R].
    destruct fuel as [|fuel]; [lia|].
    cbn [Cdson.string_decode].
    destruct (Nat.leb_spec (p + S (List.length (flat_map item_text items)))
                p); [lia|].
    cbn [item_ok] in Fx. unfold plain in Fx. apply andb_true_iff in Fx.
    destruct Fx as [_ Fb]. rewrite R0, Fb. cbn [item_byte].
    rewrite <- (length_map (item_byte true) items).
    apply cdson_store_then; [exact Lo|].
    intros out' -> Lo'.
    replace (p + S (List.length (flat_map item_text items)))
      with (S p + List.length (flat_map item_text items)) by lia.
    rewrite (IH fuel c (S p) len (out ++ [ch]) R F ltac:(lia) Lo').
    rewrite length_map. reflexivity.
  - apply andb_true_iff in F. destruct F as [Fx F].
    apply reads_cons in R. destruct R as [R0 R].
    apply reads_cons in R. destruct R as [R1 R].
    destruct fuel as [|fuel]; [lia|].
    cbn [item_ok] in Fx.
    destruct (classify_escape e true) as [x| | |] eqn:K;
      try discriminate Fx.
    rewrite (cdson_string_decode_escape fuel c p _ len out e x R0 R1 K)
      by lia.
    cbn [item_byte]. rewrite K.
    rewrite <- (length_map (item_byte true) items).
    apply cdson_store_then; [exact Lo|].
    intros out' -> Lo'.
    replace (p + S (S (List.length (flat_map item_text items))))
      with (S (S p) + List.length (flat_map item_text items)) by lia.
    rewrite (IH fuel c (S (S p)) len (out ++ [x]) R F ltac:(lia) Lo').
    rewrite length_map. reflexivity.
Qed.

End Cdson_items.

(** X14: the [p_string] of [cdson.c] goes by what the stack holds. Its
    local [num_escapes] is declared without a value and never assigned
    one; the loop that counts the escapes adds to what its slot holds, and
    the length of the buffer is computed from the sum. On a string of
    plain bytes and escapes that needs [needed] bytes with its terminator,
    the buffer asked of [malloc] is of [needed] bytes less the content of
    the slot, modulo the size of a [size_t]. If [malloc] refuses it the
    process exits; if it is enough the decoded string is returned; if not,
    a store goes past the end of the buffer. So with a zero in the slot
    the string is decoded in a buffer of the right size, and with a
    content from one to [needed] the buffer is too short: the same call on
    the same input returns the string or overruns its buffer. *)
Theorem cdson_p_string_by_slot :
  forall (before : list ascii) (items : list item) (rest : list ascii)
         (slot : Cdson.context -> Z)
         (grants : Cdson.context -> Z -> bool)
         (c : Cdson.context) (h : heap),
    let text := dquote :: flat_map item_text items ++ [dquote] in
    let input := before ++ text ++ rest in
    let bytes := map (item_byte true) items in
    let needed := (Z.of_nat (List.length items) + 1)%Z in
    let length := ((needed - slot c mod 2 ^ 64) mod 2 ^ 64)%Z in
    let c' := Cdson.advance c (List.length text) in
    forallb (item_ok true) items = true ->
    Cdson.s c = List.length before ->
    List.length before + List.length text <= Cdson.s_end c ->
    Cdson.p_string input slot grants c h
      = (if negb (grants c length) then Cdson.ERROR 163 c'
         else if (needed <=? length)%Z
         then Cdson.Returns (next h, bytes, length, c', snd (CALLOC h))
         else Cdson.Faults
                (Cdson.StoreOverflow
                   (firstn (Z.to_nat length + 1) (bytes ++ [NUL])) length))
    /\ ((slot c mod 2 ^ 64 = 0)%Z -> (needed < 2 ^ 64)%Z -> length = needed)
    /\ ((1 <= slot c mod 2 ^ 64 <= needed)%Z -> (length < needed)%Z).
Proof.
  intros before items rest slot grants c h text input bytes needed length
    c' F Sc B.
  assert (G : (0 <= slot c mod 2 ^ 64 < 2 ^ 64)%Z)
    by (apply Z.mod_pos_bound; lia).
  split; [|split].
  2:{ intros Z0 Ln. unfold length. rewrite Z0, Z.sub_0_r.
      apply Z.mod_small. unfold needed in *. lia. }
  2:{ intros Rg. unfold length.
      pose proof (Z.mod_le (needed - slot c mod 2 ^ 64) (2 ^ 64)
                    ltac:(lia) ltac:(lia)).
      lia. }
  set (n := List.length (flat_map item_text items)).
  assert (Lt : List.length text = n + 2).
  { subst text n. cbn [List.length]. rewrite length_app. cbn. lia. }
  assert (Ni : n = List.length items + escapes items)
    by apply item_text_length.
  assert (R : reads input (Cdson.s c) text).
  { rewrite Sc. apply reads_middle. }
  subst text. apply reads_cons in R. destruct R as [Rq R].
  unfold Cdson.p_string. cbv zeta. unfold Cdson.p_char at 1.
  rewrite cdson_p_chars_ok by lia. cbn [Cdson.bind].
  rewrite Rq, Ascii.eqb_refl. cbn [negb].
  rewrite (cdson_string_scan_items input items _ (Cdson.advance c 1)
             (slot c mod 2 ^ 64)%Z);
    cbn [Cdson.advance Cdson.s Cdson.s_end Cdson.beginning]; auto;
    try (fold n; lia).
  2:{ eapply reads_at; [exact R|lia]. }
  fold n. cbn [Cdson.bind].
  assert (Len : ((Z.of_nat (Cdson.s c + 1 + n) - Z.of_nat (S (Cdson.s c))
                  - (slot c mod 2 ^ 64 + Z.of_nat (escapes items))
                    mod 2 ^ 64 + 1) mod 2 ^ 64)%Z = length).
  { unfold length, needed.
    replace (Z.of_nat (Cdson.s c + 1 + n) - Z.of_nat (S (Cdson.s c))
             - (slot c mod 2 ^ 64 + Z.of_nat (escapes items)) mod 2 ^ 64
             + 1)%Z
      with (Z.of_nat n + 1
            - (slot c mod 2 ^ 64 + Z.of_nat (escapes items)) mod 2 ^ 64)%Z
      by lia.
    rewrite Zminus_mod_idemp_r. f_equal. lia. }
  rewrite Len.
  assert (Cc : Cdson.advance (Cdson.advance c 1) (n + 1) = c').
  { unfold c'. rewrite cdson_advance_advance, Lt. f_equal. lia. }
  rewrite Cc.
  destruct (grants c length); cbn [negb]; [|reflexivity].
  unfold CALLOC. cbn [fst snd].
  assert (L0 : (0 <= length)%Z) by (apply Z.mod_pos_bound; lia).
  assert (Rm : reads input (S (Cdson.s c)) (flat_map item_text items)).
  { apply reads_app in R. apply R. }
  replace (Cdson.s c + 1 + n) with (S (Cdson.s c) + n) by lia.
  replace (S (Cdson.s c) + n - S (Cdson.s c)) with n by lia.
  unfold n at 2.
  rewrite (cdson_string_decode_items input items n c' (S (Cdson.s c))
             length [] Rm F ltac:(lia) ltac:(cbn [List.length]; lia)).
  cbn [List.length Nat.add app]. rewrite Nat.sub_0_r. fold bytes.
  assert (Lb : List.length bytes = List.length items)
    by apply length_map.
  destruct (Z.leb_spec (Z.of_nat (List.length items)) length) as [Fit|Over];
    cbn [Cdson.bind].
  - unfold Cdson.store. cbn [List.length]. rewrite Lb.
    destruct (Z.leb_spec (Z.of_nat (List.length items + 1)) length);
      destruct (Z.leb_spec needed length); unfold needed in *;
      cbn [Cdson.bind]; try lia; [reflexivity|].
    rewrite firstn_all2; [reflexivity|].
    rewrite length_app. cbn [List.length]. lia.
  - destruct (Z.leb_spec needed length); unfold needed in *; [lia|].
    rewrite firstn_app.
    replace (Z.to_nat length + 1 - List.length bytes) with 0 by lia.
    cbn [firstn]. rewrite app_nil_r. reflexivity.
Qed.

(** The string a, newline, b, as a key of a dictionary: with a zero in
    the slot the three bytes are returned in a buffer of four; with a two
    the buffer is of two bytes and the third store goes past its end. *)
Lemma cdson_p_string_by_slot_witness :
  let input := (str "such " ++ dquote :: "a" :: backslash :: "n" :: "b"
                  :: dquote :: str " is 1 wow")%char in
  Cdson.p_string input (fun _ => 0%Z) (fun _ _ => true)
    (Cdson.mkContext 5 20 0) empty_heap
  = Cdson.Returns (0, ["a"; "010"; "b"]%char, 4%Z, Cdson.mkContext 11 20 0,
                   mkHeap [0] 1 []) /\
  Cdson.p_string input (fun _ => 2%Z) (fun _ _ => true)
    (Cdson.mkContext 5 20 0) empty_heap
  = Cdson.Faults (Cdson.StoreOverflow ["a"; "010"; "b"]%char 2).
Proof.
  split.
  - exact (proj1 (cdson_p_string_by_slot (str "such ")
                    [Plain "a"; Escaped "n"; Plain "b"]%char
                    (str " is 1 wow") (fun _ => 0%Z) (fun _ _ => true)
                    (Cdson.mkContext 5 20 0) empty_heap
                    eq_refl eq_refl ltac:(cbn; lia))).
  - exact (proj1 (cdson_p_string_by_slot (str "such ")
                    [Plain "a"; Escaped "n"; Plain "b"]%char
                    (str " is 1 wow") (fun _ => 2%Z) (fun _ _ => true)
                    (Cdson.mkContext 5 20 0) empty_heap
                    eq_refl eq_refl ltac:(cbn; lia))).
Defined.
(** ** The values [cdson.c] returns *)

(** The structural parsers, from what [p_string] does: [Over] tells
    whether a store of [p_string] may go past the end of its buffer,
    [strings] whether [p_string] may return, in the buffer that ends at
    [last]. *)
Section Cdson_values.

Variable input : list ascii.
Variable slot : Cdson.context -> Z.
Variable grants : Cdson.context -> Z -> bool.
Variable Over : Prop.
Variable strings : bool.
Variable last : nat.

Hypothesis p_string_ends : forall c h,
  Cdson.s_end c = last ->
  ends Over (Cdson.p_string input slot grants c h)
    (fun r => strings = true /\ follows c (snd (fst r))).

Lemma sound_array self array elts :
  forallb (sound strings) elts = true ->
  sound strings (DSON_ARRAY self array elts) = true.
Proof.
  unfold sound. destruct strings; [reflexivity|].
  cbn [orb stringless]. intros H. exact H.
Qed.

Lemma cdson_structural_ends : forall fuel,
  (forall c h,
     Cdson.s_end c = last -> Cdson.s c <= Cdson.s_end c ->
     2 * (Cdson.s_end c - Cdson.s c) + 2 <= fuel ->
     ends Over (Cdson.p_value input slot grants fuel c h)
       (fun r => sound strings (fst (fst r)) = true /\
                 follows c (snd (fst r)))) /\
  (forall c h,
     Cdson.s_end c = last -> Cdson.s c <= Cdson.s_end c ->
     2 * (Cdson.s_end c - Cdson.s c) + 1 <= fuel ->
     ends Over (Cdson.p_array input slot grants fuel c h)
       (fun r => forallb (sound strings) (snd (fst (fst r))) = true /\
                 follows c (snd (fst r)))) /\
  (forall c h elts,
     Cdson.s_end c = last -> Cdson.s c <= Cdson.s_end c ->
     2 * (Cdson.s_end c - Cdson.s c) + 3 <= fuel ->
     forallb (sound strings) elts = true ->
     ends Over (Cdson.p_array_loop input slot grants fuel c h elts)
       (fun r => forallb (sound strings) (fst (fst r)) = true /\
                 follows c (snd (fst r)))) /\
  (forall c h,
     Cdson.s_end c = last -> Cdson.s c <= Cdson.s_end c ->
     2 * (Cdson.s_end c - Cdson.s c) + 1 <= fuel ->
     ends Over (Cdson.p_dict input slot grants fuel c h)
       (fun r => strings = true /\ follows c (snd (fst r)))) /\
  (forall c h entries,
     Cdson.s_end c = last -> Cdson.s c <= Cdson.s_end c ->
     2 * (Cdson.s_end c - Cdson.s c) + 3 <= fuel ->
     ends Over (Cdson.p_dict_loop input slot grants fuel c h entries)
       (fun r => strings = true /\ follows c (snd (fst r)))).
Proof.
  induction fuel as [|fuel (IHv & IHa & IHal & IHd & IHdl)].
  { repeat split; intros; lia. }
  split; [|split; [|split; [|split]]].
  - (* p_value *)
    intros c h Ec L F. cbn [Cdson.p_value]. unfold CALLOC. cbv zeta.
    eapply ends_bind; [apply cdson_maybe_p_whitespace_ends, L|].
    intros c1 F1. pose proof F1 as (A1 & B1 & C1 & D1).
    destruct (Ascii.eqb _ dquote).
    { eapply ends_bind; [apply p_string_ends; congruence|].
      intros [[[[sp bytes] len] c2] h2] [S2 F2]. cbn [ends fst snd] in *.
      split; [unfold sound; rewrite S2; reflexivity
             |exact (follows_trans _ _ _ F1 F2)]. }
    destruct (_ || _).
    { eapply ends_bind; [apply cdson_p_double_ends, B1|].
      intros [n c2] F2. cbn [ends fst snd] in *.
      split; [apply orb_true_r|exact (follows_trans _ _ _ F1 F2)]. }
    destruct (_ || _).
    { eapply ends_bind; [apply cdson_p_bool_ends|].
      intros [n c2] F2. cbn [ends fst snd] in *.
      split; [apply orb_true_r|exact (follows_trans _ _ _ F1 F2)]. }
    destruct (Ascii.eqb _ "e").
    { eapply ends_bind; [apply cdson_p_empty_ends|].
      intros [n c2] F2. cbn [ends fst snd] in *.
      split; [apply orb_true_r|exact (follows_trans _ _ _ F1 F2)]. }
    destruct (Ascii.eqb _ "s"); [|exact I].
    destruct (Ascii.eqb _ "o").
    { eapply ends_bind; [apply IHa; [congruence|exact B1|lia]|].
      intros [[[array elts] c2] h2] [S2 F2]. cbn [ends fst snd] in *.
      split; [apply sound_array, S2|exact (follows_trans _ _ _ F1 F2)]. }
    destruct (Ascii.eqb _ "u"); [|exact I].
    eapply ends_bind; [apply IHd; [congruence|exact B1|lia]|].
    intros [[[[[dict keys] values] entries] c2] h2] [S2 F2].
    cbn [ends fst snd] in *.
    split; [unfold sound; rewrite S2; reflexivity
           |exact (follows_trans _ _ _ F1 F2)].
  - (* p_array *)
    intros c h Ec L F. cbn [Cdson.p_array]. unfold CALLOC. cbv zeta.
    eapply ends_bind; [apply (cdson_p_chars_follows Over c 2)|].
    intros [sp c1] [F1 S1]. cbn [snd] in F1, S1.
    pose proof F1 as (A1 & B1 & C1 & D1).
    destruct (strncmp _ _ _ 2); [exact I|].
    eapply ends_bind; [apply cdson_maybe_p_whitespace_ends, B1|].
    intros c2 F2. pose proof F2 as (A2 & B2 & C2 & D2).
    pose proof (follows_trans _ _ _ F1 F2) as F12.
    eapply ends_bind
      with (Q' := fun r => forallb (sound strings) (fst (fst r)) = true /\
                           follows c (snd (fst r))).
    { destruct (negb _).
      - eapply ends_impl;
          [apply IHal; [congruence|exact B2|lia|reflexivity]|].
        intros [[elts c3] h3] [S3 F3]. cbn [fst snd] in *.
        split; [exact S3|exact (follows_trans _ _ _ F12 F3)].
      - cbn [ends fst snd]. split; [reflexivity|exact F12]. }
    intros [[elts c3] h3] [S3 F3]. cbn [fst snd] in *.
    eapply ends_bind; [apply (cdson_p_chars_follows Over c3 4)|].
    intros [sp4 c4] [F4 _]. cbn [snd] in F4.
    destruct (strncmp _ _ _ 4); [exact I|]. cbn [ends fst snd].
    split; [exact S3|exact (follows_trans _ _ _ F3 F4)].
  - (* p_array_loop *)
    intros c h elts Ec L F S0. cbn [Cdson.p_array_loop]. cbv zeta.
    eapply ends_bind; [apply IHv; [exact Ec|exact L|lia]|].
    intros [[v c1] h1] [S1 F1]. cbn [fst snd] in *.
    pose proof F1 as (A1 & B1 & C1 & D1).
    assert (S01 : forallb (sound strings) (elts ++ [v]) = true)
      by (rewrite forallb_snoc, S0, S1; reflexivity).
    eapply ends_bind; [apply cdson_maybe_p_whitespace_ends, B1|].
    intros c2 F2. pose proof F2 as (A2 & B2 & C2 & D2).
    pose proof (follows_trans _ _ _ F1 F2) as F12.
    destruct (negb (Ascii.eqb _ "a")).
    { cbn [ends fst snd]. split; [exact S01|exact F12]. }
    eapply ends_bind; [apply (cdson_p_chars_follows Over c2 3)|].
    intros [sp c3] [F3 S3]. cbn [snd] in F3, S3.
    pose proof F3 as (A3 & B3 & C3 & D3).
    pose proof (follows_trans _ _ _ F12 F3) as F13.
    destruct (negb (strncmp _ _ _ 3)).
    { eapply ends_impl; [apply IHal; [congruence|exact B3|lia|exact S01]|].
      intros [[elts' c4] h4] [S4 F4]. cbn [fst snd] in *.
      split; [exact S4|exact (follows_trans _ _ _ F13 F4)]. }
    destruct (strncmp _ _ _ 3); [exact I|].
    eapply ends_bind; [apply (cdson_p_chars_follows Over c3 1)|].
    intros [sp1 c4] [F4 S4]. cbn [snd] in F4, S4.
    pose proof F4 as (A4 & B4 & C4 & D4).
    destruct (negb _); [exact I|].
    eapply ends_bind; [apply cdson_maybe_p_whitespace_ends, B4|].
    intros c5 F5. pose proof F5 as (A5 & B5 & C5 & D5).
    eapply ends_impl; [apply IHal; [congruence|exact B5|lia|exact S01]|].
    intros [[elts' c6] h6] [S6 F6]. cbn [fst snd] in *.
    split; [exact S6|].
    exact (follows_trans _ _ _ F13
             (follows_trans _ _ _ F4 (follows_trans _ _ _ F5 F6))).
  - (* p_dict *)
    intros c h Ec L F. cbn [Cdson.p_dict]. unfold CALLOC. cbv zeta.
    eapply ends_bind; [apply (cdson_p_chars_follows Over c 4)|].
    intros [sp c1] [F1 S1]. cbn [snd] in F1, S1.
    pose proof F1 as (A1 & B1 & C1 & D1).
    destruct (strncmp _ _ _ 4); [exact I|].
    eapply ends_bind; [apply cdson_maybe_p_whitespace_ends, B1|].
    intros c2 F2. pose proof F2 as (A2 & B2 & C2 & D2).
    pose proof (follows_trans _ _ _ F1 F2) as F12.
    eapply ends_bind; [apply IHdl; [congruence|exact B2|lia]|].
    intros [[entries c3] h3] [S3 F3]. cbn [fst snd] in *.
    pose proof (follows_trans _ _ _ F12 F3) as F13.
    eapply ends_bind; [apply (cdson_p_chars_follows Over c3 3)|].
    intros [sp3 c4] [F4 _]. cbn [snd] in F4.
    destruct (strncmp _ _ _ 3); [exact I|]. cbn [ends fst snd].
    split; [exact S3|exact (follows_trans _ _ _ F13 F4)].
  - (* p_dict_loop *)
    intros c h entries Ec L F. cbn [Cdson.p_dict_loop]. cbv zeta.
    eapply ends_bind; [apply p_string_ends, Ec|].
    intros [[[[k kbytes] len] c1] h1] [S1 F1]. cbn [fst snd] in *.
    pose proof F1 as (A1 & B1 & C1 & D1).
    eapply ends_bind; [apply cdson_maybe_p_whitespace_ends, B1|].
    intros c2 F2. pose proof F2 as (A2 & B2 & C2 & D2).
    pose proof (follows_trans _ _ _ F1 F2) as F12.
    eapply ends_bind; [apply (cdson_p_chars_follows Over c2 2)|].
    intros [sp c3] [F3 S3]. cbn [snd] in F3, S3.
    pose proof F3 as (A3 & B3 & C3 & D3).
    pose proof (follows_trans _ _ _ F12 F3) as F13.
    destruct (strncmp _ _ _ 2); [exact I|].
    eapply ends_bind; [apply cdson_maybe_p_whitespace_ends, B3|].
    intros c4 F4. pose proof F4 as (A4 & B4 & C4 & D4).
    pose proof (follows_trans _ _ _ F13 F4) as F14.
    eapply ends_bind; [apply IHv; [congruence|exact B4|lia]|].
    intros [[v c5] h5] [S5 F5]. cbn [fst snd] in *.
    pose proof F5 as (A5 & B5 & C5 & D5).
    pose proof (follows_trans _ _ _ F14 F5) as F15.
    eapply ends_bind; [apply cdson_maybe_p_whitespace_ends, B5|].
    intros c6 F6. pose proof F6 as (A6 & B6 & C6 & D6).
    pose proof (follows_trans _ _ _ F15 F6) as F16.
    destruct (is_separator _).
    + eapply ends_bind; [apply (cdson_p_chars_follows Over c6 1)|].
      intros [sp7 c7] [F7 S7]. cbn [snd] in F7, S7.
      pose proof F7 as (A7 & B7 & C7 & D7).
      eapply ends_impl; [apply IHdl; [congruence|exact B7|lia]|].
      intros [[entries' c8] h8] [S8 F8]. cbn [fst snd] in *.
      split; [exact S8|].
      exact (follows_trans _ _ _ F16 (follows_trans _ _ _ F7 F8)).
    + cbn [ends fst snd]. split; [exact S1|exact F16].
Qed.

End Cdson_values.

(** [dson_parse] from what the structural parsers do. *)
Lemma cdson_dson_parse_ends input slot grants Over strings length h :
  (forall c h0,
     Cdson.s_end c = length ->
     ends Over (Cdson.p_string input slot grants c h0)
       (fun r => strings = true /\ follows c (snd (fst r)))) ->
  ends Over (Cdson.dson_parse input slot grants length h)
    (fun r => match fst r with
              | Some v => sound strings v = true
              | None => True
              end).
Proof.
  intros Hs. unfold Cdson.dson_parse.
  destruct (negb _); [exact I|]. cbv zeta.
  eapply ends_bind.
  - apply (proj1 (cdson_structural_ends input slot grants Over strings
                    length Hs (2 * length + 2)));
      cbn [Cdson.s Cdson.s_end]; [reflexivity|lia|lia].
  - intros [[v c'] h'] [S _]. exact S.
Qed.



(** ** The two parsers on a value without strings *)

Section Agreement.

Variable input : list ascii.

Lemma framed_advance c n :
  framed input c -> s c + n <= s_end c -> framed input (advance c n).
Proof.
  intros [F1 F2] L. split; [rewrite s_advance, s_end_advance; lia|exact F2].
Qed.

Lemma agree_p_chars c n sp c' :
  p_chars c n = (Some sp, c') ->
  Cdson.p_chars (forget c) n = Cdson.Returns (sp, forget c').
Proof.
  unfold p_chars, Cdson.p_chars. cbn [forget Cdson.s Cdson.s_end].
  destruct (_ <? _); [discriminate|]. intros [= <- <-]. reflexivity.
Qed.

Lemma agree_p_char_here c :
  s c + 1 <= s_end c ->
  Cdson.p_char (forget c) = Cdson.Returns (s c, forget (advance c 1)).
Proof.
  intros L. apply agree_p_chars. apply p_chars_ok. exact L.
Qed.

Lemma agree_whitespace_loop : forall fuel c,
  framed input c -> s_end c - s c <= fuel ->
  Cdson.whitespace_loop input (S fuel) (forget c)
    = Cdson.Returns (forget (whitespace_loop input fuel c)).
Proof.
  induction fuel as [|fuel IH]; intros c F L;
    cbn [Cdson.whitespace_loop whitespace_loop]; cbv zeta;
    change (Cdson.peek input (forget c)) with (peek input c).
  - destruct F as [F1 F2]. unfold peek.
    replace (s c) with (s_end c) by lia. rewrite F2. reflexivity.
  - destruct (Ascii.eqb (peek input c) NUL
              || negb (strchr whitespace (peek input c))) eqn:Stop;
      [reflexivity|].
    assert (N : peek input c <> NUL).
    { intros N. rewrite N in Stop. discriminate. }
    pose proof (framed_not_at_end input c F N) as In.
    rewrite (agree_p_char_here c In), (p_char_ok c In).
    cbn [Cdson.bind snd].
    apply IH; [apply framed_advance; assumption|].
    rewrite s_advance, s_end_advance. lia.
Qed.

Lemma agree_maybe_p_whitespace c :
  framed input c ->
  Cdson.maybe_p_whitespace input (forget c)
    = Cdson.Returns (forget (maybe_p_whitespace input c)).
Proof.
  intros F. apply (agree_whitespace_loop (s_end c - s c) c F (Nat.le_refl _)).
Qed.

Lemma maybe_p_whitespace_here c :
  is_space (peek input c) = false -> maybe_p_whitespace input c = c.
Proof.
  intros N. unfold maybe_p_whitespace. unfold is_space in N.
  apply negb_false_iff in N.
  destruct (s_end c - s c); cbn [whitespace_loop]; [reflexivity|].
  rewrite N. reflexivity.
Qed.

Lemma maybe_p_whitespace_idem c :
  framed input c ->
  maybe_p_whitespace input (maybe_p_whitespace input c)
    = maybe_p_whitespace input c.
Proof.
  intros F. apply maybe_p_whitespace_here.
  apply (whitespace_loop_stops input (s_end c - s c) c F (Nat.le_refl _)).
Qed.

Lemma agree_octal_loop : forall fuel n c,
  framed input c -> s_end c - s c <= fuel ->
  Cdson.octal_loop input (S fuel) n (forget c)
    = Cdson.Returns (fst (octal_loop input fuel n c),
                     forget (snd (octal_loop input fuel n c))).
Proof.
  induction fuel as [|fuel IH]; intros n c F L;
    cbn [Cdson.octal_loop octal_loop]; cbv zeta;
    change (Cdson.peek input (forget c)) with (peek input c).
  - destruct F as [F1 F2]. unfold peek.
    replace (s c) with (s_end c) by lia. rewrite F2. reflexivity.
  - destruct (is_octal (peek input c)) eqn:O; [|reflexivity].
    pose proof (framed_not_at_end input c F (is_octal_not_NUL _ O)) as In.
    rewrite (agree_p_char_here c In), (p_char_ok c In).
    cbn [Cdson.bind snd].
    apply IH; [apply framed_advance; assumption|].
    rewrite s_advance, s_end_advance. lia.
Qed.

Lemma agree_p_octal c out :
  framed input c ->
  Cdson.p_octal input (forget c)
    = Cdson.Returns (fst (p_octal input c out),
                     forget (snd (p_octal input c out))).
Proof.
  intros F.
  apply (agree_octal_loop (s_end c - s c) 0%float c F (Nat.le_refl _)).
Qed.

Lemma agree_fraction_loop : forall fuel n d c,
  framed input c -> s_end c - s c <= fuel ->
  Cdson.fraction_loop input (S fuel) n d (forget c)
    = Cdson.Returns (fst (fraction_loop input fuel n d c),
                     forget (snd (fraction_loop input fuel n d c))).
Proof.
  induction fuel as [|fuel IH]; intros n d c F L;
    cbn [Cdson.fraction_loop fraction_loop]; cbv zeta;
    change (Cdson.peek input (forget c)) with (peek input c).
  - destruct F as [F1 F2]. unfold peek.
    replace (s c) with (s_end c) by lia. rewrite F2. reflexivity.
  - destruct (is_octal (peek input c)) eqn:O; [|reflexivity].
    pose proof (framed_not_at_end input c F (is_octal_not_NUL _ O)) as In.
    rewrite (agree_p_char_here c In), (p_char_ok c In).
    cbn [Cdson.bind snd].
    apply IH; [apply framed_advance; assumption|].
    rewrite s_advance, s_end_advance. lia.
Qed.


Lemma framed_maybe_p_whitespace c :
  framed input c -> framed input (maybe_p_whitespace input c).
Proof.
  intros F. exact (framed_steps _ _ _ F (maybe_p_whitespace_steps input c)).
Qed.

Lemma not_NUL_by c x :
  Ascii.eqb (peek input c) x = true -> x <> NUL -> peek input c <> NUL.
Proof. intros E N. apply Ascii.eqb_eq in E. congruence. Qed.

(** A byte taken where [cdson.c] would exit at the end of the input: the
    byte tested is there, so the input has not ended. *)
Lemma agree_skip c x :
  framed input c -> x <> NUL ->
  Ascii.eqb (peek input c) x = true ->
  Cdson.p_char (forget c) = Cdson.Returns (s c, forget (snd (p_char c))) /\
  snd (p_char c) = advance c 1 /\ framed input (advance c 1).
Proof.
  intros F N E.
  pose proof (framed_not_at_end input c F (not_NUL_by c x E N)) as In.
  rewrite (p_char_ok c In). cbn [snd].
  split; [apply agree_p_char_here; exact In|].
  split; [reflexivity|apply framed_advance; assumption].
Qed.

Lemma agree_p_double c n c' :
  framed input c ->
  p_double input c = (Ok n, c') ->
  Cdson.p_double input (forget c) = Cdson.Returns (n, forget c').
Proof.
  intros F H. unfold p_double in H. unfold Cdson.p_double. cbv zeta in *.
  change (Cdson.peek input (forget c)) with (peek input c).
  (* the sign *)
  set (c1 := if Ascii.eqb (peek input c) "-" then snd (p_char c) else c)
    in *.
  assert (S1 : (if Ascii.eqb (peek input c) "-"
                then Cdson.bind (Cdson.p_char (forget c))
                       (fun '(_, c) => Cdson.Returns c)
                else Cdson.Returns (forget c))
               = Cdson.Returns (forget c1) /\ framed input c1).
  { subst c1. destruct (Ascii.eqb (peek input c) "-") eqn:E; [|auto].
    destruct (agree_skip c "-"%char F ltac:(discriminate) E)
      as (P & Q & R).
    rewrite P, Q. split; [reflexivity|exact R]. }
  destruct S1 as [S1 F1]. rewrite S1. cbn [Cdson.bind]. clearbody c1.
  (* the integer part *)
  unfold p_double_integer in H.
  pose proof (framed_maybe_p_whitespace c1 F1) as F2.
  rewrite (agree_maybe_p_whitespace c1 F1). cbn [Cdson.bind].
  set (c2 := maybe_p_whitespace input c1) in *. clearbody c2.
  change (Cdson.peek input (forget c2)) with (peek input c2).
  set (r3 := if Ascii.eqb (peek input c2) "0"
             then (0%float, snd (p_char c2))
             else p_octal input c2 0%float) in *.
  assert (S3 : (if Ascii.eqb (peek input c2) "0"
                then Cdson.bind (Cdson.p_char (forget c2))
                       (fun '(_, c) => Cdson.Returns (0%float, c))
                else Cdson.p_octal input (forget c2))
               = Cdson.Returns (fst r3, forget (snd r3)) /\
               framed input (snd r3)).
  { subst r3. destruct (Ascii.eqb (peek input c2) "0") eqn:E.
    - destruct (agree_skip c2 "0"%char F2 ltac:(discriminate) E)
        as (P & Q & R).
      rewrite P, Q. split; [reflexivity|exact R].
    - split; [apply agree_p_octal; exact F2|].
      exact (framed_steps _ _ _ F2 (p_octal_steps input c2 0%float)). }
  destruct S3 as [S3 F3]. rewrite S3. cbn [Cdson.bind].
  destruct r3 as [n3 c3]. cbn [fst snd] in *.
  (* the fraction *)
  pose proof (framed_maybe_p_whitespace c3 F3) as F4.
  rewrite (agree_maybe_p_whitespace c3 F3). cbn [Cdson.bind].
  set (c4 := maybe_p_whitespace input c3) in *. clearbody c4.
  change (Cdson.peek input (forget c4)) with (peek input c4).
  destruct (p_double_fraction input n3 c4) as [[n5| | |] c5] eqn:Fr;
    try discriminate.
  assert (S5 : (if Ascii.eqb (peek input c4) "."
                then
                  Cdson.bind (Cdson.p_char (forget c4))
                    (fun '(_, c) =>
                       if negb (is_octal (Cdson.peek input c))
                       then Cdson.ERROR 228 c
                       else
                         Cdson.bind
                           (Cdson.fraction_loop input
                              (S (Cdson.s_end c - Cdson.s c)) n3 8%float c)
                           (fun '(n, c) =>
                              Cdson.bind (Cdson.maybe_p_whitespace input c)
                                (fun c => Cdson.Returns (n, c))))
                else Cdson.Returns (n3, forget c4))
               = Cdson.Returns (n5, forget c5) /\ framed input c5).
  { unfold p_double_fraction in Fr.
    destruct (Ascii.eqb (peek input c4) ".") eqn:E.
    2:{ injection Fr as <- <-. auto. }
    destruct (agree_skip c4 "."%char F4 ltac:(discriminate) E)
      as (P & Q & R).
    rewrite P. rewrite Q in *. cbn [Cdson.bind].
    change (Cdson.peek input (forget (advance c4 1)))
      with (peek input (advance c4 1)).
    destruct (negb (is_octal (peek input (advance c4 1))));
      [discriminate|].
    pose proof (agree_fraction_loop
                  (s_end (advance c4 1) - s (advance c4 1)) n3 8%float
                  (advance c4 1) R (Nat.le_refl _)) as A.
    pose proof (fraction_loop_steps input
                  (s_end (advance c4 1) - s (advance c4 1)) n3 8%float
                  (advance c4 1)) as St.
    destruct (fraction_loop input _ n3 8%float (advance c4 1))
      as [n6 c6]. cbn [fst snd] in *.
    injection Fr as <- <-.
    change (Cdson.s_end (forget (advance c4 1)))
      with (s_end (advance c4 1)).
    change (Cdson.s (forget (advance c4 1))) with (s (advance c4 1)).
    rewrite A. cbn [Cdson.bind].
    pose proof (framed_steps _ _ _ R St) as F6.
    rewrite (agree_maybe_p_whitespace c6 F6). cbn [Cdson.bind].
    split; [reflexivity|apply framed_maybe_p_whitespace; exact F6]. }
  destruct S5 as [S5 F5]. rewrite S5. cbn [Cdson.bind].
  change (Cdson.peek input (forget c5)) with (peek input c5).
  (* the exponent *)
  destruct (p_double_exponent input n5 c5) as [[n7| | |] c7] eqn:Ex;
    try discriminate.
  injection H as <- <-.
  unfold p_double_exponent in Ex.
  destruct (Ascii.eqb (peek input c5) "v" || Ascii.eqb (peek input c5) "V").
  2:{ injection Ex as <- <-. reflexivity. }
  destruct (p_chars c5 4) as [[sp|] c6] eqn:E6; [|discriminate].
  rewrite (agree_p_chars c5 4 sp c6 E6). cbn [Cdson.bind].
  pose proof (p_chars_steps c5 4) as St6. rewrite E6 in St6.
  cbn [snd] in St6. pose proof (framed_steps _ _ _ F5 St6) as F6.
  destruct (strncasecmp input sp _ 4); [discriminate|]. cbv zeta in Ex.
  change (Cdson.peek input (forget c6)) with (peek input c6).
  set (c8 := if Ascii.eqb (peek input c6) "+" then snd (p_char c6)
             else if Ascii.eqb (peek input c6) "-" then snd (p_char c6)
             else c6) in *.
  assert (S8 : (if Ascii.eqb (peek input c6) "+"
                then Cdson.bind (Cdson.p_char (forget c6))
                       (fun '(_, c) => Cdson.Returns c)
                else if Ascii.eqb (peek input c6) "-"
                then Cdson.bind (Cdson.p_char (forget c6))
                       (fun '(_, c) => Cdson.Returns c)
                else Cdson.Returns (forget c6))
               = Cdson.Returns (forget c8) /\ framed input c8).
  { subst c8. destruct (Ascii.eqb (peek input c6) "+") eqn:Ep.
    - destruct (agree_skip c6 "+"%char F6 ltac:(discriminate) Ep)
        as (P & Q & R).
      rewrite P, Q. split; [reflexivity|exact R].
    - destruct (Ascii.eqb (peek input c6) "-") eqn:Em; [|auto].
      destruct (agree_skip c6 "-"%char F6 ltac:(discriminate) Em)
        as (P & Q & R).
      rewrite P, Q. split; [reflexivity|exact R]. }
  destruct S8 as [S8 F8]. rewrite S8. cbn [Cdson.bind].
  assert (Pn : negb (Ascii.eqb (peek input c6) "+")
               && Ascii.eqb (peek input c6) "-"
               = Ascii.eqb (peek input c6) "-").
  { destruct (Ascii.eqb_spec (peek input c6) "+") as [->|]; reflexivity. }
  rewrite Pn. clearbody c8.
  pose proof (framed_maybe_p_whitespace c8 F8) as F9.
  rewrite (agree_maybe_p_whitespace c8 F8). cbn [Cdson.bind].
  set (c9 := maybe_p_whitespace input c8) in *. clearbody c9.
  change (Cdson.peek input (forget c9)) with (peek input c9).
  destruct (negb (is_octal (peek input c9))); [discriminate|].
  rewrite (agree_p_octal c9 0%float F9). cbn [Cdson.bind].
  destruct (p_octal input c9 0%float) as [power c10]. cbn [fst snd].
  injection Ex as <- <-. reflexivity.
Qed.

Lemma agree_p_bool c b c' :
  p_bool input c = (Ok b, c') ->
  Cdson.p_bool input (forget c) = Cdson.Returns (b, forget c').
Proof.
  intros H. unfold p_bool in H. unfold Cdson.p_bool.
  destruct (p_chars c 2) as [[sp|] c1] eqn:E1; [|discriminate].
  rewrite (agree_p_chars c 2 sp c1 E1). cbn [Cdson.bind].
  destruct (_ && _).
  - unfold p_char in H. unfold Cdson.p_char.
    destruct (p_chars c1 1) as [[sp1|] c2] eqn:E2; [|discriminate].
    rewrite (agree_p_chars c1 1 sp1 c2 E2). cbn [Cdson.bind].
    destruct (negb _); [discriminate|].
    injection H as <- <-. reflexivity.
  - destruct (_ && _); [|discriminate].
    injection H as <- <-. reflexivity.
Qed.

Lemma strcmp_memcmp : forall lit p,
  strcmp input lit p = false -> Cdson.memcmp input lit p = false.
Proof.
  induction lit as [|x lit IH]; intros p H; [reflexivity|].
  change ((if Ascii.eqb (char_at input p) x
           then strcmp input lit (S p) else true) = false) in H.
  cbn [Cdson.memcmp].
  destruct (Ascii.eqb (char_at input p) x); [apply IH; exact H|discriminate].
Qed.

Lemma agree_p_empty c c' :
  p_empty input c = (Ok tt, c') ->
  Cdson.p_empty input (forget c) = Cdson.Returns (tt, forget c').
Proof.
  intros H. unfold p_empty in H. unfold Cdson.p_empty. cbv zeta in *.
  destruct (p_chars c _) as [[sp|] c1] eqn:E1; [|discriminate].
  rewrite (agree_p_chars c _ sp c1 E1). cbn [Cdson.bind].
  destruct (strcmp input _ sp) eqn:Cmp; [discriminate|].
  rewrite (strcmp_memcmp _ _ Cmp). injection H as <-. reflexivity.
Qed.


(** A value starts with a byte that is no whitespace. *)
Lemma p_value_ok_not_space fuel c h v c' h' :
  p_value input fuel c h = (Ok v, c', h') ->
  is_space (peek input c) = false.
Proof.
  intros H. destruct fuel as [|fuel]; [discriminate|].
  destruct (is_space (peek input c)) eqn:Sp; [|reflexivity].
  pose proof (space_starts_no_value _ (char_at input (s c + 1)) Sp) as N.
  unfold starts_value in N.
  apply orb_false_iff in N. destruct N as [N Ks].
  apply orb_false_iff in N. destruct N as [N Ke].
  apply orb_false_iff in N. destruct N as [N Kn].
  apply orb_false_iff in N. destruct N as [N Ky].
  apply orb_false_iff in N. destruct N as [N Ko].
  apply orb_false_iff in N. destruct N as [Kq Km].
  cbn [p_value] in H. cbv zeta in H. destruct (CALLOC h) as [ret h0].
  rewrite Kq, Km, Ko, Ky, Kn, Ke in H. cbn [orb] in H.
  destruct (Ascii.eqb (peek input c) "s"); [|discriminate].
  cbn [andb] in Ks. apply orb_false_iff in Ks. destruct Ks as [K1 K2].
  rewrite K1, K2 in H. discriminate.
Qed.

Variable slot : Cdson.context -> Z.
Variable grants : Cdson.context -> Z -> bool.

Lemma structural_agreement : forall fuel,
  (forall c0 c h v c' h',
     framed input c0 -> maybe_p_whitespace input c0 = c ->
     p_value input fuel c h = (Ok v, c', h') ->
     stringless v = true ->
     Cdson.p_value input slot grants fuel (forget c0) h
       = Cdson.Returns (v, forget c', h')) /\
  (forall c h array elts c' h',
     framed input c ->
     p_array input fuel c h = (Ok (array, elts), c', h') ->
     forallb stringless elts = true ->
     Cdson.p_array input slot grants fuel (forget c) h
       = Cdson.Returns (array, elts, forget c', h')) /\
  (forall c0 c h array elts elts' c' h',
     framed input c0 -> maybe_p_whitespace input c0 = c ->
     p_array_loop input fuel c h array elts = (Ok elts', c', h') ->
     forallb stringless elts' = true ->
     Cdson.p_array_loop input slot grants fuel (forget c0) h elts
       = Cdson.Returns (elts', forget c', h')).
Proof.
  induction fuel as [|fuel (IHv & IHa & IHal)].
  { repeat split; intros; discriminate. }
  split; [|split].
  - (* p_value *)
    intros c0 c h v c' h' F0 W H Sl.
    assert (F : framed input c)
      by (subst c; apply framed_maybe_p_whitespace; exact F0).
    cbn [p_value] in H. cbn [Cdson.p_value]. cbv zeta in *.
    fold (Cdson.p_value input slot grants) (Cdson.p_array input slot grants)
      (Cdson.p_array_loop input slot grants)
      (Cdson.p_dict input slot grants).
    destruct (CALLOC h) as [ret h0].
    rewrite (agree_maybe_p_whitespace c0 F0), W. cbn [Cdson.bind].
    change (Cdson.peek input (forget c)) with (peek input c).
    change (Cdson.s (forget c)) with (s c).
    destruct (Ascii.eqb (peek input c) dquote).
    { apply p_value_return_ok in H. destruct H as ([sp bytes] & _ & ->).
      discriminate Sl. }
    destruct (_ || _).
    { destruct (p_double input c) as [r c1] eqn:Pd.
      apply p_value_return_ok in H. destruct H as (n & [= -> <- <-] & ->).
      rewrite (agree_p_double c n c1 F Pd). reflexivity. }
    destruct (_ || _).
    { destruct (p_bool input c) as [r c1] eqn:Pb.
      apply p_value_return_ok in H. destruct H as (n & [= -> <- <-] & ->).
      rewrite (agree_p_bool c n c1 Pb). reflexivity. }
    destruct (Ascii.eqb _ "e").
    { destruct (p_empty input c) as [r c1] eqn:Pe.
      apply p_value_return_ok in H. destruct H as ([] & [= -> <- <-] & ->).
      rewrite (agree_p_empty c c1 Pe). reflexivity. }
    destruct (Ascii.eqb _ "s"); [|discriminate].
    destruct (Ascii.eqb _ "o").
    { apply p_value_return_ok in H. destruct H as ([array elts] & H & ->).
      cbn [stringless fst snd] in *.
      rewrite (IHa c h0 array elts c' h' F H Sl). reflexivity. }
    destruct (Ascii.eqb _ "u"); [|discriminate].
    apply p_value_return_ok in H.
    destruct H as ([[[dict keys] values] entries] & _ & ->).
    discriminate Sl.
  - (* p_array *)
    intros c h array elts c' h' F H Sl.
    cbn [p_array] in H. cbn [Cdson.p_array]. cbv zeta in *.
    fold (Cdson.p_value input slot grants) (Cdson.p_array input slot grants)
      (Cdson.p_array_loop input slot grants)
      (Cdson.p_dict input slot grants).
    destruct (CALLOC h) as [array0 h0].
    destruct (p_chars c 2) as [[sp|] c1] eqn:E1; [|discriminate].
    rewrite (agree_p_chars c 2 sp c1 E1). cbn [Cdson.bind].
    pose proof (p_chars_steps c 2) as St1. rewrite E1 in St1.
    cbn [snd] in St1. pose proof (framed_steps _ _ _ F St1) as F1.
    destruct (strncmp input sp _ 2); [discriminate|].
    rewrite (agree_maybe_p_whitespace c1 F1). cbn [Cdson.bind].
    pose proof (framed_maybe_p_whitespace c1 F1) as F2.
    pose proof (maybe_p_whitespace_idem c1 F1) as Id.
    set (c2 := maybe_p_whitespace input c1) in *. clearbody c2.
    change (Cdson.peek input (forget c2)) with (peek input c2).
    destruct (negb (Ascii.eqb (peek input c2) "m")).
    + destruct (p_array_loop input fuel c2 h0 array0 [])
        as [[[elts0| | |] c3] h3] eqn:Lp; try discriminate.
      destruct (p_chars c3 4) as [[sp4|] c4] eqn:E4; [|discriminate].
      destruct (strncmp input sp4 _ 4) eqn:Many; [discriminate|].
      injection H as <- <- <- <-.
      rewrite (IHal c2 c2 h0 array0 [] elts0 c3 h3 F2 Id Lp Sl).
      cbn [Cdson.bind].
      rewrite (agree_p_chars c3 4 sp4 c4 E4). cbn [Cdson.bind].
      rewrite Many. reflexivity.
    + cbn [Cdson.bind].
      destruct (p_chars c2 4) as [[sp4|] c4] eqn:E4; [|discriminate].
      destruct (strncmp input sp4 _ 4) eqn:Many; [discriminate|].
      injection H as <- <- <- <-.
      rewrite (agree_p_chars c2 4 sp4 c4 E4). cbn [Cdson.bind].
      rewrite Many. reflexivity.
  - (* p_array_loop *)
    intros c0 c h array elts elts' c' h' F0 W H Sl.
    cbn [p_array_loop] in H. cbn [Cdson.p_array_loop]. cbv zeta in *.
    fold (Cdson.p_value input slot grants) (Cdson.p_array input slot grants)
      (Cdson.p_array_loop input slot grants)
      (Cdson.p_dict input slot grants).
    destruct (p_value input fuel c h) as [[[v| | |] c1] h1] eqn:Pv;
      try discriminate.
    assert (F : framed input c)
      by (subst c; apply framed_maybe_p_whitespace; exact F0).
    pose proof (proj1 (structural_post input fuel) c h) as [St1 _].
    rewrite Pv in St1. cbn [fst snd] in St1.
    pose proof (framed_steps _ _ _ F St1) as F1.
    pose proof (framed_maybe_p_whitespace c1 F1) as F2.
    assert (Sv : stringless v = true).
    { destruct (negb (Ascii.eqb
                        (peek input (maybe_p_whitespace input c1)) "a")).
      { injection H as <- _ _. rewrite forallb_snoc in Sl.
        apply andb_true_iff in Sl. apply Sl. }
      assert (Nx : forall c2,
                p_array_loop input fuel c2 h1 array (elts ++ [v])
                  = (Ok elts', c', h') -> stringless v = true).
      { intros c2 H2.
        apply (proj1 (proj2 (proj2 (structural_allocated input fuel))))
          in H2.
        destruct H2 as (new & -> & _).
        rewrite !forallb_app in Sl. cbn [forallb] in Sl.
        apply andb_true_iff in Sl. destruct Sl as [Sl _].
        apply andb_true_iff in Sl. destruct Sl as [_ Sl].
        apply andb_true_iff in Sl. apply Sl. }
      destruct (p_chars _ 3) as [[sp|] c3]; [|discriminate].
      destruct (negb (strncmp input sp _ 3)); [exact (Nx _ H)|].
      destruct (strncmp input sp _ 3); [discriminate|].
      destruct (p_char c3) as [[sp1|] c4]; [|discriminate].
      destruct (negb _); [discriminate|]. exact (Nx _ H). }
    rewrite (IHv c0 c h v c1 h1 F0 W Pv Sv). cbn [Cdson.bind].
    rewrite (agree_maybe_p_whitespace c1 F1). cbn [Cdson.bind].
    set (c2 := maybe_p_whitespace input c1) in *. clearbody c2.
    change (Cdson.peek input (forget c2)) with (peek input c2).
    destruct (negb (Ascii.eqb (peek input c2) "a")).
    { injection H as <- <- <-. reflexivity. }
    destruct (p_chars c2 3) as [[sp|] c3] eqn:E3; [|discriminate].
    rewrite (agree_p_chars c2 3 sp c3 E3). cbn [Cdson.bind].
    pose proof (p_chars_steps c2 3) as St3. rewrite E3 in St3.
    cbn [snd] in St3. pose proof (framed_steps _ _ _ F2 St3) as F3.
    destruct (negb (strncmp input sp _ 3)).
    { exact (IHal c3 _ h1 array _ elts' c' h' F3 eq_refl H Sl). }
    destruct (strncmp input sp _ 3); [discriminate|].
    unfold p_char in H. unfold Cdson.p_char.
    destruct (p_chars c3 1) as [[sp1|] c4] eqn:E4; [|discriminate].
    rewrite (agree_p_chars c3 1 sp1 c4 E4). cbn [Cdson.bind].
    pose proof (p_chars_steps c3 1) as St4. rewrite E4 in St4.
    cbn [snd] in St4. pose proof (framed_steps _ _ _ F3 St4) as F4.
    destruct (negb _); [discriminate|].
    rewrite (agree_maybe_p_whitespace c4 F4). cbn [Cdson.bind].
    exact (IHal _ _ h1 array _ elts' c' h'
             (framed_maybe_p_whitespace c4 F4)
             (maybe_p_whitespace_idem c4 F4) H Sl).
Qed.

End Agreement.

(** [cdson.c] takes more: whitespace in front of a value, and [empty]
    where something follows it. *)
Lemma cdson_takes_more :
  Cdson.dson_parse (str " so empty many") (fun _ => 1%Z) (fun _ _ => false)
    14 empty_heap
    = Cdson.Returns (Some (DSON_ARRAY 0 1 [DSON_NONE 2]),
                     mkHeap [2; 1; 0] 3 []) /\
  parse (str " so empty many") false
    = (Err (AtInputChar 0 UnknownValueType), None, mkHeap [] 1 []) /\
  parse (str "so empty many") false
    = (Err (AtInputChar 8 ExpectedEmpty), None, mkHeap [] 3 []).
Proof. split; [|split]; vm_compute; reflexivity. Qed.

(** X16: on a value without strings the two parsers agree. When the
    [dson_parse] of [sniff.c] returns a value that holds no string and no
    dictionary, under either setting of the unsafe flag, the [dson_parse]
    of [cdson.c] returns the same value on the same input, and leaves the
    same heap, whatever the slots of [num_escapes] hold and whatever
    [malloc] grants: no call of [p_string] is on the way to such a value.
    The converse fails: [cdson.c] skips whitespace in front of a value and
    compares five bytes for [empty], so it returns values for inputs that
    [sniff.c] refuses. *)
Theorem cdson_agrees_without_strings :
  forall (input : list ascii) (length : nat) (unsafe : bool) (h h' : heap)
         (v : dson_value) (slot : Cdson.context -> Z)
         (grants : Cdson.context -> Z -> bool),
    dson_parse input length unsafe h = (Ok tt, Some v, h') ->
    stringless v = true ->
    Cdson.dson_parse input slot grants length h
      = Cdson.Returns (Some v, h').
Proof.
  intros input length unsafe h h' v slot grants H Sl.
  unfold dson_parse in H. unfold Cdson.dson_parse.
  destruct (Ascii.eqb_spec (nth length input NUL) NUL) as [N|N];
    cbn [negb] in *; [|discriminate].
  destruct (p_value input _ _ h) as [[[r| | |] c'] h1] eqn:P;
    try discriminate.
  injection H as <- <-.
  assert (F : framed input (mkContext 0 length 0 unsafe)).
  { split; [cbn [s]; lia|exact N]. }
  pose proof (maybe_p_whitespace_here input _
                (p_value_ok_not_space input _ _ _ _ _ _ P)) as W.
  change (Cdson.mkContext 0 length 0)
    with (forget (mkContext 0 length 0 unsafe)).
  rewrite (proj1 (structural_agreement input slot grants (2 * length + 2))
             (mkContext 0 length 0 unsafe) _ h r c' h1 F W P Sl).
  reflexivity.
Qed.

(** An array of numbers, a boolean and an empty array, read by both. *)
Lemma cdson_agrees_without_strings_witness :
  Cdson.dson_parse (str "so 7 and -1.4very2 also yes and so many many")
    (fun _ => 1%Z) (fun _ _ => false) 44 empty_heap
  = Cdson.Returns
      (Some (DSON_ARRAY 0 1
               [DSON_DOUBLE 2 7%float; DSON_DOUBLE 3 (-96)%float;
                DSON_BOOL 4 true; DSON_ARRAY 5 6 []]),
       mkHeap [6; 5; 4; 3; 2; 1; 0] 7 []).
Proof.
  apply (cdson_agrees_without_strings
           (str "so 7 and -1.4very2 also yes and so many many") 44 false
           empty_heap _ _ (fun _ => 1%Z) (fun _ _ => false)).
  - vm_compute. reflexivity.
  - reflexivity.
Defined.

(** * Failures that keep nothing *)

(** A failure can leave the key of a dictionary entry behind (C4). Where
    no key can be read, in an input without a quote, every failure gives
    back all that the call had allocated. *)

Lemma restored_refl h : restored h h.
Proof. unfold restored. split; [lia|]. split; [reflexivity|tauto]. Qed.

Lemma restored_trans h h1 h2 :
  restored h h1 -> restored h1 h2 -> restored h h2.
Proof.
  intros (N1 & I1 & L1) (N2 & I2 & L2).
  split; [lia|]. split; [congruence|].
  intros p. rewrite L2. apply L1.
Qed.

(** Releasing all that was allocated since [hb] gives [hb] back, also
    after a call that failed and kept nothing. *)
Lemma restored_free_all hb h h1 bs bs' :
  well_formed hb -> allocated hb h bs -> restored h h1 ->
  Permutation bs' bs ->
  restored hb (free_all bs' h1).
Proof.
  intros W A (N1 & I1 & L1) P.
  pose proof (allocated_owned _ _ _ (allocated_perm _ _ _ _ P A))
    as (Nd & In' & Fr & Li).
  destruct A as (N & I & _ & _).
  assert (In1 : incl bs' (live h1)).
  { intros p Hp. apply L1, In'. exact Hp. }
  destruct (free_all_live bs' h1 Nd In1) as (F1 & F2 & F3).
  split; [lia|]. split; [congruence|].
  intros p. rewrite F3, L1, Li. split.
  - intros [[B|L] Nb]; [contradiction|exact L].
  - intros L. split; [right; exact L|].
    intros B. apply Fr in B. apply W in L. lia.
Qed.

Lemma strncmp_two input p x y :
  char_at input p = x -> char_at input (S p) = y ->
  strncmp input p [x; y] 2 = false.
Proof.
  intros Ex Ey.
  change ((if Ascii.eqb (char_at input p) x
           then if Ascii.eqb (char_at input (S p)) y then false else true
           else true) = false).
  rewrite Ex, Ey, !Ascii.eqb_refl. reflexivity.
Qed.

Section No_quote.

Variable input : list ascii.
Hypothesis no_quote : ~ In dquote input.

Lemma char_at_no_quote p : Ascii.eqb (char_at input p) dquote = false.
Proof.
  apply Ascii.eqb_neq. unfold char_at. intros E.
  destruct (nth_in_or_default p input NUL) as [I|D].
  - rewrite E in I. exact (no_quote I).
  - rewrite D in E. discriminate E.
Qed.

(** Without an opening quote [p_string] fails before it allocates. *)
Lemma p_string_no_quote c h :
  exists e c', p_string input c h = (Err e, c', h).
Proof.
  unfold p_string. destruct (p_char c) as [[start|] c0]; [|unfold ERROR; eauto].
  rewrite char_at_no_quote. cbn [negb]. unfold ERROR. eauto.
Qed.

Lemma failures_restore : forall fuel,
  (forall c h e c' h',
     well_formed h -> framed input c ->
     p_value input fuel c h = (Err e, c', h') -> restored h h') /\
  (forall c h e c' h',
     well_formed h -> framed input c ->
     peek input c = "s"%char -> char_at input (S (s c)) = "o"%char ->
     p_array input fuel c h = (Err e, c', h') -> restored h h') /\
  (forall c h hb array elts e c' h',
     well_formed hb -> framed input c ->
     allocated hb h (array :: flat_map blocks elts) ->
     p_array_loop input fuel c h array elts = (Err e, c', h') ->
     restored hb h') /\
  (forall c h e c' h',
     well_formed h ->
     p_dict input fuel c h = (Err e, c', h') -> restored h h').
Proof.
  induction fuel as [|fuel (IHv & IHa & IHal & IHd)].
  { repeat split; intros; discriminate. }
  split; [|split; [|split]].
  - (* p_value *)
    intros c h e c' h' W F H. cbn [p_value] in H. cbv zeta in H.
    pose proof (allocated_CALLOC h) as A.
    pose proof (frame_CALLOC h W) as (_ & _ & W0 & _).
    destruct (CALLOC h) as [ret h0]. cbn [fst snd] in A, W0.
    assert (Drop : forall h1,
              restored h0 h1 -> restored h (free ret h1)).
    { intros h1 R.
      exact (restored_free_all h h0 h1 [ret] [ret] W A R
               (Permutation_refl _)). }
    assert (Ret : forall (A0 : Type) (mk : A0 -> dson_value) r c1 h1,
              p_value_return ret mk (r, c1, h1) = (Err e, c', h') ->
              (forall e1, r = Err e1 -> restored h0 h1) ->
              restored h h').
    { intros A0 mk r c1 h1 E K. unfold p_value_return in E.
      destruct r as [a|e1|u|]; try discriminate.
      injection E as _ _ <-. apply Drop. apply (K e1). reflexivity. }
    unfold peek in H. rewrite char_at_no_quote in H. fold (peek input c) in H.
    destruct (_ || _).
    { destruct (p_double input c) as [r c1].
      apply (Ret _ _ _ _ _ H). intros. apply restored_refl. }
    destruct (_ || _).
    { destruct (p_bool input c) as [r c1].
      apply (Ret _ _ _ _ _ H). intros. apply restored_refl. }
    destruct (Ascii.eqb _ "e").
    { destruct (p_empty input c) as [r c1].
      apply (Ret _ _ _ _ _ H). intros. apply restored_refl. }
    destruct (Ascii.eqb_spec (peek input c) "s") as [Es|];
      [|injection H as _ _ <-; apply Drop, restored_refl].
    destruct (Ascii.eqb_spec (char_at input (s c + 1)) "o") as [Eo|].
    { destruct (p_array input fuel c h0) as [[r c1] h1] eqn:Pa.
      apply (Ret _ _ _ _ _ H). intros e1 ->.
      replace (s c + 1) with (S (s c)) in Eo by lia.
      exact (IHa c h0 e1 c1 h1 W0 F Es Eo Pa). }
    destruct (Ascii.eqb _ "u");
      [|injection H as _ _ <-; apply Drop, restored_refl].
    destruct (p_dict input fuel c h0) as [[r c1] h1] eqn:Pd.
    apply (Ret _ _ _ _ _ H). intros e1 ->.
    exact (IHd c h0 e1 c1 h1 W0 Pd).
  - (* p_array *)
    intros c h e c' h' W F Es Eo H. cbn [p_array] in H. cbv zeta in H.
    pose proof (allocated_CALLOC h) as A.
    destruct (CALLOC h) as [array h0]. cbn [fst snd] in A.
    assert (In2 : s c + 2 <= s_end c).
    { assert (N0 : peek input c <> NUL) by (rewrite Es; discriminate).
      pose proof (framed_not_at_end input c F N0) as In1.
      assert (N1 : peek input (advance c 1) <> NUL).
      { unfold peek. rewrite s_advance.
        replace (s c + 1) with (S (s c)) by lia. rewrite Eo. discriminate. }
      pose proof (framed_not_at_end input _
                    (framed_advance input c 1 F In1) N1) as In2.
      rewrite s_advance, s_end_advance in In2. lia. }
    rewrite (p_chars_ok c 2 In2) in H.
    change (list_ascii_of_string "so") with ["s"; "o"]%char in H.
    rewrite (strncmp_two input (s c) "s" "o" Es Eo) in H.
    pose proof (framed_maybe_p_whitespace input _
                  (framed_advance input c 2 F In2)) as F2.
    set (c2 := maybe_p_whitespace input (advance c 2)) in *. clearbody c2.
    assert (Close : forall c3 h3 elts,
              allocated h h3 (array :: flat_map blocks elts) ->
              match p_chars c3 4 with
              | (None, c) =>
                  (ERROR c EndOfInputInArray, c, array_free array elts h3)
              | (Some sp, c) =>
                  if strncmp input sp (list_ascii_of_string "many") 4
                  then (ERROR c ExpectedMany, c, array_free array elts h3)
                  else (Ok (array, elts), c, h3)
              end = (Err e, c', h') ->
              restored h h').
    { intros c3 h3 elts A3 E.
      assert (R : restored h (array_free array elts h3)).
      { rewrite array_free_blocks.
        apply (restored_free_all h h3 h3 _ _ W A3 (restored_refl h3)).
        apply Permutation_sym, Permutation_cons_append. }
      destruct (p_chars c3 4) as [[sp4|] c4];
        [|injection E as _ _ <-; exact R].
      destruct (strncmp _ _ _ 4); [|discriminate].
      injection E as _ _ <-. exact R. }
    destruct (negb _).
    + destruct (p_array_loop input fuel c2 h0 array [])
        as [[[elts| | |] c3] h3] eqn:Lp; try discriminate.
      * apply (proj1 (proj2 (proj2 (structural_allocated input fuel))))
          in Lp.
        destruct Lp as (new & -> & Al). cbn [app] in H.
        apply (Close c3 h3 new); [|exact H].
        exact (allocated_trans _ _ _ _ _ A Al).
      * injection H as _ _ <-.
        exact (IHal c2 h0 h array [] _ c3 h3 W F2 A Lp).
    + exact (Close c2 h0 [] A H).
  - (* p_array_loop *)
    intros c h hb array elts e c' h' W F A H.
    cbn [p_array_loop] in H.
    pose proof (frame_allocated _ _ _ W A) as (_ & _ & Wh & _).
    destruct (p_value input fuel c h) as [[[v| | |] c1] h1] eqn:Pv;
      try discriminate.
    2:{ injection H as _ _ <-. rewrite array_free_blocks.
        apply (restored_free_all hb h h1 _ _ W A
                 (IHv c h _ c1 h1 Wh F Pv)).
        apply Permutation_sym, Permutation_cons_append. }
    pose proof (proj1 (structural_post input fuel) c h) as [St1 _].
    rewrite Pv in St1. cbn [fst snd] in St1.
    pose proof (framed_steps _ _ _ F St1) as F1.
    apply (proj1 (structural_allocated input fuel)) in Pv. cbv zeta in H.
    assert (A1 : allocated hb h1 (array :: flat_map blocks (elts ++ [v]))).
    { eapply allocated_perm; [|exact (allocated_trans _ _ _ _ _ A Pv)].
      rewrite flat_map_app. cbn [flat_map app]. rewrite app_nil_r.
      reflexivity. }
    assert (R : restored hb (array_free array (elts ++ [v]) h1)).
    { rewrite array_free_blocks.
      apply (restored_free_all hb h1 h1 _ _ W A1 (restored_refl h1)).
      apply Permutation_sym, Permutation_cons_append. }
    pose proof (framed_maybe_p_whitespace input c1 F1) as F2.
    set (c2 := maybe_p_whitespace input c1) in *. clearbody c2.
    destruct (negb (Ascii.eqb _ "a")); [discriminate|].
    pose proof (p_chars_steps c2 3) as St3.
    destruct (p_chars c2 3) as [[sp|] c3];
      [|injection H as _ _ <-; exact R].
    cbn [snd] in St3. pose proof (framed_steps _ _ _ F2 St3) as F3.
    destruct (negb (strncmp _ _ _ 3)).
    { exact (IHal _ h1 hb array _ e c' h' W
               (framed_maybe_p_whitespace input c3 F3) A1 H). }
    destruct (strncmp _ _ _ 3); [injection H as _ _ <-; exact R|].
    pose proof (p_char_steps c3) as St4.
    destruct (p_char c3) as [[sp1|] c4];
      [|injection H as _ _ <-; exact R].
    cbn [snd] in St4. pose proof (framed_steps _ _ _ F3 St4) as F4.
    destruct (negb _); [injection H as _ _ <-; exact R|].
    exact (IHal _ h1 hb array _ e c' h' W
             (framed_maybe_p_whitespace input c4 F4) A1 H).
  - (* p_dict *)
    intros c h e c' h' W H. cbn [p_dict] in H. cbv zeta in H.
    pose proof (allocated_CALLOC h) as A1.
    destruct (CALLOC h) as [keys h1]. cbn [fst snd] in A1.
    pose proof (allocated_CALLOC h1) as A2.
    destruct (CALLOC h1) as [values h2]. cbn [fst snd] in A2.
    pose proof (allocated_CALLOC h2) as A3.
    destruct (CALLOC h2) as [dict h3]. cbn [fst snd] in A3.
    pose proof (allocated_trans _ _ _ _ _ A1
                  (allocated_trans _ _ _ _ _ A2 A3)) as A.
    cbn [app] in A.
    assert (R : restored h (dict_free dict keys values [] h3)).
    { rewrite dict_free_blocks. cbn [flat_map app].
      exact (restored_free_all h h3 h3 _ _ W A (restored_refl h3)
               (Permutation_refl _)). }
    destruct (p_chars c 4) as [[sp|] c0];
      [|injection H as _ _ <-; exact R].
    destruct (strncmp _ _ _ 4); [injection H as _ _ <-; exact R|].
    destruct fuel as [|fuel']; [discriminate|].
    cbn [p_dict_loop] in H. cbv zeta in H.
    destruct (p_string_no_quote (maybe_p_whitespace input c0) h3)
      as (e1 & c1 & Ps).
    rewrite Ps in H. injection H as _ _ <-. exact R.
Qed.

End No_quote.

(** X17: a failed parse of an input without a quote keeps nothing. When
    the input holds no quote, so that no string and no key of a dictionary
    can be read, a failed [dson_parse] gives back everything it had
    allocated: the live blocks after the call are the live blocks before
    it, and no release was invalid. *)
Theorem failure_without_quote_keeps_nothing :
  forall (input : list ascii) (length : nat) (unsafe : bool) (h : heap)
         (e : error),
    well_formed h ->
    ~ In dquote input ->
    fst (fst (dson_parse input length unsafe h)) = Err e ->
    let h' := snd (dson_parse input length unsafe h) in
    invalid_frees h' = invalid_frees h /\
    forall p, In p (live h') <-> In p (live h).
Proof.
  intros input length unsafe h e W Q H h'. subst h'.
  unfold dson_parse in *.
  destruct (Ascii.eqb_spec (nth length input NUL) NUL) as [N|N];
    cbn [negb] in *; [|cbn [snd]; split; [reflexivity|tauto]].
  assert (F : framed input (mkContext 0 length 0 unsafe)).
  { split; [cbn [s]; lia|exact N]. }
  destruct (p_value input _ _ h) as [[[r|e1|u|] c'] h1] eqn:P;
    try discriminate H.
  cbn [snd].
  destruct (proj1 (failures_restore input Q _) _ _ _ _ _ W F P)
    as (_ & I & L).
  split; [exact I|exact L].
Qed.

(** An array in an array that ends too soon: eight blocks are allocated
    and released, and the two blocks of the caller stay. *)
Lemma failure_without_quote_keeps_nothing_witness :
  let input := str "so 7 and so yes also 1 many and no" in
  let h := mkHeap [3; 1] 5 [] in
  let h' := snd (dson_parse input 34 false h) in
  (well_formed h /\ ~ In dquote input /\
   fst (fst (dson_parse input 34 false h))
     = Err (AtInputChar 34 EndOfInputInArray)) /\
  next h' = 13 /\
  invalid_frees h' = invalid_frees h /\
  forall p, In p (live h') <-> In p (live h).
Proof.
  intros input h h'.
  assert (W : well_formed h).
  { intros p [<-|[<-|[]]]; cbn [next h]; lia. }
  assert (Q : ~ In dquote input).
  { intros I. vm_compute in I.
    repeat (destruct I as [I|I]; [discriminate I|]). exact I. }
  assert (E : fst (fst (dson_parse input 34 false h))
              = Err (AtInputChar 34 EndOfInputInArray))
    by (vm_compute; reflexivity).
  split; [split; [exact W|split; [exact Q|exact E]]|].
  split; [vm_compute; reflexivity|].
  exact (failure_without_quote_keeps_nothing input 34 false h _ W Q E).
Defined.
